(** * Numerical kernels of the Eigen snapshot: a shallow embedding

    Three kernels are embedded from their C++ sources:
    - [ei_dogleg]                       (dogleg trust-region step),
    - [SelfAdjointEigenSolver::compute] with [ei_tridiagonal_qr_step],
    - [SkylineInplaceLU]                (in-place skyline LU and its solve).

    The sources are templates over a [Scalar] type; the embedding is
    generic over a class of scalar operations, instantiated at the real
    numbers (exact arithmetic) and at binary64 floats (IEEE arithmetic).
    Indices are C [int]s, modelled as [Z]; an access outside an array is a
    fault ([None]). *)

From Stdlib Require Import Floats.
From Stdlib Require Import ZArith List Lia Bool Permutation.
From Stdlib Require Import Reals Lra Psatz.
Import ListNotations.

Local Open Scope Z_scope.

(* ================================================================= *)
(** ** Scalars *)

(** The operations the kernels consume from [NumTraits<Scalar>] and the
    math functions ([ei_abs], [ei_sqrt], [epsilon<Scalar>()], comparisons). *)
Class Scalar (S : Type) : Type := {
  zero : S;
  one : S;
  half : S;                       (* the literal RealScalar(0.5) *)
  tenth : S;                      (* the literal RealScalar(0.1) *)
  sadd : S -> S -> S;
  ssub : S -> S -> S;
  smul : S -> S -> S;
  sdiv : S -> S -> S;
  sopp : S -> S;
  ei_abs : S -> S;
  ei_sqrt : S -> S;
  seqb : S -> S -> bool;          (* a == b *)
  sltb : S -> S -> bool;          (* a <  b *)
  sleb : S -> S -> bool;          (* a <= b *)
  epsilon : S;                    (* epsilon<Scalar>() *)
  dummy_precision : S             (* precision used by ei_isMuchSmallerThan *)
}.

Declare Scope scalar_scope.
Delimit Scope scalar_scope with S.
Notation "x + y" := (sadd x y) : scalar_scope.
Notation "x - y" := (ssub x y) : scalar_scope.
Notation "x * y" := (smul x y) : scalar_scope.
Notation "x / y" := (sdiv x y) : scalar_scope.
Notation "- x" := (sopp x) : scalar_scope.

Section ScalarOps.
Context {S : Type} `{Scalar S}.

(** [ei_abs2(x)] is [x*x] on a real scalar. *)
Definition ei_abs2 (x : S) : S := (x * x)%S.

(** [ei_real] is the identity on a real scalar. *)
Definition ei_real (x : S) : S := x.

(** [std::max(a,b)] is [(a < b) ? b : a]. *)
Definition smax (a b : S) : S := if sltb a b then b else a.

(** [std::min(a,b)] is [(b < a) ? b : a]. *)
Definition smin (a b : S) : S := if sltb b a then b else a.

(** Modelled from the spec: [ei_isMuchSmallerThan] is not in the sources at
    hand; the spec describes it as "a value e is treated as zero when |e| is
    much smaller than |d_i|+|d_{i+1}|, using a relative threshold".  The
    relative test is [|a| <= |b| * precision]. *)
Definition ei_isMuchSmallerThan (a b : S) : bool :=
  sleb (ei_abs a) (ei_abs b * dummy_precision)%S.
End ScalarOps.

(** The laws of a scalar type whose comparison is a total order: they hold in
    exact arithmetic (an IEEE NaN breaks the third). *)
Class ScalarOrder (S : Type) `{Scalar S} : Prop := {
  sltb_irrefl : forall a, sltb a a = false;
  sltb_trans : forall a b c,
    sltb a b = true -> sltb b c = true -> sltb a c = true;
  sleb_of_not_sltb : forall a b, sltb b a = false -> sleb a b = true
}.

(** The same laws on the values a predicate selects: the comparisons of
    binary64 satisfy them on the values that are not NaN. *)
Record OrderedOn {S : Type} `{Scalar S} (good : S -> Prop) : Prop := {
  on_irrefl : forall a, good a -> sltb a a = false;
  on_trans : forall a b c, good a -> good b -> good c ->
    sltb a b = true -> sltb b c = true -> sltb a c = true;
  on_total : forall a b, good a -> good b ->
    sltb b a = false -> sleb a b = true
}.

Lemma ScalarOrder_on {S : Type} `{ScalarOrder S} :
  OrderedOn (fun _ : S => True).
Proof.
  split.
  - intros a _. apply sltb_irrefl.
  - intros a b c _ _ _. apply sltb_trans.
  - intros a b _ _. apply sleb_of_not_sltb.
Qed.

(** Exact arithmetic: the real numbers.  Machine epsilon and the dummy
    precision have no canonical value there and are parameters. *)
Definition Rltb (a b : R) : bool := if Rlt_dec a b then true else false.
Definition Rleb (a b : R) : bool := if Rle_dec a b then true else false.
Definition Reqb (a b : R) : bool := if Req_dec_T a b then true else false.

Definition RScalar (eps prec : R) : Scalar R := {|
  zero := 0%R; one := 1%R; half := (/ 2)%R; tenth := (/ 10)%R;
  sadd := Rplus; ssub := Rminus; smul := Rmult; sdiv := Rdiv; sopp := Ropp;
  ei_abs := Rabs; ei_sqrt := sqrt;
  seqb := Reqb; sltb := Rltb; sleb := Rleb;
  epsilon := eps; dummy_precision := prec
|}.

(** The values [epsilon<double>()] = 2^-52 and [precision<double>()] = 1e-12
    as real numbers. *)
Definition eps_double : R := (/ 2 ^ 52)%R.
Definition prec_double : R := (/ 10 ^ 12)%R.

(** IEEE binary64: the kernel's primitive floats. *)
Definition FScalar : Scalar float := {|
  zero := 0%float; one := 1%float; half := 0.5%float;
  tenth := 0x1.999999999999ap-4%float;
  sadd := PrimFloat.add; ssub := PrimFloat.sub; smul := PrimFloat.mul;
  sdiv := PrimFloat.div; sopp := PrimFloat.opp;
  ei_abs := PrimFloat.abs; ei_sqrt := PrimFloat.sqrt;
  seqb := PrimFloat.eqb; sltb := PrimFloat.ltb; sleb := PrimFloat.leb;
  epsilon := 0x1p-52%float; dummy_precision := 0x1.19799812dea11p-40%float
|}.

(* ================================================================= *)
(** ** Faults, arrays and loops *)

Definition bind {A B : Type} (m : option A) (f : A -> option B) : option B :=
  match m with Some a => f a | None => None end.

Notation "x <- m ;; k" := (bind m (fun x => k))
  (at level 61, m at next level, right associativity).
Notation "' p <- m ;; k" := (bind m (fun p => k))
  (at level 61, p pattern, m at next level, right associativity).

(** [v[i]]: a read outside the array is a fault. *)
Definition get {A : Type} (v : list A) (i : Z) : option A :=
  if i <? 0 then None else nth_error v (Z.to_nat i).

(** [v[i] = a]: a write outside the array is a fault. *)
Fixpoint update {A : Type} (v : list A) (k : nat) (a : A) : list A :=
  match v, k with
  | [], _ => []
  | _ :: t, O => a :: t
  | h :: t, Datatypes.S k' => h :: update t k' a
  end.

Definition set {A : Type} (v : list A) (i : Z) (a : A) : option (list A) :=
  if (0 <=? i) && (i <? Z.of_nat (length v))
  then Some (update v (Z.to_nat i) a)
  else None.

(** [for (i = lo; i < hi; ++i) body], where the body changes neither [i]
    nor [hi]. *)
Fixpoint for_iter {St : Type} (cnt : nat) (i : Z)
    (body : Z -> St -> option St) (s : St) : option St :=
  match cnt with
  | O => Some s
  | Datatypes.S c =>
      match body i s with
      | None => None
      | Some s' => for_iter c (i + 1) body s'
      end
  end.

Definition for_loop {St : Type} (lo hi : Z)
    (body : Z -> St -> option St) (s : St) : option St :=
  for_iter (Z.to_nat (hi - lo)) lo body s.

(** [for (i = hi; i > lo; i--) body]. *)
Fixpoint for_down_iter {St : Type} (cnt : nat) (i : Z)
    (body : Z -> St -> option St) (s : St) : option St :=
  match cnt with
  | O => Some s
  | Datatypes.S c =>
      match body i s with
      | None => None
      | Some s' => for_down_iter c (i - 1) body s'
      end
  end.

Definition for_down {St : Type} (hi lo : Z)
    (body : Z -> St -> option St) (s : St) : option St :=
  for_down_iter (Z.to_nat (hi - lo)) hi body s.

(* ================================================================= *)
(** ** The dogleg step: [ei_dogleg] *)

Module Dogleg.
Section Defs.
Context {S : Type} `{Scalar S}.
Local Open Scope scalar_scope.

(** Modelled from the spec: [stableNorm] is not in the sources at hand; the
    spec says "all norms are computed via a scale-avoiding (stable) norm
    algorithm", that is the Euclidean norm, computed so as not to
    overflow.  The definition is the norm itself, the square root of the
    sum of the squares: it is what the algorithm computes in exact
    arithmetic, and on binary64 it overflows and underflows where a scaled
    algorithm does not. *)
Definition stableNorm (v : list S) : S :=
  ei_sqrt (fold_left (fun acc a => acc + ei_abs2 a) v zero).

(** Loop L10: [sum = 0; if (n < jp1) goto L20;
    for (i = jp1; i < n; ++i) { sum += r[l]*x[i]; ++l; }]. *)
Definition gn_row_sum (r x : list S) (n jp1 l : Z) : option S :=
  if (n <? jp1)%Z then Some zero
  else
    option_map fst
      (for_loop jp1 n
         (fun i '(sum, l) =>
            rl <- get r l ;;
            xi <- get x i ;;
            Some (sum + rl * xi, (l + 1)%Z))
         (zero, l)).

(** Loop L30: [l = j; for (i = 0; i <= j; ++i)
    { temp = max(temp, |r[l]|); l = l + n - i; }]. *)
Definition column_scan (r : list S) (n j : Z) (temp : S) : option S :=
  option_map fst
    (for_loop 0 (j + 1)
       (fun i '(temp, l) =>
          rl <- get r l ;;
          Some (smax temp (ei_abs rl), (l + n - i)%Z))
       (temp, j)).

(** L20 to L40: the divisor of row [j], whose diagonal entry is [r[jj]]. *)
Definition gn_divisor (r : list S) (n j jj : Z) : option S :=
  temp <- get r jj ;;
  if negb (seqb temp zero) then Some temp
  else
    temp <- column_scan r n j temp ;;
    let temp := epsilon * temp in
    if seqb temp zero then Some epsilon else Some temp.

(** One turn of the loop over [k], on the state [(jj, x)]. *)
Definition gn_step (r qtb : list S) (n : Z) (k : Z) (st : Z * list S)
  : option (Z * list S) :=
  let '(jj, x) := st in
  let j := (n - k - 1)%Z in
  let jp1 := (j + 1)%Z in
  let jj := (jj - (k + 1))%Z in
  let l := (jj + 1)%Z in
  sum <- gn_row_sum r x n jp1 l ;;
  temp <- gn_divisor r n j jj ;;
  qj <- get qtb j ;;
  x <- set x j ((qj - sum) / temp) ;;
  Some (jj, x).

(** "first, calculate the gauss-newton direction". *)
Definition gauss_newton (r qtb x : list S) (n : Z) : option (list S) :=
  option_map snd (for_loop 0 n (gn_step r qtb n) ((n * (n + 1) / 2)%Z, x)).

(** Loop L60: [wa1[j] = 0; wa2[j] = diag[j] * x[j]]. *)
Definition scale_step (diag x : list S) (j : Z) (st : list S * list S)
  : option (list S * list S) :=
  let '(wa1, wa2) := st in
  wa1 <- set wa1 j zero ;;
  dj <- get diag j ;;
  xj <- get x j ;;
  wa2 <- set wa2 j (dj * xj) ;;
  Some (wa1, wa2).

(** Loops L70/L80: the scaled gradient, [wa1 = D^-1 R^T qtb]. *)
Definition gradient_step (r diag qtb : list S) (n : Z) (j : Z)
    (st : Z * list S) : option (Z * list S) :=
  let '(l, wa1) := st in
  temp <- get qtb j ;;
  '(l, wa1) <- for_loop j n
      (fun i '(l, wa1) =>
         w <- get wa1 i ;;
         rl <- get r l ;;
         wa1 <- set wa1 i (w + rl * temp) ;;
         Some ((l + 1)%Z, wa1))
      (l, wa1) ;;
  w <- get wa1 j ;;
  dj <- get diag j ;;
  wa1 <- set wa1 j (w / dj) ;;
  Some (l, wa1).

(** Loop L90: [wa1[j] = wa1[j] / gnorm / diag[j]]. *)
Definition normalize_step (diag : list S) (gnorm : S) (j : Z)
    (wa1 : list S) : option (list S) :=
  w <- get wa1 j ;;
  dj <- get diag j ;;
  set wa1 j (w / gnorm / dj).

(** Loops L100/L110: [wa2 = R wa1]. *)
Definition rmul_step (r wa1 : list S) (n : Z) (j : Z) (st : Z * list S)
  : option (Z * list S) :=
  let '(l, wa2) := st in
  '(sum, l) <- for_loop j n
      (fun i '(sum, l) =>
         rl <- get r l ;;
         w <- get wa1 i ;;
         Some (sum + rl * w, (l + 1)%Z))
      (zero, l) ;;
  wa2 <- set wa2 j sum ;;
  Some (l, wa2).

(** The last loop: [x[j] = temp * wa1[j] + alpha * x[j]]. *)
Definition combine_step (wa1 : list S) (temp alpha : S) (j : Z)
    (x : list S) : option (list S) :=
  w <- get wa1 j ;;
  xj <- get x j ;;
  set x j (temp * w + alpha * xj).

(** The interpolation parameter of the dogleg between the scaled gradient
    and the Gauss-Newton directions. *)
Definition dogleg_alpha (bnorm gnorm qnorm sgnorm delta : S) : S :=
  let temp := bnorm / gnorm * (bnorm / qnorm) * (sgnorm / delta) in
  let temp :=
    temp - delta / qnorm * ei_abs2 (sgnorm / delta)
    + ei_sqrt (ei_abs2 (temp - delta / qnorm)
               + (one - ei_abs2 (delta / qnorm))
                 * (one - ei_abs2 (sgnorm / delta))) in
  delta / qnorm * (one - ei_abs2 (sgnorm / delta)) / temp.

(** [ei_dogleg(r, diag, qtb, delta, x)]: the step left in [x]. *)
Definition ei_dogleg (r diag qtb : list S) (delta : S) (x : list S)
  : option (list S) :=
  let n := Z.of_nat (length diag) in
  (* the two scratch vectors; every entry is written by L60 before it is read *)
  let wa1 := repeat zero (length diag) in
  let wa2 := repeat zero (length diag) in
  if negb (n =? Z.of_nat (length qtb))%Z then None else
  if negb (n =? Z.of_nat (length x))%Z then None else
  x <- gauss_newton r qtb x n ;;
  '(wa1, wa2) <- for_loop 0 n (scale_step diag x) (wa1, wa2) ;;
  let qnorm := stableNorm wa2 in
  if sleb qnorm delta then Some x
  else
    '(_, wa1) <- for_loop 0 n (gradient_step r diag qtb n) (0%Z, wa1) ;;
    let gnorm := stableNorm wa1 in
    let sgnorm := zero in
    let alpha := delta / qnorm in
    '(wa1, sgnorm, alpha) <-
      (if seqb gnorm zero then Some (wa1, sgnorm, alpha)
       else
         wa1 <- for_loop 0 n (normalize_step diag gnorm) wa1 ;;
         '(_, wa2) <- for_loop 0 n (rmul_step r wa1 n) (0%Z, wa2) ;;
         let temp := stableNorm wa2 in
         let sgnorm := gnorm / temp / temp in
         let alpha := zero in
         if sleb delta sgnorm then Some (wa1, sgnorm, alpha)
         else
           let bnorm := stableNorm qtb in
           Some (wa1, sgnorm, dogleg_alpha bnorm gnorm qnorm sgnorm delta)) ;;
    (* L120 *)
    let temp := (one - alpha) * smin sgnorm delta in
    for_loop 0 n (combine_step wa1 temp alpha) x.
End Defs.
End Dogleg.

(** A run on binary64: R the 3x3 identity, diag = [1,1,1], qtb = [3,4,0],
    delta = 10. *)
Example dogleg_identity_float :
  Dogleg.ei_dogleg (H := FScalar)
    [1; 0; 0; 1; 0; 1]%float [1; 1; 1]%float [3; 4; 0]%float 10%float
    [0; 0; 0]%float
  = Some [3; 4; 0]%float.
Proof. vm_compute. reflexivity. Qed.

(* ================================================================= *)
(** ** The self-adjoint eigen solver *)

(** How a call that may loop ends: with a result, with a fault (an access
    outside an array, a failed assertion), or with the fuel of the model
    used up before the loop left. *)
Inductive outcome (A : Type) : Type :=
| Done (a : A)
| Fault
| OutOfFuel.
Arguments Done {A} a.
Arguments Fault {A}.
Arguments OutOfFuel {A}.

Definition outcome_map {A B : Type} (f : A -> B) (o : outcome A) : outcome B :=
  match o with
  | Done a => Done (f a)
  | Fault => Fault
  | OutOfFuel => OutOfFuel
  end.

(** [std::swap(v[i], v[j])]. *)
Definition swap {A : Type} (v : list A) (i j : Z) : option (list A) :=
  a <- get v i ;;
  b <- get v j ;;
  v <- set v i b ;;
  set v j a.

Module EigenSolver.
Section Defs.
Context {S : Type} `{Scalar S}.
Local Open Scope scalar_scope.

(** A dense matrix, stored by columns. *)
Definition Matrix : Type := list (list S).

Definition cols (m : Matrix) : Z := Z.of_nat (length m).
Definition rows (m : Matrix) : Z :=
  match m with
  | [] => 0%Z
  | c :: _ => Z.of_nat (length c)
  end.

(** [m.coeff(i, j)]. *)
Definition coeff (m : Matrix) (i j : Z) : option S :=
  c <- get m j ;; get c i.

(** [m.setOnes()] on an [n] by [n] matrix. *)
Definition setOnes (n : Z) : Matrix :=
  repeat (repeat one (Z.to_nat n)) (Z.to_nat n).

(** The members of [SelfAdjointEigenSolver]. *)
Record Solver : Type := {
  m_eivec : Matrix;
  m_eivalues : list S;
  m_subdiag : list S;
  m_eigenvectorsOk : bool
}.

(** The collaborators, whose sources are not at hand:
    - [PlanarRotation::makeGivens(x, z)], which yields the pair [(c, s)];
    - [q.applyOnTheRight(k, k+1, rot)] on the matrix of eigenvectors;
    - [Tridiagonalization::decomposeInPlace(m_eivec, diag, subdiag, flag)],
      which yields the new [m_eivec], [diag] and [subdiag]. *)
Variable makeGivens : S -> S -> S * S.
Variable applyOnTheRight : Matrix -> Z -> Z -> S * S -> Matrix.
Variable decomposeInPlace : Matrix -> bool -> Matrix * list S * list S.

(** One turn of the loop of [ei_tridiagonal_qr_step], on
    [(diag, subdiag, x, z, matrixQ)].  The reads and writes of [diag] and
    [subdiag] fault out of range.  The rotation of [matrixQ] is the
    collaborator's and is total here: the source maps [matrixQ] as an
    [n] by [n] matrix and does not check [k + 1 < n], and a rotation of
    columns outside that map is not a fault of this model. *)
Definition qr_rotation (start end_ : Z) (k : Z)
    (st : list S * list S * S * S * option Matrix)
  : option (list S * list S * S * S * option Matrix) :=
  let '(diag, subdiag, x, z, matrixQ) := st in
  let '(c, s) := makeGivens x z in
  dk <- get diag k ;;
  sk <- get subdiag k ;;
  dk1 <- get diag (k + 1) ;;
  let sdk := s * dk + c * sk in
  let dkp1 := s * sk + c * dk1 in
  diag <- set diag k (c * (c * dk - s * sk) - s * (c * sk - s * dk1)) ;;
  diag <- set diag (k + 1) (s * sdk + c * dkp1) ;;
  subdiag <- set subdiag k (c * sdk - s * dkp1) ;;
  subdiag <-
    (if (k >? start)%Z
     then skm1 <- get subdiag (k - 1) ;;
          set subdiag (k - 1) (c * skm1 - s * z)
     else Some subdiag) ;;
  x <- get subdiag k ;;
  '(z, subdiag) <-
    (if (k <? end_ - 1)%Z
     then sk1 <- get subdiag (k + 1) ;;
          subdiag <- set subdiag (k + 1) (c * sk1) ;;
          Some ((- s) * sk1, subdiag)
     else Some (z, subdiag)) ;;
  let matrixQ :=
    match matrixQ with
    | Some q => Some (applyOnTheRight q k (k + 1) (c, s))
    | None => None
    end in
  Some (diag, subdiag, x, z, matrixQ).

(** [ei_tridiagonal_qr_step(diag, subdiag, start, end, matrixQ, n)];
    [matrixQ = None] is the null pointer. *)
Definition ei_tridiagonal_qr_step (diag subdiag : list S) (start end_ : Z)
    (matrixQ : option Matrix) (n : Z)
  : option (list S * list S * option Matrix) :=
  dem1 <- get diag (end_ - 1) ;;
  de <- get diag end_ ;;
  sem1 <- get subdiag (end_ - 1) ;;
  let td := (dem1 - de) * half in
  let e2 := ei_abs2 sem1 in
  let mu :=
    de - e2 / (td + (if sltb zero td then one else - one)
                     * ei_sqrt (td * td + e2)) in
  ds <- get diag start ;;
  let x := ds - mu in
  z <- get subdiag start ;;
  '(diag, subdiag, _, _, matrixQ) <-
    for_loop start end_ (qr_rotation start end_)
      (diag, subdiag, x, z, matrixQ) ;;
  Some (diag, subdiag, matrixQ).

(** [for (i = start; i < end; ++i) if (ei_isMuchSmallerThan(...))
    m_subdiag[i] = 0;] *)
Definition deflate (diag subdiag : list S) (start end_ : Z)
  : option (list S) :=
  for_loop start end_
    (fun i subdiag =>
       si <- get subdiag i ;;
       di <- get diag i ;;
       di1 <- get diag (i + 1) ;;
       if ei_isMuchSmallerThan (ei_abs si) (ei_abs di + ei_abs di1)
       then set subdiag i zero
       else Some subdiag)
    subdiag.

(** [while (end > 0 && m_subdiag[end-1] == 0) end--;]  The loop lowers
    [end] at each turn, so [Z.to_nat end] turns are enough. *)
Fixpoint find_end (cnt : nat) (subdiag : list S) (end_ : Z) : option Z :=
  match cnt with
  | O => Some end_
  | Datatypes.S c =>
      if (end_ >? 0)%Z
      then e <- get subdiag (end_ - 1) ;;
           if seqb e zero then find_end c subdiag (end_ - 1) else Some end_
      else Some end_
  end.

(** [while (start > 0 && m_subdiag[start-1] != 0) start--;] *)
Fixpoint find_start (cnt : nat) (subdiag : list S) (start : Z) : option Z :=
  match cnt with
  | O => Some start
  | Datatypes.S c =>
      if (start >? 0)%Z
      then e <- get subdiag (start - 1) ;;
           if negb (seqb e zero) then find_start c subdiag (start - 1)
           else Some start
      else Some start
  end.

(** The state of the deflation loop of [compute]. *)
Record LoopState : Type := {
  ls_diag : list S;
  ls_subdiag : list S;
  ls_eivec : Matrix;
  ls_start : Z;
  ls_end : Z
}.

(** The body of [while (end > 0)]: [inl] is the [break], [inr] the state
    for the next turn. *)
Definition loop_body (computeEigenvectors : bool) (n : Z) (st : LoopState)
  : option (LoopState + LoopState) :=
  subdiag <- deflate (ls_diag st) (ls_subdiag st) (ls_start st) (ls_end st) ;;
  end_ <- find_end (Z.to_nat (ls_end st)) subdiag (ls_end st) ;;
  if (end_ <=? 0)%Z
  then Some (inl {| ls_diag := ls_diag st; ls_subdiag := subdiag;
                    ls_eivec := ls_eivec st;
                    ls_start := ls_start st; ls_end := end_ |})
  else
    let start := (end_ - 1)%Z in
    start <- find_start (Z.to_nat start) subdiag start ;;
    '(diag, subdiag, q) <-
      ei_tridiagonal_qr_step (ls_diag st) subdiag start end_
        (if computeEigenvectors then Some (ls_eivec st) else None) n ;;
    Some (inr {| ls_diag := diag; ls_subdiag := subdiag;
                 ls_eivec := match q with
                             | Some q => q
                             | None => ls_eivec st
                             end;
                 ls_start := start; ls_end := end_ |}).

(** [while (end > 0) { ... }]: the source has no iteration budget; [fuel]
    bounds the turns the model takes. *)
Fixpoint qr_loop (fuel : nat) (computeEigenvectors : bool) (n : Z)
    (st : LoopState) : outcome LoopState :=
  if (ls_end st >? 0)%Z
  then
    match fuel with
    | O => OutOfFuel
    | Datatypes.S f =>
        match loop_body computeEigenvectors n st with
        | None => Fault
        | Some (inl st') => Done st'
        | Some (inr st') => qr_loop f computeEigenvectors n st'
        end
    end
  else Done st.

(** [v.segment(i, len)]. *)
Definition segment (v : list S) (i len : Z) : option (list S) :=
  if (0 <=? i)%Z && (0 <=? len)%Z && (i + len <=? Z.of_nat (length v))%Z
  then Some (firstn (Z.to_nat len) (skipn (Z.to_nat i) v))
  else None.

(** Modelled from the spec: [minCoeff(&k)] is not in the sources at hand;
    the spec says "find index of minimum of the remaining suffix".  The
    scan keeps the first entry and replaces it by each later entry that is
    strictly smaller. *)
Fixpoint minCoeff_from (v : list S) (i : Z) (best : S) (k : Z) : Z :=
  match v with
  | [] => k
  | a :: t =>
      if sltb a best then minCoeff_from t (i + 1) a i
      else minCoeff_from t (i + 1) best k
  end.

Definition minCoeff (v : list S) : option Z :=
  match v with
  | [] => None
  | a :: t => Some (minCoeff_from t 1 a 0)
  end.

(** One turn of the sorting loop, on [(m_eivalues, m_eivec)]. *)
Definition sort_step (n : Z) (i : Z) (st : list S * Matrix)
  : option (list S * Matrix) :=
  let '(eivalues, eivec) := st in
  seg <- segment eivalues i (n - i) ;;
  k <- minCoeff seg ;;
  if (k >? 0)%Z
  then eivalues <- swap eivalues i (k + i) ;;
       eivec <- swap eivec i (k + i) ;;
       Some (eivalues, eivec)
  else Some (eivalues, eivec).

(** "Sort eigenvalues and corresponding vectors." *)
Definition sort_pass (n : Z) (st : list S * Matrix)
  : option (list S * Matrix) :=
  for_loop 0 (n - 1) (sort_step n) st.

(** [SelfAdjointEigenSolver::compute(matrix, computeEigenvectors)]. *)
Definition compute (fuel : nat) (self : Solver) (matrix : Matrix)
    (computeEigenvectors : bool) : outcome Solver :=
  if negb (cols matrix =? rows matrix)%Z then Fault
  else
    let n := cols matrix in
    if (n =? 1)%Z
    then
      match coeff matrix 0 0 with
      | None => Fault
      | Some a =>
          Done {| m_eivec := setOnes n;
                  m_eivalues := [ei_real a];
                  m_subdiag := m_subdiag self;
                  m_eigenvectorsOk := computeEigenvectors |}
      end
    else
      let '(eivec, diag, subdiag) :=
        decomposeInPlace matrix computeEigenvectors in
      match qr_loop fuel computeEigenvectors n
              {| ls_diag := diag; ls_subdiag := subdiag; ls_eivec := eivec;
                 ls_start := 0; ls_end := n - 1 |} with
      | Done st =>
          match sort_pass n (ls_diag st, ls_eivec st) with
          | None => Fault
          | Some (eivalues, eivec) =>
              Done {| m_eivec := eivec;
                      m_eivalues := eivalues;
                      m_subdiag := ls_subdiag st;
                      m_eigenvectorsOk := computeEigenvectors |}
          end
      | Fault => Fault
      | OutOfFuel => OutOfFuel
      end.
End Defs.
Arguments Matrix : clear implicits.
Arguments Solver S : clear implicits.
Arguments LoopState S : clear implicits.

Section Collaborators.
Context {S : Type} `{Scalar S}.
Local Open Scope scalar_scope.
Local Abbreviation Matrix := (Matrix S).

(** Modelled from the spec: [PlanarRotation::makeGivens] is not in the
    sources at hand; the spec says it "computes and applies a 2x2 rotation
    to zero an entry".  The rotation [(c, s)] with [c = x/r], [s = -z/r],
    [r = sqrt(x^2 + z^2)] sends [(x, z)] to [(r, 0)]. *)
Definition givens (x z : S) : S * S :=
  let r := ei_sqrt (x * x + z * z) in (x / r, (- z) / r).

Fixpoint map2 (f : S -> S -> S) (a b : list S) : list S :=
  match a, b with
  | x :: a', y :: b' => f x y :: map2 f a' b'
  | _, _ => []
  end.

(** Modelled from the spec: [applyOnTheRight] is not in the sources at
    hand; the spec says each rotation is accumulated "by right-multiplying
    two adjacent columns": columns [p] and [q] become [c*p - s*q] and
    [s*p + c*q]; a matrix without these columns is left as it is. *)
Definition rotate_columns (m : Matrix) (p q : Z) (rot : S * S) : Matrix :=
  let '(c, s) := rot in
  match get m p, get m q with
  | Some a, Some b =>
      match set m p (map2 (fun x y => c * x - s * y) a b) with
      | Some m' =>
          match set m' q (map2 (fun x y => s * x + c * y) a b) with
          | Some m'' => m''
          | None => m
          end
      | None => m
      end
  | _, _ => m
  end.

Definition entry (m : Matrix) (i j : nat) : S :=
  nth i (nth j m []) zero.

Definition identity (n : nat) : Matrix :=
  map (fun j => map (fun i => if Nat.eqb i j then one else zero) (seq 0 n))
      (seq 0 n).

(** Modelled from the spec: [Tridiagonalization::decomposeInPlace] is not
    in the sources at hand; the spec says it "reduces a symmetric matrix to
    real tridiagonal form (diag, subdiag) via Householder transforms,
    accumulating the orthogonal transform into the working storage if
    eigenvectors are requested".  On a matrix that is tridiagonal already
    the transform is the identity, [diag] is the diagonal and [subdiag] the
    subdiagonal. *)
Definition tridiagonal_parts (m : Matrix) (computeEigenvectors : bool)
  : Matrix * list S * list S :=
  let n := length m in
  (if computeEigenvectors then identity n else m,
   map (fun i => entry m i i) (seq 0 n),
   map (fun i => entry m (Datatypes.S i) i) (seq 0 (n - 1))).
End Collaborators.
End EigenSolver.

(* ================================================================= *)
(** ** The in-place skyline LU *)

(** [while (cond) body], for a loop that leaves within [cnt] turns; a loop
    that has not left by then is a fault of the model. *)
Fixpoint while_loop {St : Type} (cnt : nat) (cond : St -> bool)
    (body : St -> option St) (s : St) : option St :=
  if cond s
  then
    match cnt with
    | O => None
    | Datatypes.S c =>
        match body s with
        | None => None
        | Some s' => while_loop c cond body s'
        end
    end
  else Some s.

Module Skyline.
Section Defs.
Context {S : Type} `{Scalar S}.
Local Open Scope scalar_scope.

(** Modelled from the spec: the class [SkylineMatrix] and its iterators are
    not in the sources at hand.  The spec describes "a sparse matrix storage
    keyed by a banded/profile structure; exposes per-row/column iterators
    over only the structurally-nonzero lower/upper entries plus a direct
    diagonal accessor", in two orientations.  A square matrix of size
    [length sk_diag] keeps, for every outer index [o], the entries of its
    profile next to the diagonal:
    - row-major: [sk_lower[o]] is the part of row [o] left of the diagonal,
      columns [o - size .. o - 1]; [sk_upper[o]] is the part of column [o]
      above the diagonal, rows [o - size .. o - 1];
    - column-major: [sk_lower[o]] is the part of column [o] below the
      diagonal, rows [o + 1 .. o + size]; [sk_upper[o]] is the part of row
      [o] right of the diagonal, columns [o + 1 .. o + size]. *)
Record SkylineMatrix : Type := {
  IsRowMajor : bool;
  sk_diag : list S;
  sk_lower : list (list S);
  sk_upper : list (list S)
}.

Definition sk_rows (m : SkylineMatrix) : Z := Z.of_nat (length (sk_diag m)).

Definition with_diag (m : SkylineMatrix) (d : list S) : SkylineMatrix :=
  {| IsRowMajor := IsRowMajor m; sk_diag := d;
     sk_lower := sk_lower m; sk_upper := sk_upper m |}.
Definition with_lower (m : SkylineMatrix) (l : list (list S))
  : SkylineMatrix :=
  {| IsRowMajor := IsRowMajor m; sk_diag := sk_diag m;
     sk_lower := l; sk_upper := sk_upper m |}.
Definition with_upper (m : SkylineMatrix) (u : list (list S))
  : SkylineMatrix :=
  {| IsRowMajor := IsRowMajor m; sk_diag := sk_diag m;
     sk_lower := sk_lower m; sk_upper := u |}.

(** [m.coeffDiag(i)] and [m.coeffRefDiag(i) = a]. *)
Definition coeffDiag (m : SkylineMatrix) (i : Z) : option S :=
  get (sk_diag m) i.
Definition setDiag (m : SkylineMatrix) (i : Z) (a : S)
  : option SkylineMatrix :=
  d <- set (sk_diag m) i a ;; Some (with_diag m d).

(** An iterator: the outer index and the position inside its profile. *)
Record Iter : Type := { it_outer : Z; it_pos : Z }.

Definition it_begin (outer : Z) : Iter :=
  {| it_outer := outer; it_pos := 0 |}.
(** [it += k]; [++it] is [it += 1]. *)
Definition it_shift (it : Iter) (k : Z) : Iter :=
  {| it_outer := it_outer it; it_pos := (it_pos it + k)%Z |}.

Definition profile (store : list (list S)) (outer : Z) : list S :=
  match get store outer with
  | Some p => p
  | None => []
  end.

(** [it.size()] and [operator bool]. *)
Definition it_size (store : list (list S)) (it : Iter) : Z :=
  Z.of_nat (length (profile store (it_outer it))).
Definition it_valid (store : list (list S)) (it : Iter) : bool :=
  (0 <=? it_pos it)%Z && (it_pos it <? it_size store it)%Z.

(** [it.value()] and [it.valueRef() = a]; outside the profile they are
    faults. *)
Definition it_value (store : list (list S)) (it : Iter) : option S :=
  p <- get store (it_outer it) ;; get p (it_pos it).
Definition it_set (store : list (list S)) (it : Iter) (a : S)
  : option (list (list S)) :=
  p <- get store (it_outer it) ;;
  p <- set p (it_pos it) a ;;
  set store (it_outer it) p.

(** The inner index of the entry an iterator stands on. *)
Definition it_index (row_major : bool) (store : list (list S)) (it : Iter)
  : Z :=
  if row_major then (it_outer it - it_size store it + it_pos it)%Z
  else (it_outer it + it_pos it + 1)%Z.

(** [InnerLowerIterator]: [col()] and [row()]. *)
Definition lower_col (m : SkylineMatrix) (it : Iter) : Z :=
  if IsRowMajor m then it_index true (sk_lower m) it else it_outer it.
Definition lower_row (m : SkylineMatrix) (it : Iter) : Z :=
  if IsRowMajor m then it_outer it else it_index false (sk_lower m) it.

(** [InnerUpperIterator]: [row()] and [col()]. *)
Definition upper_row (m : SkylineMatrix) (it : Iter) : Z :=
  if IsRowMajor m then it_index true (sk_upper m) it else it_outer it.
Definition upper_col (m : SkylineMatrix) (it : Iter) : Z :=
  if IsRowMajor m then it_outer it else it_index false (sk_upper m) it.

(** The iterator on the lower entry [(row, col)], [col < row]. *)
Definition lower_at (m : SkylineMatrix) (row col : Z) : Iter :=
  if IsRowMajor m
  then {| it_outer := row;
          it_pos := (col - (row - it_size (sk_lower m) (it_begin row)))%Z |}
  else {| it_outer := col; it_pos := (row - col - 1)%Z |}.
(** The iterator on the upper entry [(row, col)], [row < col]. *)
Definition upper_at (m : SkylineMatrix) (row col : Z) : Iter :=
  if IsRowMajor m
  then {| it_outer := col;
          it_pos := (row - (col - it_size (sk_upper m) (it_begin col)))%Z |}
  else {| it_outer := row; it_pos := (col - row - 1)%Z |}.

(** [m.coeffExistLower(row, col)], [m.coeffLower(row, col)] (zero outside
    the profile) and [m.coeffRefLower(row, col) = a]. *)
Definition coeffExistLower (m : SkylineMatrix) (row col : Z) : bool :=
  it_valid (sk_lower m) (lower_at m row col).
Definition coeffLower (m : SkylineMatrix) (row col : Z) : S :=
  match it_value (sk_lower m) (lower_at m row col) with
  | Some a => a
  | None => zero
  end.
Definition setLower (m : SkylineMatrix) (row col : Z) (a : S)
  : option SkylineMatrix :=
  l <- it_set (sk_lower m) (lower_at m row col) a ;; Some (with_lower m l).
Definition coeffUpper (m : SkylineMatrix) (row col : Z) : S :=
  match it_value (sk_upper m) (upper_at m row col) with
  | Some a => a
  | None => zero
  end.
Definition setUpper (m : SkylineMatrix) (row col : Z) (a : S)
  : option SkylineMatrix :=
  u <- it_set (sk_upper m) (upper_at m row col) a ;; Some (with_upper m u).

(** The members of [SkylineInplaceLU]; [m_succeeded] is [None] as long as
    nothing was stored in it, and [m_lu] is the matrix it refers to. *)
Record SkylineInplaceLU : Type := {
  m_precision : S;
  m_flags : Z;
  m_status : Z;
  m_succeeded : option bool;
  m_lu : SkylineMatrix
}.

Definition with_lu (lu : SkylineInplaceLU) (m : SkylineMatrix)
  : SkylineInplaceLU :=
  {| m_precision := m_precision lu; m_flags := m_flags lu;
     m_status := m_status lu; m_succeeded := m_succeeded lu; m_lu := m |}.

(** "Lower matrix Columns update":
    [for (lIt(m_lu, col); lIt; ++lIt) lIt.valueRef() /= pivot;] *)
Definition scale_column (m : SkylineMatrix) (col : Z) (pivot : S)
  : option SkylineMatrix :=
  for_loop 0 (it_size (sk_lower m) (it_begin col))
    (fun p m =>
       let lIt := it_shift (it_begin col) p in
       v <- it_value (sk_lower m) lIt ;;
       l <- it_set (sk_lower m) lIt (v / pivot) ;;
       Some (with_lower m l))
    m.

(** [for (++uItPivot; uIt && uItPivot;)
    { uIt.valueRef() -= uItPivot.value() * coef; ++uIt; ++uItPivot; }] *)
Definition update_upper_row (m : SkylineMatrix) (uIt uItPivot : Iter)
    (coef : S) : option SkylineMatrix :=
  '(m, _, _) <-
    while_loop (Z.to_nat (it_size (sk_upper m) uIt))
      (fun '(m, uIt, uItPivot) =>
         it_valid (sk_upper m) uIt && it_valid (sk_upper m) uItPivot)
      (fun '(m, uIt, uItPivot) =>
         p <- it_value (sk_upper m) uItPivot ;;
         v <- it_value (sk_upper m) uIt ;;
         u <- it_set (sk_upper m) uIt (v - p * coef) ;;
         Some (with_upper m u, it_shift uIt 1, it_shift uItPivot 1))
      (m, uIt, uItPivot) ;;
  Some m.

(** The body of the loop over [row] of [compute()]. *)
Definition compute_row (row : Z) (m : SkylineMatrix)
  : option SkylineMatrix :=
  pivot <- coeffDiag m row ;;
  let col := row in
  m <- scale_column m col pivot ;;
  (* Upper matrix update -> contiguous memory access *)
  '(m, _) <-
    for_loop (row + 1) (sk_rows m)
      (fun rrow '(m, lIt) =>
         let uItPivot := it_begin row in
         let uIt := it_begin rrow in
         coef <- it_value (sk_lower m) lIt ;;
         let uItPivot := it_shift uItPivot (rrow - row - 1) in
         m <- update_upper_row m uIt (it_shift uItPivot 1) coef ;;
         Some (m, it_shift lIt 1))
      (m, it_begin col) ;;
  (* Upper matrix update -> non contiguous memory access *)
  '(m, _) <-
    for_loop (row + 1) (sk_rows m)
      (fun rrow '(m, lIt3) =>
         let uItPivot := it_begin row in
         coef <- it_value (sk_lower m) lIt3 ;;
         '(m, _) <-
           for_loop 0 (rrow - row - 1)
             (fun i '(m, uItPivot) =>
                p <- it_value (sk_upper m) uItPivot ;;
                v <- it_value (sk_lower m) (lower_at m rrow (row + i + 1)) ;;
                m <- setLower m rrow (row + i + 1) (v - p * coef) ;;
                Some (m, it_shift uItPivot 1))
             (m, uItPivot) ;;
         Some (m, it_shift lIt3 1))
      (m, it_begin col) ;;
  (* update diag -> contiguous *)
  '(m, _) <-
    for_loop (row + 1) (sk_rows m)
      (fun rrow '(m, lIt2) =>
         let uItPivot := it_begin row in
         coef <- it_value (sk_lower m) lIt2 ;;
         let uItPivot := it_shift uItPivot (rrow - row - 1) in
         p <- it_value (sk_upper m) uItPivot ;;
         d <- coeffDiag m rrow ;;
         m <- setDiag m rrow (d - p * coef) ;;
         Some (m, it_shift lIt2 1))
      (m, it_begin col) ;;
  Some m.

(** [SkylineInplaceLU::compute()], for column-major storage. *)
Definition compute (lu : SkylineInplaceLU) : option SkylineInplaceLU :=
  if IsRowMajor (m_lu lu) then None
  else
    m <- for_loop 0 (sk_rows (m_lu lu)) compute_row (m_lu lu) ;;
    Some (with_lu lu m).

(** The dot product of the two profiles over their common range:
    [if (offset > 0) uIt += offset; else lIt += -offset;
     for (k = 0; k < stop; ++k)
     { newCoeff = newCoeff - lIt.value() * uIt.value(); ++lIt; ++uIt; }] *)
Definition profile_dot (m : SkylineMatrix) (lIt uIt : Iter) (offset stop : Z)
    (newCoeff : S) : option S :=
  let uIt := if (offset >? 0)%Z then it_shift uIt offset else uIt in
  let lIt := if (offset >? 0)%Z then lIt else it_shift lIt (- offset) in
  option_map fst
    (for_loop 0 stop
       (fun _ '(newCoeff, (lIt, uIt)) =>
          a <- it_value (sk_lower m) lIt ;;
          b <- it_value (sk_upper m) uIt ;;
          Some (newCoeff - a * b, (it_shift lIt 1, it_shift uIt 1)))
       (newCoeff, (lIt, uIt))).

(** The body of the loop over [row] of [computeRowMajor()]. *)
Definition computeRowMajor_row (row : Z) (m : SkylineMatrix)
  : option SkylineMatrix :=
  let llIt := it_begin row in
  m <- for_loop (lower_col m llIt) row
    (fun col m =>
       if coeffExistLower m row col
       then
         diag <- coeffDiag m col ;;
         let lIt := it_begin row in
         let uIt := it_begin col in
         let offset := (lower_col m lIt - upper_row m uIt)%Z in
         let stop := if (offset >? 0)%Z then (col - lower_col m lIt)%Z
                     else (col - upper_row m uIt)%Z in
         newCoeff <- profile_dot m lIt uIt offset stop (coeffLower m row col) ;;
         setLower m row col (newCoeff / diag)
       else Some m)
    m ;;
  (* Upper matrix update *)
  let col := row in
  let uuIt := it_begin col in
  m <- for_loop (upper_row m uuIt) col
    (fun rrow m =>
       let lIt := it_begin rrow in
       let uIt := it_begin col in
       let offset := (lower_col m lIt - upper_row m uIt)%Z in
       let stop := if (offset >? 0)%Z then (rrow - lower_col m lIt)%Z
                   else (rrow - upper_row m uIt)%Z in
       newCoeff <- profile_dot m lIt uIt offset stop (coeffUpper m rrow col) ;;
       setUpper m rrow col newCoeff)
    m ;;
  (* Diag matrix update *)
  let lIt := it_begin row in
  let uIt := it_begin row in
  let offset := (lower_col m lIt - upper_row m uIt)%Z in
  let stop := if (offset >? 0)%Z then it_size (sk_lower m) lIt
              else it_size (sk_upper m) uIt in
  d <- coeffDiag m row ;;
  newCoeff <- profile_dot m lIt uIt offset stop d ;;
  setDiag m row newCoeff.

(** [SkylineInplaceLU::computeRowMajor()]. *)
Definition computeRowMajor (lu : SkylineInplaceLU)
  : option SkylineInplaceLU :=
  if IsRowMajor (m_lu lu)
  then
    m <- for_loop 0 (sk_rows (m_lu lu)) computeRowMajor_row (m_lu lu) ;;
    Some (with_lu lu m)
  else None.

(** The constructor: [m_flags(flags), m_status(0), m_lu(matrix)], then
    [m_precision = 0.1 * dummy_precision] and the factorization.  Nothing
    is stored in [m_succeeded]. *)
Definition make (matrix : SkylineMatrix) (flags : Z)
  : option SkylineInplaceLU :=
  let lu := {| m_precision := tenth * dummy_precision;
               m_flags := flags;
               m_status := 0;
               m_succeeded := None;
               m_lu := matrix |} in
  if IsRowMajor (m_lu lu) then computeRowMajor lu else compute lu.

Definition setPrecision (lu : SkylineInplaceLU) (v : S) : SkylineInplaceLU :=
  {| m_precision := v; m_flags := m_flags lu; m_status := m_status lu;
     m_succeeded := m_succeeded lu; m_lu := m_lu lu |}.
Definition setFlags (lu : SkylineInplaceLU) (f : Z) : SkylineInplaceLU :=
  {| m_precision := m_precision lu; m_flags := f; m_status := m_status lu;
     m_succeeded := m_succeeded lu; m_lu := m_lu lu |}.
Definition setOrderingMethod (lu : SkylineInplaceLU) (f : Z)
  : SkylineInplaceLU :=
  {| m_precision := m_precision lu; m_flags := f; m_status := m_status lu;
     m_succeeded := m_succeeded lu; m_lu := m_lu lu |}.

(** [succeeded()]: the content of [m_succeeded]; [None] is the
    indeterminate value of a member that was never written. *)
Definition succeeded (lu : SkylineInplaceLU) : option bool :=
  m_succeeded lu.

(** The first loop of [solve]: the substitution through L. *)
Definition solve_forward_row (m : SkylineMatrix) (b : list S) (row : Z)
    (x : list S) : option (list S) :=
  brow <- get b row ;;
  x <- set x row brow ;;
  newVal <- get x row ;;
  let lIt := it_begin row in
  let col := lower_col m lIt in
  '(newVal, _, _) <-
    while_loop (Z.to_nat (row - col))
      (fun '(newVal, col, lIt) => (lower_col m lIt <? row)%Z)
      (fun '(newVal, col, lIt) =>
         xc <- get x col ;;
         l <- it_value (sk_lower m) lIt ;;
         Some (newVal - xc * l, (col + 1)%Z, it_shift lIt 1))
      (newVal, col, lIt) ;;
  set x row newVal.

(** The second loop of [solve]: the substitution through U. *)
Definition solve_backward_col (m : SkylineMatrix) (col : Z) (x : list S)
  : option (list S) :=
  xc <- get x col ;;
  d <- coeffDiag m col ;;
  x <- set x col (xc / d) ;;
  x_col <- get x col ;;
  let uIt := it_begin col in
  let uIt := it_shift uIt (it_size (sk_upper m) uIt - 1) in
  '(x, _) <-
    while_loop (Z.to_nat (it_size (sk_upper m) uIt))
      (fun '(x, uIt) => it_valid (sk_upper m) uIt)
      (fun '(x, uIt) =>
         xr <- get x (upper_row m uIt) ;;
         u <- it_value (sk_upper m) uIt ;;
         x <- set x (upper_row m uIt) (xr - x_col * u) ;;
         Some (x, it_shift uIt (-1)))
      (x, uIt) ;;
  Some x.

(** [SkylineInplaceLU::solve(b, x, transposed)]: the vector left in [x]
    and the value returned. *)
Definition solve (lu : SkylineInplaceLU) (b x : list S) (transposed : Z)
  : option (list S * bool) :=
  let m := m_lu lu in
  let rows := sk_rows m in
  x <- for_loop 0 rows (solve_forward_row m b) x ;;
  x <- for_down (rows - 1) 0 (solve_backward_col m) x ;;
  x0 <- get x 0 ;;
  d0 <- coeffDiag m 0 ;;
  x <- set x 0 (x0 / d0) ;;
  Some (x, true).
End Defs.
End Skyline.

(* ================================================================= *)
(** ** Reasoning about arrays and loops *)

Section ArrayFacts.
Context {A : Type}.
Implicit Types (v : list A) (i : Z) (a : A).

Lemma get_in_range v i :
  0 <= i < Z.of_nat (length v) -> exists a, get v i = Some a.
Proof.
  intros Hi. unfold get.
  destruct (Z.ltb_spec i 0); [lia|].
  destruct (nth_error v (Z.to_nat i)) eqn:E; [eauto|].
  apply nth_error_None in E. lia.
Qed.

Lemma get_Some_range v i a :
  get v i = Some a -> 0 <= i < Z.of_nat (length v).
Proof.
  unfold get. destruct (Z.ltb_spec i 0); [discriminate|].
  intros E. assert (nth_error v (Z.to_nat i) <> None) as Hn by congruence.
  apply nth_error_Some in Hn. lia.
Qed.

Lemma get_nth v i d :
  0 <= i < Z.of_nat (length v) -> get v i = Some (nth (Z.to_nat i) v d).
Proof.
  intros Hi. unfold get.
  destruct (Z.ltb_spec i 0); [lia|].
  apply nth_error_nth'. lia.
Qed.

Lemma set_in_range v i a :
  0 <= i < Z.of_nat (length v) -> exists v', set v i a = Some v'.
Proof.
  intros Hi. unfold set.
  destruct (Z.leb_spec 0 i); [|lia].
  destruct (Z.ltb_spec i (Z.of_nat (length v))); [|lia].
  cbn [andb]. eauto.
Qed.

Lemma set_Some_range v i a v' :
  set v i a = Some v' -> 0 <= i < Z.of_nat (length v).
Proof.
  unfold set.
  destruct (Z.leb_spec 0 i); destruct (Z.ltb_spec i (Z.of_nat (length v)));
    cbn [andb]; intros E; try discriminate; lia.
Qed.

Lemma length_update v k a : length (update v k a) = length v.
Proof.
  revert k. induction v as [|h t IH]; intros [|k]; simpl; auto.
Qed.

Lemma nth_update v k a j d :
  (k < length v)%nat ->
  nth j (update v k a) d = if Nat.eqb j k then a else nth j v d.
Proof.
  revert k j. induction v as [|h t IH]; intros [|k] [|j] Hk; simpl in *;
    try lia; auto.
  apply IH. lia.
Qed.

Lemma set_length v i a v' : set v i a = Some v' -> length v' = length v.
Proof.
  unfold set. destruct (_ && _); [|discriminate].
  intros E. injection E as <-. apply length_update.
Qed.

Lemma nth_set v i a v' k d :
  set v i a = Some v' ->
  nth k v' d = if Nat.eqb k (Z.to_nat i) then a else nth k v d.
Proof.
  intros E. pose proof (set_Some_range _ _ _ _ E) as Hi.
  unfold set in E. destruct (_ && _); [|discriminate].
  injection E as <-. apply nth_update. lia.
Qed.
End ArrayFacts.

Section LoopFacts.
Context {St : Type}.

(** The invariant rule for [for_loop]: the loop ends without a fault and
    establishes the invariant at [hi]. *)
Lemma for_loop_inv (P : Z -> St -> Prop) lo hi
    (body : Z -> St -> option St) s :
  lo <= hi ->
  P lo s ->
  (forall i t, lo <= i < hi -> P i t ->
     exists t', body i t = Some t' /\ P (i + 1) t') ->
  exists s', for_loop lo hi body s = Some s' /\ P hi s'.
Proof.
  intros Hle H0 Hstep. unfold for_loop.
  remember (Z.to_nat (hi - lo)) as cnt eqn:Ecnt.
  revert lo s Hle H0 Hstep Ecnt.
  induction cnt as [|c IH]; intros lo s Hle H0 Hstep Ecnt.
  - simpl. exists s. split; [reflexivity|].
    replace hi with lo by lia. exact H0.
  - simpl. destruct (Hstep lo s) as (t' & Hb & Ht'); [lia|assumption|].
    rewrite Hb. apply IH; try lia; try assumption.
    intros i t Hi. apply Hstep. lia.
Qed.

Lemma for_loop_empty lo hi (body : Z -> St -> option St) s :
  hi <= lo -> for_loop lo hi body s = Some s.
Proof.
  intros Hle. unfold for_loop. replace (Z.to_nat (hi - lo)) with O by lia.
  reflexivity.
Qed.

Lemma for_loop_first lo hi (body : Z -> St -> option St) s :
  lo < hi ->
  for_loop lo hi body s
  = match body lo s with
    | None => None
    | Some s' => for_loop (lo + 1) hi body s'
    end.
Proof.
  intros Hlt. unfold for_loop.
  replace (Z.to_nat (hi - lo)) with (Datatypes.S (Z.to_nat (hi - (lo + 1))))
    by lia.
  reflexivity.
Qed.

(** The invariant rule for a loop that is known to have ended. *)
Lemma for_loop_inv_partial (P : Z -> St -> Prop) lo hi
    (body : Z -> St -> option St) s s' :
  lo <= hi ->
  P lo s ->
  (forall i t t', lo <= i < hi -> P i t -> body i t = Some t' ->
     P (i + 1) t') ->
  for_loop lo hi body s = Some s' -> P hi s'.
Proof.
  unfold for_loop. remember (Z.to_nat (hi - lo)) as cnt eqn:Ecnt.
  revert lo s Ecnt. induction cnt as [|c IH]; intros lo s Ecnt Hle Hs Hstep E;
    simpl in E.
  - injection E as <-. replace hi with lo by lia. exact Hs.
  - destruct (body lo s) as [t|] eqn:Eb; [|discriminate].
    apply (IH (lo + 1) t); [lia|lia|eapply Hstep; eauto; lia| |exact E].
    intros i u u' Hi. apply Hstep. lia.
Qed.

(** A property kept by every turn holds when the loop has ended. *)
Lemma for_loop_preserves (P : St -> Prop) lo hi
    (body : Z -> St -> option St) s s' :
  (forall i t t', lo <= i < hi -> P t -> body i t = Some t' -> P t') ->
  P s -> for_loop lo hi body s = Some s' -> P s'.
Proof.
  unfold for_loop. remember (Z.to_nat (hi - lo)) as cnt eqn:Ecnt.
  revert lo s Ecnt. induction cnt as [|c IH]; intros lo s Ecnt Hstep Hs E;
    simpl in E.
  - injection E as <-. exact Hs.
  - destruct (body lo s) as [t|] eqn:Eb; [|discriminate].
    eapply (IH (lo + 1) t); [lia| |eapply Hstep; eauto; lia|exact E].
    intros i u u' Hi. apply Hstep. lia.
Qed.

(** The invariant rule for [for_down]. *)
Lemma for_down_inv (P : Z -> St -> Prop) hi lo
    (body : Z -> St -> option St) s :
  lo <= hi ->
  P hi s ->
  (forall i t, lo < i <= hi -> P i t ->
     exists t', body i t = Some t' /\ P (i - 1) t') ->
  exists s', for_down hi lo body s = Some s' /\ P lo s'.
Proof.
  intros Hle H0 Hstep. unfold for_down.
  remember (Z.to_nat (hi - lo)) as cnt eqn:Ecnt.
  revert hi s Hle H0 Hstep Ecnt.
  induction cnt as [|c IH]; intros hi s Hle H0 Hstep Ecnt.
  - simpl. exists s. split; [reflexivity|].
    replace lo with hi by lia. exact H0.
  - simpl. destruct (Hstep hi s) as (t' & Hb & Ht'); [lia|assumption|].
    rewrite Hb. apply IH; try lia; try assumption.
    intros i t Hi. apply Hstep. lia.
Qed.

(** The invariant rule for [while_loop], with a measure that every turn
    lowers and that the count of turns covers. *)
Lemma while_loop_inv (P : St -> Prop) (measure : St -> nat)
    (cond : St -> bool) (body : St -> option St) cnt s :
  P s ->
  (measure s <= cnt)%nat ->
  (forall t, P t -> cond t = true ->
     exists t', body t = Some t' /\ P t' /\ (measure t' < measure t)%nat) ->
  exists s', while_loop cnt cond body s = Some s' /\ P s' /\ cond s' = false.
Proof.
  intros Hs Hm Hstep. revert s Hs Hm.
  induction cnt as [|c IH]; intros s Hs Hm; simpl.
  - destruct (cond s) eqn:Ec; [|eauto].
    destruct (Hstep s Hs Ec) as (t' & _ & _ & Hlt). lia.
  - destruct (cond s) eqn:Ec; [|eauto].
    destruct (Hstep s Hs Ec) as (t' & -> & Ht' & Hlt).
    apply IH; [exact Ht'|lia].
Qed.

(** A [while] whose condition is false at once does nothing. *)
Lemma while_loop_false (cond : St -> bool) (body : St -> option St) cnt s :
  cond s = false -> while_loop cnt cond body s = Some s.
Proof. intros E. destruct cnt; simpl; now rewrite E. Qed.

(** Two loops whose bodies agree on the range agree. *)
Lemma for_loop_ext lo hi (f g : Z -> St -> option St) s :
  (forall i t, lo <= i < hi -> f i t = g i t) ->
  for_loop lo hi f s = for_loop lo hi g s.
Proof.
  intros Hfg. unfold for_loop.
  remember (Z.to_nat (hi - lo)) as cnt eqn:Ecnt.
  revert lo s Hfg Ecnt.
  induction cnt as [|c IH]; intros lo s Hfg Ecnt; simpl; [reflexivity|].
  rewrite Hfg by lia. destruct (g lo s); [|reflexivity].
  apply IH; [|lia]. intros i t Hi. apply Hfg. lia.
Qed.

End LoopFacts.

(** A swap succeeds or faults by the length of the array alone. *)
Lemma swap_length {A : Type} (v v' : list A) i j :
  swap v i j = Some v' -> length v' = length v.
Proof.
  unfold swap.
  destruct (get v i) as [a|]; cbn [bind]; [|discriminate].
  destruct (get v j) as [b|]; cbn [bind]; [|discriminate].
  destruct (set v i b) as [w|] eqn:E; cbn [bind]; [|discriminate].
  intros E'. apply set_length in E, E'. congruence.
Qed.

Lemma swap_defined {A B : Type} (v : list A) (w : list B) i j :
  length v = length w ->
  match swap v i j, swap w i j with
  | Some v', Some w' => length v' = length w'
  | None, None => True
  | _, _ => False
  end.
Proof.
  intros Hl.
  destruct (swap v i j) as [v'|] eqn:Ev, (swap w i j) as [w'|] eqn:Ew.
  - apply swap_length in Ev, Ew. congruence.
  - exfalso. unfold swap in Ev, Ew.
    destruct (get v i) as [a|] eqn:Ga; cbn [bind] in Ev; [|discriminate].
    destruct (get v j) as [b|] eqn:Gb; cbn [bind] in Ev; [|discriminate].
    apply get_Some_range in Ga, Gb.
    destruct (get_in_range w i) as [a' Ga']; [lia|].
    destruct (get_in_range w j) as [b' Gb']; [lia|].
    rewrite Ga', Gb' in Ew. cbn [bind] in Ew.
    destruct (set_in_range w i b') as [w1 E1]; [lia|].
    rewrite E1 in Ew. cbn [bind] in Ew.
    destruct (set_in_range w1 j a') as [w2 E2];
      [apply set_length in E1; lia|]. congruence.
  - exfalso. unfold swap in Ev, Ew.
    destruct (get w i) as [a|] eqn:Ga; cbn [bind] in Ew; [|discriminate].
    destruct (get w j) as [b|] eqn:Gb; cbn [bind] in Ew; [|discriminate].
    apply get_Some_range in Ga, Gb.
    destruct (get_in_range v i) as [a' Ga']; [lia|].
    destruct (get_in_range v j) as [b' Gb']; [lia|].
    rewrite Ga', Gb' in Ev. cbn [bind] in Ev.
    destruct (set_in_range v i b') as [w1 E1]; [lia|].
    rewrite E1 in Ev. cbn [bind] in Ev.
    destruct (set_in_range w1 j a') as [w2 E2];
      [apply set_length in E1; lia|]. congruence.
  - exact I.
Qed.


(* ================================================================= *)
(** ** The eigen solver: the 1x1 case and the eigenvector flag *)

Module EigenSolverFacts.
Import EigenSolver.

Section Flag.
Context {S : Type} `{Scalar S}.
Local Abbreviation Matrix := (Matrix S).
Local Abbreviation LoopState := (LoopState S).
Variable makeGivens : S -> S -> S * S.
Variable applyOnTheRight : Matrix -> Z -> Z -> S * S -> Matrix.
Variable decomposeInPlace : Matrix -> bool -> Matrix * list S * list S.

Local Abbreviation qr_rotation := (qr_rotation makeGivens applyOnTheRight).
Local Abbreviation qr_step := (ei_tridiagonal_qr_step makeGivens applyOnTheRight).
Local Abbreviation loop_body := (loop_body makeGivens applyOnTheRight).
Local Abbreviation qr_loop := (qr_loop makeGivens applyOnTheRight).
Local Abbreviation compute := (compute makeGivens applyOnTheRight decomposeInPlace).

(** What a rotation step leaves in [diag], [subdiag], [x] and [z]. *)
Definition numeric_part
    (st : list S * list S * S * S * option Matrix)
  : list S * list S * S * S :=
  let '(diag, subdiag, x, z, _) := st in (diag, subdiag, x, z).

Lemma qr_rotation_numeric start end_ k d sd x z q q' :
  option_map numeric_part (qr_rotation start end_ k (d, sd, x, z, q))
  = option_map numeric_part (qr_rotation start end_ k (d, sd, x, z, q')).
Proof.
  unfold EigenSolver.qr_rotation.
  destruct (makeGivens x z) as [c s].
  repeat match goal with
  | |- option_map _ (bind ?m _) = option_map _ (bind ?m _) =>
      destruct m; cbn [bind option_map]; [|reflexivity]
  | |- context [let '(_, _) := ?p in _] => destruct p
  end.
  reflexivity.
Qed.

Lemma qr_rotations_numeric cnt start end_ k st st' :
  numeric_part st = numeric_part st' ->
  option_map numeric_part (for_iter cnt k (qr_rotation start end_) st)
  = option_map numeric_part (for_iter cnt k (qr_rotation start end_) st').
Proof.
  revert k st st'. induction cnt as [|c IH]; intros k st st' E; simpl.
  - now rewrite E.
  - destruct st as [[[[d sd] x] z] q], st' as [[[[d' sd'] x'] z'] q'].
    simpl in E. injection E as -> -> -> ->.
    pose proof (qr_rotation_numeric start end_ k d' sd' x' z' q q') as E.
    destruct (qr_rotation start end_ k (d', sd', x', z', q)) as [t|],
             (qr_rotation start end_ k (d', sd', x', z', q')) as [t'|];
      simpl in E; try discriminate; [|reflexivity].
    apply IH. congruence.
Qed.

(** [diag] and [subdiag] after a QR step do not depend on [matrixQ]. *)
Lemma qr_step_numeric diag subdiag start end_ q q' n :
  option_map (fun r => (fst (fst r), snd (fst r)))
    (qr_step diag subdiag start end_ q n)
  = option_map (fun r => (fst (fst r), snd (fst r)))
    (qr_step diag subdiag start end_ q' n).
Proof.
  unfold EigenSolver.ei_tridiagonal_qr_step.
  repeat match goal with
  | |- option_map _ (bind ?m _) = option_map _ (bind ?m _) =>
      destruct m; cbn [bind option_map]; [|reflexivity]
  end.
  match goal with
  | |- option_map _ (bind (for_loop ?a ?b ?f ?st) _)
       = option_map _ (bind (for_loop ?a ?b ?f ?st') _) =>
      pose proof (qr_rotations_numeric (Z.to_nat (b - a)) start end_ a
                    st st' eq_refl) as E;
      fold (for_loop a b f st) in E; fold (for_loop a b f st') in E;
      destruct (for_loop a b f st) as [[[[[d1 u1] x1] z1] q1]|],
               (for_loop a b f st') as [[[[[d2 u2] x2] z2] q2]|];
      simpl in E; try discriminate; [|reflexivity]
  end.
  injection E as -> -> -> ->. reflexivity.
Qed.

(** Two loop states with the same numbers, and as many columns in their
    matrices of eigenvectors. *)
Definition same_numbers (a b : LoopState) : Prop :=
  ls_diag a = ls_diag b /\ ls_subdiag a = ls_subdiag b
  /\ ls_start a = ls_start b /\ ls_end a = ls_end b
  /\ length (ls_eivec a) = length (ls_eivec b).

Definition same_numbers_sum (a b : LoopState + LoopState) : Prop :=
  match a, b with
  | inl x, inl y => same_numbers x y
  | inr x, inr y => same_numbers x y
  | _, _ => False
  end.

(** The rotations are applied in place: they keep the number of columns. *)
Hypothesis applyOnTheRight_cols :
  forall q k k' rot, length (applyOnTheRight q k k' rot) = length q.

Definition same_cols (q : Matrix) (r : option Matrix) : Prop :=
  match r with
  | Some q' => length q' = length q
  | None => True
  end.

Lemma qr_step_cols diag subdiag start end_ q0 q n d sd r :
  same_cols q0 q ->
  qr_step diag subdiag start end_ q n = Some (d, sd, r) ->
  same_cols q0 r.
Proof.
  unfold EigenSolver.ei_tridiagonal_qr_step. intros Hq.
  repeat match goal with
  | |- bind (get ?v ?i) _ = _ -> _ =>
      destruct (get v i); cbn [bind]; [|discriminate]
  end.
  match goal with
  | |- bind (for_loop ?a ?b ?f ?st) _ = _ -> _ =>
      destruct (for_loop a b f st) as [[[[[d1 u1] x1] z1] q1]|] eqn:E;
      cbn [bind]; [|discriminate]
  end.
  intros E'. injection E' as <- <- <-.
  eapply (for_loop_preserves
            (fun st => same_cols q0 (snd st))) in E; [exact E| |exact Hq].
  intros i [[[[d2 u2] x2] z2] q2] t' _ Hq2. cbn [snd] in Hq2.
  unfold EigenSolver.qr_rotation.
  destruct (makeGivens x2 z2) as [c sn].
  repeat match goal with
  | |- bind ?m _ = _ -> _ => destruct m; cbn [bind]; [|discriminate]
  | |- context [let '(_, _) := ?p in _] => destruct p
  end.
  intros E'. injection E' as <-. cbn [snd].
  destruct q2 as [q2|]; [|exact I]. simpl in *.
  rewrite applyOnTheRight_cols. exact Hq2.
Qed.

Lemma loop_body_numeric f1 f2 n a b :
  same_numbers a b ->
  match loop_body f1 n a, loop_body f2 n b with
  | Some x, Some y => same_numbers_sum x y
  | None, None => True
  | _, _ => False
  end.
Proof.
  destruct a as [d sd q st en], b as [d' sd' q' st' en'].
  intros (E1 & E2 & E3 & E4 & E5). simpl in *. subst d' sd' st' en'.
  unfold EigenSolver.loop_body. simpl.
  destruct (deflate d sd st en) as [sd1|]; cbn [bind]; [|exact I].
  destruct (find_end (Z.to_nat en) sd1 en) as [en1|]; cbn [bind]; [|exact I].
  destruct (en1 <=? 0)%Z; [simpl; repeat split; assumption|].
  destruct (find_start (Z.to_nat (en1 - 1)) sd1 (en1 - 1)) as [st1|];
    cbn [bind]; [|exact I].
  pose proof (qr_step_numeric d sd1 st1 en1
                (if f1 then Some q else None)
                (if f2 then Some q' else None) n) as E.
  destruct (qr_step d sd1 st1 en1 (if f1 then Some q else None) n)
    as [[[d2 s2] q2]|] eqn:Ea,
    (qr_step d sd1 st1 en1 (if f2 then Some q' else None) n)
    as [[[d3 s3] q3]|] eqn:Eb; simpl in E; try discriminate; [|exact I].
  injection E as -> ->. cbn [bind]. simpl. repeat split.
  apply qr_step_cols with (q0 := q) in Ea; [|destruct f1; simpl; auto].
  apply qr_step_cols with (q0 := q') in Eb; [|destruct f2; simpl; auto].
  destruct q2, q3; simpl in *; congruence.
Qed.

Lemma qr_loop_numeric fuel f1 f2 n a b :
  same_numbers a b ->
  match qr_loop fuel f1 n a, qr_loop fuel f2 n b with
  | Done x, Done y => same_numbers x y
  | Fault, Fault => True
  | OutOfFuel, OutOfFuel => True
  | _, _ => False
  end.
Proof.
  revert a b. induction fuel as [|fuel IH]; intros a b Hab.
  - simpl. pose proof Hab as (_ & _ & _ & E & _). rewrite E.
    destruct (ls_end b >? 0)%Z; [exact I|exact Hab].
  - simpl. pose proof Hab as (_ & _ & _ & E & _). rewrite E.
    destruct (ls_end b >? 0)%Z; [|exact Hab].
    pose proof (loop_body_numeric f1 f2 n _ _ Hab) as Hb.
    destruct (loop_body f1 n a) as [[x|x]|], (loop_body f2 n b) as [[y|y]|];
      cbn [same_numbers_sum] in Hb; try contradiction; try exact I;
      try exact Hb.
    apply IH. exact Hb.
Qed.

(** The sorted eigenvalues do not depend on the content of the columns that
    are swapped along with them. *)
Definition same_values (a b : list S * Matrix) : Prop :=
  fst a = fst b /\ length (snd a) = length (snd b).

Lemma sort_step_values n i a b :
  same_values a b ->
  match sort_step n i a, sort_step n i b with
  | Some x, Some y => same_values x y
  | None, None => True
  | _, _ => False
  end.
Proof.
  destruct a as [ev q], b as [ev' q']. intros [E Hl]. simpl in E, Hl.
  subst ev'. unfold sort_step.
  destruct (segment ev i (n - i)) as [seg|]; cbn [bind]; [|exact I].
  destruct (minCoeff seg) as [k|]; cbn [bind]; [|exact I].
  destruct (k >? 0)%Z; [|split; simpl; auto].
  destruct (swap ev i (k + i)) as [ev1|]; cbn [bind]; [|exact I].
  pose proof (swap_defined q q' i (k + i) Hl) as Hs.
  destruct (swap q i (k + i)), (swap q' i (k + i)); cbn [bind];
    try contradiction; [|exact I].
  split; simpl; auto.
Qed.

Lemma sort_pass_values n a b :
  same_values a b ->
  match sort_pass n a, sort_pass n b with
  | Some x, Some y => same_values x y
  | None, None => True
  | _, _ => False
  end.
Proof.
  unfold sort_pass, for_loop. generalize (Z.to_nat (n - 1 - 0)) as cnt.
  generalize 0%Z as i. intros i cnt. revert i a b.
  induction cnt as [|c IH]; intros i a b Hab; simpl; [exact Hab|].
  pose proof (sort_step_values n i _ _ Hab) as Hs.
  destruct (sort_step n i a), (sort_step n i b); try contradiction;
    [|exact I].
  apply IH. exact Hs.
Qed.

(** C10. A QR step leaves [diag] and [subdiag] in the same state whether
    [matrixQ] is the null pointer or a matrix; hence the eigenvalues that
    [compute] returns are the same for both values of [computeEigenvectors],
    provided the tridiagonalization yields the same [diag] and [subdiag] (and
    as many columns) for both. *)
Theorem eigenvalues_do_not_depend_on_flag fuel self matrix :
  snd (fst (decomposeInPlace matrix true))
    = snd (fst (decomposeInPlace matrix false)) ->
  snd (decomposeInPlace matrix true) = snd (decomposeInPlace matrix false) ->
  length (fst (fst (decomposeInPlace matrix true)))
    = length (fst (fst (decomposeInPlace matrix false))) ->
  (forall diag subdiag start end_ q n,
     option_map (fun r => (fst (fst r), snd (fst r)))
       (qr_step diag subdiag start end_ (Some q) n)
     = option_map (fun r => (fst (fst r), snd (fst r)))
       (qr_step diag subdiag start end_ None n))
  /\ outcome_map (@m_eivalues S) (compute fuel self matrix true)
     = outcome_map (@m_eivalues S) (compute fuel self matrix false).
Proof.
  intros Hd Hs Hq. split.
  { intros. apply qr_step_numeric. }
  unfold EigenSolver.compute.
  destruct (negb (cols matrix =? rows matrix)%Z); [reflexivity|].
  destruct (cols matrix =? 1)%Z.
  { destruct (coeff matrix 0 0); reflexivity. }
  destruct (decomposeInPlace matrix true) as [[q1 d1] s1],
           (decomposeInPlace matrix false) as [[q2 d2] s2].
  simpl in Hd, Hs, Hq. subst d2 s2.
  set (a0 := {| ls_diag := d1; ls_subdiag := s1; ls_eivec := q1;
                ls_start := 0; ls_end := cols matrix - 1 |}).
  set (b0 := {| ls_diag := d1; ls_subdiag := s1; ls_eivec := q2;
                ls_start := 0; ls_end := cols matrix - 1 |}).
  assert (Hab : same_numbers a0 b0) by (repeat split; assumption).
  pose proof (qr_loop_numeric fuel true false (cols matrix) _ _ Hab) as Hl.
  destruct (qr_loop fuel true (cols matrix) a0) as [a| |],
           (qr_loop fuel false (cols matrix) b0) as [b| |];
    try contradiction; try reflexivity.
  destruct Hl as (E1 & E2 & E3 & E4 & E5).
  pose proof (sort_pass_values (cols matrix) (ls_diag a, ls_eivec a)
                (ls_diag b, ls_eivec b)) as Hp.
  lapply Hp; [clear Hp; intros Hp|split; assumption].
  destruct (sort_pass (cols matrix) (ls_diag a, ls_eivec a)) as [[e1 v1]|],
           (sort_pass (cols matrix) (ls_diag b, ls_eivec b)) as [[e2 v2]|];
    try contradiction; [|reflexivity].
  destruct Hp as [Hp _]. simpl in Hp. simpl. now rewrite Hp.
Qed.

(** C5. On a 1x1 matrix [compute] stores the real part of the single entry
    as the sole eigenvalue and the scalar 1 as the matrix of eigenvectors,
    whatever the flag (and the fuel of the model). *)
Theorem compute_1x1 fuel self (a : S) computeEigenvectors :
  compute fuel self [[a]] computeEigenvectors
  = Done {| m_eivec := [[one]];
            m_eivalues := [ei_real a];
            m_subdiag := m_subdiag self;
            m_eigenvectorsOk := computeEigenvectors |}.
Proof. reflexivity. Qed.
End Flag.
End EigenSolverFacts.

(* ================================================================= *)
(** ** The eigen solver: the sorting pass *)

Section SwapFacts.
Context {A : Type}.

Lemma update_exchange (t : list A) j b h :
  nth_error t j = Some b -> Permutation (h :: t) (b :: update t j h).
Proof.
  revert j. induction t as [|x t IH]; intros [|j] E; simpl in *;
    try discriminate.
  - injection E as ->. apply perm_swap.
  - eapply perm_trans; [apply perm_swap|].
    eapply perm_trans; [apply perm_skip, IH, E|]. apply perm_swap.
Qed.

Lemma update_update_Permutation (v : list A) i j a b :
  nth_error v i = Some a -> nth_error v j = Some b ->
  Permutation v (update (update v i b) j a).
Proof.
  revert i j. induction v as [|h t IH]; intros [|i] [|j] Ea Eb; simpl in *;
    try discriminate.
  - injection Ea as ->. injection Eb as ->. reflexivity.
  - injection Ea as ->. now apply update_exchange.
  - injection Eb as ->. now apply update_exchange.
  - apply perm_skip. now apply IH.
Qed.

Lemma get_nth_error (v : list A) i a :
  get v i = Some a -> nth_error v (Z.to_nat i) = Some a.
Proof. unfold get. destruct (i <? 0); [discriminate|auto]. Qed.

Lemma swap_update (v v' : list A) i j :
  swap v i j = Some v' ->
  exists a b, get v i = Some a /\ get v j = Some b
              /\ v' = update (update v (Z.to_nat i) b) (Z.to_nat j) a.
Proof.
  unfold swap.
  destruct (get v i) as [a|] eqn:Ga; cbn [bind]; [|discriminate].
  destruct (get v j) as [b|] eqn:Gb; cbn [bind]; [|discriminate].
  unfold set. destruct (_ && _); cbn [bind]; [|discriminate].
  rewrite length_update. destruct (_ && _); [|discriminate].
  intros E. injection E as <-. eauto.
Qed.

Lemma swap_Permutation (v v' : list A) i j :
  swap v i j = Some v' -> Permutation v v'.
Proof.
  intros E. apply swap_update in E as (a & b & Ga & Gb & ->).
  apply update_update_Permutation; now apply get_nth_error.
Qed.

(** The entries of a swapped array. *)
Lemma nth_swap (v v' : list A) i j k d :
  swap v i j = Some v' ->
  nth k v' d
  = if Nat.eqb k (Z.to_nat j) then nth (Z.to_nat i) v d
    else if Nat.eqb k (Z.to_nat i) then nth (Z.to_nat j) v d
    else nth k v d.
Proof.
  intros E. apply swap_update in E as (a & b & Ga & Gb & ->).
  pose proof (get_Some_range _ _ _ Ga) as Ha.
  pose proof (get_Some_range _ _ _ Gb) as Hb.
  rewrite (get_nth v i d Ha) in Ga. rewrite (get_nth v j d Hb) in Gb.
  injection Ga as <-. injection Gb as <-.
  rewrite nth_update by (rewrite length_update; lia).
  rewrite nth_update by lia. reflexivity.
Qed.
End SwapFacts.

Lemma update_combine {A B : Type} (v : list A) (w : list B) k a b :
  update (combine v w) k (a, b) = combine (update v k a) (update w k b).
Proof.
  revert w k. induction v as [|x v IH]; intros w k.
  - reflexivity.
  - destruct w as [|y w].
    + destruct k; reflexivity.
    + destruct k; simpl; [reflexivity|]. f_equal. apply IH.
Qed.

Lemma swap_combine {A B : Type} (v v' : list A) (w w' : list B) i j :
  swap v i j = Some v' -> swap w i j = Some w' ->
  swap (combine v w) i j = Some (combine v' w').
Proof.
  intros Ev Ew.
  apply swap_update in Ev as (a & b & Ga & Gb & ->).
  apply swap_update in Ew as (c & d & Gc & Gd & ->).
  pose proof (get_Some_range _ _ _ Ga) as Ha.
  pose proof (get_Some_range _ _ _ Gb) as Hb.
  pose proof (get_Some_range _ _ _ Gc) as Hc.
  pose proof (get_Some_range _ _ _ Gd) as Hd.
  assert (Hl : Z.of_nat (length (combine v w))
               = Z.min (Z.of_nat (length v)) (Z.of_nat (length w)))
    by (rewrite length_combine; lia).
  assert (Gi : get (combine v w) i = Some (a, c)).
  { unfold get in *. destruct (i <? 0); [discriminate|].
    revert Ga Gc. generalize (Z.to_nat i) as k. clear.
    revert w. induction v as [|x v IH]; intros [|y w] [|k]; simpl;
      try discriminate; try congruence. apply IH. }
  assert (Gj : get (combine v w) j = Some (b, d)).
  { unfold get in *. destruct (j <? 0); [discriminate|].
    revert Gb Gd. generalize (Z.to_nat j) as k. clear.
    revert w. induction v as [|x v IH]; intros [|y w] [|k]; simpl;
      try discriminate; try congruence. apply IH. }
  unfold swap. rewrite Gi, Gj. cbn [bind]. unfold set.
  destruct (Z.leb_spec 0 i); [|lia].
  destruct (Z.ltb_spec i (Z.of_nat (length (combine v w)))); [|lia].
  cbn [andb bind]. rewrite length_update.
  destruct (Z.leb_spec 0 j); [|lia].
  destruct (Z.ltb_spec j (Z.of_nat (length (combine v w)))); [|lia].
  cbn [andb]. now rewrite !update_combine.
Qed.

Module SortFacts.
Import EigenSolver.

Section Sorting.
Context {S : Type} `{Scalar S}.
Local Abbreviation Matrix := (Matrix S).

(** [v[i]], for an index known to be in range. *)
Definition at_ (v : list S) (i : Z) : S := nth (Z.to_nat i) v zero.

(** Ascending order of the first [n] entries: [v[i] <= v[j]] for
    [i < j < n]. *)
Definition sorted_upto (n : Z) (v : list S) : Prop :=
  forall i j a b, 0 <= i -> i < j -> j < n ->
    get v i = Some a -> get v j = Some b -> sleb a b = true.

Lemma segment_spec v i len seg :
  segment v i len = Some seg ->
  0 <= i /\ 0 <= len /\ i + len <= Z.of_nat (length v)
  /\ Z.of_nat (length seg) = len
  /\ forall j, 0 <= j < len -> at_ seg j = at_ v (i + j).
Proof.
  unfold segment.
  destruct (Z.leb_spec 0 i); [|discriminate].
  destruct (Z.leb_spec 0 len); [|discriminate].
  destruct (Z.leb_spec (i + len) (Z.of_nat (length v))); [|discriminate].
  cbn [andb]. intros E. injection E as <-.
  repeat split; try lia.
  - rewrite length_firstn, length_skipn. lia.
  - intros j Hj. unfold at_. rewrite nth_firstn.
    destruct (Nat.ltb_spec (Z.to_nat j) (Z.to_nat len)); [|lia].
    rewrite nth_skipn. f_equal. lia.
Qed.

Lemma segment_Forall (P : S -> Prop) v i len seg :
  segment v i len = Some seg -> Forall P v -> Forall P seg.
Proof.
  unfold segment. destruct (_ && _); [|discriminate].
  intros E Hv. injection E as <-.
  rewrite <- (firstn_skipn (Z.to_nat i) v) in Hv.
  apply Forall_app in Hv as [_ Hv].
  rewrite <- (firstn_skipn (Z.to_nat len) (skipn (Z.to_nat i) v)) in Hv.
  now apply Forall_app in Hv as [Hv _].
Qed.

(** Whatever the comparisons answer, a turn of the sorting loop exchanges
    two eigenvalues and the two columns at the same places, or nothing. *)
Lemma sort_step_permutes n i ev (q : Matrix) ev' q' :
  sort_step n i (ev, q) = Some (ev', q') ->
  Permutation ev ev' /\ Permutation (combine ev q) (combine ev' q').
Proof.
  unfold sort_step.
  destruct (segment ev i (n - i)) as [seg|]; cbn [bind]; [|discriminate].
  destruct (minCoeff seg) as [k|]; cbn [bind]; [|discriminate].
  destruct (k >? 0).
  - destruct (swap ev i (k + i)) as [ev1|] eqn:Ev; cbn [bind];
      [|discriminate].
    destruct (swap q i (k + i)) as [q1|] eqn:Eq; cbn [bind]; [|discriminate].
    intros E. injection E as <- <-. split.
    + eapply swap_Permutation; eauto.
    + eapply swap_Permutation, swap_combine; eauto.
  - intros E. injection E as <- <-. split; reflexivity.
Qed.

Lemma sort_pass_permutes n ev (q : Matrix) ev' q' :
  sort_pass n (ev, q) = Some (ev', q') ->
  Permutation ev ev' /\ Permutation (combine ev q) (combine ev' q').
Proof.
  unfold sort_pass. intros E.
  apply (for_loop_preserves
           (fun st : list S * Matrix =>
              Permutation ev (fst st)
              /\ Permutation (combine ev q) (combine (fst st) (snd st))))
    in E; [exact E| |split; reflexivity].
  intros i [e1 q1] [e2 q2] _ [P1 P2] Hs. cbn [fst snd] in P1, P2 |- *.
  apply sort_step_permutes in Hs as [P3 P4].
  split; eapply perm_trans; eauto.
Qed.

(** The order of the eigenvalues, for comparisons that are a total order on
    the values [good] selects. *)
Variable good : S -> Prop.
Hypothesis order : OrderedOn good.

Lemma sltb_not_below a b x :
  good a -> good b -> good x ->
  sltb a b = true -> sltb x b = false -> sltb x a = false.
Proof.
  intros Ga Gb Gx Hab Hxb. destruct (sltb x a) eqn:E; [|reflexivity].
  rewrite (on_trans _ order _ _ _ Gx Ga Gb E Hab) in Hxb. discriminate.
Qed.

Lemma minCoeff_from_spec t : forall pre best k,
  Forall good (pre ++ t) ->
  (k < length pre)%nat -> nth k pre zero = best ->
  (forall x, In x pre -> sltb x best = false) ->
  exists kn,
    minCoeff_from t (Z.of_nat (length pre)) best (Z.of_nat k) = Z.of_nat kn
    /\ (kn < length (pre ++ t))%nat
    /\ forall x, In x (pre ++ t) -> sltb x (nth kn (pre ++ t) zero) = false.
Proof.
  induction t as [|a t IH]; intros pre best k Hg Hk Hb Hmin.
  - exists k. rewrite app_nil_r. simpl. subst best. auto.
  - assert (Hlen : (Z.of_nat (length pre) + 1)%Z
                   = Z.of_nat (length (pre ++ [a])))
      by (rewrite length_app; simpl; lia).
    assert (Happ : (pre ++ [a]) ++ t = pre ++ a :: t)
      by (rewrite <- app_assoc; reflexivity).
    pose proof (proj1 (Forall_forall good (pre ++ a :: t)) Hg) as Hin.
    assert (Ga : good a) by (apply Hin, in_or_app; right; now left).
    assert (Gbest : good best).
    { apply Hin, in_or_app. left. subst best. now apply nth_In. }
    simpl. destruct (sltb a best) eqn:Ea.
    + destruct (IH (pre ++ [a]) a (length pre)) as (kn & E & Hkn & Hall).
      * now rewrite Happ.
      * rewrite length_app. simpl. lia.
      * rewrite app_nth2 by lia. now rewrite Nat.sub_diag.
      * intros x Hx. apply in_app_or in Hx as [Hx|[<-|[]]].
        -- apply (sltb_not_below a best x); auto.
           apply Hin, in_or_app. now left.
        -- now apply (on_irrefl _ order).
      * exists kn. rewrite Hlen, E, <- Happ. auto.
    + destruct (IH (pre ++ [a]) best k) as (kn & E & Hkn & Hall).
      * now rewrite Happ.
      * rewrite length_app. simpl. lia.
      * rewrite app_nth1 by lia. exact Hb.
      * intros x Hx. apply in_app_or in Hx as [Hx|[<-|[]]]; auto.
      * exists kn. rewrite Hlen, E, <- Happ. auto.
Qed.

Lemma minCoeff_spec seg k :
  Forall good seg ->
  minCoeff seg = Some k ->
  0 <= k < Z.of_nat (length seg)
  /\ forall j, (j < length seg)%nat ->
       sltb (nth j seg zero) (at_ seg k) = false.
Proof.
  destruct seg as [|a t]; [discriminate|]. simpl. intros Hg E.
  injection E as <-.
  destruct (minCoeff_from_spec t [a] a 0%nat) as (kn & E & Hkn & Hall).
  - exact Hg.
  - simpl. lia.
  - reflexivity.
  - intros x [<-|[]]. apply (on_irrefl _ order). now inversion Hg.
  - simpl in E, Hkn, Hall. change 1%Z with (Z.of_nat 1). simpl Z.of_nat.
    rewrite E. split; [lia|]. intros j Hj. unfold at_.
    rewrite Nat2Z.id. apply Hall. apply (nth_In (a :: t)). exact Hj.
Qed.

(** The invariant of the sorting loop at index [i]. *)
Definition sort_inv (n : Z) (st0 : list S * Matrix) (i : Z)
    (st : list S * Matrix) : Prop :=
  Permutation (combine (fst st0) (snd st0)) (combine (fst st) (snd st))
  /\ length (fst st) = length (fst st0)
  /\ Forall good (fst st)
  /\ forall a b, 0 <= a < i -> a < b < n -> b < Z.of_nat (length (fst st)) ->
       sleb (at_ (fst st) a) (at_ (fst st) b) = true.

Lemma good_at (v : list S) i :
  Forall good v -> 0 <= i < Z.of_nat (length v) -> good (at_ v i).
Proof.
  intros Hv Hi. unfold at_.
  apply (proj1 (Forall_forall good v) Hv), nth_In. lia.
Qed.

Lemma sort_step_inv n st0 i st st' :
  0 <= i < n - 1 ->
  sort_inv n st0 i st -> sort_step n i st = Some st' ->
  sort_inv n st0 (i + 1) st'.
Proof.
  intros Hi (Hperm & Hlen & Hgood & Hsorted) Hstep.
  destruct st as [ev q], st' as [ev2 q2].
  pose proof (sort_step_permutes _ _ _ _ _ _ Hstep) as [Pev _].
  assert (Hgood' : Forall good ev2)
    by (eapply Permutation_Forall; [exact Pev|exact Hgood]).
  revert Hstep. unfold sort_step.
  destruct (segment ev i (n - i)) as [seg|] eqn:Eseg; cbn [bind];
    [|discriminate].
  destruct (minCoeff seg) as [k|] eqn:Ek; cbn [bind]; [|discriminate].
  pose proof (segment_Forall good _ _ _ _ Eseg Hgood) as Gseg.
  apply segment_spec in Eseg as (_ & _ & Hn & Hseg & Hnth).
  apply (minCoeff_spec _ _ Gseg) in Ek as (Hk & Hmin).
  assert (Hmin' : forall b, i <= b < n -> sleb (at_ ev (k + i)) (at_ ev b) = true).
  { intros b Hb. cbn [fst] in Hgood.
    apply (on_total _ order); try (apply good_at; [exact Hgood|lia]).
    replace (k + i) with (i + k) by lia. rewrite <- Hnth by lia.
    replace b with (i + (b - i)) by lia. rewrite <- Hnth by lia.
    apply Hmin. lia. }
  cbn [fst snd] in *.
  destruct (Z.gtb_spec k 0) as [Hk0|Hk0].
  - destruct (swap ev i (k + i)) as [ev'|] eqn:Ev; cbn [bind]; [|discriminate].
    destruct (swap q i (k + i)) as [q'|] eqn:Eq; cbn [bind]; [|discriminate].
    intros E. injection E as <- <-. unfold sort_inv. cbn [fst snd].
    split; [|split; [|split; [exact Hgood'|]]].
    + eapply perm_trans; [exact Hperm|].
      eapply swap_Permutation, swap_combine; eauto.
    + apply swap_length in Ev. congruence.
    + intros a b Ha Hb Hbl. unfold at_.
      rewrite !(fun k => nth_swap _ _ _ _ k zero Ev).
      rewrite (swap_length _ _ _ _ Ev) in Hbl.
      destruct (Nat.eqb_spec (Z.to_nat a) (Z.to_nat (k + i))); [lia|].
      destruct (Nat.eqb_spec (Z.to_nat a) (Z.to_nat i)) as [Eai|Eai].
      * assert (a = i) by lia. subst a.
        destruct (Nat.eqb_spec (Z.to_nat b) (Z.to_nat (k + i))).
        { apply (Hmin' i). lia. }
        destruct (Nat.eqb_spec (Z.to_nat b) (Z.to_nat i)); [lia|].
        apply (Hmin' b). lia.
      * assert (a < i) by lia.
        destruct (Nat.eqb_spec (Z.to_nat b) (Z.to_nat (k + i))).
        { apply (Hsorted a i); lia. }
        destruct (Nat.eqb_spec (Z.to_nat b) (Z.to_nat i)).
        { apply (Hsorted a (k + i)); lia. }
        apply (Hsorted a b); lia.
  - intros E. injection E as <- <-. unfold sort_inv. cbn [fst snd].
    split; [|split; [|split; [exact Hgood'|]]]; auto.
    intros a b Ha Hb Hbl. assert (k = 0) by lia. subst k.
    destruct (Z.eq_dec a i) as [->|Hai].
    + apply (Hmin' b). lia.
    + apply Hsorted; lia.
Qed.

Lemma sort_pass_inv n st0 st' :
  1 <= n -> Forall good (fst st0) ->
  sort_pass n st0 = Some st' -> sort_inv n st0 (n - 1) st'.
Proof.
  intros Hn Hg E. unfold sort_pass in E.
  eapply (for_loop_inv_partial (sort_inv n st0)) in E; [exact E|lia| |].
  - split; [reflexivity|]. split; [reflexivity|]. split; [exact Hg|].
    intros a b Ha. lia.
  - intros i t t' Hi. apply sort_step_inv. lia.
Qed.

(** The sorting pass leaves the first [n] eigenvalues in ascending order and
    every eigenvalue in front of the column it came with. *)
Lemma sort_pass_sorted_on n ev q ev' q' :
  1 <= n -> Forall good ev -> sort_pass n (ev, q) = Some (ev', q') ->
  sorted_upto n ev' /\ Permutation (combine ev q) (combine ev' q').
Proof.
  intros Hn Hg E.
  apply sort_pass_inv in E as (Hperm & Hlen & _ & Hsorted);
    [|exact Hn|exact Hg].
  cbn [fst snd] in *. split; [|exact Hperm].
  intros i j a b Hi Hij Hj Ga Gb.
  pose proof (get_Some_range _ _ _ Ga) as Ra.
  pose proof (get_Some_range _ _ _ Gb) as Rb.
  rewrite (get_nth ev' i zero Ra) in Ga. rewrite (get_nth ev' j zero Rb) in Gb.
  injection Ga as <-. injection Gb as <-.
  apply (Hsorted i j); lia.
Qed.
End Sorting.

Lemma sort_pass_sorted {S : Type} `{ScalarOrder S} n ev
    (q : EigenSolver.Matrix S) ev' q' :
  1 <= n -> sort_pass n (ev, q) = Some (ev', q') ->
  sorted_upto n ev' /\ Permutation (combine ev q) (combine ev' q').
Proof.
  intros Hn. apply (sort_pass_sorted_on (fun _ => True) ScalarOrder_on n);
    [exact Hn|].
  apply Forall_forall. auto.
Qed.

Section ComputeSorted.
Context {S : Type} `{Scalar S}.
Local Abbreviation Matrix := (Matrix S).
Variable makeGivens : S -> S -> S * S.
Variable applyOnTheRight : Matrix -> Z -> Z -> S * S -> Matrix.
Variable decomposeInPlace : Matrix -> bool -> Matrix * list S * list S.

(** C1, as amended. When [compute] returns on a matrix of size [n >= 1]:
    if the comparisons of the scalar type are a total order on the values
    [good] selects (on binary64: the values that are not NaN) and every
    eigenvalue returned is one of them, the eigenvalues are in ascending
    order; and in every case the sorting pass has kept every eigenvalue
    paired with its column: the pairs (eigenvalue, column) after the pass
    are a permutation of the pairs the QR iteration left. *)
Theorem compute_sorts_ordered_eigenvalues
    (good : S -> Prop) fuel self matrix computeEigenvectors st :
  OrderedOn good ->
  1 <= cols matrix ->
  compute makeGivens applyOnTheRight decomposeInPlace fuel self matrix
    computeEigenvectors = Done st ->
  (Forall good (m_eivalues st) ->
   sorted_upto (cols matrix) (m_eivalues st))
  /\ (cols matrix = 1
      \/ exists ls,
           qr_loop makeGivens applyOnTheRight fuel computeEigenvectors
             (cols matrix)
             {| ls_diag := snd (fst (decomposeInPlace matrix computeEigenvectors));
                ls_subdiag := snd (decomposeInPlace matrix computeEigenvectors);
                ls_eivec := fst (fst (decomposeInPlace matrix computeEigenvectors));
                ls_start := 0; ls_end := cols matrix - 1 |} = Done ls
           /\ Permutation (combine (ls_diag ls) (ls_eivec ls))
                          (combine (m_eivalues st) (m_eivec st))).
Proof.
  intros Hord Hn. unfold compute.
  destruct (negb (cols matrix =? rows matrix)); [discriminate|].
  destruct (Z.eqb_spec (cols matrix) 1) as [E1|E1].
  - destruct (coeff matrix 0 0); [|discriminate].
    intros E. injection E as <-. cbn [m_eivalues]. split; [|now left].
    intros _ i j a b Hi Hij Hj Ga Gb. apply get_Some_range in Gb.
    simpl in Gb. lia.
  - destruct (decomposeInPlace matrix computeEigenvectors) as [[q d] sd].
    cbn [fst snd].
    destruct (qr_loop _ _ _ _ _ _) as [ls| |]; try discriminate.
    destruct (sort_pass (cols matrix) (ls_diag ls, ls_eivec ls))
      as [[ev' q']|] eqn:Es; [|discriminate].
    intros E. injection E as <-. cbn [m_eivalues m_eivec].
    pose proof (sort_pass_permutes _ _ _ _ _ Es) as [Pev Ppairs].
    split.
    + intros Hg.
      apply (sort_pass_sorted_on good Hord) in Es as [Hs _];
        [exact Hs|exact Hn|].
      eapply Permutation_Forall; [apply Permutation_sym, Pev|exact Hg].
    + right. exists ls. auto.
Qed.
End ComputeSorted.
End SortFacts.

(* ================================================================= *)
(** ** Exact arithmetic: evaluating the kernels over the real numbers *)

Arguments Reqb : simpl never.
Arguments Rleb : simpl never.
Arguments Rltb : simpl never.

Lemma Reqb_true a b : a = b -> Reqb a b = true.
Proof. intros E. unfold Reqb. destruct (Req_dec_T a b); congruence. Qed.

Lemma Reqb_false a b : a <> b -> Reqb a b = false.
Proof. intros E. unfold Reqb. destruct (Req_dec_T a b); congruence. Qed.

Lemma Rltb_true a b : (a < b)%R -> Rltb a b = true.
Proof. intros E. unfold Rltb. destruct (Rlt_dec a b); tauto. Qed.

Lemma Rltb_false a b : (b <= a)%R -> Rltb a b = false.
Proof. intros E. unfold Rltb. destruct (Rlt_dec a b); [lra|reflexivity]. Qed.

Lemma Rleb_true a b : (a <= b)%R -> Rleb a b = true.
Proof. intros E. unfold Rleb. destruct (Rle_dec a b); tauto. Qed.

Lemma Rleb_false a b : (b < a)%R -> Rleb a b = false.
Proof. intros E. unfold Rleb. destruct (Rle_dec a b); [lra|reflexivity]. Qed.

Lemma Rltb_spec a b : reflect (a < b)%R (Rltb a b).
Proof. unfold Rltb. destruct (Rlt_dec a b); constructor; assumption. Qed.

Lemma Rleb_spec a b : reflect (a <= b)%R (Rleb a b).
Proof. unfold Rleb. destruct (Rle_dec a b); constructor; assumption. Qed.

Lemma Reqb_spec a b : reflect (a = b) (Reqb a b).
Proof. unfold Reqb. destruct (Req_dec_T a b); constructor; assumption. Qed.

(** The comparisons of the real numbers form a total order. *)
Lemma RScalarOrder eps prec : @ScalarOrder R (RScalar eps prec).
Proof.
  constructor; cbn [sltb sleb RScalar].
  - intros a. apply Rltb_false. lra.
  - intros a b c Hab Hbc.
    destruct (Rltb_spec a b); [|discriminate].
    destruct (Rltb_spec b c); [|discriminate].
    apply Rltb_true. lra.
  - intros a b Hba. destruct (Rltb_spec b a); [discriminate|].
    apply Rleb_true. lra.
Qed.

(** Closed counts of turns are computed; the decisions on real numbers are
    settled by linear arithmetic. *)
Ltac count_turns :=
  repeat match goal with
  | |- context [Z.to_nat ?e] =>
      let v := eval vm_compute in (Z.to_nat e) in
      progress change (Z.to_nat e) with v
  | |- context [Pos.to_nat ?e] =>
      let v := eval vm_compute in (Pos.to_nat e) in
      progress change (Pos.to_nat e) with v
  end.

Ltac decide_reals :=
  repeat match goal with
  | |- context [if ?c then ?x else ?x] =>
      replace (if c then x else x) with x by (destruct c; reflexivity)
  | |- context [Rabs ?a] =>
      first [ rewrite (Rabs_pos_eq a) by lra
            | rewrite (Rabs_left1 a) by lra ]
  | |- context [Reqb ?a ?b] =>
      first [ rewrite (Reqb_true a b) by lra
            | rewrite (Reqb_false a b) by lra ]
  | |- context [Rltb ?a ?b] =>
      first [ rewrite (Rltb_true a b) by lra
            | rewrite (Rltb_false a b) by lra ]
  | |- context [Rleb ?a ?b] =>
      first [ rewrite (Rleb_true a b) by lra
            | rewrite (Rleb_false a b) by lra ]
  end.

Ltac run_reals := repeat (progress (cbn; count_turns; cbn; decide_reals)).

(** Evaluation that keeps the operations on real numbers as they are, and
    settles the decisions it meets. *)
Ltac keep_reals :=
  cbv -[Rplus Rminus Rmult Rdiv Rinv Ropp IZR Reqb Rleb Rltb sqrt Rabs
        eps_double prec_double].
Ltac run_decisions := keep_reals; decide_reals; keep_reals.
Ltac run_exact := keep_reals.

(** Two structures that differ by the way their real numbers are written. *)
Ltac same_reals := repeat first [reflexivity | lra | progress f_equal].

Lemma sqrt_le_bound x b : (0 <= b)%R -> (x <= b * b)%R -> (sqrt x <= b)%R.
Proof.
  intros Hb Hx. rewrite <- (sqrt_square b Hb). now apply sqrt_le_1_alt.
Qed.

Lemma eps_double_pos : (0 < eps_double)%R.
Proof. unfold eps_double. apply Rinv_0_lt_compat. apply pow_lt. lra. Qed.

(** The instance of the real numbers with the constants of [double]. *)
Definition RDouble : Scalar R := RScalar eps_double prec_double.

Module EigenSolverExamples.
Import EigenSolver EigenSolverFacts SortFacts.
#[local] Existing Instance RDouble.
Local Open Scope R_scope.

Definition fresh_solver : Solver R :=
  {| m_eivec := []; m_eivalues := []; m_subdiag := [];
     m_eigenvectorsOk := false |}.

(** The diagonal matrix with entries 2 and 1: its eigenvalues come out as
    [1; 2], with the two columns of the identity exchanged. *)
Lemma compute_diagonal_2x2 flag :
  compute givens rotate_columns tridiagonal_parts 1 fresh_solver
    [[2; 0]; [0; 1]] flag
  = Done {| m_eivec := if flag then [[0; 1]; [1; 0]] else [[0; 1]; [2; 0]];
            m_eivalues := [1; 2];
            m_subdiag := [0];
            m_eigenvectorsOk := flag |}.
Proof.
  destruct flag; unfold compute, RDouble; cbn;
    unfold loop_body, deflate, sort_step, for_loop; run_reals; reflexivity.
Qed.

Lemma rotate_columns_cols (q : Matrix R) k k' rot :
  length (rotate_columns q k k' rot) = length q.
Proof.
  unfold rotate_columns. destruct rot as [c s].
  destruct (get q k) as [a|]; [|reflexivity].
  destruct (get q k') as [b|]; [|reflexivity].
  destruct (set q k _) as [q1|] eqn:E1; [|reflexivity].
  destruct (set q1 k' _) as [q2|] eqn:E2; [|reflexivity].
  apply set_length in E1, E2. congruence.
Qed.

Lemma eigenvalues_do_not_depend_on_flag_witness :
  let matrix := [[2; 1]; [1; 2]] in
  snd (fst (tridiagonal_parts matrix true))
    = snd (fst (tridiagonal_parts matrix false))
  /\ snd (tridiagonal_parts matrix true) = snd (tridiagonal_parts matrix false)
  /\ length (fst (fst (tridiagonal_parts matrix true)))
     = length (fst (fst (tridiagonal_parts matrix false)))
  /\ outcome_map (@m_eivalues R)
       (compute givens rotate_columns tridiagonal_parts 5 fresh_solver
          matrix true)
     = outcome_map (@m_eivalues R)
       (compute givens rotate_columns tridiagonal_parts 5 fresh_solver
          matrix false).
Proof.
  intros matrix. repeat split.
  apply (eigenvalues_do_not_depend_on_flag givens rotate_columns
           tridiagonal_parts rotate_columns_cols 5%nat fresh_solver matrix);
    reflexivity.
Defined.
End EigenSolverExamples.

(* ================================================================= *)
(** ** IEEE arithmetic: the deflation loop on NaN *)

Module NaNFacts.
Import EigenSolver.
#[local] Existing Instance FScalar.

Lemma Prim2SF_nan : Prim2SF nan = S754_nan.
Proof. reflexivity. Qed.




Lemma sub_nan_l x : PrimFloat.sub nan x = nan.
Proof.
  apply Prim2SF_inj. rewrite sub_spec, Prim2SF_nan. reflexivity.
Qed.

Section NaNLoop.
Variable makeGivens : float -> float -> float * float.
Variable applyOnTheRight :
  Matrix float -> Z -> Z -> float * float -> Matrix float.






End NaNLoop.
End NaNFacts.

(* ================================================================= *)
(** ** IEEE arithmetic: the order of the numbers, and the two zeros *)

Module FloatFacts.

(** A key of three integers for every value but NaN, on which the
    comparison of binary64 is the lexicographic order: the class of the
    value (the infinities, the negative and the positive numbers, the
    zeros), then the exponent and the mantissa, negated for a negative
    number. *)
Definition float_key (f : spec_float) : Z * Z * Z :=
  match f with
  | S754_nan => (0, 0, 0)
  | S754_zero _ => (0, 0, 0)
  | S754_infinity s => (if s then -2 else 2, 0, 0)
  | S754_finite s m e =>
      if s then (-1, - e, - Z.pos m) else (1, e, Z.pos m)
  end.

Definition key_lt (a b : Z * Z * Z) : Prop :=
  let '(a1, a2, a3) := a in
  let '(b1, b2, b3) := b in
  a1 < b1 \/ (a1 = b1 /\ (a2 < b2 \/ (a2 = b2 /\ a3 < b3))).

Definition key_le (a b : Z * Z * Z) : Prop :=
  let '(a1, a2, a3) := a in
  let '(b1, b2, b3) := b in
  a1 < b1 \/ (a1 = b1 /\ (a2 < b2 \/ (a2 = b2 /\ a3 <= b3))).

Ltac by_key ma mb ea eb :=
  destruct (Z.compare_spec ea eb); [subst| |];
  [ change (Pos.compare_cont Eq ma mb) with (Z.pos ma ?= Z.pos mb);
    destruct (Z.compare_spec (Z.pos ma) (Z.pos mb)); cbn;
    (split; [try discriminate; lia|try reflexivity; lia])
  | first [split; [discriminate|lia] | split; [lia|reflexivity]]
  | first [split; [discriminate|lia] | split; [lia|reflexivity]] ].

Lemma SFltb_key a b :
  a <> S754_nan -> b <> S754_nan ->
  SFltb a b = true <-> key_lt (float_key a) (float_key b).
Proof.
  intros Ha Hb. unfold SFltb, SFcompare.
  destruct a as [sa|sa| |sa ma ea], b as [sb|sb| |sb mb eb];
    try congruence; try destruct sa; try destruct sb; cbn;
    try (split; [discriminate|lia]); try (split; [reflexivity|lia]);
    try (split; [lia|reflexivity]); by_key ma mb ea eb.
Qed.

Lemma SFleb_key a b :
  a <> S754_nan -> b <> S754_nan ->
  SFleb a b = true <-> key_le (float_key a) (float_key b).
Proof.
  intros Ha Hb. unfold SFleb, SFcompare.
  destruct a as [sa|sa| |sa ma ea], b as [sb|sb| |sb mb eb];
    try congruence; try destruct sa; try destruct sb; cbn;
    try (split; [discriminate|lia]); try (split; [reflexivity|lia]);
    try (split; [lia|reflexivity]); by_key ma mb ea eb.
Qed.

Lemma is_nan_Prim2SF x : is_nan x = false -> Prim2SF x <> S754_nan.
Proof.
  unfold is_nan. rewrite FloatAxioms.eqb_spec. intros E N.
  rewrite N in E. discriminate.
Qed.

Lemma float_ltb_irrefl a : is_nan a = false -> PrimFloat.ltb a a = false.
Proof.
  intros Ha. apply is_nan_Prim2SF in Ha. rewrite FloatAxioms.ltb_spec.
  destruct (SFltb (Prim2SF a) (Prim2SF a)) eqn:E; [|reflexivity].
  apply SFltb_key in E; try assumption.
  destruct (float_key (Prim2SF a)) as [[a1 a2] a3]. cbn in E. lia.
Qed.

Lemma float_ltb_trans a b c :
  is_nan a = false -> is_nan b = false -> is_nan c = false ->
  PrimFloat.ltb a b = true -> PrimFloat.ltb b c = true ->
  PrimFloat.ltb a c = true.
Proof.
  intros Ha Hb Hc. apply is_nan_Prim2SF in Ha, Hb, Hc.
  rewrite !FloatAxioms.ltb_spec. rewrite !SFltb_key by assumption.
  destruct (float_key (Prim2SF a)) as [[a1 a2] a3].
  destruct (float_key (Prim2SF b)) as [[b1 b2] b3].
  destruct (float_key (Prim2SF c)) as [[c1 c2] c3]. cbn. lia.
Qed.

Lemma float_leb_of_not_ltb a b :
  is_nan a = false -> is_nan b = false ->
  PrimFloat.ltb b a = false -> PrimFloat.leb a b = true.
Proof.
  intros Ha Hb. apply is_nan_Prim2SF in Ha, Hb.
  rewrite FloatAxioms.ltb_spec, FloatAxioms.leb_spec. intros E.
  apply SFleb_key; try assumption.
  assert (N : ~ key_lt (float_key (Prim2SF b)) (float_key (Prim2SF a))).
  { intros K. apply SFltb_key in K; try assumption. congruence. }
  destruct (float_key (Prim2SF a)) as [[a1 a2] a3].
  destruct (float_key (Prim2SF b)) as [[b1 b2] b3]. cbn in *. lia.
Qed.

(** The comparisons of binary64 are a total order on the values that are
    not NaN. *)
Lemma float_order : OrderedOn (H := FScalar) (fun x => is_nan x = false).
Proof.
  split.
  - exact float_ltb_irrefl.
  - exact float_ltb_trans.
  - exact float_leb_of_not_ltb.
Qed.

End FloatFacts.

(* ================================================================= *)
(** ** The sorting pass on binary64 *)

Module SortExamples.
Import EigenSolver SortFacts.
#[local] Existing Instance FScalar.

Definition float_solver : Solver float :=
  {| m_eivec := []; m_eivalues := []; m_subdiag := [];
     m_eigenvectorsOk := false |}.

(** C1, the claim as stated fails: on the symmetric matrix with NaN at
    (0, 0) and zeros elsewhere [compute] returns the eigenvalues [NaN; 0].
    The subdiagonal entry is zero, so the loop leaves at once; the minimum
    search keeps NaN in front, because [0 < NaN] is false; and
    [NaN <= 0] is false. *)
Lemma compute_leaves_nan_unsorted :
  let matrix := [[nan; 0]; [0; 0]]%float in
  cols matrix = rows matrix
  /\ 1 <= cols matrix
  /\ exists st,
       compute givens rotate_columns tridiagonal_parts 1 float_solver
         matrix true = Done st
       /\ m_eivalues st = [nan; 0]%float
       /\ get (m_eivalues st) 0 = Some nan
       /\ get (m_eivalues st) 1 = Some 0%float
       /\ PrimFloat.leb nan 0 = false
       /\ ~ sorted_upto (cols matrix) (m_eivalues st).
Proof.
  intros matrix. split; [reflexivity|]. split; [cbn; lia|].
  eexists. split; [vm_compute; reflexivity|].
  cbn [m_eivalues]. repeat split.
  intros Hs.
  specialize (Hs 0 1 nan 0%float ltac:(lia) ltac:(lia) ltac:(cbn; lia)
                eq_refl eq_refl).
  vm_compute in Hs. discriminate.
Qed.

(** On binary64, for a tridiagonal matrix of size 3: no eigenvalue is NaN,
    and they come out in ascending order. *)
Lemma compute_sorts_ordered_eigenvalues_witness :
  let matrix := [[4; 1; 0]; [1; 3; 1]; [0; 1; 1]]%float in
  OrderedOn (fun x : float => is_nan x = false)
  /\ 1 <= cols matrix
  /\ exists st,
       compute givens rotate_columns tridiagonal_parts 9 float_solver
         matrix true = Done st
       /\ Forall (fun x => is_nan x = false) (m_eivalues st)
       /\ sorted_upto (cols matrix) (m_eivalues st).
Proof.
  intros matrix. split; [exact FloatFacts.float_order|].
  split; [cbn; lia|].
  eexists. split; [vm_compute; reflexivity|].
  match goal with
  | |- Forall ?P ?l /\ _ =>
      assert (Hg : Forall P l) by (cbn [m_eivalues]; repeat constructor)
  end.
  split; [exact Hg|].
  refine (proj1 (compute_sorts_ordered_eigenvalues givens rotate_columns
                   tridiagonal_parts (fun x => is_nan x = false) 9%nat
                   float_solver matrix true _ FloatFacts.float_order
                   ltac:(cbn; lia) _) Hg).
  vm_compute. reflexivity.
Defined.
End SortExamples.

(* ================================================================= *)
(** ** The deflation loop: when it leaves, and when it does not *)

Module DeflationFacts.
Import EigenSolver SortFacts.

Section Leaves.
Context {S : Type} `{Scalar S}.
Local Abbreviation Matrix := (Matrix S).
Variable makeGivens : S -> S -> S * S.
Variable applyOnTheRight : Matrix -> Z -> Z -> S * S -> Matrix.
Variable decomposeInPlace : Matrix -> bool -> Matrix * list S * list S.

(** The test of the deflation scan on entry [i]. *)
Definition negligible (diag subdiag : list S) (i : Z) : bool :=
  ei_isMuchSmallerThan (ei_abs (at_ subdiag i))
    (sadd (ei_abs (at_ diag i)) (ei_abs (at_ diag (i + 1)))).

(** An entry that the scan zeroes, or that is zero already. *)
Definition vanishes (diag subdiag : list S) (i : Z) : Prop :=
  negligible diag subdiag i = true \/ seqb (at_ subdiag i) zero = true.

Lemma get_at (v : list S) i :
  0 <= i < Z.of_nat (length v) -> get v i = Some (at_ v i).
Proof. intros Hi. unfold at_. now apply get_nth. Qed.

Lemma at_set (v v' : list S) i a k :
  set v i a = Some v' -> 0 <= k ->
  at_ v' k = if k =? i then a else at_ v k.
Proof.
  intros E Hk. unfold at_. rewrite (nth_set _ _ _ _ _ _ E).
  pose proof (set_Some_range _ _ _ _ E).
  destruct (Nat.eqb_spec (Z.to_nat k) (Z.to_nat i)), (Z.eqb_spec k i);
    try reflexivity; lia.
Qed.

Lemma deflate_scan diag subdiag start end_ :
  0 <= start <= end_ ->
  end_ <= Z.of_nat (length subdiag) ->
  end_ + 1 <= Z.of_nat (length diag) ->
  exists sd,
    deflate diag subdiag start end_ = Some sd
    /\ length sd = length subdiag
    /\ forall i, 0 <= i ->
         at_ sd i = if (start <=? i) && (i <? end_) && negligible diag subdiag i
                    then zero else at_ subdiag i.
Proof.
  intros Hs He Hd. unfold deflate.
  destruct (for_loop_inv
    (fun k sd => length sd = length subdiag
       /\ forall i, 0 <= i ->
            at_ sd i = if (start <=? i) && (i <? k) && negligible diag subdiag i
                       then zero else at_ subdiag i)
    start end_
    (fun i subdiag =>
       si <- get subdiag i ;;
       di <- get diag i ;;
       di1 <- get diag (i + 1) ;;
       if ei_isMuchSmallerThan (ei_abs si) (sadd (ei_abs di) (ei_abs di1))
       then set subdiag i zero
       else Some subdiag)
    subdiag) as (sd & E & Hl & Hsd); [lia| | |eauto].
  - split; [reflexivity|]. intros i Hi.
    destruct (Z.leb_spec start i), (Z.ltb_spec i start); cbn [andb];
      try reflexivity; lia.
  - intros k sd Hk (Hl & Hsd).
    rewrite (get_at sd k) by lia. rewrite (get_at diag k) by lia.
    rewrite (get_at diag (k + 1)) by lia. cbn [bind].
    assert (Ek : at_ sd k = at_ subdiag k).
    { rewrite Hsd by lia. destruct (Z.ltb_spec k k); [lia|].
      now rewrite andb_false_r. }
    rewrite Ek. fold (negligible diag subdiag k).
    destruct (negligible diag subdiag k) eqn:En.
    + destruct (set_in_range sd k zero) as [sd' Es]; [lia|].
      exists sd'. split; [exact Es|]. split.
      * apply set_length in Es. congruence.
      * intros i Hi. rewrite (at_set _ _ _ _ _ Es Hi), Hsd by lia.
        destruct (Z.eqb_spec i k) as [->|Hik].
        -- rewrite En. destruct (Z.leb_spec start k), (Z.ltb_spec k (k + 1));
             try lia. reflexivity.
        -- destruct (Z.ltb_spec i k), (Z.ltb_spec i (k + 1)); try lia;
             reflexivity.
    + exists sd. split; [reflexivity|]. split; [exact Hl|].
      intros i Hi. rewrite Hsd by lia.
      destruct (Z.eq_dec i k) as [->|Hik].
      * rewrite En, !andb_false_r. reflexivity.
      * destruct (Z.ltb_spec i k), (Z.ltb_spec i (k + 1)); try lia;
          reflexivity.
Qed.

Lemma find_end_all_zero sd : forall cnt e,
  e = Z.of_nat cnt -> e <= Z.of_nat (length sd) ->
  (forall i, 0 <= i < e -> seqb (at_ sd i) zero = true) ->
  find_end cnt sd e = Some 0.
Proof.
  induction cnt as [|c IH]; intros e He Hl Hz.
  - simpl. f_equal. lia.
  - cbn [find_end]. destruct (Z.gtb_spec e 0); [|lia].
    rewrite (get_at sd (e - 1)) by lia. cbn [bind].
    rewrite Hz by lia. apply IH; try lia. intros i Hi. apply Hz. lia.
Qed.

Lemma minCoeff_from_bound t : forall i best k,
  0 <= k < i ->
  0 <= minCoeff_from t i best k < i + Z.of_nat (length t).
Proof.
  induction t as [|a t IH]; intros i best k Hk; simpl; [lia|].
  destruct (sltb a best).
  - specialize (IH (i + 1) a i). lia.
  - specialize (IH (i + 1) best k). lia.
Qed.

Lemma sort_step_total n i (ev : list S) (q : Matrix) :
  0 <= i < n - 1 -> n <= Z.of_nat (length ev) -> n <= Z.of_nat (length q) ->
  exists ev' q',
    sort_step n i (ev, q) = Some (ev', q')
    /\ length ev' = length ev /\ length q' = length q.
Proof.
  intros Hi He Hq. unfold sort_step, segment.
  destruct (Z.leb_spec 0 i); [|lia].
  destruct (Z.leb_spec 0 (n - i)); [|lia].
  destruct (Z.leb_spec (i + (n - i)) (Z.of_nat (length ev))); [|lia].
  cbn [andb bind].
  destruct (firstn (Z.to_nat (n - i)) (skipn (Z.to_nat i) ev))
    as [|a t] eqn:Eseg.
  { apply (f_equal (@length S)) in Eseg.
    rewrite length_firstn, length_skipn in Eseg. simpl in Eseg. lia. }
  cbn [minCoeff bind].
  pose proof (minCoeff_from_bound t 1 a 0 ltac:(lia)) as Hk.
  assert (Hlen : Z.of_nat (length (a :: t)) = n - i).
  { rewrite <- Eseg, length_firstn, length_skipn. lia. }
  simpl length in Hlen.
  destruct (minCoeff_from t 1 a 0 >? 0); [|eauto].
  set (k := minCoeff_from t 1 a 0) in *.
  destruct (get_in_range ev i) as [x Gx]; [lia|].
  destruct (get_in_range ev (k + i)) as [y Gy]; [lia|].
  destruct (get_in_range q i) as [cx Gcx]; [lia|].
  destruct (get_in_range q (k + i)) as [cy Gcy]; [lia|].
  unfold swap. rewrite Gx, Gy, Gcx, Gcy. cbn [bind].
  destruct (set_in_range ev i y) as [ev1 E1]; [lia|].
  destruct (set_in_range q i cy) as [q1 E2]; [lia|].
  rewrite E1, E2. cbn [bind].
  pose proof (set_length _ _ _ _ E1). pose proof (set_length _ _ _ _ E2).
  destruct (set_in_range ev1 (k + i) x) as [ev2 E3]; [lia|].
  destruct (set_in_range q1 (k + i) cx) as [q2 E4]; [lia|].
  rewrite E3, E4. cbn [bind].
  pose proof (set_length _ _ _ _ E3). pose proof (set_length _ _ _ _ E4).
  exists ev2, q2. repeat split; congruence.
Qed.

Lemma sort_pass_total n (ev : list S) (q : Matrix) :
  1 <= n -> n <= Z.of_nat (length ev) -> n <= Z.of_nat (length q) ->
  exists st, sort_pass n (ev, q) = Some st.
Proof.
  intros Hn He Hq. unfold sort_pass.
  destruct (for_loop_inv
    (fun _ st => length (fst st) = length ev /\ length (snd st) = length q)
    0 (n - 1) (sort_step n) (ev, q)) as (st & E & _); [lia|split; reflexivity| |eauto].
  intros i [ev1 q1] Hi [H1 H2]. cbn [fst snd] in H1, H2.
  destruct (sort_step_total n i ev1 q1) as (ev2 & q2 & E & H3 & H4); try lia.
  exists (ev2, q2). split; [exact E|]. cbn [fst snd]. split; congruence.
Qed.

(** On every scalar type, binary64 among them, [compute] returns within one
    turn of the loop when the deflation scan finds every subdiagonal entry
    negligible or zero: no QR step is run. *)
Lemma compute_returns_when_subdiag_vanishes
    fuel self matrix computeEigenvectors q d sd :
  cols matrix = rows matrix ->
  2 <= cols matrix ->
  decomposeInPlace matrix computeEigenvectors = (q, d, sd) ->
  Z.of_nat (length d) = cols matrix ->
  Z.of_nat (length sd) = cols matrix - 1 ->
  Z.of_nat (length q) = cols matrix ->
  seqb zero zero = true ->
  (forall i, 0 <= i < cols matrix - 1 -> vanishes d sd i) ->
  exists st,
    compute makeGivens applyOnTheRight decomposeInPlace (Datatypes.S fuel)
      self matrix computeEigenvectors = Done st.
Proof.
  intros Hsq Hn Hdip Hd Hsd Hq Hz Hv. unfold compute.
  destruct (Z.eqb_spec (cols matrix) (rows matrix)); [|contradiction].
  cbn [negb]. destruct (Z.eqb_spec (cols matrix) 1); [lia|].
  rewrite Hdip. cbn [qr_loop ls_end].
  destruct (Z.gtb_spec (cols matrix - 1) 0); [|lia].
  unfold loop_body. cbn [ls_diag ls_subdiag ls_start ls_end ls_eivec].
  destruct (deflate_scan d sd 0 (cols matrix - 1)) as (sd' & -> & Hl & Hsd');
    try lia.
  cbn [bind].
  rewrite (find_end_all_zero sd' (Z.to_nat (cols matrix - 1))); try lia.
  - cbn [bind]. change (0 <=? 0) with true. cbv iota.
    cbn [ls_diag ls_subdiag ls_eivec].
    destruct (sort_pass_total (cols matrix) d q) as ([ev' q'] & ->); try lia.
    eauto.
  - intros i Hi. rewrite Hsd' by lia.
    destruct (Z.leb_spec 0 i), (Z.ltb_spec i (cols matrix - 1)); try lia.
    cbn [andb]. destruct (Hv i Hi) as [Hneg|Hzero].
    + now rewrite Hneg.
    + destruct (negligible d sd i); [exact Hz|exact Hzero].
Qed.
End Leaves.


Lemma compute_returns_when_subdiag_vanishes_witness :
  let matrix := [[2; 0]; [0; 1]]%float in
  let self := {| m_eivec := []; m_eivalues := []; m_subdiag := [];
                 m_eigenvectorsOk := false |} in
  cols matrix = rows matrix
  /\ 2 <= cols matrix
  /\ (forall i, 0 <= i < cols matrix - 1 ->
        vanishes (H := FScalar) [2; 1]%float [0]%float i)
  /\ exists st,
       compute (H := FScalar) (givens (H := FScalar))
         (rotate_columns (H := FScalar)) (tridiagonal_parts (H := FScalar))
         1 self matrix true = Done st.
Proof.
  intros matrix self.
  assert (Hv : forall i, 0 <= i < cols matrix - 1 ->
                 vanishes (H := FScalar) [2; 1]%float [0]%float i).
  { intros i Hi. assert (i = 0) as -> by (cbn in Hi; lia).
    left. vm_compute. reflexivity. }
  repeat split; try exact Hv; try (cbn; lia).
  apply (compute_returns_when_subdiag_vanishes (H := FScalar)
           (givens (H := FScalar)) (rotate_columns (H := FScalar))
           (tridiagonal_parts (H := FScalar)) 0%nat self matrix true
           (identity (H := FScalar) 2) [2; 1]%float [0]%float);
    try reflexivity; try (cbn; lia). exact Hv.
Defined.
End DeflationFacts.

(* ================================================================= *)
(** ** The deflation loop in exact arithmetic: blocks of size 2 *)

Module DeflationExact.
Import EigenSolver SortFacts DeflationFacts.

Section SmallBlocks.
Variables eps prec : R.
#[local] Hint Extern 0 (Scalar R) =>
  exact (RScalar eps prec) : typeclass_instances.
Local Abbreviation Matrix := (Matrix R).
Variable makeGivens : R -> R -> R * R.
Variable applyOnTheRight : Matrix -> Z -> Z -> R * R -> Matrix.
Variable decomposeInPlace : Matrix -> bool -> Matrix * list R * list R.

(** The rotation [(c, s)] made for [(x, z)] sends it to a pair whose second
    entry is zero. *)
Hypothesis makeGivens_zeroes :
  forall x z, (snd (makeGivens x z) * x + fst (makeGivens x z) * z = 0)%R.
(** A rotation keeps the number of columns. *)
Hypothesis applyOnTheRight_cols :
  forall q k k' rot, length (applyOnTheRight q k k' rot) = length q.








End SmallBlocks.




End DeflationExact.

(* ================================================================= *)
(** ** The skyline LU: [m_succeeded] and the value returned by [solve] *)

Module SkylineFacts.
Import Skyline.

Section Members.
Context {S : Type} `{Scalar S}.
Local Abbreviation SkylineInplaceLU := (@SkylineInplaceLU S).

(** The operations of the class on an object that was constructed. *)
Inductive Op : Type :=
| OpSetPrecision (v : S)
| OpSetFlags (f : Z)
| OpSetOrderingMethod (m : Z)
| OpCompute
| OpComputeRowMajor
| OpSolve (b x : list S) (transposed : Z).

(** [solve] is a [const] member: it leaves the object as it is. *)
Definition run_op (lu : SkylineInplaceLU) (op : Op) : option SkylineInplaceLU :=
  match op with
  | OpSetPrecision v => Some (setPrecision lu v)
  | OpSetFlags f => Some (setFlags lu f)
  | OpSetOrderingMethod m => Some (setOrderingMethod lu m)
  | OpCompute => compute lu
  | OpComputeRowMajor => computeRowMajor lu
  | OpSolve b x t =>
      match solve lu b x t with
      | Some _ => Some lu
      | None => None
      end
  end.

Fixpoint run_ops (lu : SkylineInplaceLU) (ops : list Op)
  : option SkylineInplaceLU :=
  match ops with
  | [] => Some lu
  | op :: ops' =>
      match run_op lu op with
      | Some lu' => run_ops lu' ops'
      | None => None
      end
  end.

Lemma compute_m_succeeded lu lu' :
  compute lu = Some lu' -> m_succeeded lu' = m_succeeded lu.
Proof.
  unfold compute. destruct (IsRowMajor (m_lu lu)); [discriminate|].
  destruct (for_loop _ _ _ _); cbn [bind]; [|discriminate].
  intros E. injection E as <-. reflexivity.
Qed.

Lemma computeRowMajor_m_succeeded lu lu' :
  computeRowMajor lu = Some lu' -> m_succeeded lu' = m_succeeded lu.
Proof.
  unfold computeRowMajor. destruct (IsRowMajor (m_lu lu)); [|discriminate].
  destruct (for_loop _ _ _ _); cbn [bind]; [|discriminate].
  intros E. injection E as <-. reflexivity.
Qed.

Lemma run_op_m_succeeded lu op lu' :
  run_op lu op = Some lu' -> m_succeeded lu' = m_succeeded lu.
Proof.
  destruct op; cbn [run_op]; intros E.
  - injection E as <-. reflexivity.
  - injection E as <-. reflexivity.
  - injection E as <-. reflexivity.
  - now apply compute_m_succeeded.
  - now apply computeRowMajor_m_succeeded.
  - destruct (solve lu b x transposed); [|discriminate].
    injection E as <-. reflexivity.
Qed.

(** C9. Nothing stores a value in [m_succeeded]: not the constructor, and
    none of the operations that may follow it; [succeeded()] returns the
    indeterminate content of the member, whatever the factorization did. *)
Theorem m_succeeded_is_never_written matrix flags ops lu lu' :
  make matrix flags = Some lu ->
  run_ops lu ops = Some lu' ->
  succeeded lu = None /\ succeeded lu' = None.
Proof.
  intros Hmake Hops. unfold succeeded.
  assert (H0 : m_succeeded lu = None).
  { unfold make in Hmake. cbn [m_lu] in Hmake.
    destruct (IsRowMajor matrix).
    - apply computeRowMajor_m_succeeded in Hmake. exact Hmake.
    - apply compute_m_succeeded in Hmake. exact Hmake. }
  split; [exact H0|]. rewrite <- H0. clear H0 Hmake.
  revert lu Hops. induction ops as [|op ops IH]; intros lu Hops;
    cbn [run_ops] in Hops.
  - now injection Hops as <-.
  - destruct (run_op lu op) as [lu1|] eqn:E; [|discriminate].
    rewrite (IH lu1 Hops). exact (run_op_m_succeeded lu op lu1 E).
Qed.
End Members.
Section Solve.
Context {S : Type} `{Scalar S}.
Local Abbreviation SkylineMatrix := (@SkylineMatrix S).
Local Abbreviation SkylineInplaceLU := (@SkylineInplaceLU S).

(** A skyline matrix whose profiles fit: one profile of each kind per outer
    index, and in row-major storage no profile longer than its index. *)
Definition fits (store : list (list S)) : Prop :=
  forall o p, get store o = Some p -> Z.of_nat (length p) <= o.

Definition well_formed (m : SkylineMatrix) : Prop :=
  length (sk_lower m) = length (sk_diag m)
  /\ length (sk_upper m) = length (sk_diag m)
  /\ (IsRowMajor m = true -> fits (sk_lower m) /\ fits (sk_upper m)).

Lemma it_size_profile (store : list (list S)) (it : Iter) (p : list S) :
  get store (it_outer it) = Some p -> it_size store it = Z.of_nat (length p).
Proof. intros G. unfold it_size, profile. now rewrite G. Qed.

Lemma it_value_in_profile (store : list (list S)) (it : Iter) (p : list S) :
  get store (it_outer it) = Some p ->
  0 <= it_pos it < Z.of_nat (length p) ->
  exists a, it_value store it = Some a.
Proof.
  intros G Hp. unfold it_value. rewrite G. cbn [bind].
  now apply get_in_range.
Qed.

Lemma solve_forward_row_total (m : SkylineMatrix) (b : list S) row
    (x : list S) :
  well_formed m -> 0 <= row < sk_rows m ->
  Z.of_nat (length b) = sk_rows m -> Z.of_nat (length x) = sk_rows m ->
  exists x', solve_forward_row m b row x = Some x' /\ length x' = length x.
Proof.
  intros (Hl & Hu & Hfit) Hrow Hb Hx. unfold solve_forward_row, sk_rows in *.
  destruct (get_in_range b row) as [brow ->]; [lia|]. cbn [bind].
  destruct (set_in_range x row brow) as [x1 E1]; [lia|]. rewrite E1.
  cbn [bind]. pose proof (set_length _ _ _ _ E1) as Hx1.
  destruct (get_in_range x1 row) as [nv ->]; [lia|]. cbn [bind].
  destruct (get_in_range (sk_lower m) row) as [p Gp]; [lia|].
  assert (Hloop : exists st,
    while_loop (Z.to_nat (row - lower_col m (it_begin row)))
      (fun '(newVal, col, lIt) => (lower_col m lIt <? row))
      (fun '(newVal, col, lIt) =>
         xc <- get x1 col ;;
         l <- it_value (sk_lower m) lIt ;;
         Some (ssub newVal (smul xc l), (col + 1), it_shift lIt 1))
      (nv, lower_col m (it_begin row), it_begin row) = Some st).
  { destruct (IsRowMajor m) eqn:Hrm.
    - destruct (Hfit eq_refl) as [Hfl _]. pose proof (Hfl row p Gp) as Hp.
      assert (Hstart : lower_col m (it_begin row)
                       = row - Z.of_nat (length p)).
      { unfold lower_col, it_index. rewrite Hrm.
        rewrite (it_size_profile _ _ p) by exact Gp.
        cbn [it_begin it_outer it_pos]. lia. }
      rewrite Hstart.
      destruct (while_loop_inv
        (fun st : S * Z * Iter =>
           it_outer (snd st) = row
           /\ 0 <= it_pos (snd st) <= Z.of_nat (length p)
           /\ snd (fst st) = row - Z.of_nat (length p) + it_pos (snd st))
        (fun st => Z.to_nat (Z.of_nat (length p) - it_pos (snd st)))
        (fun '(newVal, col, lIt) => (lower_col m lIt <? row))
        (fun '(newVal, col, lIt) =>
           xc <- get x1 col ;;
           l <- it_value (sk_lower m) lIt ;;
           Some (ssub newVal (smul xc l), (col + 1), it_shift lIt 1))
        (Z.to_nat (row - (row - Z.of_nat (length p))))
        (nv, row - Z.of_nat (length p), it_begin row))
        as (st & E & _); [| | |eauto].
      + cbn [snd fst it_begin it_outer it_pos]. lia.
      + cbn [snd it_begin it_pos]. lia.
      + intros [[nv' col] lIt] (Ho & Hpos & Hcol) Hc.
        cbn [snd fst] in Ho, Hpos, Hcol.
        assert (Gp' : get (sk_lower m) (it_outer lIt) = Some p)
          by (rewrite Ho; exact Gp).
        unfold lower_col, it_index in Hc. rewrite Hrm in Hc.
        rewrite (it_size_profile _ _ p Gp'), Ho in Hc.
        apply Z.ltb_lt in Hc.
        destruct (get_in_range x1 col) as [xc ->]; [lia|]. cbn [bind].
        destruct (it_value_in_profile _ lIt p Gp') as [l ->]; [lia|].
        cbn [bind]. eexists. split; [reflexivity|].
        cbn [snd fst it_shift it_outer it_pos]. repeat split; lia.
    - exists (nv, lower_col m (it_begin row), it_begin row).
      apply while_loop_false. unfold lower_col. rewrite Hrm.
      cbn [it_begin it_outer]. apply Z.ltb_irrefl. }
  destruct Hloop as ([[nv' col'] lIt'] & ->). cbn [bind].
  destruct (set_in_range x1 row nv') as [x2 E2]; [lia|].
  exists x2. split; [exact E2|]. apply set_length in E2. congruence.
Qed.

Lemma solve_backward_col_total (m : SkylineMatrix) col (x : list S) :
  well_formed m -> 0 <= col < sk_rows m ->
  Z.of_nat (length x) = sk_rows m ->
  exists x', solve_backward_col m col x = Some x' /\ length x' = length x.
Proof.
  intros (Hl & Hu & Hfit) Hcol Hx. unfold solve_backward_col, sk_rows in *.
  destruct (get_in_range x col) as [xc ->]; [lia|]. cbn [bind].
  unfold coeffDiag. destruct (get_in_range (sk_diag m) col) as [d ->]; [lia|].
  cbn [bind].
  destruct (set_in_range x col (sdiv xc d)) as [x1 E1]; [lia|]. rewrite E1.
  cbn [bind]. pose proof (set_length _ _ _ _ E1) as Hx1.
  destruct (get_in_range x1 col) as [x_col ->]; [lia|]. cbn [bind].
  destruct (get_in_range (sk_upper m) col) as [p Gp]; [lia|].
  assert (Hsize : it_size (sk_upper m) (it_begin col) = Z.of_nat (length p))
    by (apply it_size_profile; exact Gp).
  assert (Hsize' : forall k,
            it_size (sk_upper m) (it_shift (it_begin col) k)
            = Z.of_nat (length p))
    by (intros k; apply it_size_profile; exact Gp).
  rewrite Hsize, Hsize'.
  assert (Hp : IsRowMajor m = true -> Z.of_nat (length p) <= col).
  { intros Hrm. destruct (Hfit Hrm) as [_ Hfu]. exact (Hfu col p Gp). }
  destruct (while_loop_inv
    (fun st : list S * Iter =>
       length (fst st) = length x1
       /\ it_outer (snd st) = col
       /\ -1 <= it_pos (snd st) < Z.of_nat (length p))
    (fun st => Z.to_nat (it_pos (snd st) + 1))
    (fun '(x, uIt) => it_valid (sk_upper m) uIt)
    (fun '(x, uIt) =>
       xr <- get x (upper_row m uIt) ;;
       u <- it_value (sk_upper m) uIt ;;
       x <- set x (upper_row m uIt) (ssub xr (smul x_col u)) ;;
       Some (x, it_shift uIt (-1)))
    (Z.to_nat (Z.of_nat (length p)))
    (x1, it_shift (it_begin col) (Z.of_nat (length p) - 1)))
    as ([x2 uIt2] & -> & (Hx2 & _) & _).
  - cbn [fst snd it_shift it_begin it_outer it_pos]. repeat split; lia.
  - cbn [snd it_shift it_begin it_pos]. lia.
  - intros [x' uIt] (Hx' & Ho & Hpos) Hc. cbn [fst snd] in Hx', Ho, Hpos.
    assert (Gp' : get (sk_upper m) (it_outer uIt) = Some p)
      by (rewrite Ho; exact Gp).
    unfold it_valid in Hc. rewrite (it_size_profile _ _ p Gp') in Hc.
    apply andb_prop in Hc as [Hc1 Hc2].
    apply Z.leb_le in Hc1. apply Z.ltb_lt in Hc2.
    assert (Hr : 0 <= upper_row m uIt < Z.of_nat (length x')).
    { unfold upper_row, it_index. destruct (IsRowMajor m) eqn:Hrm.
      - rewrite (it_size_profile _ _ p Gp'), Ho. specialize (Hp eq_refl). lia.
      - lia. }
    destruct (get_in_range x' (upper_row m uIt) Hr) as [xr ->]. cbn [bind].
    destruct (it_value_in_profile _ uIt p Gp') as [u ->]; [lia|]. cbn [bind].
    destruct (set_in_range x' (upper_row m uIt) (ssub xr (smul x_col u)) Hr)
      as [x'' E'']. rewrite E''. cbn [bind].
    eexists. split; [reflexivity|].
    cbn [fst snd it_shift it_outer it_pos]. apply set_length in E''.
    repeat split; lia.
  - cbn [bind]. cbn [fst] in Hx2. exists x2. split; [reflexivity|]. congruence.
Qed.

(** C8. [solve] has one exit, which returns [true]: no input makes it
    return [false]; and on a well-formed matrix of size at least one, with
    vectors of that size, it does return. *)
Theorem solve_returns_true (lu : SkylineInplaceLU) (b x : list S)
    (transposed : Z) :
  (forall r, solve lu b x transposed = Some r -> snd r = true)
  /\ (well_formed (m_lu lu) ->
      1 <= sk_rows (m_lu lu) ->
      Z.of_nat (length b) = sk_rows (m_lu lu) ->
      Z.of_nat (length x) = sk_rows (m_lu lu) ->
      exists x', solve lu b x transposed = Some (x', true)).
Proof.
  split.
  - intros r. unfold solve.
    repeat match goal with
    | |- bind ?m _ = _ -> _ => destruct m; cbn [bind]; [|discriminate]
    end.
    intros E. injection E as <-. reflexivity.
  - intros Hwf Hn Hb Hx. unfold solve.
    destruct (for_loop_inv (fun _ v => length v = length x) 0
                (sk_rows (m_lu lu)) (solve_forward_row (m_lu lu) b) x)
      as (x1 & -> & Hx1); [lia|reflexivity| |].
    { intros i v Hi Hv.
      destruct (solve_forward_row_total (m_lu lu) b i v) as (v' & E & Hv');
        auto; try lia.
      exists v'. split; [exact E|congruence]. }
    cbn [bind].
    destruct (for_down_inv (fun _ v => length v = length x)
                (sk_rows (m_lu lu) - 1) 0 (solve_backward_col (m_lu lu)) x1)
      as (x2 & -> & Hx2); [lia|exact Hx1| |].
    { intros i v Hi Hv.
      destruct (solve_backward_col_total (m_lu lu) i v) as (v' & E & Hv');
        auto; try lia.
      exists v'. split; [exact E|congruence]. }
    cbn [bind].
    destruct (get_in_range x2 0) as [x0 ->]; [lia|]. cbn [bind].
    unfold coeffDiag, sk_rows in *.
    destruct (get_in_range (sk_diag (m_lu lu)) 0) as [d0 ->]; [lia|].
    cbn [bind].
    destruct (set_in_range x2 0 (sdiv x0 d0)) as [x3 ->]; [lia|].
    cbn [bind]. eauto.
Qed.
End Solve.
End SkylineFacts.

Module SkylineExamples.
Import Skyline SkylineFacts.

(** A row-major 3x3 matrix on binary64, with full profiles:
    [[4 1 2] [1 5 1] [2 1 6]]. *)
Definition A3 : @SkylineMatrix float :=
  {| IsRowMajor := true;
     sk_diag := [4; 5; 6]%float;
     sk_lower := [[]; [1]; [2; 1]]%float;
     sk_upper := [[]; [1]; [2; 1]]%float |}.

Definition A3_object : @SkylineInplaceLU float :=
  {| m_precision := 0%float; m_flags := 0; m_status := 0;
     m_succeeded := None; m_lu := A3 |}.

Lemma A3_well_formed : well_formed A3.
Proof.
  repeat split; try reflexivity; intros o p G;
    pose proof (get_Some_range _ _ _ G) as Ho; cbn in Ho;
    assert (o = 0 \/ o = 1 \/ o = 2) as [->|[->| ->]] by lia;
    cbn in G; injection G as <-; cbn; lia.
Qed.

Lemma solve_returns_true_witness :
  well_formed (m_lu A3_object)
  /\ 1 <= sk_rows (m_lu A3_object)
  /\ exists x',
       solve (H := FScalar) A3_object [12; 14; 22]%float [0; 0; 0]%float 0
       = Some (x', true).
Proof.
  split; [exact A3_well_formed|]. split; [cbn; lia|].
  apply (proj2 (solve_returns_true (H := FScalar) A3_object
                  [12; 14; 22]%float [0; 0; 0]%float 0));
    [exact A3_well_formed|cbn; lia|reflexivity|reflexivity].
Defined.

Lemma m_succeeded_is_never_written_witness :
  let ops := [OpSolve [12; 14; 22]%float [0; 0; 0]%float 0;
              OpSetFlags 3; OpSetPrecision 0.5%float; OpComputeRowMajor] in
  exists lu lu',
    make (H := FScalar) A3 0 = Some lu
    /\ run_ops (H := FScalar) lu ops = Some lu'
    /\ succeeded lu = None /\ succeeded lu' = None.
Proof.
  intros ops.
  destruct (make (H := FScalar) A3 0) as [lu|] eqn:E;
    [|vm_compute in E; discriminate].
  destruct (run_ops (H := FScalar) lu ops) as [lu'|] eqn:E';
    [|revert E'; vm_compute in E; injection E as <-; vm_compute;
      discriminate].
  exists lu, lu'. split; [reflexivity|]. split; [exact E'|].
  exact (m_succeeded_is_never_written (H := FScalar) A3 0 ops lu lu' E E').
Defined.

(** The column-major 2x2 matrix [[2 1] [1 2]] in exact arithmetic. *)
Definition B2 : @SkylineMatrix R :=
  {| IsRowMajor := false;
     sk_diag := [2; 2]%R;
     sk_lower := [[1]; []]%R;
     sk_upper := [[1]; []]%R |}.

(** C3, the code at a failing input.  On the column-major matrix
    [[2 1] [1 2]] the factorization leaves L = [[1 0] [1/2 1]] and
    U = [[2 1] [0 3/2]], whose product is the matrix; but [solve], given
    b = A (1, 0) = (2, 1), leaves (1, 2/3) in x and not (1, 0): its two
    loops walk the lower profiles by row and the upper profiles by column,
    which column-major storage keeps by column and by row. *)
Theorem solve_column_major_misses_the_solution :
  exists lu x,
    make (H := RDouble) B2 0 = Some lu
    /\ m_lu lu = {| IsRowMajor := false;
                    sk_diag := [2; 3 / 2]%R;
                    sk_lower := [[1 / 2]; []]%R;
                    sk_upper := [[1]; []]%R |}
    /\ solve (H := RDouble) lu [2; 1]%R [0; 0]%R 0 = Some (x, true)
    /\ x = [1; 2 / 3]%R
    /\ x <> [1; 0]%R.
Proof.
  exists {| m_precision := @smul R RDouble (@tenth R RDouble)
                             (@dummy_precision R RDouble);
            m_flags := 0; m_status := 0; m_succeeded := None;
            m_lu := {| IsRowMajor := false;
                       sk_diag := [2; 3 / 2]%R;
                       sk_lower := [[1 / 2]; []]%R;
                       sk_upper := [[1]; []]%R |} |}.
  exists [1; 2 / 3]%R. repeat split.
  - run_exact. same_reals.
  - run_exact. same_reals.
  - intros E. injection E as E. lra.
Qed.
End SkylineExamples.

(* ================================================================= *)
(** ** The dogleg step: the Gauss-Newton step inside the trust region *)

Module DoglegFacts.
Import Dogleg.

Section EarlyReturn.
Context {S : Type} `{Scalar S}.

(** The componentwise product [diag[j] * x[j]]. *)
Definition scaled (diag x : list S) : list S :=
  map (fun p => smul (fst p) (snd p)) (combine diag x).

Lemma scaled_length diag x :
  length x = length diag -> length (scaled diag x) = length diag.
Proof.
  intros E. unfold scaled. rewrite length_map, length_combine. lia.
Qed.

Lemma scaled_nth diag x j :
  length x = length diag -> (j < length diag)%nat ->
  nth j (scaled diag x) zero = smul (nth j diag zero) (nth j x zero).
Proof.
  intros E Hj. unfold scaled.
  rewrite (nth_indep _ zero (smul (fst (zero, zero)) (snd (zero, zero))))
    by (rewrite length_map, length_combine; lia).
  rewrite (map_nth (fun p => smul (fst p) (snd p))), combine_nth by lia.
  reflexivity.
Qed.

Lemma gn_step_length r qtb n k jj x jj' x' :
  gn_step r qtb n k (jj, x) = Some (jj', x') -> length x' = length x.
Proof.
  unfold gn_step.
  destruct (gn_row_sum _ _ _ _ _); cbn [bind]; [|discriminate].
  destruct (gn_divisor _ _ _ _); cbn [bind]; [|discriminate].
  destruct (get qtb _); cbn [bind]; [|discriminate].
  destruct (set x _ _) as [x1|] eqn:E; cbn [bind]; [|discriminate].
  intros E'. injection E' as _ <-. now apply set_length in E.
Qed.

Lemma gauss_newton_length r qtb x n xgn :
  gauss_newton r qtb x n = Some xgn -> length xgn = length x.
Proof.
  unfold gauss_newton.
  destruct (for_loop 0 n (gn_step r qtb n) (n * (n + 1) / 2, x))
    as [[jj x']|] eqn:E; [|discriminate].
  cbn [option_map snd]. intros E'. injection E' as <-.
  apply (for_loop_preserves (fun st => length (snd st) = length x)) in E;
    [exact E| |reflexivity].
  intros i [jj1 x1] [jj2 x2] _ Hl Hs. cbn [snd] in *.
  apply gn_step_length in Hs. congruence.
Qed.

Lemma nth_repeat_zero (n j : nat) : nth j (repeat (@zero S _) n) zero = zero.
Proof.
  destruct (Nat.lt_ge_cases j n).
  - apply nth_repeat_lt. assumption.
  - apply nth_overflow. rewrite repeat_length. assumption.
Qed.

(** Loop L60 leaves zeros in [wa1] and the scaled step in [wa2]. *)
Lemma scale_loop diag x :
  length x = length diag ->
  for_loop 0 (Z.of_nat (length diag)) (scale_step diag x)
    (repeat zero (length diag), repeat zero (length diag))
  = Some (repeat zero (length diag), scaled diag x).
Proof.
  intros Hx. set (n := length diag).
  destruct (for_loop_inv
    (fun j st =>
       length (fst st) = n /\ length (snd st) = n
       /\ (forall i, nth i (fst st) zero = zero)
       /\ (forall i, (Z.of_nat i < j) ->
             nth i (snd st) zero = nth i (scaled diag x) zero))
    0 (Z.of_nat n) (scale_step diag x) (repeat zero n, repeat zero n))
    as ([wa1 wa2] & E & H1 & H2 & H3 & H4).
  - lia.
  - cbn [fst snd]. rewrite repeat_length. repeat split; auto.
    + intros i. apply nth_repeat_zero.
    + intros i Hi. lia.
  - intros j [wa1 wa2] Hj (H1 & H2 & H3 & H4). cbn [fst snd] in *.
    unfold scale_step.
    destruct (set_in_range wa1 j zero) as [wa1' E1]; [lia|].
    rewrite E1. cbn [bind].
    rewrite (get_nth diag j zero) by (fold n; lia).
    rewrite (get_nth x j zero) by lia. cbn [bind].
    destruct (set_in_range wa2 j
                (smul (nth (Z.to_nat j) diag zero) (nth (Z.to_nat j) x zero)))
      as [wa2' E2]; [lia|].
    rewrite E2. cbn [bind]. eexists. split; [reflexivity|]. cbn [fst snd].
    rewrite (set_length _ _ _ _ E1), (set_length _ _ _ _ E2).
    repeat split; auto.
    + intros i. rewrite (nth_set _ _ _ _ _ _ E1).
      destruct (Nat.eqb i (Z.to_nat j)); auto.
    + intros i Hi. rewrite (nth_set _ _ _ _ _ _ E2).
      destruct (Nat.eqb_spec i (Z.to_nat j)) as [->|Hij].
      * rewrite scaled_nth by (fold n; lia). reflexivity.
      * apply H4. lia.
  - cbn [fst snd] in *. rewrite E. f_equal. f_equal.
    + apply (nth_ext _ _ zero zero); [now rewrite repeat_length|].
      intros i _. now rewrite H3, nth_repeat_zero.
    + apply (nth_ext _ _ zero zero).
      * rewrite scaled_length by assumption. exact H2.
      * intros i Hi. apply H4. lia.
Qed.

(** C4. If the scaled Gauss-Newton step is inside the trust region,
    [qnorm = |diag * x_gn| <= delta], [ei_dogleg] returns at once and the
    step left in [x] is the Gauss-Newton step itself.  For R the identity of
    size 3, [diag = [1,1,1]], [qtb = [3,4,0]] and [delta = 10] this step is
    [qtb]. *)
Theorem gauss_newton_step_is_returned r diag qtb delta x xgn :
  length qtb = length diag ->
  length x = length diag ->
  gauss_newton r qtb x (Z.of_nat (length diag)) = Some xgn ->
  sleb (stableNorm (scaled diag xgn)) delta = true ->
  ei_dogleg r diag qtb delta x = Some xgn.
Proof.
  intros Hq Hx Hgn Hle. unfold ei_dogleg.
  rewrite Hq, Hx, Z.eqb_refl. cbn [negb].
  rewrite Hgn. cbn [bind].
  rewrite scale_loop by (apply gauss_newton_length in Hgn; congruence).
  cbn [bind]. now rewrite Hle.
Qed.
End EarlyReturn.
Section Divisor.
Context {S : Type} `{Scalar S}.

(** The place of the entry [(i, j)], [i <= j], of an upper triangular matrix
    of size [n] packed by rows. *)
Definition packed_index (n i j : Z) : Z := i * n - i * (i - 1) / 2 + (j - i).


Lemma gn_divisor_nonzero_diagonal (r : list S) n j jj t :
  get r jj = Some t -> seqb t zero = false -> gn_divisor r n j jj = Some t.
Proof. intros G E. unfold gn_divisor. rewrite G. cbn [bind]. now rewrite E. Qed.

Lemma gn_divisor_zero_diagonal (r : list S) n j jj t m :
  get r jj = Some t -> seqb t zero = true ->
  column_scan r n j t = Some m ->
  gn_divisor r n j jj
  = Some (if seqb (smul epsilon m) zero then epsilon else smul epsilon m).
Proof.
  intros G E Hm. unfold gn_divisor. rewrite G. cbn [bind]. rewrite E.
  cbn [negb]. rewrite Hm. cbn [bind].
  destruct (seqb (smul epsilon m) zero); reflexivity.
Qed.
End Divisor.

Section FirstRow.
Context {S : Type} `{Scalar S}.

(** What the zero test asks of the arithmetic: zero is a zero, and machine
    epsilon times the largest of zeros and of absolute values of zeros is a
    zero.  It holds in exact arithmetic and on binary64, where a zero is
    [+0] or [-0]. *)
Definition zeros_scale_to_zero : Prop :=
  seqb zero zero = true
  /\ forall t u, seqb t zero = true -> seqb u zero = true ->
       seqb (smul epsilon (smax u (ei_abs t))) zero = true.

End FirstRow.

Lemma real_zeros_scale eps prec :
  zeros_scale_to_zero (H := RScalar eps prec).
Proof.
  split.
  - apply Reqb_true. reflexivity.
  - intros t u Ht Hu. cbn [seqb zero RScalar] in Ht, Hu.
    destruct (Reqb_spec t 0) as [->|]; [|discriminate].
    destruct (Reqb_spec u 0) as [->|]; [|discriminate].
    unfold smax. cbn [seqb zero smul epsilon sltb ei_abs RScalar].
    rewrite Rabs_R0. rewrite (Rltb_false 0 0) by lra.
    apply Reqb_true. ring.
Qed.

End DoglegFacts.

Module DoglegExamples.
Import Dogleg DoglegFacts.
#[local] Existing Instance RDouble.
Local Open Scope R_scope.

(** R the identity of size 3, packed by rows. *)
Definition identity3 : list R := [1; 0; 0; 1; 0; 1].

Lemma gauss_newton_identity3 :
  gauss_newton identity3 [3; 4; 0] [0; 0; 0] 3 = Some [3; 4; 0].
Proof. unfold identity3. run_decisions. same_reals. Qed.

Lemma gauss_newton_step_is_returned_witness :
  gauss_newton identity3 [3; 4; 0] [0; 0; 0] 3 = Some [3; 4; 0]
  /\ sleb (stableNorm (scaled [1; 1; 1] [3; 4; 0])) 10 = true
  /\ ei_dogleg identity3 [1; 1; 1] [3; 4; 0] 10 [0; 0; 0] = Some [3; 4; 0].
Proof.
  assert (Hn : sleb (stableNorm (scaled [1; 1; 1] [3; 4; 0])) 10 = true).
  { keep_reals. apply Rleb_true. apply sqrt_le_bound; lra. }
  split; [exact gauss_newton_identity3|]. split; [exact Hn|].
  apply (gauss_newton_step_is_returned identity3 [1; 1; 1] [3; 4; 0] 10
           [0; 0; 0] [3; 4; 0] eq_refl eq_refl gauss_newton_identity3 Hn).
Defined.



(** The same on the real numbers, whatever machine epsilon is. *)
Example first_row_divisor_is_epsilon :
  gn_divisor [0; 3; 4] 2 0 0 = Some eps_double.
Proof. run_decisions. reflexivity. Qed.
End DoglegExamples.

(* ================================================================= *)
(** ** Exact arithmetic: sums and vectors *)

Section Sums.
Local Open Scope R_scope.

(** The sum of [f i] for [lo <= i < hi]. *)
Fixpoint sum_from (cnt : nat) (i : Z) (f : Z -> R) : R :=
  match cnt with
  | O => 0
  | Datatypes.S c => f i + sum_from c (i + 1) f
  end.

Definition sumZ (lo hi : Z) (f : Z -> R) : R :=
  sum_from (Z.to_nat (hi - lo)) lo f.

Lemma sumZ_empty lo hi f : (hi <= lo)%Z -> sumZ lo hi f = 0.
Proof.
  intros Hle. unfold sumZ. replace (Z.to_nat (hi - lo)) with O by lia.
  reflexivity.
Qed.

Lemma sumZ_first lo hi f :
  (lo < hi)%Z -> sumZ lo hi f = f lo + sumZ (lo + 1) hi f.
Proof.
  intros Hlt. unfold sumZ.
  replace (Z.to_nat (hi - lo)) with (Datatypes.S (Z.to_nat (hi - (lo + 1))))
    by lia.
  reflexivity.
Qed.

Lemma sum_from_last cnt : forall i f,
  sum_from (Datatypes.S cnt) i f
  = sum_from cnt i f + f (i + Z.of_nat cnt)%Z.
Proof.
  induction cnt as [|c IH]; intros i f.
  - simpl. replace (i + 0)%Z with i by lia. lra.
  - change (sum_from (Datatypes.S (Datatypes.S c)) i f)
      with (f i + sum_from (Datatypes.S c) (i + 1) f).
    rewrite IH. simpl sum_from.
    replace (i + 1 + Z.of_nat c)%Z with (i + Z.of_nat (Datatypes.S c))%Z
      by lia.
    lra.
Qed.

Lemma sumZ_last lo hi f :
  (lo < hi)%Z -> sumZ lo hi f = sumZ lo (hi - 1) f + f (hi - 1)%Z.
Proof.
  intros Hlt. unfold sumZ.
  replace (Z.to_nat (hi - lo)) with (Datatypes.S (Z.to_nat (hi - 1 - lo)))
    by lia.
  rewrite sum_from_last. f_equal. f_equal. lia.
Qed.

Lemma sumZ_ext lo hi f g :
  (forall i, (lo <= i < hi)%Z -> f i = g i) -> sumZ lo hi f = sumZ lo hi g.
Proof.
  unfold sumZ. remember (Z.to_nat (hi - lo)) as cnt eqn:E.
  revert lo E. induction cnt as [|c IH]; intros lo E Hfg; [reflexivity|].
  simpl. rewrite Hfg by lia. f_equal. apply IH; [lia|].
  intros i Hi. apply Hfg. lia.
Qed.

Lemma sumZ_plus lo hi f g :
  sumZ lo hi (fun i => f i + g i) = sumZ lo hi f + sumZ lo hi g.
Proof.
  unfold sumZ. generalize (Z.to_nat (hi - lo)) as cnt. intros cnt.
  revert lo. induction cnt as [|c IH]; intros lo; simpl; [lra|].
  rewrite IH. lra.
Qed.

Lemma sumZ_scal lo hi c f :
  sumZ lo hi (fun i => c * f i) = c * sumZ lo hi f.
Proof.
  unfold sumZ. generalize (Z.to_nat (hi - lo)) as cnt. intros cnt.
  revert lo. induction cnt as [|k IH]; intros lo; simpl; [lra|].
  rewrite IH. lra.
Qed.

Lemma sumZ_shift lo hi f :
  sumZ (lo + 1) (hi + 1) f = sumZ lo hi (fun i => f (i + 1)%Z).
Proof.
  unfold sumZ. replace (hi + 1 - (lo + 1))%Z with (hi - lo)%Z by lia.
  generalize (Z.to_nat (hi - lo)) as cnt. intros cnt.
  revert lo. induction cnt as [|k IH]; intros lo; simpl; [reflexivity|].
  now rewrite IH.
Qed.

Lemma sumZ_nonneg lo hi f :
  (forall i, (lo <= i < hi)%Z -> 0 <= f i) -> 0 <= sumZ lo hi f.
Proof.
  unfold sumZ. remember (Z.to_nat (hi - lo)) as cnt eqn:E.
  revert lo E. induction cnt as [|c IH]; intros lo E Hf; simpl; [lra|].
  assert (0 <= f lo) by (apply Hf; lia).
  assert (0 <= sum_from c (lo + 1) f).
  { apply IH; [lia|]. intros i Hi. apply Hf. lia. }
  lra.
Qed.

Lemma sumZ_zero_terms lo hi f :
  (forall i, (lo <= i < hi)%Z -> 0 <= f i) ->
  sumZ lo hi f = 0 -> forall i, (lo <= i < hi)%Z -> f i = 0.
Proof.
  unfold sumZ. remember (Z.to_nat (hi - lo)) as cnt eqn:E.
  revert lo E. induction cnt as [|c IH]; intros lo E Hf Hs i Hi; [lia|].
  simpl in Hs.
  assert (H0 : 0 <= f lo) by (apply Hf; lia).
  assert (H1 : 0 <= sum_from c (lo + 1) f).
  { replace c with (Z.to_nat (hi - (lo + 1))) by lia.
    apply (sumZ_nonneg (lo + 1) hi). intros k Hk. apply Hf. lia. }
  destruct (Z.eq_dec i lo) as [->|Hne]; [lra|].
  apply (IH (lo + 1)%Z); try lia; try lra.
  intros k Hk. apply Hf. lia.
Qed.

(** The two ways to sum over a triangle [0 <= j <= i < n]. *)
Lemma sumZ_triangle n (F : Z -> Z -> R) :
  (0 <= n)%Z ->
  sumZ 0 n (fun j => sumZ j n (fun i => F j i))
  = sumZ 0 n (fun i => sumZ 0 (i + 1) (fun j => F j i)).
Proof.
  intros Hn. rewrite <- (Z2Nat.id n Hn). generalize (Z.to_nat n) as k.
  clear n Hn. induction k as [|k IH].
  - rewrite !sumZ_empty by lia. reflexivity.
  - replace (Z.of_nat (Datatypes.S k)) with (Z.of_nat k + 1)%Z by lia.
    rewrite (sumZ_last 0 (Z.of_nat k + 1)) by lia.
    rewrite (sumZ_last 0 (Z.of_nat k + 1)
               (fun i => sumZ 0 (i + 1) (fun j => F j i))) by lia.
    replace (Z.of_nat k + 1 - 1)%Z with (Z.of_nat k) by lia.
    rewrite <- IH.
    rewrite (sumZ_ext 0 (Z.of_nat k)
               (fun j => sumZ j (Z.of_nat k + 1) (fun i => F j i))
               (fun j => sumZ j (Z.of_nat k) (fun i => F j i)
                         + F j (Z.of_nat k))).
    + rewrite sumZ_plus.
      rewrite (sumZ_last 0 (Z.of_nat k + 1) (fun j => F j (Z.of_nat k)))
        by lia.
      replace (Z.of_nat k + 1 - 1)%Z with (Z.of_nat k) by lia.
      rewrite (sumZ_first (Z.of_nat k) (Z.of_nat k + 1)) by lia.
      rewrite (sumZ_empty (Z.of_nat k + 1) (Z.of_nat k + 1)) by lia. lra.
    + intros j Hj. rewrite (sumZ_last j (Z.of_nat k + 1)) by lia.
      now replace (Z.of_nat k + 1 - 1)%Z with (Z.of_nat k) by lia.
Qed.

(** [v[i]] in a vector of real numbers. *)
Definition vec (v : list R) (i : Z) : R := nth (Z.to_nat i) v 0.

Lemma get_vec v i :
  (0 <= i < Z.of_nat (length v))%Z -> get v i = Some (vec v i).
Proof. intros Hi. unfold vec. now apply get_nth. Qed.

Lemma vec_set v v' i a k :
  set v i a = Some v' -> (0 <= k)%Z ->
  vec v' k = if (k =? i)%Z then a else vec v k.
Proof.
  intros E Hk. unfold vec. rewrite (nth_set _ _ _ _ _ _ E).
  pose proof (set_Some_range _ _ _ _ E).
  destruct (Nat.eqb_spec (Z.to_nat k) (Z.to_nat i)), (Z.eqb_spec k i);
    try reflexivity; lia.
Qed.

(** The sum of the squares of a vector. *)
Definition norm2 (v : list R) : R :=
  sumZ 0 (Z.of_nat (length v)) (fun i => vec v i * vec v i).

Lemma fold_left_squares v : forall s,
  fold_left (fun acc a => acc + a * a) v s = s + norm2 v.
Proof.
  unfold norm2. induction v as [|a t IH]; intros s.
  - simpl. rewrite sumZ_empty by reflexivity. lra.
  - cbn [fold_left]. rewrite IH.
    replace (Z.of_nat (length (a :: t))) with (Z.of_nat (length t) + 1)%Z
      by (cbn [length]; lia).
    rewrite (sumZ_first 0 (Z.of_nat (length t) + 1)) by lia.
    rewrite (sumZ_shift 0 (Z.of_nat (length t))).
    rewrite (sumZ_ext 0 (Z.of_nat (length t))
               (fun i => vec (a :: t) (i + 1) * vec (a :: t) (i + 1))
               (fun i => vec t i * vec t i)).
    + change (vec (a :: t) 0) with a. lra.
    + intros i Hi. unfold vec.
      replace (Z.to_nat (i + 1)) with (Datatypes.S (Z.to_nat i)) by lia.
      reflexivity.
Qed.

Lemma norm2_nonneg v : 0 <= norm2 v.
Proof.
  apply sumZ_nonneg. intros i _. apply Rle_0_sqr.
Qed.
End Sums.

(* ================================================================= *)
(** ** The dogleg step in exact arithmetic: what the loops compute *)

Module DoglegExact.
Import Dogleg DoglegFacts.

Section PackedIndex.
Variable n : Z.
Hypothesis n_nonneg : 0 <= n.

(** The place of the diagonal entry of row [j]. *)
Definition off (j : Z) : Z := packed_index n j j.

Lemma packed_index_off j i : packed_index n j i = off j + (i - j).
Proof. unfold off, packed_index. lia. Qed.

Lemma off_0 : off 0 = 0.
Proof. reflexivity. Qed.

Lemma off_succ j : 0 <= j -> off (j + 1) = off j + (n - j).
Proof.
  intros Hj. unfold off, packed_index.
  replace ((j + 1) * (j + 1 - 1)) with (j * (j - 1) + j * 2) by ring.
  rewrite Z.div_add by lia. ring.
Qed.

Lemma consecutive_product_even m : 2 * (m * (m - 1) / 2) = m * (m - 1).
Proof.
  destruct (Z.Even_or_Odd m) as [[q E]|[q E]]; subst m.
  - replace (2 * q * (2 * q - 1)) with (q * (2 * q - 1) * 2) by ring.
    rewrite Z.div_mul by lia. ring.
  - replace ((2 * q + 1) * (2 * q + 1 - 1)) with ((2 * q + 1) * q * 2) by ring.
    rewrite Z.div_mul by lia. ring.
Qed.

Lemma off_n : off n = n * (n + 1) / 2.
Proof.
  unfold off, packed_index.
  replace (n * (n + 1)) with (n * (n - 1) + n * 2) by ring.
  rewrite Z.div_add by lia.
  pose proof (consecutive_product_even n). lia.
Qed.

Lemma off_nonneg j : 0 <= j <= n -> 0 <= off j.
Proof.
  intros [Hj Hn]. revert Hn. rewrite <- (Z2Nat.id j Hj).
  generalize (Z.to_nat j) as c. clear j Hj.
  induction c as [|c IHc]; intros Hc; [change (Z.of_nat 0) with 0; rewrite off_0; lia|].
  replace (Z.of_nat (Datatypes.S c)) with (Z.of_nat c + 1) in * by lia.
  rewrite off_succ by lia. specialize (IHc ltac:(lia)). lia.
Qed.

Lemma off_le_n k : forall j, 0 <= j -> j + Z.of_nat k = n -> off j <= off n.
Proof.
  induction k as [|k IH]; intros j Hj Hk.
  - replace j with n by lia. lia.
  - specialize (IH (j + 1) ltac:(lia) ltac:(lia)).
    rewrite off_succ in IH by lia. lia.
Qed.

Lemma off_row_fits j i : 0 <= j -> j <= i < n -> 0 <= off j + (i - j) < off n.
Proof.
  intros Hj Hi.
  pose proof (off_nonneg j ltac:(lia)).
  pose proof (off_le_n (Z.to_nat (n - (j + 1))) (j + 1) ltac:(lia) ltac:(lia))
    as H1.
  rewrite off_succ in H1 by lia. lia.
Qed.
End PackedIndex.

Section Loops.
Variables eps prec : R.
#[local] Instance exact : Scalar R := RScalar eps prec.
Variables (n : Z) (r : list R).

Ltac to_reals :=
  cbn [zero one half sadd ssub smul sdiv sopp ei_abs ei_sqrt seqb sltb sleb
       epsilon exact RScalar] in *.

Hypothesis n_nonneg : (0 <= n)%Z.
Hypothesis r_fits : (off n n <= Z.of_nat (length r))%Z.
Local Open Scope R_scope.

(** The entry [(j, i)], [j <= i], of the packed factor. *)
Definition entry (j i : Z) : R := vec r (packed_index n j i).

Ltac name_body b :=
  match goal with |- context [for_loop _ _ ?f _] => set (b := f) end.

(** The sums of the loops L10 and L100, which walk row [j] from column
    [a]. *)
Lemma row_sum_loop (x : list R) (j a : Z) :
  (0 <= j)%Z -> (j <= a <= n)%Z -> Z.of_nat (length x) = n ->
  for_loop a n
    (fun i '(sum, l) =>
       rl <- get r l ;;
       xi <- get x i ;;
       Some (sadd sum (smul rl xi), (l + 1)%Z))
    (zero, (off n j + (a - j))%Z)
  = Some (sumZ a n (fun i => entry j i * vec x i), (off n j + (n - j))%Z).
Proof.
  intros Hj Ha Hx. name_body body.
  destruct (for_loop_inv
    (fun i (st : R * Z) =>
       snd st = (off n j + (i - j))%Z
       /\ fst st = sumZ a i (fun i' => entry j i' * vec x i'))
    a n body (zero, (off n j + (a - j))%Z)) as ([sum l] & E & H1 & H2).
  - lia.
  - cbn [fst snd]. split; [reflexivity|].
    rewrite sumZ_empty by lia. reflexivity.
  - intros i [sum l] Hi [H1 H2]. cbn [fst snd] in *. subst l sum.
    pose proof (off_row_fits n j i Hj ltac:(lia)).
    unfold body. rewrite (get_vec r) by lia. cbn [bind].
    rewrite (get_vec x) by lia. cbn [bind].
    eexists. split; [reflexivity|]. cbn [fst snd]. split; [lia|].
    rewrite (sumZ_last a (i + 1)) by lia. to_reals.
    replace (i + 1 - 1)%Z with i by lia.
    unfold entry. rewrite packed_index_off. reflexivity.
  - cbn [fst snd] in *. rewrite E. subst. reflexivity.
Qed.

(** With no zero on the diagonal of the factor, the back-substitution
    solves [R x = qtb]. *)
Lemma gauss_newton_solves (qtb x : list R) :
  (forall j, (0 <= j < n)%Z -> entry j j <> 0) ->
  Z.of_nat (length qtb) = n -> Z.of_nat (length x) = n ->
  exists xg, gauss_newton r qtb x n = Some xg
    /\ Z.of_nat (length xg) = n
    /\ forall j, (0 <= j < n)%Z ->
         sumZ j n (fun i => entry j i * vec xg i) = vec qtb j.
Proof.
  intros Hreg Hq Hx. unfold gauss_newton.
  destruct (for_loop_inv
    (fun k (st : Z * list R) =>
       fst st = off n (n - k)
       /\ Z.of_nat (length (snd st)) = n
       /\ forall j, (n - k <= j < n)%Z ->
            sumZ j n (fun i => entry j i * vec (snd st) i) = vec qtb j)
    0 n (gn_step r qtb n) ((n * (n + 1) / 2)%Z, x))
    as ([jj xg] & E & H1 & H2 & H3).
  - lia.
  - cbn [fst snd]. replace (n - 0)%Z with n by lia. rewrite off_n.
    repeat split; auto. intros j Hj. lia.
  - intros k [jj x'] Hk (H1 & H2 & H3). cbn [fst snd] in *.
    unfold gn_step. set (j := (n - k - 1)%Z).
    assert (Ej : (jj - (k + 1))%Z = off n j).
    { subst jj. replace (n - k)%Z with (j + 1)%Z by (unfold j; lia).
      rewrite off_succ by (unfold j; lia). unfold j. lia. }
    rewrite Ej. unfold gn_row_sum.
    replace (n <? j + 1)%Z with false
      by (symmetry; apply Z.ltb_ge; unfold j; lia).
    replace (off n j + 1)%Z with (off n j + (j + 1 - j))%Z by lia.
    rewrite (row_sum_loop x' j (j + 1)) by (unfold j; lia).
    cbn [option_map fst bind].
    pose proof (off_row_fits n j j ltac:(unfold j; lia)
                  ltac:(unfold j; lia)) as Hfit.
    replace (off n j + (j - j))%Z with (off n j) in Hfit by lia.
    assert (Hd : entry j j <> 0) by (apply Hreg; unfold j; lia).
    assert (Ed : entry j j = vec r (off n j)).
    { unfold entry. rewrite packed_index_off. f_equal. lia. }
    rewrite (gn_divisor_nonzero_diagonal r n j (off n j) (vec r (off n j)));
      [|apply get_vec; lia|to_reals; apply Reqb_false; rewrite <- Ed; exact Hd].
    cbn [bind]. rewrite (get_vec qtb) by (unfold j; lia). cbn [bind].
    match goal with |- context [set x' j ?a] =>
      destruct (set_in_range x' j a) as [x'' E'']; [unfold j; lia|] end.
    rewrite E''. cbn [bind]. eexists. split; [reflexivity|].
    cbn [fst snd]. split; [f_equal; unfold j; lia|].
    split; [rewrite (set_length _ _ _ _ E''); exact H2|].
    intros j' Hj'.
    destruct (Z.eq_dec j' j) as [->|Hne].
    + rewrite sumZ_first by (unfold j; lia).
      rewrite (vec_set _ _ _ _ _ E'') by (unfold j; lia).
      rewrite Z.eqb_refl.
      rewrite (sumZ_ext (j + 1) n (fun i => entry j i * vec x'' i)
                 (fun i => entry j i * vec x' i)).
      * to_reals. rewrite <- Ed. field. exact Hd.
      * intros i Hi. rewrite (vec_set _ _ _ _ _ E'') by (unfold j in *; lia).
        destruct (Z.eqb_spec i j); [lia|reflexivity].
    + rewrite (sumZ_ext j' n _ (fun i => entry j' i * vec x' i)).
      * apply H3. unfold j in *. lia.
      * intros i Hi. rewrite (vec_set _ _ _ _ _ E'') by (unfold j in *; lia).
        destruct (Z.eqb_spec i j); [unfold j in *; lia|reflexivity].
  - cbn [fst snd] in *. exists xg. rewrite E. cbn [option_map snd].
    repeat split; auto. intros j Hj. apply H3. lia.
Qed.

(** The part of the product [R^T qtb] that the rows before [j] give to
    column [i], and the scaled gradient [D^-1 R^T qtb]. *)
Definition partial (qtb : list R) (j i : Z) : R :=
  sumZ 0 j (fun j' => entry j' i * vec qtb j').

Definition grad (diag qtb : list R) (i : Z) : R :=
  partial qtb (i + 1) i / vec diag i.

(** Loop L70 adds row [j], times [temp], to the columns from [j] on. *)
Lemma gradient_row_loop (wa1 : list R) (temp : R) (j : Z) :
  (0 <= j < n)%Z -> Z.of_nat (length wa1) = n ->
  exists wa1',
    for_loop j n
      (fun i '(l, wa1) =>
         w <- get wa1 i ;;
         rl <- get r l ;;
         wa1 <- set wa1 i (sadd w (smul rl temp)) ;;
         Some ((l + 1)%Z, wa1))
      (off n j, wa1)
    = Some (off n (j + 1), wa1')
    /\ Z.of_nat (length wa1') = n
    /\ forall i, (0 <= i < n)%Z ->
         vec wa1' i
         = if (j <=? i)%Z then vec wa1 i + entry j i * temp else vec wa1 i.
Proof.
  intros Hj Hw. name_body body.
  destruct (for_loop_inv
    (fun i (st : Z * list R) =>
       fst st = (off n j + (i - j))%Z
       /\ Z.of_nat (length (snd st)) = n
       /\ forall i', (0 <= i' < n)%Z ->
            vec (snd st) i'
            = if ((j <=? i') && (i' <? i))%Z
              then vec wa1 i' + entry j i' * temp else vec wa1 i')
    j n body (off n j, wa1)) as ([l w] & E & H1 & H2 & H3).
  - lia.
  - cbn [fst snd]. repeat split; [lia|exact Hw|].
    intros i' Hi'. destruct (Z.leb_spec j i'), (Z.ltb_spec i' j);
      cbn [andb]; try reflexivity; lia.
  - intros i [l w] Hi (H1 & H2 & H3). cbn [fst snd] in *. subst l.
    pose proof (off_row_fits n j i ltac:(lia) ltac:(lia)).
    unfold body. rewrite (get_vec w) by lia. cbn [bind].
    rewrite (get_vec r) by lia. cbn [bind].
    match goal with |- context [set w i ?a] =>
      destruct (set_in_range w i a) as [w' E']; [lia|] end.
    rewrite E'. cbn [bind]. eexists. split; [reflexivity|]. cbn [fst snd].
    split; [lia|]. split; [rewrite (set_length _ _ _ _ E'); exact H2|].
    intros i' Hi'. rewrite (vec_set _ _ _ _ _ E') by lia.
    destruct (Z.eqb_spec i' i) as [->|Hne].
    + rewrite H3 by lia.
      destruct (Z.leb_spec j i), (Z.ltb_spec i i), (Z.ltb_spec i (i + 1));
        cbn [andb]; try lia.
      to_reals. unfold entry. rewrite packed_index_off. reflexivity.
    + rewrite H3 by lia.
      destruct (Z.leb_spec j i'), (Z.ltb_spec i' i), (Z.ltb_spec i' (i + 1));
        cbn [andb]; try reflexivity; lia.
  - cbn [fst snd] in *. exists w. subst l.
    rewrite off_succ by lia. split; [exact E|]. split; [exact H2|].
    intros i Hi. rewrite H3 by lia.
    destruct (Z.leb_spec j i), (Z.ltb_spec i n); cbn [andb];
      try reflexivity; lia.
Qed.

(** Loops L70/L80 leave the scaled gradient in [wa1]. *)
Lemma gradient_loop (diag qtb wa1 : list R) :
  Z.of_nat (length diag) = n -> Z.of_nat (length qtb) = n ->
  Z.of_nat (length wa1) = n ->
  (forall i, (0 <= i < n)%Z -> vec wa1 i = 0) ->
  exists l g,
    for_loop 0 n (gradient_step r diag qtb n) (0%Z, wa1) = Some (l, g)
    /\ Z.of_nat (length g) = n
    /\ forall i, (0 <= i < n)%Z -> vec g i = grad diag qtb i.
Proof.
  intros Hd Hq Hw Hz.
  destruct (for_loop_inv
    (fun j (st : Z * list R) =>
       fst st = off n j
       /\ Z.of_nat (length (snd st)) = n
       /\ forall i, (0 <= i < n)%Z ->
            vec (snd st) i
            = if (i <? j)%Z then grad diag qtb i else partial qtb j i)
    0 n (gradient_step r diag qtb n) (0%Z, wa1)) as ([l g] & E & H1 & H2 & H3).
  - lia.
  - cbn [fst snd]. repeat split; [exact Hw|].
    intros i Hi. destruct (Z.ltb_spec i 0); [lia|].
    unfold partial. rewrite sumZ_empty by lia. now apply Hz.
  - intros j [l w] Hj (H1 & H2 & H3). cbn [fst snd] in *. subst l.
    unfold gradient_step. rewrite (get_vec qtb) by lia. cbn [bind].
    destruct (gradient_row_loop w (vec qtb j) j Hj H2) as (w' & E1 & L1 & V1).
    rewrite E1. cbn [bind].
    rewrite (get_vec w') by lia. cbn [bind].
    rewrite (get_vec diag) by lia. cbn [bind].
    match goal with |- context [set w' j ?a] =>
      destruct (set_in_range w' j a) as [w'' E'']; [lia|] end.
    rewrite E''. cbn [bind]. eexists. split; [reflexivity|]. cbn [fst snd].
    split; [reflexivity|]. split; [rewrite (set_length _ _ _ _ E''); exact L1|].
    intros i Hi. rewrite (vec_set _ _ _ _ _ E'') by lia.
    destruct (Z.eqb_spec i j) as [->|Hne].
    + destruct (Z.ltb_spec j (j + 1)); [|lia].
      rewrite V1 by lia. destruct (Z.leb_spec j j); [|lia].
      rewrite H3 by lia. destruct (Z.ltb_spec j j); [lia|].
      unfold grad, partial. rewrite (sumZ_last 0 (j + 1)) by lia.
      replace (j + 1 - 1)%Z with j by lia. to_reals. reflexivity.
    + rewrite V1 by lia. rewrite H3 by lia.
      destruct (Z.leb_spec j i), (Z.ltb_spec i j), (Z.ltb_spec i (j + 1));
        try reflexivity; try lia.
      unfold partial. rewrite (sumZ_last 0 (j + 1)) by lia.
      replace (j + 1 - 1)%Z with j by lia. reflexivity.
  - cbn [fst snd] in *. exists l, g. split; [exact E|]. split; [exact H2|].
    intros i Hi. rewrite H3 by lia. destruct (Z.ltb_spec i n); [reflexivity|lia].
Qed.

(** Loop L90 divides every entry by [gnorm] and by the scaling. *)
Lemma normalize_loop (diag g : list R) (gnorm : R) :
  Z.of_nat (length diag) = n -> Z.of_nat (length g) = n ->
  exists w,
    for_loop 0 n (normalize_step diag gnorm) g = Some w
    /\ Z.of_nat (length w) = n
    /\ forall i, (0 <= i < n)%Z -> vec w i = vec g i / gnorm / vec diag i.
Proof.
  intros Hd Hg.
  destruct (for_loop_inv
    (fun j (w : list R) =>
       Z.of_nat (length w) = n
       /\ forall i, (0 <= i < n)%Z ->
            vec w i
            = if (i <? j)%Z then vec g i / gnorm / vec diag i else vec g i)
    0 n (normalize_step diag gnorm) g) as (w & E & H1 & H2).
  - lia.
  - split; [exact Hg|]. intros i Hi. destruct (Z.ltb_spec i 0); [lia|reflexivity].
  - intros j w Hj (H1 & H2). unfold normalize_step.
    rewrite (get_vec w) by lia. cbn [bind].
    rewrite (get_vec diag) by lia. cbn [bind].
    match goal with |- context [set w j ?a] =>
      destruct (set_in_range w j a) as [w' E']; [lia|] end.
    exists w'. split; [exact E'|].
    split; [rewrite (set_length _ _ _ _ E'); exact H1|].
    intros i Hi. rewrite (vec_set _ _ _ _ _ E') by lia.
    destruct (Z.eqb_spec i j) as [->|Hne].
    + destruct (Z.ltb_spec j (j + 1)); [|lia].
      rewrite H2 by lia. destruct (Z.ltb_spec j j); [lia|].
      to_reals. reflexivity.
    + rewrite H2 by lia.
      destruct (Z.ltb_spec i j), (Z.ltb_spec i (j + 1)); try reflexivity; lia.
  - exists w. split; [exact E|]. split; [exact H1|].
    intros i Hi. rewrite H2 by lia. destruct (Z.ltb_spec i n); [reflexivity|lia].
Qed.

(** Loops L100/L110 leave the product [R wa1] in [wa2]. *)
Lemma rmul_loop (w wa2 : list R) :
  Z.of_nat (length w) = n -> Z.of_nat (length wa2) = n ->
  exists l v,
    for_loop 0 n (rmul_step r w n) (0%Z, wa2) = Some (l, v)
    /\ Z.of_nat (length v) = n
    /\ forall j, (0 <= j < n)%Z ->
         vec v j = sumZ j n (fun i => entry j i * vec w i).
Proof.
  intros Hw Hv.
  destruct (for_loop_inv
    (fun j (st : Z * list R) =>
       fst st = off n j
       /\ Z.of_nat (length (snd st)) = n
       /\ forall j', (0 <= j' < j)%Z ->
            vec (snd st) j' = sumZ j' n (fun i => entry j' i * vec w i))
    0 n (rmul_step r w n) (0%Z, wa2)) as ([l v] & E & H1 & H2 & H3).
  - lia.
  - cbn [fst snd]. repeat split; [exact Hv|]. intros j' Hj'. lia.
  - intros j [l v] Hj (H1 & H2 & H3). cbn [fst snd] in *. subst l.
    unfold rmul_step.
    pose proof (row_sum_loop w j j ltac:(lia) ltac:(lia) Hw) as Row.
    replace (off n j + (j - j))%Z with (off n j) in Row by lia.
    rewrite Row. cbn [bind].
    match goal with |- context [set v j ?a] =>
      destruct (set_in_range v j a) as [v' E']; [lia|] end.
    rewrite E'. cbn [bind]. eexists. split; [reflexivity|]. cbn [fst snd].
    split; [rewrite off_succ by lia; reflexivity|].
    split; [rewrite (set_length _ _ _ _ E'); exact H2|].
    intros j' Hj'. rewrite (vec_set _ _ _ _ _ E') by lia.
    destruct (Z.eqb_spec j' j) as [->|Hne]; [reflexivity|].
    apply H3. lia.
  - cbn [fst snd] in *. exists l, v. split; [exact E|]. split; [exact H2|].
    intros j Hj. apply H3. lia.
Qed.

(** The last loop blends the two directions entry by entry. *)
Lemma combine_loop (w x : list R) (temp alpha : R) :
  Z.of_nat (length w) = n -> Z.of_nat (length x) = n ->
  exists x',
    for_loop 0 n (combine_step w temp alpha) x = Some x'
    /\ Z.of_nat (length x') = n
    /\ forall i, (0 <= i < n)%Z ->
         vec x' i = temp * vec w i + alpha * vec x i.
Proof.
  intros Hw Hx.
  destruct (for_loop_inv
    (fun j (y : list R) =>
       Z.of_nat (length y) = n
       /\ forall i, (0 <= i < n)%Z ->
            vec y i
            = if (i <? j)%Z then temp * vec w i + alpha * vec x i
              else vec x i)
    0 n (combine_step w temp alpha) x) as (y & E & H1 & H2).
  - lia.
  - split; [exact Hx|]. intros i Hi. destruct (Z.ltb_spec i 0); [lia|reflexivity].
  - intros j y Hj (H1 & H2). unfold combine_step.
    rewrite (get_vec w) by lia. cbn [bind].
    rewrite (get_vec y) by lia. cbn [bind].
    match goal with |- context [set y j ?a] =>
      destruct (set_in_range y j a) as [y' E']; [lia|] end.
    exists y'. split; [exact E'|].
    split; [rewrite (set_length _ _ _ _ E'); exact H1|].
    intros i Hi. rewrite (vec_set _ _ _ _ _ E') by lia.
    destruct (Z.eqb_spec i j) as [->|Hne].
    + destruct (Z.ltb_spec j (j + 1)); [|lia].
      rewrite H2 by lia. destruct (Z.ltb_spec j j); [lia|].
      to_reals. reflexivity.
    + rewrite H2 by lia.
      destruct (Z.ltb_spec i j), (Z.ltb_spec i (j + 1)); try reflexivity; lia.
  - exists y. split; [exact E|]. split; [exact H1|].
    intros i Hi. rewrite H2 by lia. destruct (Z.ltb_spec i n); [reflexivity|lia].
Qed.

(** *** Norms and inner products of the vectors at hand *)

Definition dot (u v : Z -> R) : R := sumZ 0 n (fun i => u i * v i).

Lemma dot_ext u u' v v' :
  (forall i, (0 <= i < n)%Z -> u i = u' i) ->
  (forall i, (0 <= i < n)%Z -> v i = v' i) ->
  dot u v = dot u' v'.
Proof.
  intros Hu Hv. apply sumZ_ext. intros i Hi. now rewrite Hu, Hv.
Qed.

Lemma dot_nonneg u : 0 <= dot u u.
Proof. apply sumZ_nonneg. intros i _. apply Rle_0_sqr. Qed.

Lemma dot_combination a b u v :
  dot (fun i => a * u i + b * v i) (fun i => a * u i + b * v i)
  = a * a * dot u u + 2 * a * b * dot u v + b * b * dot v v.
Proof.
  unfold dot.
  rewrite <- !sumZ_scal, <- !sumZ_plus.
  apply sumZ_ext. intros i _. ring.
Qed.

Lemma dot_scal_l a u v : dot (fun i => a * u i) v = a * dot u v.
Proof.
  unfold dot. rewrite <- sumZ_scal. apply sumZ_ext. intros i _. ring.
Qed.

(** Cauchy-Schwarz against a unit vector. *)
Lemma dot_unit_bound u v : dot v v = 1 -> dot u v * dot u v <= dot u u.
Proof.
  intros Hv. set (t := dot u v).
  pose proof (dot_nonneg (fun i => 1 * u i + (- t) * v i)) as Hpos.
  rewrite dot_combination in Hpos. fold t in Hpos. rewrite Hv in Hpos.
  lra.
Qed.

(** The squared norm of the scaled step [D x]. *)
Definition scaled_norm2 (diag x : list R) : R :=
  dot (fun i => vec diag i * vec x i) (fun i => vec diag i * vec x i).

Lemma stableNorm_norm2 (v : list R) : stableNorm v = sqrt (norm2 v).
Proof.
  unfold stableNorm, ei_abs2. to_reals.
  rewrite fold_left_squares. f_equal. lra.
Qed.

Lemma norm2_dot (v : list R) :
  Z.of_nat (length v) = n -> norm2 v = dot (vec v) (vec v).
Proof. intros E. unfold norm2, dot. now rewrite E. Qed.

Lemma vec_scaled (diag x : list R) i :
  Z.of_nat (length diag) = n -> Z.of_nat (length x) = n ->
  (0 <= i < n)%Z -> vec (scaled diag x) i = vec diag i * vec x i.
Proof.
  intros Hd Hx Hi. unfold vec.
  pose proof (scaled_nth diag x (Z.to_nat i)) as E. to_reals.
  apply E; lia.
Qed.

Lemma stableNorm_scaled (diag x : list R) :
  Z.of_nat (length diag) = n -> Z.of_nat (length x) = n ->
  stableNorm (scaled diag x) = sqrt (scaled_norm2 diag x).
Proof.
  intros Hd Hx. rewrite stableNorm_norm2. f_equal.
  rewrite norm2_dot by (rewrite scaled_length; lia).
  unfold scaled_norm2. apply dot_ext; intros i Hi; now apply vec_scaled.
Qed.

(** The inner product of the scaled gradient with the scaled Gauss-Newton
    step is the squared norm of [qtb], once that step solves [R x = qtb]. *)
Lemma gradient_dot_gauss_newton (diag qtb xg : list R) :
  (forall i, (0 <= i < n)%Z -> vec diag i <> 0) ->
  (forall j, (0 <= j < n)%Z ->
     sumZ j n (fun i => entry j i * vec xg i) = vec qtb j) ->
  dot (grad diag qtb) (fun i => vec diag i * vec xg i)
  = dot (vec qtb) (vec qtb).
Proof.
  intros Hd Hrow. unfold dot.
  rewrite (sumZ_ext 0 n _
    (fun i => sumZ 0 (i + 1)
       (fun j => vec qtb j * (entry j i * vec xg i)))).
  - rewrite <- (sumZ_triangle n
      (fun j i => vec qtb j * (entry j i * vec xg i))) by exact n_nonneg.
    apply sumZ_ext. intros j Hj. rewrite sumZ_scal. now rewrite Hrow.
  - intros i Hi. unfold grad, partial.
    transitivity
      (sumZ 0 (i + 1) (fun j => entry j i * vec qtb j) * vec xg i).
    + field. now apply Hd.
    + rewrite Rmult_comm, <- sumZ_scal. apply sumZ_ext. intros j _. ring.
Qed.

(** *** The point where the dogleg leaves the trust region *)

(** With [d = delta / qnorm], [s = sgnorm / delta] and [c] the cosine of the
    angle between the two directions, the parameter [alpha = d * beta] puts
    the blend of the two directions on the unit sphere. *)
Lemma dogleg_quadratic d s c :
  0 < d < 1 -> 0 <= s < 1 -> 0 <= c <= 1 ->
  let T := c * s - d * (s * s)
           + sqrt ((c * s - d) * (c * s - d) + (1 - d * d) * (1 - s * s)) in
  let beta := (1 - s * s) / T in
  0 < T /\ 0 < d * beta < 1 /\
  (1 - d * beta) * (1 - d * beta) * (s * s)
    + 2 * (1 - d * beta) * s * beta * c + beta * beta = 1.
Proof.
  intros Hd Hs Hc.
  set (rad := (c * s - d) * (c * s - d) + (1 - d * d) * (1 - s * s)).
  set (A := 1 + d * d * (s * s) - 2 * d * s * c).
  set (B := c * s - d * (s * s)).
  set (C := 1 - s * s).
  assert (Erad : rad = B * B + A * C) by (unfold rad, A, B, C; ring).
  assert (HC : 0 < C) by (unfold C; nra).
  assert (Hds : 0 <= d * s < 1) by nra.
  assert (HA : 0 < A).
  { unfold A.
    assert (0 < (1 - d * s) * (1 - d * s)) by nra.
    assert (0 <= 2 * (d * s) * (1 - c)) by nra.
    nra. }
  assert (HAC : 0 < A * C) by (apply Rmult_lt_0_compat; assumption).
  assert (Hrad : 0 < rad) by (rewrite Erad; nra).
  set (Q := sqrt rad).
  assert (HQ : 0 < Q) by (apply sqrt_lt_R0; exact Hrad).
  assert (EQ : Q * Q = rad) by (apply sqrt_sqrt; lra).
  intros T beta.
  assert (ET : T = B + Q) by reflexivity.
  assert (HT : 0 < T).
  { rewrite ET. destruct (Rle_dec 0 B) as [HB|HB]; [lra|].
    assert (B * B < Q * Q) by (rewrite EQ, Erad; lra).
    nra. }
  split; [exact HT|].
  assert (Eb : beta * T = C) by (unfold beta; fold C; field; lra).
  assert (Hbeta : 0 < beta).
  { unfold beta. fold C. apply Rdiv_lt_0_compat; assumption. }
  assert (Hfar : d * C < T).
  { rewrite ET. unfold B, C.
    destruct (Rle_dec d (c * s)) as [Hle|Hgt]; [lra|].
    assert ((d - c * s) * (d - c * s) < Q * Q).
    { rewrite EQ. unfold rad.
      assert (0 < (1 - d * d) * (1 - s * s))
        by (apply Rmult_lt_0_compat; nra).
      nra. }
    nra. }
  split.
  { split; [apply Rmult_lt_0_compat; lra|].
    apply (Rmult_lt_reg_r T); [exact HT|].
    rewrite Rmult_assoc, Eb. lra. }
  assert (ETT : T * T = 2 * B * T + A * C).
  { rewrite ET.
    replace ((B + Q) * (B + Q)) with (B * B + 2 * B * Q + Q * Q) by ring.
    rewrite EQ, Erad. ring. }
  assert (Ez : (A * beta * beta + 2 * B * beta - C) * (T * T) = 0).
  { replace ((A * beta * beta + 2 * B * beta - C) * (T * T))
      with (A * (beta * T) * (beta * T) + 2 * B * (beta * T) * T
            - C * (T * T)) by ring.
    rewrite Eb, ETT. ring. }
  apply Rmult_integral in Ez. destruct Ez as [Ez|Ez]; [|nra].
  transitivity (s * s + (A * beta * beta + 2 * B * beta - C) + C).
  - unfold A, B. ring.
  - rewrite Ez. unfold C. ring.
Qed.

(** The same fact on the quantities of the code. *)
Lemma dogleg_alpha_on_sphere (bnorm gnorm qnorm sgnorm delta : R) :
  0 < delta < qnorm -> 0 < gnorm -> 0 <= bnorm -> 0 <= sgnorm < delta ->
  bnorm * bnorm / gnorm <= qnorm ->
  let alpha := dogleg_alpha bnorm gnorm qnorm sgnorm delta in
  let temp := (1 - alpha) * sgnorm in
  0 < alpha < 1 /\
  temp * temp * 1 + 2 * temp * alpha * (bnorm * bnorm / gnorm)
  + alpha * alpha * (qnorm * qnorm)
  = delta * delta.
Proof.
  intros Hdq Hg Hb Hs Hp.
  set (d := delta / qnorm). set (s := sgnorm / delta).
  set (c := bnorm / gnorm * (bnorm / qnorm)).
  assert (Hd : 0 < d < 1).
  { unfold d. split.
    - apply Rdiv_lt_0_compat; lra.
    - apply (Rmult_lt_reg_r qnorm); [lra|].
      unfold Rdiv. rewrite Rmult_assoc, Rinv_l by lra. lra. }
  assert (Hs' : 0 <= s < 1).
  { unfold s. split.
    - apply Rmult_le_pos; [lra|]. apply Rlt_le, Rinv_0_lt_compat. lra.
    - apply (Rmult_lt_reg_r delta); [lra|].
      unfold Rdiv. rewrite Rmult_assoc, Rinv_l by lra. lra. }
  assert (Ec : c * qnorm = bnorm * bnorm / gnorm) by (unfold c; field; lra).
  assert (Hc : 0 <= c <= 1).
  { split.
    - unfold c. apply Rmult_le_pos; apply Rmult_le_pos; try lra;
        apply Rlt_le, Rinv_0_lt_compat; lra.
    - apply (Rmult_le_reg_r qnorm); [lra|]. rewrite Ec. lra. }
  destruct (dogleg_quadratic d s c Hd Hs' Hc) as (HT & Hbetween & Hone).
  intros alpha temp.
  set (T := c * s - d * (s * s)
            + sqrt ((c * s - d) * (c * s - d) + (1 - d * d) * (1 - s * s)))
    in *.
  set (beta := (1 - s * s) / T) in *.
  assert (Ea : alpha = d * beta).
  { unfold alpha, dogleg_alpha, ei_abs2. to_reals. fold d s c. fold T.
    unfold beta. field. lra. }
  assert (Et : temp = (1 - d * beta) * s * delta).
  { unfold temp. rewrite Ea. unfold s. field. lra. }
  split; [rewrite Ea; exact Hbetween|].
  rewrite <- Ec, Et, Ea.
  transitivity
    (delta * delta
     * ((1 - d * beta) * (1 - d * beta) * (s * s)
        + 2 * (1 - d * beta) * s * beta * c + beta * beta)).
  - unfold d. field. lra.
  - rewrite Hone. ring.
Qed.

Lemma dot_comm u v : dot u v = dot v u.
Proof. apply sumZ_ext. intros i _. ring. Qed.

Lemma dot_scal a u : dot (fun i => a * u i) (fun i => a * u i) = a * a * dot u u.
Proof.
  unfold dot. rewrite <- sumZ_scal. apply sumZ_ext. intros i _. ring.
Qed.

Lemma smin_left (a b : R) : a <= b -> smin a b = a.
Proof.
  intros Hab. unfold smin. to_reals.
  destruct (Rltb_spec b a); [lra|reflexivity].
Qed.

Lemma smin_right (a b : R) : b <= a -> smin a b = b.
Proof.
  intros Hab. unfold smin. to_reals.
  destruct (Rltb_spec b a); [reflexivity|lra].
Qed.

(** *** The step in closed form *)

(** The norm of the scaled gradient, the unit step along it, its image by
    the factor, and the distance to the minimizer along it. *)
Definition gradient_norm (diag qtb : list R) : R :=
  sqrt (dot (grad diag qtb) (grad diag qtb)).

Definition direction (diag qtb : list R) (i : Z) : R :=
  grad diag qtb i / gradient_norm diag qtb / vec diag i.

Definition along (diag qtb : list R) (j : Z) : R :=
  sumZ j n (fun i => entry j i * direction diag qtb i).

Definition cauchy_length (diag qtb : list R) : R :=
  gradient_norm diag qtb
  / sqrt (dot (along diag qtb) (along diag qtb))
  / sqrt (dot (along diag qtb) (along diag qtb)).

(** Entry [i] of the step, from the Gauss-Newton step [xg]. *)
Definition dogleg_point (diag qtb xg : list R) (delta : R) (i : Z) : R :=
  let qnorm := sqrt (scaled_norm2 diag xg) in
  if Rleb qnorm delta then vec xg i
  else
    let gnorm := gradient_norm diag qtb in
    if Reqb gnorm 0 then
      (1 - delta / qnorm) * smin 0 delta * grad diag qtb i
      + delta / qnorm * vec xg i
    else
      let sgnorm := cauchy_length diag qtb in
      let alpha :=
        if Rleb delta sgnorm then 0
        else dogleg_alpha (sqrt (dot (vec qtb) (vec qtb)))
               gnorm qnorm sgnorm delta in
      (1 - alpha) * smin sgnorm delta * direction diag qtb i
      + alpha * vec xg i.

(** Past the Gauss-Newton direction, [ei_dogleg] returns, and the step it
    leaves is [dogleg_point]. *)
Lemma ei_dogleg_closed_form (diag qtb x xg : list R) (delta : R) :
  Z.of_nat (length diag) = n ->
  length qtb = length diag -> length x = length diag ->
  gauss_newton r qtb x n = Some xg -> Z.of_nat (length xg) = n ->
  exists step, ei_dogleg r diag qtb delta x = Some step
    /\ Z.of_nat (length step) = n
    /\ forall i, (0 <= i < n)%Z ->
         vec step i = dogleg_point diag qtb xg delta i.
Proof.
  intros Hn Hq Hx EG LG.
  assert (Hq' : Z.of_nat (length qtb) = n) by lia.
  assert (SL := scale_loop diag xg ltac:(lia)).
  unfold ei_dogleg, dogleg_point. rewrite Hq, Hx, Z.eqb_refl. cbn [negb].
  rewrite Hn in SL |- *. rewrite EG. cbn [bind]. rewrite SL. cbn [bind].
  rewrite (stableNorm_scaled diag xg Hn LG).
  set (qnorm := sqrt (scaled_norm2 diag xg)) in *.
  to_reals. destruct (Rleb_spec qnorm delta) as [Hin|Hout].
  { exists xg. repeat split; auto. }
  destruct (gradient_loop diag qtb (repeat 0 (length diag)) Hn Hq')
    as (l & g & EGr & LGr & VG).
  { rewrite repeat_length. exact Hn. }
  { intros i Hi. unfold vec. apply nth_repeat_lt. lia. }
  rewrite EGr. cbn [bind].
  rewrite (stableNorm_norm2 g), (norm2_dot g LGr).
  rewrite (dot_ext (vec g) (grad diag qtb) (vec g) (grad diag qtb) VG VG).
  fold (gradient_norm diag qtb). set (gnorm := gradient_norm diag qtb) in *.
  destruct (Reqb_spec gnorm 0) as [Eg0|Hg].
  - cbn [bind].
    match goal with |- context [for_loop 0 n (combine_step ?w ?t ?a) ?x0] =>
      destruct (combine_loop w x0 t a LGr LG) as (x' & EC & LC & VC) end.
    exists x'. split; [exact EC|]. split; [exact LC|].
    intros i Hi. rewrite VC, VG by exact Hi. reflexivity.
  - destruct (normalize_loop diag g gnorm Hn LGr) as (w & EN & LN & VN).
    rewrite EN. cbn [bind].
    assert (VW : forall i, (0 <= i < n)%Z -> vec w i = direction diag qtb i).
    { intros i Hi. rewrite VN, VG by exact Hi. reflexivity. }
    destruct (rmul_loop w (scaled diag xg) LN) as (l2 & v & ER & LR & VR).
    { rewrite scaled_length; lia. }
    rewrite ER. cbn [bind].
    assert (VA : forall j, (0 <= j < n)%Z -> vec v j = along diag qtb j).
    { intros j Hj. rewrite VR by exact Hj. unfold along.
      apply sumZ_ext. intros i Hi. rewrite VW by lia. reflexivity. }
    rewrite (stableNorm_norm2 v), (norm2_dot v LR).
    rewrite (dot_ext (vec v) (along diag qtb) (vec v) (along diag qtb) VA VA).
    fold gnorm. change (gnorm / sqrt (dot (along diag qtb) (along diag qtb))
                        / sqrt (dot (along diag qtb) (along diag qtb)))
      with (cauchy_length diag qtb).
    set (sgnorm := cauchy_length diag qtb) in *.
    destruct (Rleb_spec delta sgnorm) as [Hfar|Hnear].
    + cbn [bind].
      match goal with |- context [for_loop 0 n (combine_step ?w ?t ?a) ?x0] =>
        destruct (combine_loop w x0 t a LN LG) as (x' & EC & LC & VC) end.
      exists x'. split; [exact EC|]. split; [exact LC|].
      intros i Hi. rewrite VC, VW by exact Hi. reflexivity.
    + cbn [bind].
      rewrite (stableNorm_norm2 qtb), (norm2_dot qtb Hq').
      match goal with |- context [for_loop 0 n (combine_step ?w ?t ?a) ?x0] =>
        destruct (combine_loop w x0 t a LN LG) as (x' & EC & LC & VC) end.
      exists x'. split; [exact EC|]. split; [exact LC|].
      intros i Hi. rewrite VC, VW by exact Hi. reflexivity.
Qed.

(** *** The three ways out of [ei_dogleg] past the early return *)

(** [gnorm == 0]: the Gauss-Newton step is scaled back to the boundary. *)
Lemma scaled_back_step (diag xg x' : list R) (g : Z -> R) (delta qnorm : R) :
  0 < delta < qnorm ->
  qnorm * qnorm = scaled_norm2 diag xg ->
  (forall i, (0 <= i < n)%Z ->
     vec x' i = (1 - delta / qnorm) * smin 0 delta * g i
                + delta / qnorm * vec xg i) ->
  scaled_norm2 diag x' = delta * delta.
Proof.
  intros Hd Hqq Hx'. unfold scaled_norm2.
  rewrite (dot_ext _ (fun i => delta / qnorm * (vec diag i * vec xg i))
             _ (fun i => delta / qnorm * (vec diag i * vec xg i))).
  - rewrite dot_scal. fold (scaled_norm2 diag xg). rewrite <- Hqq.
    field. lra.
  - intros i Hi. rewrite Hx' by exact Hi. rewrite smin_left by lra. ring.
  - intros i Hi. rewrite Hx' by exact Hi. rewrite smin_left by lra. ring.
Qed.

(** [sgnorm >= delta]: the step goes along the scaled gradient as far as
    the boundary. *)
Lemma gradient_step_on_boundary (diag xg x' : list R) (g w : Z -> R)
    (delta gnorm sgnorm : R) :
  0 < delta -> delta <= sgnorm -> 0 < gnorm ->
  gnorm * gnorm = dot g g ->
  (forall i, (0 <= i < n)%Z -> vec diag i <> 0) ->
  (forall i, (0 <= i < n)%Z -> w i = g i / gnorm / vec diag i) ->
  (forall i, (0 <= i < n)%Z ->
     vec x' i = (1 - 0) * smin sgnorm delta * w i + 0 * vec xg i) ->
  scaled_norm2 diag x' = delta * delta.
Proof.
  intros Hd Hs Hg Hgg Hdiag Hw Hx'. unfold scaled_norm2.
  assert (E : forall i, (0 <= i < n)%Z ->
            vec diag i * vec x' i = delta / gnorm * g i).
  { intros i Hi. rewrite Hx', Hw by exact Hi. rewrite smin_right by lra.
    field. split; first [lra | now apply Hdiag]. }
  rewrite (dot_ext _ (fun i => delta / gnorm * g i)
             _ (fun i => delta / gnorm * g i) E E).
  rewrite dot_scal, <- Hgg. field. lra.
Qed.

(** Otherwise the step is a point of the dogleg, whose squared norm is
    that of the trust region plus a term that the inner product [p] of the
    unit gradient with the scaled Gauss-Newton step decides. *)
Lemma dogleg_step_norm (diag xg x' : list R) (g w : Z -> R)
    (delta qnorm gnorm bnorm sgnorm p : R) :
  0 < delta < qnorm -> 0 <= sgnorm < delta -> 0 < gnorm -> 0 <= bnorm ->
  qnorm * qnorm = scaled_norm2 diag xg ->
  gnorm * gnorm = dot g g ->
  bnorm * bnorm / gnorm <= qnorm ->
  (forall i, (0 <= i < n)%Z -> vec diag i <> 0) ->
  dot (fun i => / gnorm * g i) (fun i => vec diag i * vec xg i) = p ->
  (forall i, (0 <= i < n)%Z -> w i = g i / gnorm / vec diag i) ->
  (forall i, (0 <= i < n)%Z ->
     vec x' i
     = (1 - dogleg_alpha bnorm gnorm qnorm sgnorm delta)
       * smin sgnorm delta * w i
       + dogleg_alpha bnorm gnorm qnorm sgnorm delta * vec xg i) ->
  0 < dogleg_alpha bnorm gnorm qnorm sgnorm delta < 1
  /\ scaled_norm2 diag x'
     = delta * delta
       + 2 * ((1 - dogleg_alpha bnorm gnorm qnorm sgnorm delta) * sgnorm)
         * dogleg_alpha bnorm gnorm qnorm sgnorm delta
         * (p - bnorm * bnorm / gnorm).
Proof.
  intros Hd Hs Hg Hb Hqq Hgg Hp Hdiag Egu Hw Hx'.
  destruct (dogleg_alpha_on_sphere bnorm gnorm qnorm sgnorm delta
              Hd Hg Hb Hs Hp) as [Hbetween Hsphere].
  split; [exact Hbetween|].
  set (alpha := dogleg_alpha bnorm gnorm qnorm sgnorm delta) in *.
  set (temp := (1 - alpha) * sgnorm) in *.
  set (ghat := fun i => / gnorm * g i) in *.
  set (u := fun i => vec diag i * vec xg i) in *.
  assert (E : forall i, (0 <= i < n)%Z ->
            vec diag i * vec x' i = temp * ghat i + alpha * u i).
  { intros i Hi. rewrite Hx', Hw by exact Hi. rewrite smin_left by lra.
    unfold temp, ghat, u. field. split; first [lra | now apply Hdiag]. }
  assert (Eghat : dot ghat ghat = 1).
  { unfold ghat. rewrite dot_scal, <- Hgg. field. lra. }
  assert (Euu : dot u u = qnorm * qnorm) by (symmetry; exact Hqq).
  unfold scaled_norm2.
  rewrite (dot_ext _ (fun i => temp * ghat i + alpha * u i)
             _ (fun i => temp * ghat i + alpha * u i) E E).
  rewrite dot_combination, Eghat, Egu, Euu, <- Hsphere. ring.
Qed.

(** Cauchy-Schwarz bounds the cosine of the dogleg by 1, once the
    Gauss-Newton step solves [R x = qtb]. *)
Lemma gradient_dot_bound (diag qtb xg : list R) (qnorm gnorm bnorm : R) :
  0 < qnorm -> 0 < gnorm ->
  qnorm * qnorm = scaled_norm2 diag xg ->
  gnorm * gnorm = dot (grad diag qtb) (grad diag qtb) ->
  bnorm * bnorm = dot (vec qtb) (vec qtb) ->
  (forall i, (0 <= i < n)%Z -> vec diag i <> 0) ->
  (forall j, (0 <= j < n)%Z ->
     sumZ j n (fun i => entry j i * vec xg i) = vec qtb j) ->
  dot (fun i => / gnorm * grad diag qtb i) (fun i => vec diag i * vec xg i)
  = bnorm * bnorm / gnorm
  /\ bnorm * bnorm / gnorm <= qnorm.
Proof.
  intros Hq Hg Hqq Hgg Hbb Hdiag Hrow.
  set (ghat := fun i => / gnorm * grad diag qtb i).
  set (u := fun i => vec diag i * vec xg i).
  assert (Eghat : dot ghat ghat = 1).
  { unfold ghat. rewrite dot_scal, <- Hgg. field. lra. }
  assert (Egu : dot ghat u = bnorm * bnorm / gnorm).
  { unfold ghat. rewrite dot_scal_l. unfold u.
    rewrite (gradient_dot_gauss_newton diag qtb xg Hdiag Hrow).
    rewrite <- Hbb. field. lra. }
  split; [exact Egu|].
  pose proof (dot_unit_bound u ghat Eghat) as CS.
  rewrite (dot_comm u ghat), Egu in CS.
  change (dot u u) with (scaled_norm2 diag xg) in CS. rewrite <- Hqq in CS.
  assert (0 <= bnorm * bnorm / gnorm).
  { apply Rmult_le_pos; [nra|]. apply Rlt_le, Rinv_0_lt_compat. lra. }
  nra.
Qed.

Lemma sqrt_within (a delta : R) :
  0 < delta -> a = delta * delta -> sqrt a <= delta.
Proof. intros Hd ->. rewrite sqrt_square; lra. Qed.

(** The step of [ei_dogleg] on a factor of size [n] without a zero on its
    diagonal. *)
Lemma ei_dogleg_in_region (diag qtb x : list R) (delta : R) :
  Z.of_nat (length diag) = n ->
  length qtb = length diag -> length x = length diag ->
  0 < delta ->
  (forall i, (0 <= i < n)%Z -> 0 < vec diag i) ->
  (forall j, (0 <= j < n)%Z -> entry j j <> 0) ->
  exists step, ei_dogleg r diag qtb delta x = Some step
    /\ stableNorm (scaled diag step) <= delta.
Proof.
  intros Hn Hq Hx Hdelta Hpos Hreg.
  assert (Hdiag : forall i, (0 <= i < n)%Z -> vec diag i <> 0).
  { intros i Hi. specialize (Hpos i Hi). lra. }
  destruct (gauss_newton_solves qtb x Hreg ltac:(lia) ltac:(lia))
    as (xg & EG & LG & RowG).
  destruct (ei_dogleg_closed_form diag qtb x xg delta Hn Hq Hx EG LG)
    as (step & ES & LS & VS).
  exists step. split; [exact ES|].
  rewrite (stableNorm_scaled diag step Hn LS).
  unfold dogleg_point in VS.
  assert (Hqq : sqrt (scaled_norm2 diag xg) * sqrt (scaled_norm2 diag xg)
                = scaled_norm2 diag xg) by (apply sqrt_sqrt, dot_nonneg).
  set (qnorm := sqrt (scaled_norm2 diag xg)) in *.
  destruct (Rleb_spec qnorm delta) as [Hin|Hout].
  { unfold scaled_norm2.
    rewrite (dot_ext _ (fun i => vec diag i * vec xg i)
               _ (fun i => vec diag i * vec xg i))
      by (intros i Hi; now rewrite VS).
    exact Hin. }
  apply Rnot_le_lt in Hout.
  apply sqrt_within; [exact Hdelta|].
  assert (Hgg : gradient_norm diag qtb * gradient_norm diag qtb
                = dot (grad diag qtb) (grad diag qtb))
    by (apply sqrt_sqrt, dot_nonneg).
  assert (Hg0 : 0 <= gradient_norm diag qtb) by apply sqrt_pos.
  set (gnorm := gradient_norm diag qtb) in *.
  destruct (Reqb_spec gnorm 0) as [Eg0|Hg].
  { apply (scaled_back_step diag xg step (grad diag qtb) delta qnorm);
      auto; lra. }
  assert (Hs0 : 0 <= cauchy_length diag qtb).
  { unfold cauchy_length, Rdiv. rewrite Rmult_assoc.
    apply Rmult_le_pos; [exact Hg0|]. apply Rle_0_sqr. }
  set (sgnorm := cauchy_length diag qtb) in *.
  destruct (Rleb_spec delta sgnorm) as [Hfar|Hnear].
  { apply (gradient_step_on_boundary diag xg step (grad diag qtb)
             (direction diag qtb) delta gnorm sgnorm); auto; lra. }
  apply Rnot_le_lt in Hnear.
  assert (Hbb : sqrt (dot (vec qtb) (vec qtb)) * sqrt (dot (vec qtb) (vec qtb))
                = dot (vec qtb) (vec qtb)) by (apply sqrt_sqrt, dot_nonneg).
  assert (Hb0 : 0 <= sqrt (dot (vec qtb) (vec qtb))) by apply sqrt_pos.
  set (bnorm := sqrt (dot (vec qtb) (vec qtb))) in *.
  destruct (gradient_dot_bound diag qtb xg qnorm gnorm bnorm
              ltac:(lra) ltac:(lra) Hqq Hgg Hbb Hdiag RowG)
    as [Egu Hp].
  destruct (dogleg_step_norm diag xg step (grad diag qtb)
              (direction diag qtb) delta qnorm gnorm bnorm sgnorm
              (bnorm * bnorm / gnorm)
              ltac:(lra) ltac:(lra) ltac:(lra) Hb0 Hqq Hgg Hp Hdiag
              Egu ltac:(intros; reflexivity) VS) as [_ E].
  rewrite E. ring.
Qed.
End Loops.

Section TrustRegion.
Variables eps prec : R.
#[local] Instance exact_arithmetic : Scalar R := RScalar eps prec.
Local Open Scope R_scope.

(** C2, with the two conditions that the code needs.  In exact arithmetic,
    for every input of matching sizes with [delta > 0], positive entries in
    [diag] and no zero on the diagonal of the packed factor R, [ei_dogleg]
    returns and the step it leaves in [x] satisfies the trust-region
    constraint: the norm of the componentwise product [diag[j] * x[j]] is at
    most [delta]. *)
Theorem dogleg_step_within_trust_region (r diag qtb x : list R) (delta : R) :
  let n := Z.of_nat (length diag) in
  length qtb = length diag -> length x = length diag ->
  (n * (n + 1) / 2 <= Z.of_nat (length r))%Z ->
  0 < delta ->
  (forall d, In d diag -> 0 < d) ->
  (forall j, (0 <= j < n)%Z -> vec r (packed_index n j j) <> 0) ->
  exists step, ei_dogleg r diag qtb delta x = Some step
    /\ stableNorm (scaled diag step) <= delta.
Proof.
  intros n Hq Hx Hr Hdelta Hdiag Hreg.
  apply (ei_dogleg_in_region eps prec n r); auto.
  - unfold n. lia.
  - rewrite off_n. exact Hr.
  - intros i Hi. apply Hdiag. unfold vec. apply nth_In. unfold n in Hi. lia.
Qed.
End TrustRegion.
End DoglegExact.

Module DoglegTrustExamples.
Import Dogleg DoglegFacts DoglegExact.
#[local] Existing Instance RDouble.
Local Open Scope R_scope.
Local Abbreviation e := eps_double.

(** R the identity of size 2, [qtb = [3, 4]] and [delta = 1], in exact
    arithmetic. *)
Lemma dogleg_step_within_trust_region_witness :
  exists step,
    ei_dogleg [1; 0; 1] [1; 1] [3; 4] 1 [0; 0] = Some step
    /\ stableNorm (scaled [1; 1] step) <= 1.
Proof.
  apply (dogleg_step_within_trust_region eps_double prec_double
           [1; 0; 1] [1; 1] [3; 4] [0; 0] 1).
  - reflexivity.
  - reflexivity.
  - vm_compute. discriminate.
  - lra.
  - intros d [<-|[<-|[]]]; lra.
  - intros j Hj. assert (E : j = 0%Z \/ j = 1%Z) by (simpl in Hj; lia).
    destruct E as [->| ->]; keep_reals; lra.
Defined.

(** A factor with a zero on its diagonal, R = [[0, 2e], [0, e]] for the
    machine epsilon [e], and [qtb = [e, e]]. *)
Definition singular2 : list R := [0; 2 * e; e].
Definition small2 : list R := [e; e].

(** The divisor of row 0 is [e], and the step does not solve [R x = qtb]. *)
Lemma gauss_newton_singular2 :
  gauss_newton singular2 small2 [0; 0] 2 = Some [-1; 1].
Proof.
  pose proof eps_double_pos as Heps. unfold singular2, small2.
  run_decisions. f_equal. f_equal; [field; lra|]. f_equal. field. lra.
Qed.

Ltac both_rows i Hi :=
  let E := fresh "E" in
  assert (E : i = 0%Z \/ i = 1%Z) by lia; destruct E as [->| ->].

(** In exact arithmetic the step on this factor is beyond the trust region
    of radius 1: with [alpha] the parameter of the dogleg, its squared norm
    is [1 + (2/5) alpha (1 - alpha)]. *)
Lemma singular_factor_leaves_trust_region :
  exists step,
    ei_dogleg singular2 [1; 1] small2 1 [0; 0] = Some step
    /\ 1 < stableNorm (scaled [1; 1] step).
Proof.
  pose proof eps_double_pos as Heps.
  destruct (ei_dogleg_closed_form eps_double prec_double 2 singular2
              ltac:(lia) ltac:(vm_compute; discriminate)
              [1; 1] small2 [0; 0] [-1; 1] 1
              eq_refl eq_refl eq_refl gauss_newton_singular2 eq_refl)
    as (step & ES & LS & VS).
  exists step. split; [exact ES|].
  pose proof (stableNorm_scaled eps_double prec_double 2 singular2
                [1; 1] step eq_refl LS) as HS.
  change (stableNorm (scaled [1; 1] step)
          = sqrt (scaled_norm2 2 [1; 1] step)) in HS.
  rewrite HS. clear HS.
  rewrite <- sqrt_1 at 1. apply sqrt_lt_1_alt. split; [lra|].
  (* the quantities of the run *)
  assert (Hee : 0 < e * e) by nra.
  assert (Hq2 : scaled_norm2 2 [1; 1] [-1; 1] = 2) by (keep_reals; lra).
  assert (Hq1 : 1 < sqrt 2).
  { rewrite <- sqrt_1 at 1. apply sqrt_lt_1_alt. lra. }
  assert (Hqq : sqrt 2 * sqrt 2 = 2) by (apply sqrt_sqrt; lra).
  assert (Hg2 : dot 2 (grad 2 singular2 [1; 1] small2)
                  (grad 2 singular2 [1; 1] small2)
                = (3 * e * e) * (3 * e * e)) by (keep_reals; field).
  assert (Hg : gradient_norm 2 singular2 [1; 1] small2 = 3 * e * e).
  { unfold gradient_norm. rewrite Hg2. apply sqrt_square. nra. }
  assert (Hd : forall i, (0 <= i < 2)%Z ->
            direction 2 singular2 [1; 1] small2 i
            = grad 2 singular2 [1; 1] small2 i / (3 * e * e) / vec [1; 1] i).
  { intros i Hi. unfold direction. now rewrite Hg. }
  set (w := fun i : Z => if (i =? 0)%Z then 0 else 1).
  assert (Hw : forall i, (0 <= i < 2)%Z ->
            direction 2 singular2 [1; 1] small2 i = w i).
  { intros i Hi. rewrite Hd by exact Hi.
    both_rows i Hi; keep_reals; field; lra. }
  set (a := fun j : Z => if (j =? 0)%Z then 2 * e else e).
  assert (Ha : forall j, (0 <= j < 2)%Z ->
            along 2 singular2 [1; 1] small2 j = a j).
  { intros j Hj. unfold along.
    rewrite (sumZ_ext j 2 _ (fun i => entry 2 singular2 j i * w i))
      by (intros i Hi; rewrite Hw by lia; reflexivity).
    both_rows j Hj; keep_reals; lra. }
  assert (Ha2 : dot 2 (along 2 singular2 [1; 1] small2)
                  (along 2 singular2 [1; 1] small2) = 5 * (e * e)).
  { rewrite (dot_ext 2 _ a _ a Ha Ha). keep_reals. ring. }
  assert (Hc : cauchy_length 2 singular2 [1; 1] small2 = 3 / 5).
  { unfold cauchy_length. rewrite Hg, Ha2.
    assert (Hs : sqrt (5 * (e * e)) * sqrt (5 * (e * e)) = 5 * (e * e))
      by (apply sqrt_sqrt; lra).
    set (s := sqrt (5 * (e * e))) in *.
    assert (s <> 0) by (intros ->; lra).
    replace (3 * e * e / s / s) with (3 * (e * e) / (s * s)) by (field; auto).
    rewrite Hs. field. lra. }
  assert (Hb2 : dot 2 (vec small2) (vec small2) = 2 * (e * e))
    by (keep_reals; ring).
  assert (Hbb : sqrt (2 * (e * e)) * sqrt (2 * (e * e)) = 2 * (e * e))
    by (apply sqrt_sqrt; lra).
  assert (Hb0 : 0 <= sqrt (2 * (e * e))) by apply sqrt_pos.
  set (bnorm := sqrt (2 * (e * e))) in *.
  assert (Hp : bnorm * bnorm / (3 * e * e) = 2 / 3)
    by (rewrite Hbb; field; lra).
  (* the inner product that the formula of [alpha] takes to be 2/3 is 1 *)
  destruct (dogleg_step_norm eps_double prec_double 2 [1; 1] [-1; 1] step
              (grad 2 singular2 [1; 1] small2)
              (direction 2 singular2 [1; 1] small2)
              1 (sqrt 2) (3 * e * e) bnorm (3 / 5) 1) as [Hal E];
    try lra.
  - intros i Hi. both_rows i Hi; keep_reals; lra.
  - keep_reals. field. lra.
  - exact Hd.
  - intros i Hi. rewrite (VS i Hi). unfold dogleg_point. cbv zeta.
    rewrite Hq2, Hg, Hc, Hb2. fold bnorm.
    rewrite (Rleb_false (sqrt 2) 1) by lra.
    rewrite (Reqb_false (3 * e * e) 0) by lra.
    rewrite (Rleb_false 1 (3 / 5)) by lra.
    reflexivity.
  - rewrite E, Hp.
    set (alpha := dogleg_alpha bnorm (3 * e * e) (sqrt 2) (3 / 5) 1) in *.
    nra.
Qed.

(** C2, the claim as stated fails.  With a zero on the diagonal of
    R = [[0, 2e], [0, e]], [e = 2^-52], and [qtb = [e, e]], [delta = 1], the
    divisor of row 0 is machine epsilon, the Gauss-Newton step is [[-1, 1]],
    and the step returned is beyond the trust region: in exact arithmetic
    its norm is above 1, and on [double] it is 1.046...  On [double] the
    bound also fails by rounding: with R the identity, [qtb = [2, 3]] and
    [delta = 3], the step returned has norm 3.0000000000000004. *)
Lemma dogleg_step_leaves_trust_region :
  (exists step,
     ei_dogleg singular2 [1; 1] small2 1 [0; 0] = Some step
     /\ 1 < stableNorm (scaled [1; 1] step))
  /\ (exists step,
        ei_dogleg (H := FScalar)
          [0; 0x1p-51; 0x1p-52]%float [1; 1]%float [0x1p-52; 0x1p-52]%float
          1%float [0; 0]%float = Some step
        /\ gauss_newton (H := FScalar) [0; 0x1p-51; 0x1p-52]%float
             [0x1p-52; 0x1p-52]%float [0; 0]%float 2
           = Some [(-1)%float; 1%float]
        /\ PrimFloat.ltb 0x1.0bp0%float
             (stableNorm (H := FScalar)
                (scaled (H := FScalar) [1; 1]%float step))
           = true)
  /\ (exists step,
        ei_dogleg (H := FScalar)
          [1; 0; 1]%float [1; 1]%float [2; 3]%float 3%float [0; 0]%float
        = Some step
        /\ sleb (Scalar := FScalar)
             (stableNorm (H := FScalar)
                (scaled (H := FScalar) [1; 1]%float step)) 3%float
           = false).
Proof.
  split; [exact singular_factor_leaves_trust_region|]. split.
  - eexists. split; [vm_compute; reflexivity|].
    split; vm_compute; reflexivity.
  - eexists. split; [vm_compute; reflexivity|]. vm_compute. reflexivity.
Qed.
End DoglegTrustExamples.

(* ================================================================= *)
(** ** More about arrays *)

Section MoreArrayFacts.
Context {A : Type}.
Implicit Types (v : list A) (i : Z) (a : A).

Lemma get_set_same v i a v' : set v i a = Some v' -> get v' i = Some a.
Proof.
  intros E. pose proof (set_Some_range _ _ _ _ E) as Hi.
  rewrite (get_nth v' i a) by (rewrite (set_length _ _ _ _ E); exact Hi).
  rewrite (nth_set _ _ _ _ _ _ E). now rewrite Nat.eqb_refl.
Qed.

Lemma get_set_other v i a v' j :
  set v i a = Some v' -> j <> i -> get v' j = get v j.
Proof.
  intros E Hj. pose proof (set_Some_range _ _ _ _ E) as Hi.
  pose proof (set_length _ _ _ _ E) as Hl.
  unfold get. destruct (Z.ltb_spec j 0); [reflexivity|].
  destruct (Nat.lt_ge_cases (Z.to_nat j) (length v)) as [Hlt|Hge].
  - rewrite (nth_error_nth' v' a) by lia. rewrite (nth_error_nth' v a) by lia.
    rewrite (nth_set _ _ _ _ _ _ E).
    destruct (Nat.eqb_spec (Z.to_nat j) (Z.to_nat i)); [lia|reflexivity].
  - assert (E1 : nth_error v (Z.to_nat j) = None)
      by (apply nth_error_None; lia).
    assert (E2 : nth_error v' (Z.to_nat j) = None)
      by (apply nth_error_None; lia).
    now rewrite E1, E2.
Qed.

(** Two arrays with the same entries are the same array. *)
Lemma get_ext v w : (forall i, 0 <= i -> get v i = get w i) -> v = w.
Proof.
  intros E. apply nth_error_ext. intros k.
  specialize (E (Z.of_nat k) ltac:(lia)). unfold get in E.
  destruct (Z.ltb_spec (Z.of_nat k) 0); [lia|].
  now rewrite Nat2Z.id in E.
Qed.

Lemma get_None_length v i : Z.of_nat (length v) <= i -> get v i = None.
Proof.
  intros Hi. unfold get. destruct (Z.ltb_spec i 0); [reflexivity|].
  apply nth_error_None. lia.
Qed.

Lemma set_None_length v i a : Z.of_nat (length v) <= i -> set v i a = None.
Proof.
  intros Hi. unfold set.
  destruct (Z.ltb_spec i (Z.of_nat (length v))); [lia|].
  now rewrite andb_false_r.
Qed.
End MoreArrayFacts.

(* ================================================================= *)
(** ** The dogleg step: sizes, bounds, and the role of [x] *)

Module DoglegMore.
Import Dogleg DoglegFacts.

Section Generic.
Context {S : Type} `{Scalar S}.

Lemma gn_row_sum_agree (r x x' : list S) n jp1 l :
  (forall i, jp1 <= i < n -> get x i = get x' i) ->
  gn_row_sum r x n jp1 l = gn_row_sum r x' n jp1 l.
Proof.
  intros E. unfold gn_row_sum. destruct (n <? jp1); [reflexivity|].
  f_equal. apply for_loop_ext. intros i [sum l'] Hi. now rewrite E.
Qed.

(** A turn of the back-substitution reads [x] only where the turns before
    have written it. *)
Lemma gn_step_agree (r qtb : list S) n k jj (x x' : list S) :
  0 <= k -> Z.of_nat (length x) = n -> length x = length x' ->
  (forall i, n - k <= i -> get x i = get x' i) ->
  match gn_step r qtb n k (jj, x), gn_step r qtb n k (jj, x') with
  | Some (j1, y), Some (j2, y') =>
      j1 = j2 /\ Z.of_nat (length y) = n /\ length y = length y'
      /\ forall i, n - (k + 1) <= i -> get y i = get y' i
  | None, None => True
  | _, _ => False
  end.
Proof.
  intros Hk Hn Hl E. unfold gn_step. cbv zeta.
  rewrite (gn_row_sum_agree r x x' n (n - k - 1 + 1) (jj - (k + 1) + 1))
    by (intros i Hi; apply E; lia).
  destruct (gn_row_sum r x' n _ _) as [sum|]; cbn [bind]; [|exact I].
  destruct (gn_divisor r n _ _) as [temp|]; cbn [bind]; [|exact I].
  destruct (get qtb _) as [qj|]; cbn [bind]; [|exact I].
  set (j := n - k - 1). set (a := sdiv (ssub qj sum) temp).
  destruct (set x j a) as [y|] eqn:Ey, (set x' j a) as [y'|] eqn:Ey';
    cbn [bind].
  - split; [reflexivity|].
    split; [rewrite (set_length _ _ _ _ Ey); exact Hn|].
    split; [rewrite (set_length _ _ _ _ Ey), (set_length _ _ _ _ Ey');
            exact Hl|].
    intros i Hi. destruct (Z.eq_dec i j) as [->|Hij].
    + now rewrite (get_set_same _ _ _ _ Ey), (get_set_same _ _ _ _ Ey').
    + rewrite (get_set_other _ _ _ _ _ Ey Hij),
              (get_set_other _ _ _ _ _ Ey' Hij).
      apply E. unfold j in Hij. lia.
  - apply set_Some_range in Ey.
    destruct (set_in_range x' j a) as [y' E']; [lia|]. congruence.
  - apply set_Some_range in Ey'.
    destruct (set_in_range x j a) as [y E']; [lia|]. congruence.
  - exact I.
Qed.

Lemma gn_steps_agree (r qtb : list S) n cnt : forall k jj (x x' : list S),
  0 <= k -> Z.of_nat (length x) = n -> length x = length x' ->
  (forall i, n - k <= i -> get x i = get x' i) ->
  match for_iter cnt k (gn_step r qtb n) (jj, x),
        for_iter cnt k (gn_step r qtb n) (jj, x') with
  | Some (j1, y), Some (j2, y') =>
      j1 = j2 /\ length y = length y'
      /\ forall i, n - (k + Z.of_nat cnt) <= i -> get y i = get y' i
  | None, None => True
  | _, _ => False
  end.
Proof.
  induction cnt as [|c IH]; intros k jj x x' Hk Hn Hl E.
  - simpl. repeat split; auto. intros i Hi. apply E. lia.
  - cbn [for_iter].
    pose proof (gn_step_agree r qtb n k jj x x' Hk Hn Hl E) as Hs.
    destruct (gn_step r qtb n k (jj, x)) as [[j1 y]|],
             (gn_step r qtb n k (jj, x')) as [[j2 y']|];
      try contradiction; [|exact I].
    destruct Hs as (<- & Hy & Hyl & Hy').
    specialize (IH (k + 1) j1 y y' ltac:(lia) Hy Hyl).
    replace (k + 1 + Z.of_nat c) with (k + Z.of_nat (Datatypes.S c))
      in IH by lia.
    apply IH. intros i Hi. apply Hy'. lia.
Qed.

Lemma gauss_newton_initial_x (r qtb x x' : list S) :
  length x = length x' ->
  gauss_newton r qtb x (Z.of_nat (length x))
  = gauss_newton r qtb x' (Z.of_nat (length x)).
Proof.
  intros Hl. unfold gauss_newton, for_loop.
  set (n := Z.of_nat (length x)).
  pose proof (gn_steps_agree r qtb n (Z.to_nat (n - 0)) 0
                (n * (n + 1) / 2) x x' ltac:(lia) eq_refl Hl) as Hs.
  lapply Hs.
  2:{ intros i Hi. rewrite !get_None_length; [reflexivity| |]; lia. }
  clear Hs. intros Hs.
  destruct (for_iter _ 0 (gn_step r qtb n) (_, x)) as [[j1 y]|],
           (for_iter _ 0 (gn_step r qtb n) (_, x')) as [[j2 y']|];
    try contradiction; [|reflexivity].
  destruct Hs as (_ & _ & E). cbn [option_map snd]. f_equal.
  apply get_ext. intros i Hi. apply E. lia.
Qed.

Lemma ei_dogleg_initial_x (r diag qtb : list S) delta (x x' : list S) :
  length x = length x' ->
  ei_dogleg r diag qtb delta x = ei_dogleg r diag qtb delta x'.
Proof.
  intros Hl. unfold ei_dogleg. rewrite <- Hl.
  destruct (negb (Z.of_nat (length diag) =? Z.of_nat (length qtb)));
    [reflexivity|].
  destruct (Z.eqb_spec (Z.of_nat (length diag)) (Z.of_nat (length x)))
    as [En|En]; [|reflexivity].
  cbn [negb]. rewrite En, (gauss_newton_initial_x r qtb x x' Hl).
  reflexivity.
Qed.

Lemma combine_loop_length (wa1 : list S) temp alpha n (x x' : list S) :
  for_loop 0 n (combine_step wa1 temp alpha) x = Some x' ->
  length x' = length x.
Proof.
  intros E.
  apply (for_loop_preserves (fun y => length y = length x)) in E;
    [exact E| |reflexivity].
  intros i y y' _ Hy. unfold combine_step.
  destruct (get wa1 i); cbn [bind]; [|discriminate].
  destruct (get y i); cbn [bind]; [|discriminate].
  intros Es. apply set_length in Es. congruence.
Qed.

Lemma ei_dogleg_sizes (r diag qtb : list S) delta (x step : list S) :
  ei_dogleg r diag qtb delta x = Some step ->
  length qtb = length diag /\ length x = length diag
  /\ length step = length diag.
Proof.
  unfold ei_dogleg.
  destruct (Z.eqb_spec (Z.of_nat (length diag)) (Z.of_nat (length qtb)))
    as [Eq|Eq]; [|discriminate].
  destruct (Z.eqb_spec (Z.of_nat (length diag)) (Z.of_nat (length x)))
    as [Ex|Ex]; [|discriminate].
  cbn [negb].
  destruct (gauss_newton r qtb x _) as [xg|] eqn:Eg; cbn [bind];
    [|discriminate].
  apply gauss_newton_length in Eg.
  destruct (for_loop 0 _ (scale_step diag xg) _) as [[wa1 wa2]|];
    cbn [bind]; [|discriminate].
  destruct (sleb _ delta).
  { intros E. injection E as <-. repeat split; lia. }
  destruct (for_loop 0 _ (gradient_step r diag qtb _) _) as [[l g]|];
    cbn [bind]; [|discriminate].
  destruct (seqb _ zero); cbn [bind].
  { intros E. apply combine_loop_length in E. repeat split; lia. }
  destruct (for_loop 0 _ (normalize_step diag _) g) as [w|]; cbn [bind];
    [|discriminate].
  destruct (for_loop 0 _ (rmul_step r w _) _) as [[l2 v]|]; cbn [bind];
    [|discriminate].
  destruct (sleb delta _); cbn [bind];
    intros E; apply combine_loop_length in E; repeat split; lia.
Qed.

(** The first turn of the back-substitution reads the last entry of the
    packed factor. *)
Lemma gauss_newton_short_factor (r qtb x : list S) n :
  1 <= n -> Z.of_nat (length r) < n * (n + 1) / 2 ->
  gauss_newton r qtb x n = None.
Proof.
  intros Hn Hr. unfold gauss_newton.
  rewrite for_loop_first by lia. unfold gn_step at 1. cbv zeta.
  unfold gn_row_sum.
  replace (n <? n - 0 - 1 + 1) with false by (symmetry; apply Z.ltb_ge; lia).
  rewrite for_loop_empty by lia. cbn [option_map fst bind].
  unfold gn_divisor. rewrite get_None_length by lia. reflexivity.
Qed.

Lemma ei_dogleg_short_factor (r diag qtb : list S) delta (x : list S) :
  diag <> [] ->
  Z.of_nat (length r)
    < Z.of_nat (length diag) * (Z.of_nat (length diag) + 1) / 2 ->
  ei_dogleg r diag qtb delta x = None.
Proof.
  intros Hd Hr. unfold ei_dogleg.
  destruct (negb _); [reflexivity|]. destruct (negb _); [reflexivity|].
  rewrite gauss_newton_short_factor; [reflexivity| |exact Hr].
  destruct diag; [congruence|simpl; lia].
Qed.
End Generic.

Section Exact.
Import DoglegExact.
Variables eps prec : R.
#[local] Instance exact_reals : Scalar R := RScalar eps prec.
Local Open Scope R_scope.

(** Past the early return the step is on the boundary of the trust
    region. *)
Lemma ei_dogleg_on_boundary (r diag qtb x xg : list R) (delta : R) :
  let n := Z.of_nat (length diag) in
  length qtb = length diag -> length x = length diag ->
  (n * (n + 1) / 2 <= Z.of_nat (length r))%Z ->
  0 < delta ->
  (forall d, In d diag -> 0 < d) ->
  (forall j, (0 <= j < n)%Z -> vec r (packed_index n j j) <> 0) ->
  gauss_newton r qtb x n = Some xg ->
  delta < stableNorm (scaled diag xg) ->
  exists step, ei_dogleg r diag qtb delta x = Some step
    /\ stableNorm (scaled diag step) = delta.
Proof.
  intros n Hq Hx Hr Hdelta Hpos Hreg EG Hout.
  assert (Hn : Z.of_nat (length diag) = n) by reflexivity.
  assert (Hn0 : (0 <= n)%Z) by (unfold n; lia).
  assert (Hfit : (off n n <= Z.of_nat (length r))%Z)
    by (rewrite off_n; exact Hr).
  assert (Hdiag : forall i, (0 <= i < n)%Z -> vec diag i <> 0).
  { intros i Hi. assert (0 < vec diag i); [|lra].
    apply Hpos. unfold vec. apply nth_In. unfold n in Hi. lia. }
  destruct (gauss_newton_solves eps prec n r Hn0 Hfit qtb x Hreg
              ltac:(lia) ltac:(lia)) as (xg' & EG' & LG & RowG).
  assert (E0 : Some xg' = Some xg) by (rewrite <- EG'; exact EG).
  injection E0 as ->. clear EG'.
  destruct (ei_dogleg_closed_form eps prec n r Hn0 Hfit diag qtb x xg delta
              Hn Hq Hx EG LG) as (step & ES & LS & VS).
  exists step. split; [exact ES|].
  pose proof (stableNorm_scaled eps prec n r diag step Hn LS) as NS.
  pose proof (stableNorm_scaled eps prec n r diag xg Hn LG) as NG.
  change (stableNorm (scaled diag step) = sqrt (scaled_norm2 n diag step))
    in NS.
  change (stableNorm (scaled diag xg) = sqrt (scaled_norm2 n diag xg)) in NG.
  rewrite NS. rewrite NG in Hout. clear NS NG.
  unfold dogleg_point in VS.
  assert (Hqq : sqrt (scaled_norm2 n diag xg) * sqrt (scaled_norm2 n diag xg)
                = scaled_norm2 n diag xg) by (apply sqrt_sqrt, dot_nonneg).
  set (qnorm := sqrt (scaled_norm2 n diag xg)) in *.
  rewrite (Rleb_false qnorm delta) in VS by exact Hout.
  assert (Hsq : forall a, a = delta * delta -> sqrt a = delta).
  { intros a ->. apply sqrt_square. lra. }
  apply Hsq.
  assert (Hgg : gradient_norm n r diag qtb * gradient_norm n r diag qtb
                = dot n (grad n r diag qtb) (grad n r diag qtb))
    by (apply sqrt_sqrt, dot_nonneg).
  assert (Hg0 : 0 <= gradient_norm n r diag qtb) by apply sqrt_pos.
  set (gnorm := gradient_norm n r diag qtb) in *.
  destruct (Reqb_spec gnorm 0) as [Eg0|Hg].
  { apply (scaled_back_step eps prec n diag xg step (grad n r diag qtb)
             delta qnorm); auto; lra. }
  assert (Hs0 : 0 <= cauchy_length n r diag qtb).
  { unfold cauchy_length, Rdiv. rewrite Rmult_assoc.
    apply Rmult_le_pos; [exact Hg0|]. apply Rle_0_sqr. }
  set (sgnorm := cauchy_length n r diag qtb) in *.
  destruct (Rleb_spec delta sgnorm) as [Hfar|Hnear].
  { apply (gradient_step_on_boundary eps prec n diag xg step
             (grad n r diag qtb) (direction n r diag qtb)
             delta gnorm sgnorm); auto; lra. }
  apply Rnot_le_lt in Hnear.
  assert (Hbb : sqrt (dot n (vec qtb) (vec qtb))
                * sqrt (dot n (vec qtb) (vec qtb))
                = dot n (vec qtb) (vec qtb)) by (apply sqrt_sqrt, dot_nonneg).
  assert (Hb0 : 0 <= sqrt (dot n (vec qtb) (vec qtb))) by apply sqrt_pos.
  set (bnorm := sqrt (dot n (vec qtb) (vec qtb))) in *.
  destruct (gradient_dot_bound n r Hn0 diag qtb xg qnorm gnorm bnorm
              ltac:(lra) ltac:(lra) Hqq Hgg Hbb Hdiag RowG) as [Egu Hp].
  destruct (dogleg_step_norm eps prec n diag xg step (grad n r diag qtb)
              (direction n r diag qtb) delta qnorm gnorm bnorm sgnorm
              (bnorm * bnorm / gnorm)
              ltac:(lra) ltac:(lra) ltac:(lra) Hb0 Hqq Hgg Hp Hdiag
              Egu ltac:(intros; reflexivity) VS) as [_ E].
  rewrite E. ring.
Qed.

(** X1. In exact arithmetic, when no diagonal entry of the packed factor R
    is zero, the back-substitution of [ei_dogleg] returns and the step it
    leaves solves [R x = qtb]: row [j] of R times the step is [qtb[j]]. *)
Theorem gauss_newton_solves_the_system (r qtb x : list R) :
  let n := Z.of_nat (length qtb) in
  length x = length qtb ->
  (n * (n + 1) / 2 <= Z.of_nat (length r))%Z ->
  (forall j, (0 <= j < n)%Z -> vec r (packed_index n j j) <> 0) ->
  exists xg, gauss_newton r qtb x n = Some xg
    /\ length xg = length qtb
    /\ forall j, (0 <= j < n)%Z ->
         sumZ j n (fun i => vec r (packed_index n j i) * vec xg i)
         = vec qtb j.
Proof.
  intros n Hx Hr Hreg.
  destruct (gauss_newton_solves eps prec n r ltac:(unfold n; lia)
              ltac:(rewrite off_n; exact Hr) qtb x Hreg eq_refl
              ltac:(unfold n; lia)) as (xg & EG & LG & Row).
  exists xg. split; [exact EG|]. split; [unfold n in LG; lia|exact Row].
Qed.

(** X3. In exact arithmetic, with positive scaling and no zero on the
    diagonal of R, when the Gauss-Newton step is outside the trust region
    the step that [ei_dogleg] returns is on its boundary: the norm of
    [diag[j] * x[j]] is [delta] itself. *)
Theorem step_is_on_the_boundary (r diag qtb x xg : list R) (delta : R) :
  let n := Z.of_nat (length diag) in
  length qtb = length diag -> length x = length diag ->
  (n * (n + 1) / 2 <= Z.of_nat (length r))%Z ->
  0 < delta ->
  (forall d, In d diag -> 0 < d) ->
  (forall j, (0 <= j < n)%Z -> vec r (packed_index n j j) <> 0) ->
  gauss_newton r qtb x n = Some xg ->
  delta < stableNorm (scaled diag xg) ->
  exists step, ei_dogleg r diag qtb delta x = Some step
    /\ stableNorm (scaled diag step) = delta.
Proof. exact (ei_dogleg_on_boundary r diag qtb x xg delta). Qed.
End Exact.

Section Entries.
Context {S : Type} `{Scalar S}.

(** X2. [x] is an output of [ei_dogleg] only: the step returned, or the
    fault, is the same for any two vectors [x] of the same size. *)
Theorem initial_x_is_never_read (r diag qtb : list S) delta (x x' : list S) :
  length x = length x' ->
  ei_dogleg r diag qtb delta x = ei_dogleg r diag qtb delta x'.
Proof. exact (ei_dogleg_initial_x r diag qtb delta x x'). Qed.

(** X4. When [ei_dogleg] returns, the assertions on the sizes held,
    [qtb] and [x] have the size of [diag], and so has the step. *)
Theorem step_has_the_size_of_diag (r diag qtb : list S) delta
    (x step : list S) :
  ei_dogleg r diag qtb delta x = Some step ->
  length qtb = length diag /\ length x = length diag
  /\ length step = length diag.
Proof. exact (ei_dogleg_sizes r diag qtb delta x step). Qed.

(** X5. A packed factor with fewer than [n (n + 1) / 2] entries, [n >= 1]
    the size of [diag], is read out of its bounds: [ei_dogleg] faults, at
    the first turn of the back-substitution. *)
Theorem short_factor_is_a_fault (r diag qtb : list S) delta (x : list S) :
  diag <> [] ->
  Z.of_nat (length r)
    < Z.of_nat (length diag) * (Z.of_nat (length diag) + 1) / 2 ->
  ei_dogleg r diag qtb delta x = None.
Proof. exact (ei_dogleg_short_factor r diag qtb delta x). Qed.
End Entries.
End DoglegMore.

Module DoglegMoreExamples.
Import Dogleg DoglegFacts DoglegMore.
Local Open Scope R_scope.

Lemma gauss_newton_solves_the_system_witness :
  exists xg,
    gauss_newton (H := RDouble) [2; 1; 4] [4; 8] [0; 0] 2 = Some xg
    /\ length xg = 2%nat
    /\ forall j, (0 <= j < 2)%Z ->
         sumZ j 2 (fun i => vec [2; 1; 4] (packed_index 2 j i) * vec xg i)
         = vec [4; 8] j.
Proof.
  apply (gauss_newton_solves_the_system eps_double prec_double
           [2; 1; 4] [4; 8] [0; 0]).
  - reflexivity.
  - vm_compute. discriminate.
  - intros j Hj. assert (E : j = 0%Z \/ j = 1%Z) by (simpl in Hj; lia).
    destruct E as [->| ->]; keep_reals; lra.
Defined.

Lemma gauss_newton_identity2 :
  gauss_newton (H := RDouble) [1; 0; 1] [3; 4] [0; 0] 2 = Some [3; 4].
Proof. run_decisions. same_reals. Qed.

Lemma step_is_on_the_boundary_witness :
  exists step,
    ei_dogleg (H := RDouble) [1; 0; 1] [1; 1] [3; 4] 1 [0; 0] = Some step
    /\ stableNorm (H := RDouble) (scaled (H := RDouble) [1; 1] step) = 1.
Proof.
  apply (step_is_on_the_boundary eps_double prec_double
           [1; 0; 1] [1; 1] [3; 4] [0; 0] [3; 4] 1).
  - reflexivity.
  - reflexivity.
  - vm_compute. discriminate.
  - lra.
  - intros d [<-|[<-|[]]]; lra.
  - intros j Hj. assert (E : j = 0%Z \/ j = 1%Z) by (simpl in Hj; lia).
    destruct E as [->| ->]; keep_reals; lra.
  - exact gauss_newton_identity2.
  - keep_reals. rewrite <- sqrt_1 at 1. apply sqrt_lt_1_alt. lra.
Defined.

Lemma initial_x_is_never_read_witness :
  ei_dogleg (H := FScalar) [1; 0; 1]%float [1; 1]%float [3; 4]%float
    1%float [0; 0]%float
  = ei_dogleg (H := FScalar) [1; 0; 1]%float [1; 1]%float [3; 4]%float
      1%float [7; -3]%float.
Proof.
  apply (initial_x_is_never_read (H := FScalar)). reflexivity.
Defined.

Lemma step_has_the_size_of_diag_witness :
  exists step,
    ei_dogleg (H := FScalar) [1; 0; 1]%float [1; 1]%float [3; 4]%float
      1%float [0; 0]%float = Some step
    /\ length step = 2%nat.
Proof.
  destruct (ei_dogleg (H := FScalar) [1; 0; 1]%float [1; 1]%float
              [3; 4]%float 1%float [0; 0]%float) as [step|] eqn:E.
  - exists step. split; [reflexivity|].
    exact (proj2 (proj2 (step_has_the_size_of_diag (H := FScalar)
                           _ _ _ _ _ _ E))).
  - vm_compute in E. discriminate.
Defined.

Lemma short_factor_is_a_fault_witness :
  ei_dogleg (H := FScalar) [1; 0]%float [1; 1]%float [3; 4]%float
    1%float [0; 0]%float = None.
Proof.
  apply (short_factor_is_a_fault (H := FScalar)).
  - discriminate.
  - vm_compute. reflexivity.
Defined.
End DoglegMoreExamples.

(* ================================================================= *)
(** ** The QR step: the entries it touches, its bounds, the trace *)

Module QRStepFacts.
Import EigenSolver.

Section Frame.
Context {S : Type} `{Scalar S}.
Local Abbreviation Matrix := (Matrix S).
Variable makeGivens : S -> S -> S * S.
Variable applyOnTheRight : Matrix -> Z -> Z -> S * S -> Matrix.

Local Abbreviation qr_rotation := (qr_rotation makeGivens applyOnTheRight).
Local Abbreviation qr_step :=
  (ei_tridiagonal_qr_step makeGivens applyOnTheRight).

(** What a state of the loop keeps of the arrays it started from: their
    sizes, and their entries outside the block [start .. end]. *)
Definition framed (start end_ : Z) (d sd : list S)
    (st : list S * list S * S * S * option Matrix) : Prop :=
  let '(d', sd', _, _, _) := st in
  length d' = length d /\ length sd' = length sd
  /\ (forall i, i < start \/ end_ < i -> get d' i = get d i)
  /\ (forall i, i < start \/ end_ <= i -> get sd' i = get sd i).

Lemma qr_rotation_framed start end_ k d sd st st' :
  start <= k < end_ ->
  framed start end_ d sd st ->
  qr_rotation start end_ k st = Some st' ->
  framed start end_ d sd st'.
Proof.
  intros Hk. destruct st as [[[[d1 sd1] x] z] q].
  intros (L1 & L2 & F1 & F2). unfold EigenSolver.qr_rotation.
  destruct (makeGivens x z) as [c s].
  destruct (get d1 k) as [dk|]; cbn [bind]; [|discriminate].
  destruct (get sd1 k) as [sk|]; cbn [bind]; [|discriminate].
  destruct (get d1 (k + 1)) as [dk1|]; cbn [bind]; [|discriminate].
  destruct (set d1 k _) as [d2|] eqn:E1; cbn [bind]; [|discriminate].
  destruct (set d2 (k + 1) _) as [d3|] eqn:E2; cbn [bind]; [|discriminate].
  destruct (set sd1 k _) as [sd2|] eqn:E3; cbn [bind]; [|discriminate].
  assert (G2 : length sd2 = length sd
               /\ forall i, i < start \/ end_ <= i -> get sd2 i = get sd i).
  { split; [rewrite (set_length _ _ _ _ E3); exact L2|].
    intros i Hi. rewrite (get_set_other _ _ _ _ _ E3) by lia. now apply F2. }
  destruct G2 as [L3 F3].
  assert (G3 : forall sd3,
            (if k >? start
             then skm1 <- get sd2 (k - 1) ;;
                  set sd2 (k - 1) (ssub (smul c skm1) (smul s z))
             else Some sd2) = Some sd3 ->
            length sd3 = length sd
            /\ forall i, i < start \/ end_ <= i -> get sd3 i = get sd i).
  { intros sd3. destruct (Z.gtb_spec k start) as [Hgt|Hle].
    - destruct (get sd2 (k - 1)); cbn [bind]; [|discriminate].
      intros E. split; [rewrite (set_length _ _ _ _ E); exact L3|].
      intros i Hi. rewrite (get_set_other _ _ _ _ _ E) by lia. now apply F3.
    - intros E. injection E as <-. auto. }
  destruct (if k >? start then _ else _) as [sd3|]; cbn [bind];
    [|discriminate].
  destruct (G3 sd3 eq_refl) as [L4 F4]. clear G3.
  destruct (get sd3 k) as [x'|]; cbn [bind]; [|discriminate].
  assert (G4 : forall z' sd4,
            (if k <? end_ - 1
             then sk1 <- get sd3 (k + 1) ;;
                  sd4 <- set sd3 (k + 1) (smul c sk1) ;;
                  Some (smul (sopp s) sk1, sd4)
             else Some (z, sd3)) = Some (z', sd4) ->
            length sd4 = length sd
            /\ forall i, i < start \/ end_ <= i -> get sd4 i = get sd i).
  { intros z' sd4. destruct (Z.ltb_spec k (end_ - 1)) as [Hlt|Hge].
    - destruct (get sd3 (k + 1)); cbn [bind]; [|discriminate].
      destruct (set sd3 (k + 1) _) as [sd5|] eqn:E; cbn [bind];
        [|discriminate].
      intros E'. injection E' as _ <-.
      split; [rewrite (set_length _ _ _ _ E); exact L4|].
      intros i Hi. rewrite (get_set_other _ _ _ _ _ E) by lia. now apply F4.
    - intros E. injection E as _ <-. auto. }
  destruct (if k <? end_ - 1 then _ else _) as [[z' sd4]|]; cbn [bind];
    [|discriminate].
  destruct (G4 z' sd4 eq_refl) as [L5 F5]. clear G4.
  intros E. injection E as <-. unfold framed.
  split; [rewrite (set_length _ _ _ _ E2), (set_length _ _ _ _ E1);
          exact L1|].
  split; [exact L5|]. split; [|exact F5].
  intros i Hi. rewrite (get_set_other _ _ _ _ _ E2) by lia.
  rewrite (get_set_other _ _ _ _ _ E1) by lia. now apply F1.
Qed.

Lemma qr_step_framed diag subdiag start end_ q n d' sd' q' :
  qr_step diag subdiag start end_ q n = Some (d', sd', q') ->
  length d' = length diag /\ length sd' = length subdiag
  /\ (forall i, i < start \/ end_ < i -> get d' i = get diag i)
  /\ (forall i, i < start \/ end_ <= i -> get sd' i = get subdiag i).
Proof.
  unfold EigenSolver.ei_tridiagonal_qr_step.
  destruct (get diag (end_ - 1)); cbn [bind]; [|discriminate].
  destruct (get diag end_); cbn [bind]; [|discriminate].
  destruct (get subdiag (end_ - 1)); cbn [bind]; [|discriminate].
  destruct (get diag start); cbn [bind]; [|discriminate].
  destruct (get subdiag start); cbn [bind]; [|discriminate].
  match goal with
  | |- bind (for_loop ?a ?b ?f ?st) _ = _ -> _ =>
      destruct (for_loop a b f st) as [[[[[d1 u1] x1] z1] q1]|] eqn:E;
      cbn [bind]; [|discriminate]
  end.
  intros E'. injection E' as <- <- <-.
  apply (for_loop_preserves (framed start end_ diag subdiag)) in E;
    [exact E| |].
  - intros i t t' Hi. now apply qr_rotation_framed.
  - unfold framed. auto.
Qed.

Ltac read_in_range v i :=
  let a := fresh "a" in
  let G := fresh "G" in
  destruct (get_in_range v i) as [a G]; [lia|]; rewrite G; cbn [bind].

Ltac write_in_range v i :=
  match goal with |- context [set v i ?a] =>
    let w := fresh "w" in
    let E := fresh "E" in
    destruct (set_in_range v i a) as [w E]; [lia|]; rewrite E; cbn [bind];
    apply set_length in E
  end.

Lemma qr_rotation_returns start end_ k d sd x z q :
  0 <= start -> start <= k < end_ ->
  end_ < Z.of_nat (length d) -> end_ <= Z.of_nat (length sd) ->
  exists st', qr_rotation start end_ k (d, sd, x, z, q) = Some st'.
Proof.
  intros Hs Hk Hd Hsd. unfold EigenSolver.qr_rotation.
  destruct (makeGivens x z) as [c s].
  read_in_range d k. read_in_range sd k. read_in_range d (k + 1).
  write_in_range d k. write_in_range w (k + 1). write_in_range sd k.
  destruct (Z.gtb_spec k start).
  - read_in_range w1 (k - 1). write_in_range w1 (k - 1).
    read_in_range w2 k.
    destruct (Z.ltb_spec k (end_ - 1)).
    + read_in_range w2 (k + 1). write_in_range w2 (k + 1). eauto.
    + cbn [bind]. eauto.
  - cbn [bind]. read_in_range w1 k.
    destruct (Z.ltb_spec k (end_ - 1)).
    + read_in_range w1 (k + 1). write_in_range w1 (k + 1). eauto.
    + cbn [bind]. eauto.
Qed.

Lemma qr_step_returns diag subdiag start end_ q n :
  0 <= start -> start < end_ ->
  end_ < Z.of_nat (length diag) -> end_ <= Z.of_nat (length subdiag) ->
  exists res, qr_step diag subdiag start end_ q n = Some res.
Proof.
  intros Hs Hse Hd Hsd. unfold EigenSolver.ei_tridiagonal_qr_step.
  read_in_range diag (end_ - 1). read_in_range diag end_.
  read_in_range subdiag (end_ - 1). read_in_range diag start.
  read_in_range subdiag start.
  match goal with
  | |- context [for_loop ?a ?b ?f ?st] =>
      destruct (for_loop_inv
                  (fun (_ : Z) t => framed start end_ diag subdiag t)
                  a b f st) as ([[[[d1 u1] x1] z1] q1] & E & _)
  end.
  - lia.
  - unfold framed. auto.
  - intros i [[[[d1 u1] x1] z1] q1] Hi Hf.
    pose proof Hf as (L1 & L2 & _).
    destruct (qr_rotation_returns start end_ i d1 u1 x1 z1 q1)
      as [t' Et]; try lia.
    exists t'. split; [exact Et|].
    eapply qr_rotation_framed; eauto.
  - rewrite E. cbn [bind]. eauto.
Qed.

Lemma qr_step_bounds diag subdiag start end_ q n res :
  qr_step diag subdiag start end_ q n = Some res ->
  0 <= start < Z.of_nat (length diag)
  /\ 0 < end_ < Z.of_nat (length diag)
  /\ end_ <= Z.of_nat (length subdiag).
Proof.
  unfold EigenSolver.ei_tridiagonal_qr_step.
  destruct (get diag (end_ - 1)) eqn:G1; cbn [bind]; [|discriminate].
  destruct (get diag end_) eqn:G2; cbn [bind]; [|discriminate].
  destruct (get subdiag (end_ - 1)) eqn:G3; cbn [bind]; [|discriminate].
  destruct (get diag start) eqn:G4; cbn [bind]; [|discriminate].
  intros _.
  apply get_Some_range in G1, G2, G3, G4. lia.
Qed.
End Frame.

Section Trace.
Variables eps prec : R.
#[local] Instance trace_reals : Scalar R := RScalar eps prec.
Local Abbreviation Matrix := (Matrix R).
Variable makeGivens : R -> R -> R * R.
Variable applyOnTheRight : Matrix -> Z -> Z -> R * R -> Matrix.
Local Open Scope R_scope.

Local Abbreviation qr_rotation := (qr_rotation makeGivens applyOnTheRight).
Local Abbreviation qr_step :=
  (ei_tridiagonal_qr_step makeGivens applyOnTheRight).

(** The rotations have a cosine and a sine. *)
Hypothesis makeGivens_unit :
  forall x z, fst (makeGivens x z) * fst (makeGivens x z)
              + snd (makeGivens x z) * snd (makeGivens x z) = 1.

(** The sum of the entries: the trace of the tridiagonal matrix. *)
Definition total (v : list R) : R := sumZ 0 (Z.of_nat (length v)) (vec v).

Lemma sumZ_split lo mid hi f :
  (lo <= mid <= hi)%Z -> sumZ lo hi f = sumZ lo mid f + sumZ mid hi f.
Proof.
  intros [H1 H2].
  assert (G : forall c : nat,
            sumZ lo (mid + Z.of_nat c) f
            = sumZ lo mid f + sumZ mid (mid + Z.of_nat c) f).
  { induction c as [|c IH].
    - replace (mid + Z.of_nat 0)%Z with mid by lia.
      rewrite (sumZ_empty mid mid) by lia. lra.
    - replace (mid + Z.of_nat (Datatypes.S c))%Z
        with (mid + Z.of_nat c + 1)%Z by lia.
      rewrite (sumZ_last lo (mid + Z.of_nat c + 1)) by lia.
      rewrite (sumZ_last mid (mid + Z.of_nat c + 1)) by lia.
      replace (mid + Z.of_nat c + 1 - 1)%Z with (mid + Z.of_nat c)%Z by lia.
      rewrite IH. lra. }
  specialize (G (Z.to_nat (hi - mid))).
  replace (mid + Z.of_nat (Z.to_nat (hi - mid)))%Z with hi in G by lia.
  exact G.
Qed.

Lemma total_set (v v' : list R) k a :
  set v k a = Some v' -> total v' = total v - vec v k + a.
Proof.
  intros E. pose proof (set_Some_range _ _ _ _ E) as Hk.
  unfold total. rewrite (set_length _ _ _ _ E).
  set (n := Z.of_nat (length v)) in *.
  rewrite (sumZ_split 0 k n (vec v')), (sumZ_split 0 k n (vec v)) by lia.
  rewrite (sumZ_first k n (vec v')), (sumZ_first k n (vec v)) by lia.
  rewrite (sumZ_ext 0 k (vec v') (vec v)).
  - rewrite (sumZ_ext (k + 1) n (vec v') (vec v)).
    + rewrite (vec_set _ _ _ _ _ E) by lia. rewrite Z.eqb_refl. lra.
    + intros i Hi. rewrite (vec_set _ _ _ _ _ E) by lia.
      destruct (Z.eqb_spec i k); [lia|reflexivity].
  - intros i Hi. rewrite (vec_set _ _ _ _ _ E) by lia.
    destruct (Z.eqb_spec i k); [lia|reflexivity].
Qed.

Lemma get_vec_eq (v : list R) i a : get v i = Some a -> vec v i = a.
Proof.
  intros G. pose proof (get_Some_range _ _ _ G) as Hi.
  rewrite (get_vec v i Hi) in G. congruence.
Qed.

Lemma qr_rotation_total start end_ k d sd x z q d' sd' x' z' q' :
  qr_rotation start end_ k (d, sd, x, z, q) = Some (d', sd', x', z', q') ->
  total d' = total d.
Proof.
  unfold EigenSolver.qr_rotation.
  pose proof (makeGivens_unit x z) as Hu.
  destruct (makeGivens x z) as [c s]. cbn [fst snd] in Hu.
  destruct (get d k) as [dk|] eqn:G1; cbn [bind]; [|discriminate].
  destruct (get sd k) as [sk|]; cbn [bind]; [|discriminate].
  destruct (get d (k + 1)) as [dk1|] eqn:G2; cbn [bind]; [|discriminate].
  destruct (set d k _) as [d2|] eqn:E1; cbn [bind]; [|discriminate].
  destruct (set d2 (k + 1) _) as [d3|] eqn:E2; cbn [bind]; [|discriminate].
  destruct (bind _ _) as [[[[[d4 sd4] x4] z4] q4]|] eqn:E3; [|discriminate].
  intros E. injection E as <- <- <- <- <-.
  assert (d4 = d3).
  { revert E3. clear.
    repeat match goal with
    | |- bind ?m _ = _ -> _ => destruct m; cbn [bind]; [|discriminate]
    | |- context [let '(_, _) := ?p in _] => destruct p
    end.
    intros E. now injection E. }
  subst d4.
  rewrite (total_set _ _ _ _ E2), (total_set _ _ _ _ E1).
  pose proof (set_Some_range _ _ _ _ E1) as Hk.
  rewrite (vec_set _ _ _ _ _ E1) by lia.
  destruct (Z.eqb_spec (k + 1) k); [lia|].
  rewrite (get_vec_eq _ _ _ G1), (get_vec_eq _ _ _ G2).
  cbn [sadd ssub smul trace_reals RScalar].
  replace (total d - dk
           + (c * (c * dk - s * sk) - s * (c * sk - s * dk1)) - dk1
           + (s * (s * dk + c * sk) + c * (s * sk + c * dk1)))
    with (total d + (c * c + s * s - 1) * (dk + dk1)) by ring.
  rewrite Hu. ring.
Qed.

Lemma qr_step_total diag subdiag start end_ q n d' sd' q' :
  qr_step diag subdiag start end_ q n = Some (d', sd', q') ->
  total d' = total diag.
Proof.
  unfold EigenSolver.ei_tridiagonal_qr_step.
  destruct (get diag (end_ - 1)); cbn [bind]; [|discriminate].
  destruct (get diag end_); cbn [bind]; [|discriminate].
  destruct (get subdiag (end_ - 1)); cbn [bind]; [|discriminate].
  destruct (get diag start); cbn [bind]; [|discriminate].
  destruct (get subdiag start); cbn [bind]; [|discriminate].
  match goal with
  | |- bind (for_loop ?a ?b ?f ?st) _ = _ -> _ =>
      destruct (for_loop a b f st) as [[[[[d1 u1] x1] z1] q1]|] eqn:E;
      cbn [bind]; [|discriminate]
  end.
  intros E'. injection E' as <- <- <-.
  apply (for_loop_preserves
           (fun t : list R * list R * R * R * option Matrix =>
              total (fst (fst (fst (fst t)))) = total diag)) in E;
    [exact E| |reflexivity].
  intros i [[[[d2 u2] x2] z2] q2] [[[[d3 u3] x3] z3] q3] _ Ht Es.
  cbn [fst] in *. rewrite <- Ht. eapply qr_rotation_total. exact Es.
Qed.

(** X8. In exact arithmetic, when every rotation that [makeGivens] yields
    has [c^2 + s^2 = 1], a QR step keeps the sum of the entries of [diag]:
    the trace of the tridiagonal matrix, the sum of its eigenvalues. *)
Theorem qr_step_keeps_the_trace diag subdiag start end_ q n d' sd' q' :
  qr_step diag subdiag start end_ q n = Some (d', sd', q') ->
  total d' = total diag.
Proof. exact (qr_step_total diag subdiag start end_ q n d' sd' q'). Qed.
End Trace.

Section Block.
Context {S : Type} `{Scalar S}.
Local Abbreviation Matrix := (Matrix S).
Variable makeGivens : S -> S -> S * S.
Variable applyOnTheRight : Matrix -> Z -> Z -> S * S -> Matrix.
Local Abbreviation qr_step :=
  (ei_tridiagonal_qr_step makeGivens applyOnTheRight).

(** X6. A QR step on the block [start .. end] keeps the sizes of [diag]
    and [subdiag] and touches no entry outside the block: [diag[i]] for
    [i < start] or [i > end] and [subdiag[i]] for [i < start] or [i >= end]
    are what they were. *)
Theorem qr_step_touches_its_block_only
    diag subdiag start end_ q n d' sd' q' :
  qr_step diag subdiag start end_ q n = Some (d', sd', q') ->
  length d' = length diag /\ length sd' = length subdiag
  /\ (forall i, i < start \/ end_ < i -> get d' i = get diag i)
  /\ (forall i, i < start \/ end_ <= i -> get sd' i = get subdiag i).
Proof.
  exact (qr_step_framed makeGivens applyOnTheRight
           diag subdiag start end_ q n d' sd' q').
Qed.

(** X7. Called without a matrix of eigenvectors ([matrixQ] is the null
    pointer, so that [diag] and [subdiag] are the only arrays the step
    reads and writes), and for [start < end], a QR step stays inside its
    arrays (it returns without a fault) exactly when [0 <= start],
    [end < size of diag] and [end <= size of subdiag]. *)
Theorem qr_step_stays_in_bounds diag subdiag start end_ n :
  start < end_ ->
  (exists res,
     ei_tridiagonal_qr_step makeGivens applyOnTheRight
       diag subdiag start end_ None n = Some res)
  <-> (0 <= start /\ end_ < Z.of_nat (length diag)
       /\ end_ <= Z.of_nat (length subdiag)).
Proof.
  intros Hse. split.
  - intros [res E].
    apply (qr_step_bounds makeGivens applyOnTheRight) in E. lia.
  - intros (H1 & H2 & H3).
    now apply (qr_step_returns makeGivens applyOnTheRight).
Qed.
End Block.
End QRStepFacts.

Module QRStepExamples.
Import EigenSolver QRStepFacts.

Lemma qr_step_touches_its_block_only_witness :
  exists d' sd' q',
    ei_tridiagonal_qr_step (H := FScalar) (givens (H := FScalar))
      (rotate_columns (H := FScalar))
      [2; 1; 5]%float [1; 0]%float 0 1 None 3 = Some (d', sd', q')
    /\ length d' = 3%nat /\ length sd' = 2%nat
    /\ (forall i, i < 0 \/ 1 < i -> get d' i = get [2; 1; 5]%float i)
    /\ (forall i, i < 0 \/ 1 <= i -> get sd' i = get [1; 0]%float i).
Proof.
  destruct (ei_tridiagonal_qr_step (H := FScalar) (givens (H := FScalar))
              (rotate_columns (H := FScalar))
              [2; 1; 5]%float [1; 0]%float 0 1 None 3)
    as [[[d' sd'] q']|] eqn:E.
  - exists d', sd', q'. split; [reflexivity|].
    exact (qr_step_touches_its_block_only (H := FScalar) _ _ _ _ _ _ _ _
             _ _ _ E).
  - vm_compute in E. discriminate.
Defined.

Lemma qr_step_stays_in_bounds_witness :
  (exists res,
     ei_tridiagonal_qr_step (H := FScalar) (givens (H := FScalar))
       (rotate_columns (H := FScalar))
       [2; 1; 5]%float [1; 0]%float 0 1 None 3 = Some res)
  <-> (0 <= 0 /\ 1 < Z.of_nat (length [2; 1; 5]%float)
       /\ 1 <= Z.of_nat (length [1; 0]%float)).
Proof.
  apply (qr_step_stays_in_bounds (H := FScalar)). lia.
Defined.

(** A rotation for every pair: [givens], and the identity for the pair
    [(0, 0)], which has no direction. *)
Definition unit_givens (x z : R) : R * R :=
  if Reqb (x * x + z * z) 0 then (1%R, 0%R)
  else givens (H := RDouble) x z.

Lemma unit_givens_unit x z :
  (fst (unit_givens x z) * fst (unit_givens x z)
   + snd (unit_givens x z) * snd (unit_givens x z) = 1)%R.
Proof.
  unfold unit_givens. destruct (Reqb_spec (x * x + z * z) 0) as [E|E].
  - cbn [fst snd]. lra.
  - unfold givens. cbn [fst snd sadd smul sdiv sopp ei_sqrt RDouble RScalar].
    assert (Hw : (0 < x * x + z * z)%R) by nra.
    assert (Hr : (sqrt (x * x + z * z) * sqrt (x * x + z * z)
                  = x * x + z * z)%R) by (apply sqrt_sqrt; lra).
    set (r := sqrt (x * x + z * z)) in *.
    assert (r <> 0%R) by (intros ->; lra).
    replace (x / r * (x / r) + - z / r * (- z / r))%R
      with ((x * x + z * z) / (r * r))%R by (field; auto).
    rewrite Hr. field. lra.
Qed.

Lemma qr_step_keeps_the_trace_witness :
  exists d' sd' q',
    ei_tridiagonal_qr_step (H := RDouble) unit_givens
      (rotate_columns (H := RDouble)) [2; 1]%R [1]%R 0 1 None 2
    = Some (d', sd', q')
    /\ total d' = total [2; 1]%R.
Proof.
  destruct (qr_step_returns (H := RDouble) unit_givens
              (rotate_columns (H := RDouble)) [2; 1]%R [1]%R 0 1 None 2)
    as [[[d' sd'] q'] E]; try (simpl; lia).
  exists d', sd', q'. split; [exact E|].
  exact (qr_step_keeps_the_trace eps_double prec_double unit_givens
           (rotate_columns (H := RDouble)) unit_givens_unit
           _ _ _ _ _ _ _ _ _ E).
Defined.
End QRStepExamples.

(* ================================================================= *)
(** ** The eigen solver: sorted input, sizes, accessors *)

Module SolverMore.
Import EigenSolver SortFacts.

Section SortedInput.
Context {S : Type} `{Scalar S}.
Local Abbreviation Matrix := (Matrix S).

(** No entry among the first [n] is strictly below an entry before it. *)
Definition ascending (n : Z) (v : list S) : Prop :=
  forall i j, 0 <= i -> i < j -> j < n -> sltb (at_ v j) (at_ v i) = false.

Lemma minCoeff_from_keeps (t : list S) : forall i best k,
  (forall x, In x t -> sltb x best = false) ->
  minCoeff_from t i best k = k.
Proof.
  induction t as [|a t IH]; intros i best k Hall; simpl; [reflexivity|].
  rewrite (Hall a) by (now left). apply IH. intros x Hx. apply Hall.
  now right.
Qed.

Lemma sort_step_ascending n i (ev : list S) (q : Matrix) :
  0 <= i < n - 1 -> n <= Z.of_nat (length ev) -> ascending n ev ->
  sort_step n i (ev, q) = Some (ev, q).
Proof.
  intros Hi Hn Hasc. unfold sort_step.
  destruct (segment ev i (n - i)) as [seg|] eqn:Es.
  2:{ unfold segment in Es.
      destruct (Z.leb_spec 0 i); [|lia].
      destruct (Z.leb_spec 0 (n - i)); [|lia].
      destruct (Z.leb_spec (i + (n - i)) (Z.of_nat (length ev))); [|lia].
      discriminate. }
  cbn [bind]. apply segment_spec in Es as (_ & _ & _ & Hlen & Hnth).
  destruct seg as [|a t]; [simpl in Hlen; lia|].
  cbn [length] in Hlen.
  unfold minCoeff. cbn [bind].
  rewrite minCoeff_from_keeps; [reflexivity|].
  intros x Hx. apply (In_nth _ _ zero) in Hx as (j & Hj & <-).
  assert (H0 : at_ (a :: t) 0 = at_ ev (i + 0)) by (apply Hnth; lia).
  assert (H1 : at_ (a :: t) (Z.of_nat (Datatypes.S j))
               = at_ ev (i + Z.of_nat (Datatypes.S j)))
    by (apply Hnth; lia).
  unfold at_ in H0, H1. rewrite Nat2Z.id in H1.
  change (nth (Z.to_nat 0) (a :: t) zero) with a in H0.
  change (nth (Datatypes.S j) (a :: t) zero) with (nth j t zero) in H1.
  rewrite H0, H1. apply Hasc; lia.
Qed.

Lemma sort_pass_ascending n (ev : list S) (q : Matrix) :
  n <= Z.of_nat (length ev) -> ascending n ev ->
  sort_pass n (ev, q) = Some (ev, q).
Proof.
  intros Hn Hasc. unfold sort_pass.
  destruct (Z.le_gt_cases (n - 1) 0) as [Hle|Hgt].
  { now apply for_loop_empty. }
  destruct (for_loop_inv (fun (_ : Z) st => st = (ev, q))
              0 (n - 1) (sort_step n) (ev, q)) as (st & E & ->).
  - lia.
  - reflexivity.
  - intros i t Hi ->. exists (ev, q). split; [|reflexivity].
    apply sort_step_ascending; auto; lia.
  - exact E.
Qed.
End SortedInput.

Section Sizes.
Context {S : Type} `{Scalar S}.
Local Abbreviation Matrix := (Matrix S).
Local Abbreviation Solver := (Solver S).
Local Abbreviation LoopState := (LoopState S).
Variable makeGivens : S -> S -> S * S.
Variable applyOnTheRight : Matrix -> Z -> Z -> S * S -> Matrix.
Variable decomposeInPlace : Matrix -> bool -> Matrix * list S * list S.

Local Abbreviation loop_body := (loop_body makeGivens applyOnTheRight).
Local Abbreviation qr_loop := (qr_loop makeGivens applyOnTheRight).
Local Abbreviation compute :=
  (compute makeGivens applyOnTheRight decomposeInPlace).

Lemma loop_body_diag_length flag n (st : LoopState) r :
  loop_body flag n st = Some r ->
  length (ls_diag (match r with inl t => t | inr t => t end))
  = length (ls_diag st).
Proof.
  unfold EigenSolver.loop_body.
  destruct (deflate _ _ _ _) as [sd|]; cbn [bind]; [|discriminate].
  destruct (find_end _ _ _) as [e|]; cbn [bind]; [|discriminate].
  destruct (e <=? 0).
  { intros E. injection E as <-. reflexivity. }
  destruct (find_start _ _ _) as [s0|]; cbn [bind]; [|discriminate].
  destruct (ei_tridiagonal_qr_step _ _ _ _ _ _ _ _)
    as [[[d' sd'] q']|] eqn:Eq; cbn [bind]; [|discriminate].
  intros E. injection E as <-. cbn [ls_diag].
  now apply QRStepFacts.qr_step_framed in Eq.
Qed.

Lemma qr_loop_diag_length fuel flag n : forall (st st' : LoopState),
  qr_loop fuel flag n st = Done st' ->
  length (ls_diag st') = length (ls_diag st).
Proof.
  induction fuel as [|f IH]; intros st st'; simpl.
  - destruct (ls_end st >? 0); [discriminate|].
    intros E. now injection E as <-.
  - destruct (ls_end st >? 0); [|intros E; now injection E as <-].
    destruct (loop_body flag n st) as [[t|t]|] eqn:Eb; [| |discriminate].
    + intros E. injection E as <-.
      now apply loop_body_diag_length in Eb.
    + intros E. apply IH in E. rewrite E.
      now apply loop_body_diag_length in Eb.
Qed.

Lemma sort_pass_lengths n (ev ev' : list S) (q q' : Matrix) :
  sort_pass n (ev, q) = Some (ev', q') ->
  length ev' = length ev /\ length q' = length q.
Proof.
  unfold sort_pass. intros E.
  apply (for_loop_preserves
           (fun st : list S * Matrix =>
              length (fst st) = length ev /\ length (snd st) = length q))
    in E; [exact E| |split; reflexivity].
  intros i [e1 q1] [e2 q2] _ [H1 H2]. cbn [fst snd] in *.
  unfold sort_step.
  destruct (segment e1 i (n - i)); cbn [bind]; [|discriminate].
  destruct (minCoeff _); cbn [bind]; [|discriminate].
  destruct (_ >? 0).
  - destruct (swap e1 _ _) as [e3|] eqn:E1; cbn [bind]; [|discriminate].
    destruct (swap q1 _ _) as [q3|] eqn:E2; cbn [bind]; [|discriminate].
    intros E'. injection E' as <- <-.
    apply swap_length in E1, E2. split; congruence.
  - intros E'. injection E' as <- <-. auto.
Qed.

(** [compute] returns on square matrices only, and with one eigenvalue
    for every column. *)
Lemma compute_sizes fuel (self : Solver) matrix flag st :
  (cols matrix <> 1 ->
   length (snd (fst (decomposeInPlace matrix flag))) = length matrix) ->
  compute fuel self matrix flag = Done st ->
  cols matrix = rows matrix /\ length (m_eivalues st) = length matrix.
Proof.
  intros Hd. unfold EigenSolver.compute.
  destruct (Z.eqb_spec (cols matrix) (rows matrix)) as [Esq|Esq];
    [|discriminate].
  cbn [negb]. destruct (Z.eqb_spec (cols matrix) 1) as [E1|E1].
  - destruct (coeff matrix 0 0); [|discriminate].
    intros E. injection E as <-. cbn [m_eivalues].
    split; [exact Esq|]. unfold cols in E1. simpl. lia.
  - specialize (Hd E1).
    destruct (decomposeInPlace matrix flag) as [[q d] sd]. cbn [fst snd] in Hd.
    destruct (qr_loop _ _ _ _) as [ls| |] eqn:El; try discriminate.
    apply qr_loop_diag_length in El. cbn [ls_diag] in El.
    destruct (sort_pass _ _) as [[ev q']|] eqn:Es; [|discriminate].
    apply sort_pass_lengths in Es as [Es _].
    intros E. injection E as <-. cbn [m_eivalues].
    split; [exact Esq|]. congruence.
Qed.

(** [eigenvectors()]: [ei_assert(m_eigenvectorsOk); return m_eivec;]
    (the assertion of a build without [NDEBUG]), and [eigenvalues()]. *)
Definition eigenvectors (self : Solver) : option Matrix :=
  if m_eigenvectorsOk self then Some (m_eivec self) else None.
Definition eigenvalues (self : Solver) : list S := m_eivalues self.

Lemma compute_then_eigenvectors fuel (self : Solver) matrix flag st :
  compute fuel self matrix flag = Done st ->
  eigenvectors st = if flag then Some (m_eivec st) else None.
Proof.
  unfold EigenSolver.compute, eigenvectors.
  destruct (negb _); [discriminate|].
  destruct (_ =? 1).
  - destruct (coeff matrix 0 0); [|discriminate].
    intros E. now injection E as <-.
  - destruct (decomposeInPlace matrix flag) as [[q d] sd].
    destruct (qr_loop _ _ _ _) as [ls| |]; try discriminate.
    destruct (sort_pass _ _) as [[ev q']|]; [|discriminate].
    intros E. now injection E as <-.
Qed.
End Sizes.

Section OperatorNorm.
Context {S : Type} `{Scalar S}.
Local Abbreviation Matrix := (Matrix S).
Local Abbreviation Solver := (Solver S).
Variable makeGivens : S -> S -> S * S.
Variable applyOnTheRight : Matrix -> Z -> Z -> S * S -> Matrix.
Variable decomposeInPlace : Matrix -> bool -> Matrix * list S * list S.

(** The constructor [SelfAdjointEigenSolver(matrix, computeEigenvectors)]:
    the members are allocated, [m_subdiag] only [if (matrix.rows() > 1)],
    and [compute] is called.  [junk] is the content of the members before
    any write. *)
Definition SelfAdjointEigenSolver_of (junk : Solver) (fuel : nat)
    (matrix : Matrix) (computeEigenvectors : bool) : outcome Solver :=
  compute makeGivens applyOnTheRight decomposeInPlace fuel
    {| m_eivec := m_eivec junk;
       m_eivalues := m_eivalues junk;
       m_subdiag := if (rows matrix >? 1)%Z then m_subdiag junk else [];
       m_eigenvectorsOk := m_eigenvectorsOk junk |}
    matrix computeEigenvectors.

(** [MatrixBase::eigenvalues()]:
    [SelfAdjointEigenSolver(eval(), false).eigenvalues()]. *)
Definition matrix_eigenvalues (junk : Solver) (fuel : nat) (matrix : Matrix)
  : outcome (list S) :=
  outcome_map eigenvalues (SelfAdjointEigenSolver_of junk fuel matrix false).

(** [cwiseAbs()]. *)
Definition cwiseAbs (v : list S) : list S := map ei_abs v.

(** Modelled from the spec: [maxCoeff()] is not in the sources at hand; it
    is one of the "min/max reductions" of the dense layer.  The scan keeps
    the first entry and replaces it by each later entry that is strictly
    larger; an empty vector is a fault. *)
Fixpoint maxCoeff_from (v : list S) (best : S) : S :=
  match v with
  | [] => best
  | a :: t => if sltb best a then maxCoeff_from t a else maxCoeff_from t best
  end.

Definition maxCoeff (v : list S) : option S :=
  match v with
  | [] => None
  | a :: t => Some (maxCoeff_from t a)
  end.

(** [ei_operatorNorm_selector<Derived, true>::operatorNorm(m)], the norm
    of a selfadjoint matrix: [m.eigenvalues().cwiseAbs().maxCoeff()]. *)
Definition operatorNorm_selfadjoint (junk : Solver) (fuel : nat)
    (matrix : Matrix) : outcome S :=
  match matrix_eigenvalues junk fuel matrix with
  | Done ev =>
      match maxCoeff (cwiseAbs ev) with
      | Some v => Done v
      | None => Fault
      end
  | Fault => Fault
  | OutOfFuel => OutOfFuel
  end.
End OperatorNorm.

Section OperatorNormExact.
Variables eps prec : R.
#[local] Instance norm_reals : Scalar R := RScalar eps prec.
#[local] Instance norm_order : ScalarOrder R := RScalarOrder eps prec.
Local Abbreviation Matrix := (Matrix R).
Local Abbreviation Solver := (Solver R).
Variable makeGivens : R -> R -> R * R.
Variable applyOnTheRight : Matrix -> Z -> Z -> R * R -> Matrix.
Variable decomposeInPlace : Matrix -> bool -> Matrix * list R * list R.
Local Open Scope R_scope.

Lemma maxCoeff_from_spec (t : list R) : forall best,
  (maxCoeff_from t best = best \/ In (maxCoeff_from t best) t)
  /\ best <= maxCoeff_from t best
  /\ forall x, In x t -> x <= maxCoeff_from t best.
Proof.
  induction t as [|a t IH]; intros best; simpl.
  - repeat split; [now left|lra|intros x []].
  - destruct (Rltb_spec best a) as [Hlt|Hge].
    + destruct (IH a) as (Hin & Hb & Hall).
      split; [right; destruct Hin as [->|Hin]; auto|].
      split; [lra|]. intros x [<-|Hx]; auto.
    + destruct (IH best) as (Hin & Hb & Hall).
      split; [destruct Hin as [Hin|Hin]; auto|].
      split; [exact Hb|]. intros x [<-|Hx]; [lra|auto].
Qed.

Lemma maxCoeff_spec (v : list R) m :
  maxCoeff v = Some m -> In m v /\ forall x, In x v -> x <= m.
Proof.
  destruct v as [|a t]; [discriminate|]. simpl. intros E. injection E as <-.
  destruct (maxCoeff_from_spec t a) as (Hin & Hb & Hall).
  split; [destruct Hin as [->|Hin]; auto|].
  intros x [<-|Hx]; auto.
Qed.

(** The largest absolute value of an ascending vector is at one of its
    two ends. *)
Lemma maxCoeff_abs_ascending (ev : list R) m :
  (forall i j, (0 <= i)%Z -> (i <= j)%Z -> (j < Z.of_nat (length ev))%Z ->
     vec ev i <= vec ev j) ->
  maxCoeff (cwiseAbs ev) = Some m ->
  m = Rmax (Rabs (vec ev 0)) (Rabs (vec ev (Z.of_nat (length ev) - 1))).
Proof.
  intros Hasc E. apply maxCoeff_spec in E as [Hin Hall].
  assert (Hne : (0 < length ev)%nat).
  { destruct ev; [destruct Hin|simpl; lia]. }
  set (n := Z.of_nat (length ev)) in *.
  assert (Hend : forall i, (0 <= i < n)%Z -> Rabs (vec ev i) <= m).
  { intros i Hi. apply Hall. unfold cwiseAbs.
    change Rabs with (@ei_abs R norm_reals). apply in_map.
    unfold vec. apply nth_In. lia. }
  unfold cwiseAbs in Hin. apply in_map_iff in Hin as (x & <- & Hx).
  apply (In_nth _ _ 0) in Hx as (k & Hk & <-).
  pose proof (Hend 0%Z ltac:(lia)) as H0.
  pose proof (Hend (n - 1)%Z ltac:(lia)) as H1.
  pose proof (Hasc 0%Z (Z.of_nat k) ltac:(lia) ltac:(lia) ltac:(lia)) as Hlo.
  pose proof (Hasc (Z.of_nat k) (n - 1)%Z ltac:(lia) ltac:(lia) ltac:(lia))
    as Hhi.
  assert (Ek : vec ev (Z.of_nat k) = nth k ev 0)
    by (unfold vec; now rewrite Nat2Z.id).
  cbn [ei_abs norm_reals RScalar] in *. rewrite <- Ek in H0, H1 |- *.
  clear Ek.
  revert H0 H1 Hlo Hhi.
  generalize (vec ev 0) (vec ev (n - 1)) (vec ev (Z.of_nat k)).
  intros lo hi mid.
  unfold Rmax, Rabs.
  repeat match goal with
  | |- context [Rcase_abs ?a] => destruct (Rcase_abs a)
  | |- context [Rle_dec ?a ?b] => destruct (Rle_dec a b)
  end; intros; lra.
Qed.

Lemma compute_ascending fuel (self : Solver) matrix flag st :
  (1 <= cols matrix)%Z ->
  (cols matrix <> 1%Z ->
   length (snd (fst (decomposeInPlace matrix flag))) = length matrix) ->
  compute makeGivens applyOnTheRight decomposeInPlace fuel self matrix flag
  = Done st ->
  length (m_eivalues st) = length matrix
  /\ forall i j, (0 <= i)%Z -> (i <= j)%Z ->
       (j < Z.of_nat (length (m_eivalues st)))%Z ->
       vec (m_eivalues st) i <= vec (m_eivalues st) j.
Proof.
  intros Hn Hd E.
  destruct (compute_sizes makeGivens applyOnTheRight decomposeInPlace
              fuel self matrix flag st Hd E) as [_ Hlen].
  split; [exact Hlen|].
  assert (Hs : sorted_upto (cols matrix) (m_eivalues st)).
  { revert E. unfold compute.
    destruct (negb _); [discriminate|].
    destruct (Z.eqb_spec (cols matrix) 1) as [E1|E1].
    - destruct (coeff matrix 0 0); [|discriminate].
      intros E. injection E as <-. cbn [m_eivalues].
      intros i j a b Hi Hij Hj. lia.
    - destruct (decomposeInPlace matrix flag) as [[q d] sd].
      destruct (qr_loop _ _ _ _ _ _) as [ls| |]; try discriminate.
      destruct (sort_pass _ _) as [[ev q']|] eqn:Es; [|discriminate].
      intros E. injection E as <-. cbn [m_eivalues].
      now apply sort_pass_sorted in Es as [Hs _]. }
  intros i j Hi Hij Hj.
  destruct (Z.eq_dec i j) as [->|Hne]; [lra|].
  specialize (Hs i j (vec (m_eivalues st) i) (vec (m_eivalues st) j)
                Hi ltac:(lia) ltac:(unfold cols; lia)
                (get_vec (m_eivalues st) i ltac:(lia))
                (get_vec (m_eivalues st) j ltac:(lia))).
  cbn [sleb norm_reals RScalar] in Hs.
  destruct (Rleb_spec (vec (m_eivalues st) i) (vec (m_eivalues st) j));
    [assumption|discriminate].
Qed.

(** X11. In exact arithmetic, the norm of a selfadjoint matrix that
    [operatorNorm] returns, the largest absolute value of an eigenvalue, is
    the absolute value of the first or of the last eigenvalue: since
    [compute] has sorted them, comparing these two is enough (the FIXME of
    the source). *)
Theorem operatorNorm_is_at_an_end (junk : Solver) fuel matrix v :
  (1 <= cols matrix)%Z ->
  (cols matrix <> 1%Z ->
   length (snd (fst (decomposeInPlace matrix false))) = length matrix) ->
  operatorNorm_selfadjoint makeGivens applyOnTheRight decomposeInPlace
    junk fuel matrix = Done v ->
  exists ev,
    matrix_eigenvalues makeGivens applyOnTheRight decomposeInPlace
      junk fuel matrix = Done ev
    /\ length ev = length matrix
    /\ v = Rmax (Rabs (vec ev 0)) (Rabs (vec ev (cols matrix - 1))).
Proof.
  intros Hn Hd. unfold operatorNorm_selfadjoint, matrix_eigenvalues.
  unfold SelfAdjointEigenSolver_of.
  destruct (compute _ _ _ _ _ _ _) as [st| |] eqn:E; cbn [outcome_map];
    try discriminate.
  destruct (maxCoeff _) as [m|] eqn:Em; [|discriminate].
  intros Ev. injection Ev as <-.
  apply compute_ascending in E as [Hlen Hasc]; [|exact Hn|exact Hd].
  exists (eigenvalues st). split; [reflexivity|]. split; [exact Hlen|].
  unfold eigenvalues in *.
  rewrite (maxCoeff_abs_ascending _ _ Hasc Em). unfold cols.
  now rewrite Hlen.
Qed.
End OperatorNormExact.

Section Accessors.
Context {S : Type} `{Scalar S}.
Local Abbreviation Matrix := (Matrix S).
Local Abbreviation Solver := (Solver S).
Variable makeGivens : S -> S -> S * S.
Variable applyOnTheRight : Matrix -> Z -> Z -> S * S -> Matrix.
Variable decomposeInPlace : Matrix -> bool -> Matrix * list S * list S.
Local Abbreviation compute :=
  (compute makeGivens applyOnTheRight decomposeInPlace).

(** X9. The sorting pass of [compute] leaves alone a vector of
    eigenvalues that is ascending already (no entry strictly below an
    earlier one), and the matrix of eigenvectors with it: no column is
    swapped. *)
Theorem sort_pass_keeps_ascending_input n (ev : list S) (q : Matrix) :
  n <= Z.of_nat (length ev) -> ascending n ev ->
  sort_pass n (ev, q) = Some (ev, q).
Proof. exact (sort_pass_ascending n ev q). Qed.

(** X10. [compute] stores its flag in [m_eigenvectorsOk]: after
    [compute(matrix, false)] the accessor [eigenvectors()] fails its
    assertion, after [compute(matrix, true)] it returns [m_eivec]. *)
Theorem eigenvectors_follow_the_flag fuel (self : Solver) matrix flag st :
  compute fuel self matrix flag = Done st ->
  eigenvectors st = if flag then Some (m_eivec st) else None.
Proof.
  exact (compute_then_eigenvectors makeGivens applyOnTheRight
           decomposeInPlace fuel self matrix flag st).
Qed.

(** X12. [compute] returns on square matrices only, and then with as many
    eigenvalues as the matrix has columns, when the tridiagonalization
    yields a diagonal of that size. *)
Theorem compute_returns_n_eigenvalues fuel (self : Solver) matrix flag st :
  (cols matrix <> 1 ->
   length (snd (fst (decomposeInPlace matrix flag))) = length matrix) ->
  compute fuel self matrix flag = Done st ->
  cols matrix = rows matrix /\ length (m_eivalues st) = length matrix.
Proof.
  exact (compute_sizes makeGivens applyOnTheRight decomposeInPlace
           fuel self matrix flag st).
Qed.
End Accessors.
End SolverMore.

Module SolverMoreExamples.
Import EigenSolver SortFacts SolverMore EigenSolverExamples.
#[local] Existing Instance RDouble.
Local Open Scope R_scope.

Lemma sort_pass_keeps_ascending_input_witness :
  sort_pass (H := FScalar) 3 ([1; 2; 2]%float, [[1]; [2]; [3]]%float)
  = Some ([1; 2; 2]%float, [[1]; [2]; [3]]%float).
Proof.
  apply (sort_pass_keeps_ascending_input (H := FScalar)).
  - simpl. lia.
  - intros i j Hi Hij Hj.
    assert (E : ((i = 0 /\ j = 1) \/ (i = 0 /\ j = 2)
                 \/ (i = 1 /\ j = 2))%Z) by lia.
    destruct E as [[-> ->]|[[-> ->]|[-> ->]]]; vm_compute; reflexivity.
Defined.

Lemma eigenvectors_follow_the_flag_witness :
  eigenvectors
    {| m_eivec := [[0; 1]; [2; 0]]; m_eivalues := [1; 2];
       m_subdiag := [0]; m_eigenvectorsOk := false |} = None.
Proof.
  exact (eigenvectors_follow_the_flag givens rotate_columns
           tridiagonal_parts 1%nat fresh_solver [[2; 0]; [0; 1]] false _
           (compute_diagonal_2x2 false)).
Defined.

Lemma compute_returns_n_eigenvalues_witness :
  cols [[2; 0]; [0; 1]] = rows [[2; 0]; [0; 1]]
  /\ length [1; 2] = length [[2; 0]; [0; 1]].
Proof.
  exact (compute_returns_n_eigenvalues givens rotate_columns
           tridiagonal_parts 1%nat fresh_solver [[2; 0]; [0; 1]] true _
           (fun _ => eq_refl) (compute_diagonal_2x2 true)).
Defined.

Lemma operatorNorm_diagonal_2x2 :
  operatorNorm_selfadjoint givens rotate_columns tridiagonal_parts
    fresh_solver 1 [[2; 0]; [0; -3]] = Done 3.
Proof.
  unfold operatorNorm_selfadjoint, matrix_eigenvalues,
    SelfAdjointEigenSolver_of, compute, RDouble; cbn;
    unfold loop_body, deflate, sort_step, for_loop; run_reals.
  f_equal. lra.
Qed.

Lemma operatorNorm_is_at_an_end_witness :
  exists ev,
    matrix_eigenvalues givens rotate_columns tridiagonal_parts
      fresh_solver 1 [[2; 0]; [0; -3]] = Done ev
    /\ length ev = 2%nat
    /\ 3 = Rmax (Rabs (vec ev 0)) (Rabs (vec ev (2 - 1))).
Proof.
  exact (operatorNorm_is_at_an_end eps_double prec_double givens
           rotate_columns tridiagonal_parts fresh_solver 1%nat
           [[2; 0]; [0; -3]] 3 ltac:(cbn; lia) (fun _ => eq_refl)
           operatorNorm_diagonal_2x2).
Defined.
End SolverMoreExamples.

(* ================================================================= *)
(** ** Dot products and norms *)

(** [MatrixBase::dot], [squaredNorm], [norm], [normalized], [normalize] and
    [isOrthogonal], on vectors of real scalars, for which [conjugate] and
    [ei_real] are the identity. *)
Module Dot.
Import EigenSolver.
Section Defs.
Context {S : Type} `{Scalar S}.
Local Open Scope scalar_scope.

(** Modelled from the spec: the reductions and the coefficient-wise
    operations of the dense layer are not in the sources at hand ("basic
    arithmetic/norm operations").  [sum()] adds the coefficients from the
    first to the last; [cwiseProduct] and [cwiseAbs2] work coefficient by
    coefficient; [v / a] divides every coefficient by [a]. *)
Definition sum (v : list S) : S := fold_left sadd v zero.
Definition cwiseProduct (a b : list S) : list S := map2 smul a b.
Definition cwiseAbs2 (v : list S) : list S := map ei_abs2 v.
Definition quotient (v : list S) (a : S) : list S := map (fun c => c / a) v.

(** [a.dot(b)]: [ei_assert(size() == other.size())], then
    [a.conjugate().cwiseProduct(b).sum()]. *)
Definition dot (a b : list S) : option S :=
  if Nat.eqb (length a) (length b) then Some (sum (cwiseProduct a b))
  else None.

(** [squaredNorm()] is [ei_real(cwiseAbs2().sum())] of the vector. *)
Definition squaredNorm (v : list S) : S := ei_real (sum (cwiseAbs2 v)).

(** [norm()] is [ei_sqrt(squaredNorm())]. *)
Definition norm (v : list S) : S := ei_sqrt (squaredNorm v).

(** [normalized()] is [n / n.norm()]; [normalize()] is [*this /= norm()],
    which leaves the same vector in place. *)
Definition normalized (v : list S) : list S := quotient v (norm v).
Definition normalize (v : list S) : list S := quotient v (norm v).

(** [a.isOrthogonal(b, prec)]:
    [ei_abs2(a.dot(b)) <= prec * prec * a.squaredNorm() * b.squaredNorm()]. *)
Definition isOrthogonal (a b : list S) (prec : S) : option bool :=
  d <- dot a b ;;
  Some (sleb (ei_abs2 d) (prec * prec * squaredNorm a * squaredNorm b)).
End Defs.

(** The older [Object::dot] of [src/Core/Dot.h]: unrolled at compile time
    for a fixed size of at most 16, a loop otherwise. *)
Section Unrolled.
Context {S : Type} `{Scalar S}.
Local Open Scope scalar_scope.

(** [DotUnroller<Index, Size>::run(v1, v2, dot)]. *)
Fixpoint DotUnroller (index : nat) (v1 v2 : list S) : option S :=
  match index with
  | O =>
      a <- get v1 0 ;;
      b <- get v2 0 ;;
      Some (a * b)
  | Datatypes.S i =>
      dot <- DotUnroller i v1 v2 ;;
      a <- get v1 (Z.of_nat index) ;;
      b <- get v2 (Z.of_nat index) ;;
      Some (dot + a * b)
  end.

(** [res = v1[0] * v2[0]; for (i = 1; i < size(); i++) res += v1[i] * v2[i]]. *)
Definition dot_loop (v1 v2 : list S) : option S :=
  a <- get v1 0 ;;
  b <- get v2 0 ;;
  for_loop 1 (Z.of_nat (length v1))
    (fun i res =>
       a <- get v1 i ;;
       b <- get v2 i ;;
       Some (res + a * b))
    (a * b).

(** [Object::dot(other)]; [SizeAtCompileTime] is [None] for [Dynamic]. *)
Definition object_dot (SizeAtCompileTime : option Z) (v1 v2 : list S)
  : option S :=
  if negb (Nat.eqb (length v1) (length v2)) then None
  else
    match SizeAtCompileTime with
    | Some size =>
        if (size <=? 16)%Z then DotUnroller (Z.to_nat (size - 1)) v1 v2
        else dot_loop v1 v2
    | None => dot_loop v1 v2
    end.

(** [norm2()], [norm()] and [normalized()] of the same file. *)
Definition object_norm2 (size : option Z) (v : list S) : option S :=
  option_map ei_real (object_dot size v v).
Definition object_norm (size : option Z) (v : list S) : option S :=
  option_map ei_sqrt (object_norm2 size v).
End Unrolled.
End Dot.

Module DotFacts.
Import EigenSolver Dot.

Section LastTurn.
Context {St : Type}.

Lemma for_iter_last cnt : forall i (body : Z -> St -> option St) s,
  for_iter (Datatypes.S cnt) i body s
  = match for_iter cnt i body s with
    | Some s' => body (i + Z.of_nat cnt) s'
    | None => None
    end.
Proof.
  induction cnt as [|c IH]; intros i body s.
  - simpl. replace (i + 0) with i by lia. destruct (body i s); reflexivity.
  - change (for_iter (Datatypes.S (Datatypes.S c)) i body s)
      with (match body i s with
            | Some s' => for_iter (Datatypes.S c) (i + 1) body s'
            | None => None
            end).
    cbn [for_iter]. destruct (body i s) as [s'|]; [|reflexivity].
    replace (i + Z.of_nat (Datatypes.S c)) with (i + 1 + Z.of_nat c) by lia.
    rewrite <- (IH (i + 1) body s'). reflexivity.
Qed.

Lemma for_loop_last lo hi (body : Z -> St -> option St) s :
  lo <= hi ->
  for_loop lo (hi + 1) body s
  = match for_loop lo hi body s with
    | Some s' => body hi s'
    | None => None
    end.
Proof.
  intros Hle. unfold for_loop.
  replace (Z.to_nat (hi + 1 - lo)) with (Datatypes.S (Z.to_nat (hi - lo)))
    by lia.
  rewrite for_iter_last. replace (lo + Z.of_nat (Z.to_nat (hi - lo))) with hi
    by lia.
  reflexivity.
Qed.
End LastTurn.

Section Unrolling.
Context {S : Type} `{Scalar S}.

(** The unrolled product is the loop, cut after the entry [index]. *)
Lemma DotUnroller_loop (v1 v2 : list S) : forall index,
  DotUnroller index v1 v2
  = (a <- get v1 0 ;;
     b <- get v2 0 ;;
     for_loop 1 (Z.of_nat index + 1)
       (fun i res =>
          a <- get v1 i ;;
          b <- get v2 i ;;
          Some (sadd res (smul a b)))
       (smul a b)).
Proof.
  induction index as [|k IH].
  - simpl. destruct (get v1 0); cbn [bind]; [|reflexivity].
    destruct (get v2 0); cbn [bind]; reflexivity.
  - cbn [DotUnroller]. rewrite IH.
    destruct (get v1 0) as [a|]; cbn [bind]; [|reflexivity].
    destruct (get v2 0) as [b|]; cbn [bind]; [|reflexivity].
    replace (Z.of_nat (Datatypes.S k) + 1) with (Z.of_nat k + 1 + 1) by lia.
    rewrite (for_loop_last 1 (Z.of_nat k + 1)) by lia.
    replace (Z.of_nat (Datatypes.S k)) with (Z.of_nat k + 1) by lia.
    destruct (for_loop 1 (Z.of_nat k + 1) _ _); reflexivity.
Qed.

Lemma object_dot_unrolled size (v1 v2 : list S) :
  1 <= size -> Z.of_nat (length v1) = size ->
  object_dot (Some size) v1 v2 = object_dot None v1 v2.
Proof.
  intros Hs Hl. unfold object_dot.
  destruct (negb _); [reflexivity|].
  destruct (size <=? 16); [|reflexivity].
  rewrite DotUnroller_loop. unfold dot_loop.
  replace (Z.of_nat (Z.to_nat (size - 1)) + 1) with (Z.of_nat (length v1))
    by lia.
  reflexivity.
Qed.

(** The loop reads the entry 0 before it looks at the size. *)
Lemma object_dot_returns (v1 v2 : list S) :
  (exists d, object_dot None v1 v2 = Some d)
  <-> (length v1 = length v2 /\ v1 <> []).
Proof.
  unfold object_dot. destruct (Nat.eqb_spec (length v1) (length v2)) as [E|E];
    cbn [negb].
  - split.
    + intros [d Hd]. split; [exact E|]. intros ->.
      destruct v2; discriminate.
    + intros [_ Hne]. unfold dot_loop.
      destruct (for_loop_inv
                  (fun (_ : Z) (_ : S) => True)
                  1 (Z.of_nat (length v1))
                  (fun i res =>
                     a <- get v1 i ;;
                     b <- get v2 i ;;
                     Some (sadd res (smul a b)))
                  (smul (nth 0 v1 zero) (nth 0 v2 zero)))
        as (d & Ed & _).
      * destruct v1; [congruence|simpl; lia].
      * exact I.
      * intros i t Hi _.
        rewrite (get_nth v1 i zero) by lia.
        rewrite (get_nth v2 i zero) by lia. cbn [bind]. eauto.
      * exists d.
        rewrite (get_nth v1 0 zero) by (destruct v1; [congruence|simpl; lia]).
        rewrite (get_nth v2 0 zero)
          by (destruct v1; [congruence|simpl in *; lia]).
        cbn [bind]. exact Ed.
  - split; [intros [d Hd]; discriminate|intros [E' _]; contradiction].
Qed.
End Unrolling.

(** *** Exact arithmetic *)
Section Exact.
Variables eps prec : R.
#[local] Instance dot_reals : Scalar R := RScalar eps prec.
Local Open Scope R_scope.

Lemma fold_left_plus (v : list R) : forall s,
  fold_left Rplus v s = s + sumZ 0 (Z.of_nat (length v)) (vec v).
Proof.
  induction v as [|a t IH]; intros s.
  - simpl. rewrite sumZ_empty by reflexivity. lra.
  - cbn [fold_left]. rewrite IH.
    replace (Z.of_nat (length (a :: t))) with (Z.of_nat (length t) + 1)%Z
      by (cbn [length]; lia).
    rewrite (sumZ_first 0 (Z.of_nat (length t) + 1)) by lia.
    rewrite (sumZ_shift 0 (Z.of_nat (length t))).
    replace (vec (a :: t) 0) with a by reflexivity.
    rewrite (sumZ_ext 0 (Z.of_nat (length t))
               (fun i => vec (a :: t) (i + 1)) (vec t)).
    + lra.
    + intros i Hi. unfold vec.
      replace (Z.to_nat (i + 1)) with (Datatypes.S (Z.to_nat i)) by lia.
      reflexivity.
Qed.

Lemma sum_sumZ (v : list R) :
  sum v = sumZ 0 (Z.of_nat (length v)) (vec v).
Proof.
  unfold sum. cbn [sadd zero dot_reals RScalar].
  rewrite fold_left_plus. lra.
Qed.

Lemma map2_length (f : R -> R -> R) : forall a b,
  length a = length b -> length (map2 f a b) = length a.
Proof.
  induction a as [|x a IH]; intros [|y b] E; try discriminate.
  - reflexivity.
  - cbn [map2 length]. f_equal. apply IH. now injection E.
Qed.

Lemma vec_map2 (f : R -> R -> R) : forall a b i,
  length a = length b -> (0 <= i < Z.of_nat (length a))%Z ->
  vec (map2 f a b) i = f (vec a i) (vec b i).
Proof.
  intros a b i E Hi. unfold vec.
  assert (Hn : (Z.to_nat i < length a)%nat) by lia.
  clear Hi. revert b E Hn. generalize (Z.to_nat i) as k.
  induction a as [|x a IH]; intros k [|y b] E Hk; try discriminate.
  - simpl in Hk. lia.
  - destruct k as [|k]; [reflexivity|].
    cbn [map2 nth]. apply IH; [now injection E|simpl in Hk; lia].
Qed.

Lemma vec_map (f : R -> R) (v : list R) i :
  (0 <= i < Z.of_nat (length v))%Z -> vec (map f v) i = f (vec v i).
Proof.
  intros Hi. unfold vec.
  rewrite (nth_indep (map f v) 0 (f 0)) by (rewrite length_map; lia).
  apply map_nth.
Qed.

(** The inner product the kernels compute, as a sum. *)
Definition inner (a b : list R) : R :=
  sumZ 0 (Z.of_nat (length a)) (fun i => vec a i * vec b i).

Lemma dot_inner a b :
  length a = length b -> dot a b = Some (inner a b).
Proof.
  intros E. unfold dot. rewrite E, Nat.eqb_refl. f_equal.
  rewrite sum_sumZ. unfold cwiseProduct, inner.
  rewrite map2_length by exact E.
  apply sumZ_ext. intros i Hi. rewrite vec_map2 by (try exact E; lia).
  reflexivity.
Qed.

Lemma squaredNorm_inner v : squaredNorm v = inner v v.
Proof.
  unfold squaredNorm, ei_real. rewrite sum_sumZ. unfold cwiseAbs2, inner.
  rewrite length_map.
  apply sumZ_ext. intros i Hi. rewrite vec_map by lia. reflexivity.
Qed.

Lemma inner_nonneg v : 0 <= inner v v.
Proof. apply sumZ_nonneg. intros i _. apply Rle_0_sqr. Qed.

Lemma inner_comm a b : length a = length b -> inner a b = inner b a.
Proof.
  intros E. unfold inner. rewrite E. apply sumZ_ext. intros i _. ring.
Qed.

(** Cauchy-Schwarz. *)
Lemma inner_bound a b :
  length a = length b -> inner a b * inner a b <= inner a a * inner b b.
Proof.
  intros E.
  assert (Q : forall t, 0 <= inner a a + 2 * t * inner a b
                             + t * t * inner b b).
  { intros t.
    replace (inner a a + 2 * t * inner a b + t * t * inner b b)
      with (sumZ 0 (Z.of_nat (length a))
              (fun i => (vec a i + t * vec b i) * (vec a i + t * vec b i))).
    - apply sumZ_nonneg. intros i _. apply Rle_0_sqr.
    - unfold inner. rewrite <- E.
      rewrite <- !sumZ_scal, <- !sumZ_plus.
      apply sumZ_ext. intros i _. ring. }
  pose proof (inner_nonneg a) as Ha. pose proof (inner_nonneg b) as Hb.
  set (A := inner a a) in *. set (B := inner b b) in *.
  set (C := inner a b) in *.
  destruct (Req_dec B 0) as [B0|B0].
  - rewrite B0 in *. destruct (Req_dec C 0) as [C0|C0].
    + rewrite C0. lra.
    + exfalso. specialize (Q (- (A + 1) / (2 * C))).
      replace (A + 2 * (- (A + 1) / (2 * C)) * C
               + - (A + 1) / (2 * C) * (- (A + 1) / (2 * C)) * 0)
        with (- 1) in Q by (field; exact C0).
      lra.
  - specialize (Q (- C / B)).
    replace (A + 2 * (- C / B) * C + - C / B * (- C / B) * B)
      with ((A * B - C * C) / B) in Q by (field; exact B0).
    assert (HB : 0 < B) by lra.
    assert (0 <= A * B - C * C); [|lra].
    replace (A * B - C * C) with ((A * B - C * C) / B * B)
      by (field; exact B0).
    apply Rmult_le_pos; lra.
Qed.

Lemma normalized_unit v :
  squaredNorm v <> 0 -> norm (normalized v) = 1.
Proof.
  intros Hv. rewrite squaredNorm_inner in Hv.
  pose proof (inner_nonneg v) as Hpos.
  assert (Hs : 0 < sqrt (inner v v)) by (apply sqrt_lt_R0; lra).
  unfold norm. cbn [ei_sqrt dot_reals RScalar].
  rewrite squaredNorm_inner.
  replace (inner (normalized v) (normalized v)) with 1; [apply sqrt_1|].
  unfold normalized, quotient, norm. cbn [ei_sqrt sdiv dot_reals RScalar].
  rewrite squaredNorm_inner.
  unfold inner at 1. rewrite length_map.
  rewrite (sumZ_ext 0 (Z.of_nat (length v)) _
             (fun i => / inner v v * (vec v i * vec v i))).
  - rewrite sumZ_scal. fold (inner v v). field. lra.
  - intros i Hi. rewrite vec_map by lia.
    rewrite <- (sqrt_sqrt (inner v v)) at 3 by lra. field. lra.
Qed.

Lemma isOrthogonal_always a b p :
  length a = length b ->
  1 <= p * p \/ squaredNorm a = 0 \/ squaredNorm b = 0 ->
  isOrthogonal a b p = Some true.
Proof.
  intros E Hc. unfold isOrthogonal. rewrite dot_inner by exact E.
  cbn [bind]. f_equal. unfold ei_abs2.
  cbn [sleb smul dot_reals RScalar].
  rewrite !squaredNorm_inner in *.
  apply Rleb_true.
  pose proof (inner_bound a b E) as CS.
  pose proof (inner_nonneg a) as Ha. pose proof (inner_nonneg b) as Hb.
  destruct Hc as [Hp|[H0|H0]].
  - assert (inner a a * inner b b <= p * p * (inner a a * inner b b)).
    { rewrite <- (Rmult_1_l (inner a a * inner b b)) at 1.
      apply Rmult_le_compat_r; [apply Rmult_le_pos; lra|exact Hp]. }
    lra.
  - rewrite H0 in *. lra.
  - rewrite H0 in *. lra.
Qed.

Lemma isOrthogonal_self v p :
  p * p < 1 -> squaredNorm v <> 0 -> isOrthogonal v v p = Some false.
Proof.
  intros Hp Hv. unfold isOrthogonal. rewrite dot_inner by reflexivity.
  cbn [bind]. f_equal. unfold ei_abs2.
  cbn [sleb smul dot_reals RScalar].
  rewrite !squaredNorm_inner in *.
  apply Rleb_false.
  pose proof (inner_nonneg v) as Ha.
  assert (0 < inner v v * inner v v) by (apply Rmult_lt_0_compat; lra).
  assert (p * p * (inner v v * inner v v) < 1 * (inner v v * inner v v))
    by (apply Rmult_lt_compat_r; lra).
  lra.
Qed.

Lemma isOrthogonal_sym a b p : isOrthogonal a b p = isOrthogonal b a p.
Proof.
  unfold isOrthogonal, dot.
  destruct (Nat.eqb_spec (length a) (length b)) as [E|E].
  - rewrite <- E, Nat.eqb_refl. cbn [bind]. f_equal.
    pose proof (dot_inner a b E) as D1.
    pose proof (dot_inner b a (eq_sym E)) as D2.
    unfold dot in D1, D2. rewrite E, Nat.eqb_refl in D1.
    rewrite <- E, Nat.eqb_refl in D2.
    injection D1 as ->. injection D2 as ->.
    rewrite (inner_comm b a) by (now symmetry).
    unfold ei_abs2. cbn [sleb smul dot_reals RScalar].
    f_equal. ring.
  - destruct (Nat.eqb_spec (length b) (length a)); [congruence|reflexivity].
Qed.
End Exact.

Section Entries.
Context {S : Type} `{Scalar S}.

(** X13. [Object::dot] of [src/Core/Dot.h] gives the same result, fault
    included, through its compile-time unrolled path as through its loop:
    for vectors of the fixed size [size >= 1] the call with
    [SizeAtCompileTime = size] equals the call with [Dynamic]. *)
Theorem unrolled_dot_is_the_loop size (v1 v2 : list S) :
  1 <= size -> Z.of_nat (length v1) = size ->
  object_dot (Some size) v1 v2 = object_dot None v1 v2.
Proof. exact (object_dot_unrolled size v1 v2). Qed.

(** X14. The loop of [Object::dot] starts from the product of the entries 0:
    the call returns a value exactly when the two vectors have the same size
    and are not empty; on empty vectors it reads out of bounds. *)
Theorem dot_needs_a_first_entry (v1 v2 : list S) :
  (exists d, object_dot None v1 v2 = Some d)
  <-> (length v1 = length v2 /\ v1 <> []).
Proof. exact (object_dot_returns v1 v2). Qed.
End Entries.

Section ExactEntries.
Variables eps prec : R.
Local Open Scope R_scope.

(** X15. In exact arithmetic [normalized()] of a vector with a nonzero
    squared norm has norm 1. *)
Theorem normalized_has_norm_one (v : list R) :
  squaredNorm (H := dot_reals eps prec) v <> 0 ->
  norm (H := dot_reals eps prec) (normalized (H := dot_reals eps prec) v) = 1.
Proof. exact (normalized_unit eps prec v). Qed.

(** X16. In exact arithmetic [isOrthogonal] accepts every pair of vectors
    of the same size when [prec * prec >= 1] or when one of the two has a
    zero squared norm (by the Cauchy-Schwarz inequality). *)
Theorem isOrthogonal_accepts_all (a b : list R) (p : R) :
  length a = length b ->
  1 <= p * p \/ squaredNorm (H := dot_reals eps prec) a = 0
             \/ squaredNorm (H := dot_reals eps prec) b = 0 ->
  isOrthogonal (H := dot_reals eps prec) a b p = Some true.
Proof. exact (isOrthogonal_always eps prec a b p). Qed.

(** X17. In exact arithmetic a vector with a nonzero squared norm is never
    orthogonal to itself for a precision with [prec * prec < 1]. *)
Theorem isOrthogonal_rejects_itself (v : list R) (p : R) :
  p * p < 1 -> squaredNorm (H := dot_reals eps prec) v <> 0 ->
  isOrthogonal (H := dot_reals eps prec) v v p = Some false.
Proof. exact (isOrthogonal_self eps prec v p). Qed.

(** X18. In exact arithmetic [isOrthogonal] is symmetric in its two
    vectors, the fault on different sizes included. *)
Theorem isOrthogonal_is_symmetric (a b : list R) (p : R) :
  isOrthogonal (H := dot_reals eps prec) a b p
  = isOrthogonal (H := dot_reals eps prec) b a p.
Proof. exact (isOrthogonal_sym eps prec a b p). Qed.
End ExactEntries.
End DotFacts.

Module DotExamples.
Import EigenSolver Dot DotFacts.
#[local] Existing Instance RDouble.
Local Open Scope R_scope.

Lemma unrolled_dot_is_the_loop_witness :
  object_dot (H := FScalar) (Some 3%Z) [1; 2; 3]%float [4; 5; 6]%float
  = object_dot (H := FScalar) None [1; 2; 3]%float [4; 5; 6]%float.
Proof.
  apply (unrolled_dot_is_the_loop (H := FScalar)); [lia|reflexivity].
Defined.

Lemma squaredNorm_3_4 : squaredNorm [3; 4] = 25.
Proof. keep_reals. lra. Qed.

Lemma normalized_has_norm_one_witness : norm (normalized [3; 4]) = 1.
Proof.
  apply (normalized_has_norm_one eps_double prec_double).
  change (squaredNorm [3; 4] <> 0). rewrite squaredNorm_3_4. lra.
Defined.

Lemma isOrthogonal_accepts_all_witness :
  isOrthogonal [3; 4] [3; 4] 1 = Some true.
Proof.
  apply (isOrthogonal_accepts_all eps_double prec_double);
    [reflexivity|left; lra].
Defined.

Lemma isOrthogonal_rejects_itself_witness :
  isOrthogonal [3; 4] [3; 4] (/ 2) = Some false.
Proof.
  apply (isOrthogonal_rejects_itself eps_double prec_double); [lra|].
  change (squaredNorm [3; 4] <> 0). rewrite squaredNorm_3_4. lra.
Defined.
End DotExamples.

(* ================================================================= *)
(** ** More on the skyline LU *)

Module SkylineMore.
Import Skyline SkylineFacts.

Section MoreLoops.
Context {St : Type}.

Lemma while_loop_preserves (P : St -> Prop) (cond : St -> bool)
    (body : St -> option St) : forall cnt s s',
  (forall t t', P t -> cond t = true -> body t = Some t' -> P t') ->
  P s -> while_loop cnt cond body s = Some s' -> P s'.
Proof.
  induction cnt as [|c IH]; intros s s' Hstep Hs; cbn [while_loop];
    destruct (cond s) eqn:Ec; try discriminate.
  - intros E. now injection E as <-.
  - destruct (body s) as [t|] eqn:Eb; [|discriminate].
    apply IH; [exact Hstep|]. exact (Hstep s t Hs Ec Eb).
  - intros E. now injection E as <-.
Qed.
(** A loop that returned has run its body at every index. *)
Lemma for_iter_reaches (P : Z -> St -> Prop)
    (body : Z -> St -> option St) : forall cnt lo s s',
  P lo s ->
  (forall i t t', lo <= i < lo + Z.of_nat cnt -> P i t ->
     body i t = Some t' -> P (i + 1) t') ->
  for_iter cnt lo body s = Some s' ->
  forall i, lo <= i < lo + Z.of_nat cnt ->
  exists t t', P i t /\ body i t = Some t'.
Proof.
  induction cnt as [|c IH]; intros lo s s' Hs Hstep E i Hi; [lia|].
  cbn [for_iter] in E. destruct (body lo s) as [s1|] eqn:Eb; [|discriminate].
  destruct (Z.eq_dec i lo) as [->|Hne].
  - exists s, s1. split; [exact Hs|exact Eb].
  - apply (IH (lo + 1) s1 s'); [|intros j t t' Hj; apply Hstep|exact E|]; try lia.
    apply (Hstep lo s s1); [lia|exact Hs|exact Eb].
Qed.

Lemma for_loop_reaches (P : Z -> St -> Prop) lo hi
    (body : Z -> St -> option St) s s' :
  P lo s ->
  (forall i t t', lo <= i < hi -> P i t -> body i t = Some t' ->
     P (i + 1) t') ->
  for_loop lo hi body s = Some s' ->
  forall i, lo <= i < hi -> exists t t', P i t /\ body i t = Some t'.
Proof.
  intros Hs Hstep E i Hi. unfold for_loop in E.
  apply (for_iter_reaches P body (Z.to_nat (hi - lo)) lo s s'); try lia;
    [exact Hs| |exact E].
  intros j t t' Hj. apply Hstep. lia.
Qed.
End MoreLoops.

Section Shape.
Context {S : Type} `{Scalar S}.
Local Abbreviation SkylineMatrix := (@SkylineMatrix S).
Local Abbreviation SkylineInplaceLU := (@SkylineInplaceLU S).

(** The structure of a skyline matrix: its orientation, its size and the
    sizes of its profiles. *)
Definition shape (m : SkylineMatrix)
  : bool * nat * list nat * list nat :=
  (IsRowMajor m, length (sk_diag m),
   map (@length S) (sk_lower m), map (@length S) (sk_upper m)).

Lemma map_length_update (store : list (list S)) : forall k p p',
  nth_error store k = Some p -> length p' = length p ->
  map (@length S) (update store k p') = map (@length S) store.
Proof.
  induction store as [|h t IH]; intros [|k] p p' G E; cbn in G |- *;
    try discriminate.
  - injection G as ->. now rewrite E.
  - f_equal. exact (IH k p p' G E).
Qed.

Lemma it_set_shape (store store' : list (list S)) it a :
  it_set store it a = Some store' ->
  map (@length S) store' = map (@length S) store.
Proof.
  unfold it_set. destruct (get store (it_outer it)) as [p|] eqn:G;
    cbn [bind]; [|discriminate].
  destruct (set p (it_pos it) a) as [p'|] eqn:E; cbn [bind]; [|discriminate].
  unfold set. destruct (_ && _); [|discriminate]. intros E'.
  injection E' as <-. apply (map_length_update store _ p p').
  - unfold get in G. destruct (it_outer it <? 0); [discriminate|exact G].
  - exact (set_length _ _ _ _ E).
Qed.

Lemma setLower_shape (m m' : SkylineMatrix) row col a :
  setLower m row col a = Some m' -> shape m' = shape m.
Proof.
  unfold setLower. destruct (it_set _ _ _) as [l|] eqn:E; cbn [bind];
    [|discriminate].
  intros E'. injection E' as <-. unfold shape. cbn.
  now rewrite (it_set_shape _ _ _ _ E).
Qed.

Lemma setUpper_shape (m m' : SkylineMatrix) row col a :
  setUpper m row col a = Some m' -> shape m' = shape m.
Proof.
  unfold setUpper. destruct (it_set _ _ _) as [l|] eqn:E; cbn [bind];
    [|discriminate].
  intros E'. injection E' as <-. unfold shape. cbn.
  now rewrite (it_set_shape _ _ _ _ E).
Qed.

Lemma setDiag_shape (m m' : SkylineMatrix) i a :
  setDiag m i a = Some m' -> shape m' = shape m.
Proof.
  unfold setDiag. destruct (set _ _ _) as [d|] eqn:E; cbn [bind];
    [|discriminate].
  intros E'. injection E' as <-. unfold shape. cbn.
  now rewrite (set_length _ _ _ _ E).
Qed.

Lemma with_lower_shape (m : SkylineMatrix) store it a l :
  store = sk_lower m -> it_set store it a = Some l ->
  shape (with_lower m l) = shape m.
Proof.
  intros -> E. unfold shape. cbn. now rewrite (it_set_shape _ _ _ _ E).
Qed.

Lemma with_upper_shape (m : SkylineMatrix) store it a u :
  store = sk_upper m -> it_set store it a = Some u ->
  shape (with_upper m u) = shape m.
Proof.
  intros -> E. unfold shape. cbn. now rewrite (it_set_shape _ _ _ _ E).
Qed.

Lemma scale_column_shape (m m' : SkylineMatrix) col pivot :
  scale_column m col pivot = Some m' -> shape m' = shape m.
Proof.
  unfold scale_column.
  apply (for_loop_preserves (fun t => shape t = shape m)); [|reflexivity].
  intros i t t' _ Ht.
  destruct (it_value _ _) as [v|]; cbn [bind]; [|discriminate].
  destruct (it_set _ _ _) as [l|] eqn:E; cbn [bind]; [|discriminate].
  intros E'. injection E' as <-. rewrite <- Ht.
  exact (with_lower_shape t _ _ _ l eq_refl E).
Qed.

Lemma update_upper_row_shape (m m' : SkylineMatrix) uIt uItPivot coef :
  update_upper_row m uIt uItPivot coef = Some m' -> shape m' = shape m.
Proof.
  unfold update_upper_row.
  destruct (while_loop _ _ _ _) as [[[m1 u1] u2]|] eqn:E; cbn [bind];
    [|discriminate].
  intros E'. injection E' as <-.
  apply (while_loop_preserves
           (fun t : SkylineMatrix * Iter * Iter =>
              shape (fst (fst t)) = shape m)) in E; [exact E| |reflexivity].
  intros [[t a] b] t' Ht _. cbn [fst] in Ht.
  destruct (it_value _ _) as [p|]; cbn [bind]; [|discriminate].
  destruct (it_value _ _) as [v|]; cbn [bind]; [|discriminate].
  destruct (it_set _ _ _) as [u|] eqn:Eu; cbn [bind]; [|discriminate].
  intros E'. injection E' as <-. cbn [fst]. rewrite <- Ht.
  exact (with_upper_shape t _ _ _ u eq_refl Eu).
Qed.

Lemma compute_row_shape row (m m' : SkylineMatrix) :
  compute_row row m = Some m' -> shape m' = shape m.
Proof.
  unfold compute_row.
  destruct (coeffDiag m row) as [pivot|]; cbn [bind]; [|discriminate].
  destruct (scale_column m row pivot) as [m1|] eqn:E1; cbn [bind];
    [|discriminate].
  apply scale_column_shape in E1.
  destruct (for_loop _ _ _ (m1, it_begin row)) as [[m2 i2]|] eqn:E2;
    cbn [bind]; [|discriminate].
  apply (for_loop_preserves
           (fun t : SkylineMatrix * Iter => shape (fst t) = shape m)) in E2;
    [|clear E2|exact E1].
  2:{ intros i [t it] t' _ Ht. cbn [fst] in Ht.
      destruct (it_value _ _) as [coef|]; cbn [bind]; [|discriminate].
      destruct (update_upper_row _ _ _ _) as [t1|] eqn:Eu; cbn [bind];
        [|discriminate].
      intros E'. injection E' as <-. cbn [fst]. rewrite <- Ht.
      exact (update_upper_row_shape _ _ _ _ _ Eu). }
  cbn [fst] in E2.
  destruct (for_loop _ _ _ (m2, it_begin row)) as [[m3 i3]|] eqn:E3;
    cbn [bind]; [|discriminate].
  apply (for_loop_preserves
           (fun t : SkylineMatrix * Iter => shape (fst t) = shape m)) in E3;
    [|clear E3|exact E2].
  2:{ intros i [t it] t' _ Ht. cbn [fst] in Ht.
      destruct (it_value _ _) as [coef|]; cbn [bind]; [|discriminate].
      destruct (for_loop _ _ _ _) as [[t1 j1]|] eqn:Ei; cbn [bind];
        [|discriminate].
      intros E'. injection E' as <-. cbn [fst].
      apply (for_loop_preserves
               (fun s : SkylineMatrix * Iter => shape (fst s) = shape m))
        in Ei; [exact Ei| |exact Ht].
      intros k [s js] s' _ Hs. cbn [fst] in Hs.
      destruct (it_value _ _) as [p|]; cbn [bind]; [|discriminate].
      destruct (it_value _ _) as [v|]; cbn [bind]; [|discriminate].
      destruct (setLower _ _ _ _) as [s1|] eqn:Es; cbn [bind];
        [|discriminate].
      intros E'. injection E' as <-. cbn [fst]. rewrite <- Hs.
      exact (setLower_shape _ _ _ _ _ Es). }
  cbn [fst] in E3.
  destruct (for_loop _ _ _ (m3, it_begin row)) as [[m4 i4]|] eqn:E4;
    cbn [bind]; [|discriminate].
  intros E'. injection E' as <-.
  apply (for_loop_preserves
           (fun t : SkylineMatrix * Iter => shape (fst t) = shape m)) in E4;
    [exact E4| |exact E3].
  intros i [t it] t' _ Ht. cbn [fst] in Ht.
  destruct (it_value _ _) as [coef|]; cbn [bind]; [|discriminate].
  destruct (it_value _ _) as [p|]; cbn [bind]; [|discriminate].
  destruct (coeffDiag _ _) as [d|]; cbn [bind]; [|discriminate].
  destruct (setDiag _ _ _) as [t1|] eqn:Ed; cbn [bind]; [|discriminate].
  intros E'. injection E' as <-. cbn [fst]. rewrite <- Ht.
  exact (setDiag_shape _ _ _ _ Ed).
Qed.

Lemma computeRowMajor_row_shape row (m m' : SkylineMatrix) :
  computeRowMajor_row row m = Some m' -> shape m' = shape m.
Proof.
  unfold computeRowMajor_row.
  destruct (for_loop _ _ _ m) as [m1|] eqn:E1; cbn [bind]; [|discriminate].
  apply (for_loop_preserves (fun t => shape t = shape m)) in E1;
    [|clear E1|reflexivity].
  2:{ intros col t t' _ Ht.
      destruct (coeffExistLower t row col).
      - destruct (coeffDiag _ _) as [d|]; cbn [bind]; [|discriminate].
        destruct (profile_dot _ _ _ _ _ _) as [c|]; cbn [bind];
          [|discriminate].
        intros E. rewrite <- Ht. exact (setLower_shape _ _ _ _ _ E).
      - intros E. now injection E as <-. }
  destruct (for_loop _ _ _ m1) as [m2|] eqn:E2; cbn [bind]; [|discriminate].
  apply (for_loop_preserves (fun t => shape t = shape m)) in E2;
    [|clear E2|exact E1].
  2:{ intros rrow t t' _ Ht.
      destruct (profile_dot _ _ _ _ _ _) as [c|]; cbn [bind];
        [|discriminate].
      intros E. rewrite <- Ht. exact (setUpper_shape _ _ _ _ _ E). }
  destruct (coeffDiag _ _) as [d|]; cbn [bind]; [|discriminate].
  destruct (profile_dot _ _ _ _ _ _) as [c|]; cbn [bind]; [|discriminate].
  intros E. rewrite <- E2. exact (setDiag_shape _ _ _ _ E).
Qed.

Lemma compute_keeps (lu lu' : SkylineInplaceLU) :
  compute lu = Some lu' \/ computeRowMajor lu = Some lu' ->
  shape (m_lu lu') = shape (m_lu lu)
  /\ m_precision lu' = m_precision lu
  /\ m_flags lu' = m_flags lu
  /\ m_status lu' = m_status lu.
Proof.
  unfold compute, computeRowMajor. intros [E|E].
  - destruct (IsRowMajor (m_lu lu)); [discriminate|].
    destruct (for_loop _ _ _ _) as [m|] eqn:El; cbn [bind] in E;
      [|discriminate].
    injection E as <-. split; [|cbn; auto].
    change (shape m = shape (m_lu lu)). revert El.
    apply (for_loop_preserves (fun t => shape t = shape (m_lu lu)));
      [|reflexivity].
    intros i t t' _ Ht Et. rewrite <- Ht.
    exact (compute_row_shape _ _ _ Et).
  - destruct (IsRowMajor (m_lu lu)); [|discriminate].
    destruct (for_loop _ _ _ _) as [m|] eqn:El; cbn [bind] in E;
      [|discriminate].
    injection E as <-. split; [|cbn; auto].
    change (shape m = shape (m_lu lu)). revert El.
    apply (for_loop_preserves (fun t => shape t = shape (m_lu lu)));
      [|reflexivity].
    intros i t t' _ Ht Et. rewrite <- Ht.
    exact (computeRowMajor_row_shape _ _ _ Et).
Qed.

(** *** The profiles [compute] reads *)

Lemma it_size_shape (s1 s2 : list (list S)) it :
  map (@length S) s1 = map (@length S) s2 -> it_size s1 it = it_size s2 it.
Proof.
  intros E. unfold it_size, profile, get.
  destruct (it_outer it <? 0); [reflexivity|].
  assert (E' : nth_error (map (@length S) s1) (Z.to_nat (it_outer it))
               = nth_error (map (@length S) s2) (Z.to_nat (it_outer it)))
    by now rewrite E.
  rewrite !nth_error_map in E'.
  destruct (nth_error s1 _), (nth_error s2 _); cbn in E'; try discriminate;
    [|reflexivity].
  injection E' as ->. reflexivity.
Qed.

Lemma shape_lower (m m' : SkylineMatrix) it :
  shape m' = shape m -> it_size (sk_lower m') it = it_size (sk_lower m) it.
Proof. intros E. apply it_size_shape. unfold shape in E. congruence. Qed.

Lemma shape_upper (m m' : SkylineMatrix) it :
  shape m' = shape m -> it_size (sk_upper m') it = it_size (sk_upper m) it.
Proof. intros E. apply it_size_shape. unfold shape in E. congruence. Qed.

Lemma shape_rows (m m' : SkylineMatrix) :
  shape m' = shape m -> sk_rows m' = sk_rows m.
Proof. intros E. unfold sk_rows. unfold shape in E. congruence. Qed.

Lemma it_value_range (store : list (list S)) it a :
  it_value store it = Some a -> 0 <= it_pos it < it_size store it.
Proof.
  unfold it_value, it_size, profile.
  destruct (get store (it_outer it)) as [p|]; cbn [bind]; [|discriminate].
  apply get_Some_range.
Qed.

Lemma compute_row_reads row (m m' : SkylineMatrix) :
  0 <= row < sk_rows m ->
  compute_row row m = Some m' ->
  sk_rows m - row - 1 <= it_size (sk_lower m) (it_begin row)
  /\ sk_rows m - row - 1 <= it_size (sk_upper m) (it_begin row).
Proof.
  intros Hrow E.
  assert (Hl : 0 <= it_size (sk_lower m) (it_begin row))
    by (unfold it_size; lia).
  assert (Hu : 0 <= it_size (sk_upper m) (it_begin row))
    by (unfold it_size; lia).
  destruct (Z.eq_dec (row + 1) (sk_rows m)) as [Hlast|Hmore]; [lia|].
  revert E. unfold compute_row.
  destruct (coeffDiag m row) as [pivot|]; cbn [bind]; [|discriminate].
  destruct (scale_column m row pivot) as [m1|] eqn:E1; cbn [bind];
    [|discriminate].
  apply scale_column_shape in E1.
  destruct (for_loop _ _ _ (m1, it_begin row)) as [[m2 i2]|] eqn:E2;
    cbn [bind]; [|discriminate].
  apply (for_loop_preserves
           (fun t : SkylineMatrix * Iter => shape (fst t) = shape m)) in E2;
    [|clear E2|exact E1].
  2:{ intros i [t it] t' _ Ht. cbn [fst] in Ht.
      destruct (it_value _ _) as [coef|]; cbn [bind]; [|discriminate].
      destruct (update_upper_row _ _ _ _) as [t1|] eqn:Eu; cbn [bind];
        [|discriminate].
      intros E'. injection E' as <-. cbn [fst]. rewrite <- Ht.
      exact (update_upper_row_shape _ _ _ _ _ Eu). }
  cbn [fst] in E2.
  destruct (for_loop _ _ _ (m2, it_begin row)) as [[m3 i3]|] eqn:E3;
    cbn [bind]; [|discriminate].
  apply (for_loop_preserves
           (fun t : SkylineMatrix * Iter => shape (fst t) = shape m)) in E3;
    [|clear E3|exact E2].
  2:{ intros i [t it] t' _ Ht. cbn [fst] in Ht.
      destruct (it_value _ _) as [coef|]; cbn [bind]; [|discriminate].
      destruct (for_loop _ _ _ _) as [[t1 j1]|] eqn:Ei; cbn [bind];
        [|discriminate].
      intros E'. injection E' as <-. cbn [fst].
      apply (for_loop_preserves
               (fun s : SkylineMatrix * Iter => shape (fst s) = shape m))
        in Ei; [exact Ei| |exact Ht].
      intros k [s js] s' _ Hs. cbn [fst] in Hs.
      destruct (it_value _ _) as [p|]; cbn [bind]; [|discriminate].
      destruct (it_value _ _) as [v|]; cbn [bind]; [|discriminate].
      destruct (setLower _ _ _ _) as [s1|] eqn:Es; cbn [bind];
        [|discriminate].
      intros E'. injection E' as <-. cbn [fst]. rewrite <- Hs.
      exact (setLower_shape _ _ _ _ _ Es). }
  cbn [fst] in E3.
  destruct (for_loop _ _ _ (m3, it_begin row)) as [[m4 i4]|] eqn:E4;
    cbn [bind]; [|discriminate].
  intros _.
  rewrite (shape_rows _ _ E3) in E4.
  set (P := fun i (t : SkylineMatrix * Iter) =>
              shape (fst t) = shape m
              /\ snd t = {| it_outer := row; it_pos := i - row - 1 |}).
  assert (P0 : P (row + 1) (m3, it_begin row)).
  { split; [exact E3|]. cbn. unfold it_begin. f_equal. lia. }
  assert (Range : row + 1 <= sk_rows m - 1 < sk_rows m) by lia.
  pose proof (fun Hstep => for_loop_reaches P _ _ _ _ _ P0 Hstep E4
                             (sk_rows m - 1) Range) as Reach.
  cbv beta in Reach.
  destruct Reach as ([t it] & t' & [Ht Hit] & Et).
  { intros i [t it] t' _ [Ht Hit]. cbn [fst snd] in Ht, Hit.
    destruct (it_value _ _) as [coef|]; cbn [bind]; [|discriminate].
    destruct (it_value _ _) as [p|]; cbn [bind]; [|discriminate].
    destruct (coeffDiag _ _) as [d|]; cbn [bind]; [|discriminate].
    destruct (setDiag _ _ _) as [t1|] eqn:Ed; cbn [bind]; [|discriminate].
    intros E'. injection E' as <-. cbn [fst snd]. split.
    - rewrite <- Ht. exact (setDiag_shape _ _ _ _ Ed).
    - rewrite Hit. unfold it_shift. cbn. f_equal. lia. }
  cbn [fst snd] in Ht, Hit.
  destruct (it_value (sk_lower t) it) as [coef|] eqn:Ec; cbn [bind] in Et;
    [|discriminate].
  destruct (it_value (sk_upper t) _) as [p|] eqn:Ep; cbn [bind] in Et;
    [|discriminate].
  apply it_value_range in Ec, Ep.
  rewrite Hit in Ec.
  rewrite (shape_lower _ _ _ Ht) in Ec. rewrite (shape_upper _ _ _ Ht) in Ep.
  cbn in Ec, Ep. unfold it_size in *. cbn in *. lia.
Qed.

Lemma compute_reads (lu lu' : SkylineInplaceLU) o :
  compute lu = Some lu' ->
  0 <= o < sk_rows (m_lu lu) ->
  sk_rows (m_lu lu) - o - 1 <= it_size (sk_lower (m_lu lu)) (it_begin o)
  /\ sk_rows (m_lu lu) - o - 1 <= it_size (sk_upper (m_lu lu)) (it_begin o).
Proof.
  unfold compute. destruct (IsRowMajor (m_lu lu)); [discriminate|].
  destruct (for_loop _ _ _ _) as [m|] eqn:El; cbn [bind]; [|discriminate].
  intros _ Ho.
  set (P := fun (_ : Z) (t : SkylineMatrix) => shape t = shape (m_lu lu)).
  assert (P0 : P 0 (m_lu lu)) by reflexivity.
  pose proof (fun Hstep => for_loop_reaches P _ _ _ _ _ P0 Hstep El o Ho)
    as Reach.
  destruct Reach as (t & t' & Ht & Et).
  { intros i t t' _ Ht Et. unfold P in *. rewrite <- Ht.
    exact (compute_row_shape _ _ _ Et). }
  unfold P in Ht.
  rewrite <- (shape_rows _ _ Ht), <- (shape_lower _ _ _ Ht),
    <- (shape_upper _ _ _ Ht).
  apply (compute_row_reads o t t'); [|exact Et].
  rewrite (shape_rows _ _ Ht). exact Ho.
Qed.
End Shape.

(** *** [computeRowMajor] stays inside the profiles *)
Section RowMajorBounds.
Context {S : Type} `{Scalar S}.
Local Abbreviation SkylineMatrix := (@SkylineMatrix S).
Local Abbreviation SkylineInplaceLU := (@SkylineInplaceLU S).

Lemma it_value_total (store : list (list S)) it :
  0 <= it_pos it < it_size store it -> exists a, it_value store it = Some a.
Proof.
  unfold it_value, it_size, profile.
  destruct (get store (it_outer it)) as [p|]; cbn [bind length];
    [apply get_in_range|lia].
Qed.

Lemma it_set_total (store : list (list S)) it a :
  0 <= it_pos it < it_size store it ->
  exists store', it_set store it a = Some store'.
Proof.
  unfold it_set, it_size, profile.
  destruct (get store (it_outer it)) as [p|] eqn:G; cbn [bind length];
    [|lia].
  intros Hp. destruct (set_in_range p (it_pos it) a Hp) as [p' ->].
  cbn [bind]. apply set_in_range. exact (get_Some_range _ _ _ G).
Qed.

Lemma it_shift_shift it a b :
  it_shift (it_shift it a) b = it_shift it (a + b).
Proof. unfold it_shift. cbn. f_equal. lia. Qed.

Lemma profile_dot_total (t : SkylineMatrix) lo uo offset stop c :
  (if offset >? 0 then 0 else - offset) + stop
    <= it_size (sk_lower t) (it_begin lo) ->
  (if offset >? 0 then offset else 0) + stop
    <= it_size (sk_upper t) (it_begin uo) ->
  exists r, profile_dot t (it_begin lo) (it_begin uo) offset stop c = Some r.
Proof.
  intros Hl Hu. unfold profile_dot.
  set (lIt := if offset >? 0 then it_begin lo
              else it_shift (it_begin lo) (- offset)).
  set (uIt := if offset >? 0 then it_shift (it_begin uo) offset
              else it_begin uo).
  assert (Hlo : it_outer lIt = lo /\ 0 <= it_pos lIt
                /\ it_pos lIt = (if offset >? 0 then 0 else - offset)).
  { unfold lIt. destruct (Z.gtb_spec offset 0); cbn; lia. }
  assert (Huo : it_outer uIt = uo /\ 0 <= it_pos uIt
                /\ it_pos uIt = (if offset >? 0 then offset else 0)).
  { unfold uIt. destruct (Z.gtb_spec offset 0); cbn; lia. }
  destruct Hlo as (Hlo & Hlp & Hlq). destruct Huo as (Huo & Hup & Huq).
  rewrite <- Hlq in Hl. rewrite <- Huq in Hu. clearbody lIt uIt.
  destruct (Z.le_gt_cases stop 0) as [Hs|Hs].
  - rewrite for_loop_empty by lia. cbn. eauto.
  - destruct (for_loop_inv
                (fun k (st : S * (Iter * Iter)) =>
                   fst (snd st) = it_shift lIt k
                   /\ snd (snd st) = it_shift uIt k)
                0 stop
                (fun (_ : Z) '(newCoeff, (lIt, uIt)) =>
                   a <- it_value (sk_lower t) lIt ;;
                   b <- it_value (sk_upper t) uIt ;;
                   Some (ssub newCoeff (smul a b),
                         (it_shift lIt 1, it_shift uIt 1)))
                (c, (lIt, uIt)))
      as (r & -> & _).
    + lia.
    + cbn. unfold it_shift. destruct lIt, uIt. cbn. split; f_equal; lia.
    + intros k [nc [l u]] Hk [El Eu]. cbn [fst snd] in El, Eu. subst l u.
      destruct (it_value_total (sk_lower t) (it_shift lIt k)) as [a ->].
      { unfold it_size in *. cbn in *. rewrite Hlo. lia. }
      destruct (it_value_total (sk_upper t) (it_shift uIt k)) as [b ->].
      { unfold it_size in *. cbn in *. rewrite Huo. lia. }
      cbn [bind]. eexists. split; [reflexivity|]. cbn [fst snd].
      now rewrite !it_shift_shift.
    + cbn. eauto.
Qed.

Variable m : SkylineMatrix.
Hypothesis m_well_formed : well_formed m.
Hypothesis m_row_major : IsRowMajor m = true.

Lemma lower_fits o : 0 <= o -> it_size (sk_lower m) (it_begin o) <= o.
Proof.
  intros Ho. destruct m_well_formed as (_ & _ & Hf).
  destruct (Hf m_row_major) as [Hl _].
  unfold it_size, profile. cbn.
  destruct (get (sk_lower m) o) as [p|] eqn:G; [exact (Hl o p G)|cbn; lia].
Qed.

Lemma upper_fits o : 0 <= o -> it_size (sk_upper m) (it_begin o) <= o.
Proof.
  intros Ho. destruct m_well_formed as (_ & _ & Hf).
  destruct (Hf m_row_major) as [_ Hu].
  unfold it_size, profile. cbn.
  destruct (get (sk_upper m) o) as [p|] eqn:G; [exact (Hu o p G)|cbn; lia].
Qed.

Lemma size_nonneg (store : list (list S)) it : 0 <= it_size store it.
Proof. unfold it_size. lia. Qed.

Section Current.
Variable t : SkylineMatrix.
Hypothesis t_shape : shape t = shape m.

Lemma t_row_major : IsRowMajor t = true.
Proof. rewrite <- m_row_major. unfold shape in t_shape. congruence. Qed.

Lemma lower_col_begin o :
  lower_col t (it_begin o) = o - it_size (sk_lower m) (it_begin o).
Proof.
  unfold lower_col, it_index. rewrite t_row_major.
  rewrite (shape_lower _ _ _ t_shape). cbn. lia.
Qed.

Lemma upper_row_begin o :
  upper_row t (it_begin o) = o - it_size (sk_upper m) (it_begin o).
Proof.
  unfold upper_row, it_index. rewrite t_row_major.
  rewrite (shape_upper _ _ _ t_shape). cbn. lia.
Qed.

Lemma lower_at_valid row col :
  row - it_size (sk_lower m) (it_begin row) <= col < row ->
  0 <= it_pos (lower_at t row col)
     < it_size (sk_lower t) (lower_at t row col).
Proof.
  intros Hc. unfold lower_at. rewrite t_row_major.
  rewrite !(shape_lower _ _ _ t_shape).
  change (it_size (sk_lower m) {| it_outer := row; it_pos := _ |})
    with (it_size (sk_lower m) (it_begin row)).
  cbn [it_pos]. lia.
Qed.

Lemma upper_at_valid row col :
  col - it_size (sk_upper m) (it_begin col) <= row < col ->
  0 <= it_pos (upper_at t row col)
     < it_size (sk_upper t) (upper_at t row col).
Proof.
  intros Hc. unfold upper_at. rewrite t_row_major.
  rewrite !(shape_upper _ _ _ t_shape).
  change (it_size (sk_upper m) {| it_outer := col; it_pos := _ |})
    with (it_size (sk_upper m) (it_begin col)).
  cbn [it_pos]. lia.
Qed.

Lemma coeffDiag_total i :
  0 <= i < sk_rows m -> exists d, coeffDiag t i = Some d.
Proof.
  intros Hi. apply get_in_range. rewrite <- (shape_rows _ _ t_shape) in Hi.
  exact Hi.
Qed.

Lemma setDiag_total i a :
  0 <= i < sk_rows m ->
  exists t', setDiag t i a = Some t' /\ shape t' = shape m.
Proof.
  intros Hi. rewrite <- (shape_rows _ _ t_shape) in Hi.
  destruct (set_in_range (sk_diag t) i a Hi) as [d E].
  exists (with_diag t d).
  assert (E' : setDiag t i a = Some (with_diag t d))
    by (unfold setDiag; now rewrite E).
  split; [exact E'|]. rewrite <- t_shape. exact (setDiag_shape _ _ _ _ E').
Qed.

Lemma setLower_total row col a :
  row - it_size (sk_lower m) (it_begin row) <= col < row ->
  exists t', setLower t row col a = Some t' /\ shape t' = shape m.
Proof.
  intros Hc.
  destruct (it_set_total (sk_lower t) (lower_at t row col) a
              (lower_at_valid row col Hc)) as [l E].
  assert (E' : setLower t row col a = Some (with_lower t l))
    by (unfold setLower; now rewrite E).
  exists (with_lower t l). split; [exact E'|].
  rewrite <- t_shape. exact (setLower_shape _ _ _ _ _ E').
Qed.

Lemma setUpper_total row col a :
  col - it_size (sk_upper m) (it_begin col) <= row < col ->
  exists t', setUpper t row col a = Some t' /\ shape t' = shape m.
Proof.
  intros Hc.
  destruct (it_set_total (sk_upper t) (upper_at t row col) a
              (upper_at_valid row col Hc)) as [u E].
  assert (E' : setUpper t row col a = Some (with_upper t u))
    by (unfold setUpper; now rewrite E).
  exists (with_upper t u). split; [exact E'|].
  rewrite <- t_shape. exact (setUpper_shape _ _ _ _ _ E').
Qed.

(** The three products of a row never leave the two profiles. *)
Lemma profile_dot_fits lo uo stop c :
  0 <= lo -> 0 <= uo ->
  let offset := lower_col t (it_begin lo) - upper_row t (it_begin uo) in
  (offset > 0 -> stop <= it_size (sk_lower m) (it_begin lo)
                 /\ offset + stop <= it_size (sk_upper m) (it_begin uo)) ->
  (offset <= 0 -> stop <= it_size (sk_upper m) (it_begin uo)
                  /\ - offset + stop <= it_size (sk_lower m) (it_begin lo)) ->
  exists r, profile_dot t (it_begin lo) (it_begin uo) offset stop c = Some r.
Proof.
  intros Hlo Huo offset Hpos Hneg. apply profile_dot_total.
  - rewrite (shape_lower _ _ _ t_shape).
    destruct (Z.gtb_spec offset 0); [apply Hpos|apply Hneg]; lia.
  - rewrite (shape_upper _ _ _ t_shape).
    destruct (Z.gtb_spec offset 0); [apply Hpos|apply Hneg]; lia.
Qed.
End Current.

Lemma computeRowMajor_row_total row (t : SkylineMatrix) :
  shape t = shape m -> 0 <= row < sk_rows m ->
  exists t', computeRowMajor_row row t = Some t' /\ shape t' = shape m.
Proof.
  intros Ht Hrow. unfold computeRowMajor_row.
  pose proof (lower_fits row ltac:(lia)) as HLr.
  pose proof (upper_fits row ltac:(lia)) as HUr.
  pose proof (size_nonneg (sk_lower m) (it_begin row)) as HLr0.
  pose proof (size_nonneg (sk_upper m) (it_begin row)) as HUr0.
  rewrite (lower_col_begin t Ht).
  match goal with
  | |- context [for_loop ?lo ?hi ?body t] =>
      destruct (for_loop_inv (fun (_ : Z) u => shape u = shape m)
                  lo hi body t) as (t1 & -> & Ht1)
  end; [lia|exact Ht| |].
  { intros col u Hcol Hu.
    destruct (coeffExistLower u row col); [|eauto].
    destruct (coeffDiag_total u Hu col) as [d ->]; [lia|]. cbn [bind].
    pose proof (lower_fits col ltac:(lia)) as HLc.
    pose proof (upper_fits col ltac:(lia)) as HUc.
    pose proof (size_nonneg (sk_upper m) (it_begin col)) as HUc0.
    destruct (profile_dot_fits u Hu row col
                (if lower_col u (it_begin row)
                    - upper_row u (it_begin col) >? 0
                 then col - lower_col u (it_begin row)
                 else col - upper_row u (it_begin col))
                (coeffLower u row col)) as [r ->]; try lia.
    - rewrite (lower_col_begin u Hu), (upper_row_begin u Hu).
      intros Hoff.
      match goal with
      | |- context [?a >? 0] => destruct (Z.gtb_spec a 0)
      end; lia.
    - rewrite (lower_col_begin u Hu), (upper_row_begin u Hu).
      intros Hoff.
      match goal with
      | |- context [?a >? 0] => destruct (Z.gtb_spec a 0)
      end; lia.
    - cbn [bind]. apply (setLower_total u Hu). lia. }
  cbn [bind]. rewrite (upper_row_begin t1 Ht1).
  match goal with
  | |- context [for_loop ?lo ?hi ?body t1] =>
      destruct (for_loop_inv (fun (_ : Z) u => shape u = shape m)
                  lo hi body t1) as (t2 & -> & Ht2)
  end; [lia|exact Ht1| |].
  { intros rrow u Hrrow Hu.
    pose proof (lower_fits rrow ltac:(lia)) as HLc.
    pose proof (size_nonneg (sk_lower m) (it_begin rrow)) as HLc0.
    destruct (profile_dot_fits u Hu rrow row
                (if lower_col u (it_begin rrow)
                    - upper_row u (it_begin row) >? 0
                 then rrow - lower_col u (it_begin rrow)
                 else rrow - upper_row u (it_begin row))
                (coeffUpper u rrow row)) as [r ->]; try lia.
    - rewrite (lower_col_begin u Hu), (upper_row_begin u Hu).
      intros Hoff.
      match goal with
      | |- context [?a >? 0] => destruct (Z.gtb_spec a 0)
      end; lia.
    - rewrite (lower_col_begin u Hu), (upper_row_begin u Hu).
      intros Hoff.
      match goal with
      | |- context [?a >? 0] => destruct (Z.gtb_spec a 0)
      end; lia.
    - cbn [bind]. apply (setUpper_total u Hu). lia. }
  cbn [bind].
  destruct (coeffDiag_total t2 Ht2 row Hrow) as [d ->]. cbn [bind].
  destruct (profile_dot_fits t2 Ht2 row row
              (if lower_col t2 (it_begin row)
                  - upper_row t2 (it_begin row) >? 0
               then it_size (sk_lower t2) (it_begin row)
               else it_size (sk_upper t2) (it_begin row)) d)
    as [r ->]; try lia.
  - rewrite (lower_col_begin t2 Ht2), (upper_row_begin t2 Ht2).
    rewrite (shape_lower _ _ _ Ht2), (shape_upper _ _ _ Ht2).
    intros Hoff.
      match goal with
      | |- context [?a >? 0] => destruct (Z.gtb_spec a 0)
      end; lia.
  - rewrite (lower_col_begin t2 Ht2), (upper_row_begin t2 Ht2).
    rewrite (shape_lower _ _ _ Ht2), (shape_upper _ _ _ Ht2).
    intros Hoff.
      match goal with
      | |- context [?a >? 0] => destruct (Z.gtb_spec a 0)
      end; lia.
  - cbn [bind]. apply (setDiag_total t2 Ht2). exact Hrow.
Qed.
End RowMajorBounds.

Section RowMajorReturns.
Context {S : Type} `{Scalar S}.

Lemma computeRowMajor_total (lu : @SkylineInplaceLU S) :
  well_formed (m_lu lu) -> IsRowMajor (m_lu lu) = true ->
  exists lu', computeRowMajor lu = Some lu'.
Proof.
  intros Hwf Hrm. unfold computeRowMajor. rewrite Hrm.
  destruct (for_loop_inv (fun (_ : Z) u => shape u = shape (m_lu lu))
              0 (sk_rows (m_lu lu)) computeRowMajor_row (m_lu lu))
    as (t & -> & _).
  - unfold sk_rows. lia.
  - reflexivity.
  - intros i u Hi Hu.
    exact (computeRowMajor_row_total (m_lu lu) Hwf Hrm i u Hu Hi).
  - cbn [bind]. eauto.
Qed.
End RowMajorReturns.

(** *** [solve] writes [x] before it reads it *)
Section TwoRuns.
Context {St : Type}.

Lemma while_loop_agree (I : St -> Prop) (cond : St -> bool)
    (body body' : St -> option St) : forall cnt s,
  I s ->
  (forall t, I t -> cond t = true ->
     body t = body' t /\ forall t', body t = Some t' -> I t') ->
  while_loop cnt cond body s = while_loop cnt cond body' s.
Proof.
  induction cnt as [|c IH]; intros s Hs Hstep; cbn [while_loop];
    destruct (cond s) eqn:Ec; try reflexivity.
  destruct (Hstep s Hs Ec) as [<- Hnext].
  destruct (body s) as [t|]; [|reflexivity].
  apply IH; [apply Hnext; reflexivity|exact Hstep].
Qed.

(** Two runs of a loop that stay related return related states, or fail
    together. *)
Definition both (R : St -> St -> Prop) (a b : option St) : Prop :=
  match a, b with
  | Some u, Some v => R u v
  | None, None => True
  | _, _ => False
  end.

Lemma for_iter_both (R : Z -> St -> St -> Prop)
    (body : Z -> St -> option St) : forall cnt lo s1 s2,
  R lo s1 s2 ->
  (forall i t1 t2, lo <= i < lo + Z.of_nat cnt -> R i t1 t2 ->
     both (R (i + 1)) (body i t1) (body i t2)) ->
  both (R (lo + Z.of_nat cnt))
    (for_iter cnt lo body s1) (for_iter cnt lo body s2).
Proof.
  induction cnt as [|c IH]; intros lo s1 s2 Hs Hstep.
  - cbn. replace (lo + 0) with lo by lia. exact Hs.
  - cbn [for_iter]. pose proof (Hstep lo s1 s2 ltac:(lia) Hs) as Hb.
    unfold both in Hb.
    destruct (body lo s1) as [t1|], (body lo s2) as [t2|]; try contradiction;
      [|exact I].
    replace (lo + Z.of_nat (Datatypes.S c)) with (lo + 1 + Z.of_nat c)
      by lia.
    apply IH; [exact Hb|]. intros i u1 u2 Hi. apply Hstep. lia.
Qed.

Lemma for_loop_both (R : Z -> St -> St -> Prop) lo hi
    (body : Z -> St -> option St) s1 s2 :
  lo <= hi ->
  R lo s1 s2 ->
  (forall i t1 t2, lo <= i < hi -> R i t1 t2 ->
     both (R (i + 1)) (body i t1) (body i t2)) ->
  both (R hi) (for_loop lo hi body s1) (for_loop lo hi body s2).
Proof.
  intros Hle Hs Hstep. unfold for_loop.
  replace hi with (lo + Z.of_nat (Z.to_nat (hi - lo))) at 1 by lia.
  apply for_iter_both; [exact Hs|]. intros i t1 t2 Hi. apply Hstep. lia.
Qed.
End TwoRuns.

Section SolveInput.
Context {S : Type} `{Scalar S}.
Local Abbreviation SkylineMatrix := (@SkylineMatrix S).
Local Abbreviation SkylineInplaceLU := (@SkylineInplaceLU S).

(** Two vectors of the same size with the same entries below [k]. *)
Definition agree_below (k : Z) (x x' : list S) : Prop :=
  length x = length x' /\ forall j, j < k -> get x j = get x' j.

Lemma lower_col_shift (m : SkylineMatrix) it :
  IsRowMajor m = true ->
  lower_col m (it_shift it 1) = lower_col m it + 1.
Proof.
  intros E. unfold lower_col, it_index. rewrite E.
  unfold it_shift, it_size. cbn. lia.
Qed.

Lemma solve_forward_row_agree (m : SkylineMatrix) b row x x' :
  agree_below row x x' ->
  both (agree_below (row + 1))
    (solve_forward_row m b row x) (solve_forward_row m b row x').
Proof.
  intros [Hlen Hlow]. unfold solve_forward_row.
  destruct (get b row) as [brow|]; cbn [bind]; [|exact I].
  destruct (set x row brow) as [x1|] eqn:E1.
  2:{ destruct (set x' row brow) as [x1'|] eqn:E1'; [|exact I].
      apply set_Some_range in E1'. rewrite <- Hlen in E1'.
      destruct (set_in_range x row brow E1') as [? E]. congruence. }
  pose proof (set_Some_range _ _ _ _ E1) as Hr.
  destruct (set_in_range x' row brow) as [x1' E1']; [now rewrite <- Hlen|].
  rewrite E1'. cbn [bind].
  rewrite (get_set_same _ _ _ _ E1), (get_set_same _ _ _ _ E1'). cbn [bind].
  assert (Hbelow : forall j, j < row -> get x1 j = get x1' j).
  { intros j Hj. rewrite (get_set_other _ _ _ _ j E1) by lia.
    rewrite (get_set_other _ _ _ _ j E1') by lia. now apply Hlow. }
  rewrite (while_loop_agree
             (fun st : S * Z * Iter =>
                it_outer (snd st) = row
                /\ (IsRowMajor m = true
                    -> snd (fst st) = lower_col m (snd st)))
             _ _
             (fun '(newVal, col, lIt) =>
                xc <- get x1' col ;;
                l <- it_value (sk_lower m) lIt ;;
                Some (ssub newVal (smul xc l), (col + 1)%Z, it_shift lIt 1))).
  - destruct (while_loop _ _ _ _) as [[[nv c] it]|]; cbn [bind]; [|exact I].
    pose proof (set_length _ _ _ _ E1) as L1.
    pose proof (set_length _ _ _ _ E1') as L1'.
    destruct (set_in_range x1 row nv) as [x2 E2]; [rewrite L1; exact Hr|].
    destruct (set_in_range x1' row nv) as [x2' E2'];
      [rewrite L1', <- Hlen; exact Hr|].
    rewrite E2, E2'. cbn [both]. split.
    + rewrite (set_length _ _ _ _ E2), (set_length _ _ _ _ E2'). congruence.
    + intros j Hj. destruct (Z.eq_dec j row) as [->|Hne].
      * now rewrite (get_set_same _ _ _ _ E2), (get_set_same _ _ _ _ E2').
      * rewrite (get_set_other _ _ _ _ j E2) by lia.
        rewrite (get_set_other _ _ _ _ j E2') by lia. apply Hbelow. lia.
  - cbn. split; reflexivity.
  - intros [[nv c] it] [Ho Hc] Hcond. cbn [fst snd] in Ho, Hc.
    destruct (IsRowMajor m) eqn:Erm.
    + specialize (Hc eq_refl). apply Z.ltb_lt in Hcond.
      rewrite (Hbelow c) by lia. split; [reflexivity|].
      intros t'. destruct (get x1' c); cbn [bind]; [|discriminate].
      destruct (it_value _ _); cbn [bind]; [|discriminate].
      intros E. injection E as <-. cbn [fst snd]. split; [exact Ho|].
      intros _. rewrite lower_col_shift by exact Erm. lia.
    + exfalso. unfold lower_col in Hcond. rewrite Erm in Hcond.
      apply Z.ltb_lt in Hcond. lia.
Qed.

Lemma solve_initial_x (lu : SkylineInplaceLU) b x x' transposed transposed' :
  length x = length x' ->
  Z.of_nat (length x) <= sk_rows (m_lu lu) ->
  solve lu b x transposed = solve lu b x' transposed'.
Proof.
  intros Hlen Hn. unfold solve.
  pose proof (for_loop_both agree_below 0 (sk_rows (m_lu lu))
                (solve_forward_row (m_lu lu) b) x x'
                ltac:(unfold sk_rows; lia)) as Hb.
  assert (Hb' : both (agree_below (sk_rows (m_lu lu)))
                  (for_loop 0 (sk_rows (m_lu lu))
                     (solve_forward_row (m_lu lu) b) x)
                  (for_loop 0 (sk_rows (m_lu lu))
                     (solve_forward_row (m_lu lu) b) x')).
  { apply Hb.
    - split; [exact Hlen|]. intros j Hj. unfold get.
      destruct (Z.ltb_spec j 0); [reflexivity|lia].
    - intros i t1 t2 _. apply solve_forward_row_agree. }
  clear Hb. unfold both in Hb'.
  assert (Hkeep : forall y, for_loop 0 (sk_rows (m_lu lu))
                              (solve_forward_row (m_lu lu) b) x = Some y ->
                            length y = length x).
  { intros y. apply (for_loop_preserves (fun v => length v = length x));
      [|reflexivity].
    intros i t t' _ Ht. unfold solve_forward_row.
    destruct (get b i); cbn [bind]; [|discriminate].
    destruct (set t i s) as [t1|] eqn:E1; cbn [bind]; [|discriminate].
    destruct (get t1 i); cbn [bind]; [|discriminate].
    destruct (while_loop _ _ _ _) as [[[nv c] it]|]; cbn [bind];
      [|discriminate].
    intros E2. rewrite (set_length _ _ _ _ E2), (set_length _ _ _ _ E1).
    exact Ht. }
  destruct (for_loop 0 _ _ x) as [y|], (for_loop 0 _ _ x') as [y'|];
    try contradiction; [|reflexivity].
  replace y' with y; [reflexivity|].
  destruct Hb' as [Hl Hlow]. apply get_ext. intros i Hi.
  destruct (Z.lt_ge_cases i (sk_rows (m_lu lu))) as [Hin|Hout].
  - now apply Hlow.
  - specialize (Hkeep y eq_refl).
    rewrite !get_None_length; [reflexivity|lia|lia].
Qed.
End SolveInput.

(** *** [solve] on row-major storage, in exact arithmetic *)
Section SolveExact.
Variables eps prec : R.
#[local] Instance solve_reals : Scalar R := RScalar eps prec.
Local Open Scope R_scope.
Local Abbreviation SkylineMatrix := (@SkylineMatrix R).
Local Abbreviation SkylineInplaceLU := (@SkylineInplaceLU R).

(** Row [i] of the products [L y] and [U x], for the two factors the
    storage stands for: L has the lower entries and a unit diagonal, U has
    the diagonal and the upper entries; an entry outside the profiles
    is zero. *)
Definition lower_times (m : SkylineMatrix) (y : Z -> R) (i : Z) : R :=
  y i + sumZ 0 i (fun j => coeffLower m i j * y j).
Definition upper_times (m : SkylineMatrix) (x : Z -> R) (i : Z) : R :=
  vec (sk_diag m) i * x i
  + sumZ (i + 1) (sk_rows m) (fun k => coeffUpper m i k * x k).

Lemma sumZ_zeros lo hi f :
  (forall i, (lo <= i < hi)%Z -> f i = 0) -> sumZ lo hi f = 0.
Proof.
  intros E. rewrite (sumZ_ext lo hi f (fun i => 0 * 0)).
  - rewrite sumZ_scal. lra.
  - intros i Hi. rewrite (E i Hi). lra.
Qed.

Lemma sumZ_cut lo mid hi f :
  (lo <= mid <= hi)%Z -> sumZ lo hi f = sumZ lo mid f + sumZ mid hi f.
Proof.
  intros [H1 H2].
  replace hi with (mid + Z.of_nat (Z.to_nat (hi - mid)))%Z by lia.
  induction (Z.to_nat (hi - mid)) as [|k IH].
  - replace (mid + Z.of_nat 0)%Z with mid by lia.
    rewrite (sumZ_empty mid mid) by lia. lra.
  - replace (mid + Z.of_nat (Datatypes.S k))%Z
      with (mid + Z.of_nat k + 1)%Z by lia.
    rewrite (sumZ_last lo (mid + Z.of_nat k + 1)) by lia.
    rewrite (sumZ_last mid (mid + Z.of_nat k + 1)) by lia.
    replace (mid + Z.of_nat k + 1 - 1)%Z with (mid + Z.of_nat k)%Z by lia.
    rewrite IH. lra.
Qed.

Variable m : SkylineMatrix.
Hypothesis m_well_formed : well_formed m.
Hypothesis m_row_major : IsRowMajor m = true.

Local Abbreviation sizeL o := (it_size (sk_lower m) (it_begin o)).
Local Abbreviation sizeU o := (it_size (sk_upper m) (it_begin o)).

Lemma lower_col_at row p :
  lower_col m {| it_outer := row; it_pos := p |} = (row - sizeL row + p)%Z.
Proof. unfold lower_col, it_index. rewrite m_row_major. reflexivity. Qed.

Lemma upper_row_at col p :
  upper_row m {| it_outer := col; it_pos := p |} = (col - sizeU col + p)%Z.
Proof. unfold upper_row, it_index. rewrite m_row_major. reflexivity. Qed.

Lemma coeffLower_value row col l :
  it_value (sk_lower m)
    {| it_outer := row; it_pos := (col - (row - sizeL row))%Z |} = Some l ->
  coeffLower m row col = l.
Proof.
  intros E. unfold coeffLower, lower_at. rewrite m_row_major.
  now rewrite E.
Qed.

Lemma coeffUpper_value row col u :
  it_value (sk_upper m)
    {| it_outer := col; it_pos := (row - (col - sizeU col))%Z |} = Some u ->
  coeffUpper m row col = u.
Proof.
  intros E. unfold coeffUpper, upper_at. rewrite m_row_major.
  now rewrite E.
Qed.

Lemma coeffLower_outside row col :
  (col < row - sizeL row)%Z -> coeffLower m row col = 0.
Proof.
  intros Hc. unfold coeffLower, lower_at, it_value. rewrite m_row_major.
  cbn [it_outer it_pos].
  destruct (get (sk_lower m) row); cbn [bind]; [|reflexivity].
  unfold get. destruct (Z.ltb_spec (col - (row - sizeL row)) 0);
    [reflexivity|lia].
Qed.

Lemma coeffUpper_outside row col :
  (row < col - sizeU col)%Z -> coeffUpper m row col = 0.
Proof.
  intros Hc. unfold coeffUpper, upper_at, it_value. rewrite m_row_major.
  cbn [it_outer it_pos].
  destruct (get (sk_upper m) col); cbn [bind]; [|reflexivity].
  unfold get. destruct (Z.ltb_spec (row - (col - sizeU col)) 0);
    [reflexivity|lia].
Qed.

(** One turn of the first loop: [x[row] = b[row] - sum_j L(row,j) x[j]]. *)
Lemma forward_row_exact b row x :
  (0 <= row < sk_rows m)%Z ->
  Z.of_nat (length b) = sk_rows m -> Z.of_nat (length x) = sk_rows m ->
  exists x', solve_forward_row m b row x = Some x'
    /\ Z.of_nat (length x') = sk_rows m
    /\ (forall j, (0 <= j)%Z -> j <> row -> vec x' j = vec x j)
    /\ vec x' row
       = vec b row - sumZ 0 row (fun j => coeffLower m row j * vec x j).
Proof.
  intros Hrow Hb Hx. unfold solve_forward_row. cbv zeta.
  rewrite (get_vec b row) by lia. cbn [bind].
  destruct (set_in_range x row (vec b row)) as [x1 E1]; [lia|].
  rewrite E1. cbn [bind]. rewrite (get_set_same _ _ _ _ E1). cbn [bind].
  pose proof (set_length _ _ _ _ E1) as L1.
  pose proof (lower_fits m m_well_formed m_row_major row ltac:(lia)) as HsL.
  pose proof (size_nonneg (sk_lower m) (it_begin row)) as HsL0.
  change (it_begin row) with {| it_outer := row; it_pos := 0 |} at 1 2.
  rewrite !lower_col_at.
  match goal with
  | |- context [while_loop ?cnt ?cond ?body ?s] =>
      destruct (while_loop_inv
                  (fun st : R * Z * Iter =>
                     snd st = {| it_outer := row;
                                 it_pos := (snd (fst st)
                                            - (row - sizeL row))%Z |}
                     /\ (row - sizeL row <= snd (fst st) <= row)%Z
                     /\ fst (fst st)
                        = vec b row
                          - sumZ (row - sizeL row) (snd (fst st))
                              (fun j => vec x1 j * coeffLower m row j))
                  (fun st : R * Z * Iter => Z.to_nat (row - snd (fst st)))
                  cond body cnt s)
        as ([[nv col] it] & -> & (Hit & Hcol & Hnv) & Hexit)
  end.
  - cbn [fst snd]. split; [unfold it_begin; f_equal; lia|].
    split; [lia|]. rewrite sumZ_empty by lia. lra.
  - cbn [fst snd]. lia.
  - intros [[nv c] it] (Hit & Hc & Hnv) Hcond. cbn [fst snd] in Hit, Hc, Hnv.
    subst it. rewrite lower_col_at in Hcond. apply Z.ltb_lt in Hcond.
    rewrite (get_vec x1 c) by lia. cbn [bind].
    destruct (it_value_total (sk_lower m)
                {| it_outer := row; it_pos := (c - (row - sizeL row))%Z |})
      as [l El].
    { cbn [it_pos].
      change (it_size (sk_lower m) {| it_outer := row; it_pos := _ |})
        with (sizeL row). lia. }
    rewrite El. cbn [bind]. eexists. split; [reflexivity|].
    cbn [fst snd]. split; [|lia]. split; [|split].
    + unfold it_shift. cbn. f_equal. lia.
    + lia.
    + rewrite (sumZ_last (row - sizeL row) (c + 1)) by lia.
      replace (c + 1 - 1)%Z with c by lia.
      rewrite (coeffLower_value row c l El). rewrite Hnv.
      cbn [ssub smul solve_reals RScalar]. lra.
  - cbn [fst snd] in Hit, Hcol, Hnv. subst it.
    rewrite lower_col_at in Hexit. apply Z.ltb_ge in Hexit.
    assert (col = row) by lia. subst col. cbn [bind].
    destruct (set_in_range x1 row nv) as [x2 E2]; [lia|].
    rewrite E2. exists x2. split; [reflexivity|].
    split; [rewrite (set_length _ _ _ _ E2); lia|]. split.
    + intros j Hj Hne. rewrite (vec_set _ _ _ _ j E2 Hj).
      rewrite (vec_set _ _ _ _ j E1 Hj).
      destruct (Z.eqb_spec j row); [contradiction|reflexivity].
    + rewrite (vec_set _ _ _ _ row E2) by lia. rewrite Z.eqb_refl.
      rewrite Hnv. f_equal.
      rewrite (sumZ_cut 0 (row - sizeL row) row) by lia.
      rewrite (sumZ_zeros 0 (row - sizeL row)).
      * rewrite Rplus_0_l. apply sumZ_ext. intros j Hj.
        rewrite (vec_set _ _ _ _ j E1) by lia.
        destruct (Z.eqb_spec j row); [lia|]. lra.
      * intros j Hj. rewrite coeffLower_outside by lia. lra.
Qed.

(** One turn of the second loop: [x[col] /= U(col,col)], then
    [x[j] -= x[col] U(j,col)] for the rows above. *)
Lemma backward_col_exact col x :
  (0 <= col < sk_rows m)%Z -> Z.of_nat (length x) = sk_rows m ->
  exists x', solve_backward_col m col x = Some x'
    /\ Z.of_nat (length x') = sk_rows m
    /\ vec x' col = vec x col / vec (sk_diag m) col
    /\ (forall j, (0 <= j < col)%Z ->
          vec x' j = vec x j
                     - vec x col / vec (sk_diag m) col * coeffUpper m j col)
    /\ (forall j, (col < j)%Z -> vec x' j = vec x j).
Proof.
  intros Hcol Hx. unfold solve_backward_col. cbv zeta.
  rewrite (get_vec x col) by lia. cbn [bind]. unfold coeffDiag.
  rewrite (get_vec (sk_diag m) col) by (unfold sk_rows in *; lia).
  cbn [bind]. cbn [sdiv solve_reals RScalar].
  set (xcol := vec x col / vec (sk_diag m) col).
  destruct (set_in_range x col xcol) as [x1 E1]; [lia|].
  rewrite E1. cbn [bind]. rewrite (get_set_same _ _ _ _ E1). cbn [bind].
  pose proof (set_length _ _ _ _ E1) as L1.
  pose proof (upper_fits m m_well_formed m_row_major col ltac:(lia)) as HsU.
  pose proof (size_nonneg (sk_upper m) (it_begin col)) as HsU0.
  match goal with
  | |- context [while_loop ?cnt ?cond ?body ?s] =>
      destruct (while_loop_inv
                  (fun st : list R * Iter =>
                     it_outer (snd st) = col
                     /\ (-1 <= it_pos (snd st) < sizeU col)%Z
                     /\ Z.of_nat (length (fst st)) = sk_rows m
                     /\ forall j, (0 <= j)%Z ->
                          vec (fst st) j
                          = if ((col - sizeU col + it_pos (snd st) <? j)
                                && (j <? col))%Z
                            then vec x1 j - xcol * coeffUpper m j col
                            else vec x1 j)
                  (fun st : list R * Iter =>
                     Z.to_nat (it_pos (snd st) + 1))
                  cond body cnt s)
        as ([xs it] & -> & (Hout & Hpos & Hlen & Hval) & Hexit)
  end.
  - cbn [fst snd it_shift it_begin it_outer it_pos].
    split; [reflexivity|]. split; [lia|]. split; [lia|].
    intros j Hj.
    destruct (Z.ltb_spec (col - sizeU col + (0 + (sizeU col - 1))) j),
      (Z.ltb_spec j col); cbn [andb]; try reflexivity; lia.
  - cbn [fst snd]. unfold it_size, it_shift, it_begin.
    cbn [it_outer it_pos]. lia.
  - intros [xs [o p]] (Hout & Hpos & Hlen & Hval) Hcond.
    cbn [fst snd it_outer it_pos] in Hout, Hpos, Hlen, Hval. subst o.
    unfold it_valid in Hcond. cbn [it_pos] in Hcond.
    change (it_size (sk_upper m) {| it_outer := col; it_pos := p |})
      with (sizeU col) in Hcond.
    apply andb_true_iff in Hcond. destruct Hcond as [Hp0 Hp1].
    apply Z.leb_le in Hp0. apply Z.ltb_lt in Hp1.
    rewrite upper_row_at.
    set (r := (col - sizeU col + p)%Z).
    rewrite (get_vec xs r) by (unfold r; lia). cbn [bind].
    destruct (it_value_total (sk_upper m) {| it_outer := col; it_pos := p |})
      as [u Eu].
    { cbn [it_pos].
      change (it_size (sk_upper m) {| it_outer := col; it_pos := p |})
        with (sizeU col). lia. }
    rewrite Eu. cbn [bind].
    destruct (set_in_range xs r
                (ssub (vec xs r) (smul xcol u))) as [xs' E'];
      [unfold r; lia|].
    rewrite E'. cbn [bind]. eexists. split; [reflexivity|].
    cbn [fst snd it_shift it_outer it_pos]. split; [|lia].
    split; [reflexivity|]. split; [lia|].
    split; [rewrite (set_length _ _ _ _ E'); exact Hlen|].
    intros j Hj. rewrite (vec_set _ _ _ _ j E' Hj).
    assert (Eu' : coeffUpper m r col = u).
    { apply coeffUpper_value.
      replace (r - (col - sizeU col))%Z with p by (unfold r; lia).
      exact Eu. }
    destruct (Z.eqb_spec j r) as [->|Hne].
    + rewrite (Hval r ltac:(unfold r; lia)).
      destruct (Z.ltb_spec (col - sizeU col + p) r); [unfold r in *; lia|].
      destruct (Z.ltb_spec (col - sizeU col + (p + -1)) r);
        [|unfold r in *; lia].
      destruct (Z.ltb_spec r col); [|unfold r in *; lia].
      cbn [andb]. rewrite Eu'. cbn [ssub smul solve_reals RScalar]. lra.
    + rewrite (Hval j Hj).
      destruct (Z.ltb_spec (col - sizeU col + p) j),
        (Z.ltb_spec (col - sizeU col + (p + -1)) j),
        (Z.ltb_spec j col); cbn [andb]; try reflexivity;
        unfold r in *; lia.
  - cbn [fst snd] in Hout, Hpos, Hlen, Hval. cbn [bind].
    exists xs. split; [reflexivity|]. split; [exact Hlen|].
    assert (Hp : it_pos it = (-1)%Z).
    { unfold it_valid in Hexit.
      replace (it_size (sk_upper m) it) with (sizeU col) in Hexit
        by (unfold it_size; cbn; now rewrite Hout).
      apply andb_false_iff in Hexit. destruct Hexit as [E|E].
      - apply Z.leb_gt in E. lia.
      - apply Z.ltb_ge in E. lia. }
    rewrite Hp in Hval. split; [|split].
    + rewrite (Hval col ltac:(lia)).
      destruct (Z.ltb_spec col col); [lia|]. rewrite andb_false_r.
      rewrite (vec_set _ _ _ _ col E1) by lia. now rewrite Z.eqb_refl.
    + intros j Hj. rewrite (Hval j ltac:(lia)).
      rewrite (vec_set _ _ _ _ j E1) by lia.
      destruct (Z.eqb_spec j col); [lia|].
      destruct (Z.ltb_spec (col - sizeU col + -1) j), (Z.ltb_spec j col);
        cbn [andb]; try reflexivity; try lia.
      rewrite coeffUpper_outside by lia. lra.
    + intros j Hj. rewrite (Hval j ltac:(lia)).
      rewrite (vec_set _ _ _ _ j E1) by lia.
      destruct (Z.eqb_spec j col); [lia|].
      destruct (Z.ltb_spec j col); [lia|]. now rewrite andb_false_r.
Qed.

Lemma lower_times_ext (y y' : Z -> R) i :
  (forall j, (0 <= j <= i)%Z -> y j = y' j) ->
  (0 <= i)%Z -> lower_times m y i = lower_times m y' i.
Proof.
  intros E Hi. unfold lower_times. rewrite (E i) by lia. f_equal.
  apply sumZ_ext. intros j Hj. rewrite (E j) by lia. reflexivity.
Qed.

Lemma upper_times_ext (x x' : Z -> R) i :
  (forall k, (i <= k)%Z -> x k = x' k) ->
  upper_times m x i = upper_times m x' i.
Proof.
  intros E. unfold upper_times. rewrite (E i) by lia. f_equal.
  apply sumZ_ext. intros k Hk. rewrite (E k) by lia. reflexivity.
Qed.

(** The first loop leaves [y] with [L y = b]. *)
Lemma forward_exact b x :
  Z.of_nat (length b) = sk_rows m -> Z.of_nat (length x) = sk_rows m ->
  exists y,
    for_loop 0 (sk_rows m) (solve_forward_row m b) x = Some y
    /\ Z.of_nat (length y) = sk_rows m
    /\ forall i, (0 <= i < sk_rows m)%Z -> lower_times m (vec y) i = vec b i.
Proof.
  intros Hb Hx.
  destruct (for_loop_inv
              (fun k ys =>
                 Z.of_nat (length ys) = sk_rows m
                 /\ forall i, (0 <= i < k)%Z ->
                      lower_times m (vec ys) i = vec b i)
              0 (sk_rows m) (solve_forward_row m b) x)
    as (y & E & Hy & Hrows).
  - unfold sk_rows. lia.
  - split; [exact Hx|]. intros i Hi. lia.
  - intros k ys Hk [Hlen Hdone].
    destruct (forward_row_exact b k ys Hk Hb Hlen)
      as (ys' & E & Hlen' & Hother & Hk').
    exists ys'. split; [exact E|]. split; [exact Hlen'|].
    intros i Hi. destruct (Z.eq_dec i k) as [->|Hne].
    + unfold lower_times. rewrite Hk'.
      rewrite (sumZ_ext 0 k (fun j => coeffLower m k j * vec ys' j)
                 (fun j => coeffLower m k j * vec ys j)).
      * lra.
      * intros j Hj. rewrite Hother by lia. reflexivity.
    + rewrite <- (Hdone i) by lia. apply lower_times_ext; [|lia].
      intros j Hj. apply Hother; lia.
  - exists y. split; [exact E|]. split; [exact Hy|exact Hrows].
Qed.

(** The second loop and the last division leave [x] with [U x = y]. *)
Lemma backward_exact y :
  (1 <= sk_rows m)%Z ->
  Z.of_nat (length y) = sk_rows m ->
  (forall i, (0 <= i < sk_rows m)%Z -> vec (sk_diag m) i <> 0) ->
  exists x2 x,
    for_down (sk_rows m - 1) 0 (solve_backward_col m) y = Some x2
    /\ set x2 0 (vec x2 0 / vec (sk_diag m) 0) = Some x
    /\ Z.of_nat (length x) = sk_rows m
    /\ forall i, (0 <= i < sk_rows m)%Z -> upper_times m (vec x) i = vec y i.
Proof.
  intros Hn Hy Hdiag.
  destruct (for_down_inv
              (fun c xs =>
                 Z.of_nat (length xs) = sk_rows m
                 /\ (forall j, (c < j < sk_rows m)%Z ->
                       upper_times m (vec xs) j = vec y j)
                 /\ (forall j, (0 <= j <= c)%Z ->
                       vec xs j
                       = vec y j
                         - sumZ (c + 1) (sk_rows m)
                             (fun k => coeffUpper m j k * vec xs k)))
              (sk_rows m - 1) 0 (solve_backward_col m) y)
    as (x2 & E & Hlen & Hdone & Hrest).
  - lia.
  - split; [exact Hy|]. split; [intros j Hj; lia|].
    intros j Hj. rewrite sumZ_empty by lia. lra.
  - intros c xs Hc (Hlen & Hdone & Hrest).
    destruct (backward_col_exact c xs ltac:(lia) Hlen)
      as (xs' & E & Hlen' & Hc' & Hbelow & Habove).
    exists xs'. split; [exact E|]. split; [exact Hlen'|]. split.
    + intros j Hj. destruct (Z.eq_dec j c) as [->|Hne].
      * unfold upper_times. rewrite Hc'.
        rewrite (sumZ_ext (c + 1) (sk_rows m)
                   (fun k => coeffUpper m c k * vec xs' k)
                   (fun k => coeffUpper m c k * vec xs k))
          by (intros k Hk; rewrite Habove by lia; reflexivity).
        rewrite (Hrest c ltac:(lia)).
        field. apply Hdiag. lia.
      * rewrite <- (Hdone j) by lia. apply upper_times_ext.
        intros k Hk. apply Habove. lia.
    + intros j Hj. rewrite (Hbelow j) by lia.
      rewrite (Hrest j) by lia.
      replace (c - 1 + 1)%Z with c by lia.
      rewrite (sumZ_first c (sk_rows m)) by lia. rewrite Hc'.
      rewrite (sumZ_ext (c + 1) (sk_rows m)
                 (fun k => coeffUpper m j k * vec xs' k)
                 (fun k => coeffUpper m j k * vec xs k))
        by (intros k Hk; rewrite Habove by lia; reflexivity).
      lra.
  - destruct (set_in_range x2 0 (vec x2 0 / vec (sk_diag m) 0))
      as [x E']; [lia|].
    exists x2, x. split; [exact E|]. split; [exact E'|].
    split; [rewrite (set_length _ _ _ _ E'); exact Hlen|].
    intros i Hi. destruct (Z.eq_dec i 0) as [->|Hne].
    + unfold upper_times. rewrite (vec_set _ _ _ _ 0 E') by lia.
      rewrite Z.eqb_refl.
      rewrite (sumZ_ext (0 + 1) (sk_rows m)
                 (fun k => coeffUpper m 0 k * vec x k)
                 (fun k => coeffUpper m 0 k * vec x2 k)).
      * rewrite (Hrest 0%Z ltac:(lia)). field. apply Hdiag. lia.
      * intros k Hk. rewrite (vec_set _ _ _ _ k E') by lia.
        destruct (Z.eqb_spec k 0); [lia|reflexivity].
    + rewrite <- (Hdone i) by lia. apply upper_times_ext.
      intros k Hk. rewrite (vec_set _ _ _ _ k E') by lia.
      destruct (Z.eqb_spec k 0); [lia|reflexivity].
Qed.

Lemma solve_exact (lu : SkylineInplaceLU) b x0 transposed :
  m_lu lu = m ->
  (1 <= sk_rows m)%Z ->
  Z.of_nat (length b) = sk_rows m -> Z.of_nat (length x0) = sk_rows m ->
  (forall i, (0 <= i < sk_rows m)%Z -> vec (sk_diag m) i <> 0) ->
  exists x,
    solve lu b x0 transposed = Some (x, true)
    /\ Z.of_nat (length x) = sk_rows m
    /\ forall i, (0 <= i < sk_rows m)%Z ->
         lower_times m (upper_times m (vec x)) i = vec b i.
Proof.
  intros Hlu Hn Hb Hx Hdiag. unfold solve. rewrite Hlu. cbv zeta.
  destruct (forward_exact b x0 Hb Hx) as (y & -> & Hy & HL). cbn [bind].
  destruct (backward_exact y Hn Hy Hdiag) as (x2 & x & -> & E & Hlen & HU).
  cbn [bind].
  pose proof (set_Some_range _ _ _ _ E) as Hr.
  rewrite (get_vec x2 0) by lia. cbn [bind]. unfold coeffDiag.
  rewrite (get_vec (sk_diag m) 0) by (unfold sk_rows in *; lia).
  cbn [bind]. cbn [sdiv solve_reals RScalar]. rewrite E. cbn [bind].
  exists x. split; [reflexivity|]. split; [exact Hlen|].
  intros i Hi. rewrite <- (HL i Hi). apply lower_times_ext; [|lia].
  intros j Hj. apply HU. lia.
Qed.
End SolveExact.

Section Entries.
Context {S : Type} `{Scalar S}.
Local Abbreviation SkylineInplaceLU := (@SkylineInplaceLU S).

(** X19. The factorization works in place: [compute] and [computeRowMajor]
    leave the orientation, the size and the size of every profile of the
    matrix as they were, and change none of [m_precision], [m_flags] and
    [m_status]. *)
Theorem factorization_keeps_the_structure (lu lu' : SkylineInplaceLU) :
  compute lu = Some lu' \/ computeRowMajor lu = Some lu' ->
  shape (m_lu lu') = shape (m_lu lu)
  /\ m_precision lu' = m_precision lu
  /\ m_flags lu' = m_flags lu
  /\ m_status lu' = m_status lu.
Proof. exact (compute_keeps lu lu'). Qed.

(** X20. The column-major [compute] reads, for every pivot [o], the lower
    and the upper iterator of [o] once per row below [o]: it returns only
    if both profiles of every index [o] have at least [rows - o - 1]
    entries, that is on a matrix with full profiles. *)
Theorem compute_needs_full_profiles (lu lu' : SkylineInplaceLU) o :
  compute lu = Some lu' ->
  0 <= o < sk_rows (m_lu lu) ->
  sk_rows (m_lu lu) - o - 1 <= it_size (sk_lower (m_lu lu)) (it_begin o)
  /\ sk_rows (m_lu lu) - o - 1 <= it_size (sk_upper (m_lu lu)) (it_begin o).
Proof. exact (compute_reads lu lu' o). Qed.

(** X21. [computeRowMajor] never leaves the profiles: on every well-formed
    row-major matrix, whatever its profiles and its values, it returns. *)
Theorem computeRowMajor_stays_in_the_profiles (lu : SkylineInplaceLU) :
  well_formed (m_lu lu) -> IsRowMajor (m_lu lu) = true ->
  exists lu', computeRowMajor lu = Some lu'.
Proof. exact (computeRowMajor_total lu). Qed.

(** X22. [solve] writes every entry of [x] before it reads it, and never
    looks at [transposed]: two calls that differ by the content of [x] (of
    at most [rows] entries) and by [transposed] give the same result. *)
Theorem solve_overwrites_x (lu : SkylineInplaceLU) b x x'
    transposed transposed' :
  length x = length x' ->
  Z.of_nat (length x) <= sk_rows (m_lu lu) ->
  solve lu b x transposed = solve lu b x' transposed'.
Proof. exact (solve_initial_x lu b x x' transposed transposed'). Qed.
End Entries.

Section ExactEntries.
Variables eps prec : R.
Local Open Scope R_scope.

(** X23. On row-major storage and in exact arithmetic [solve] is right:
    for a well-formed matrix whose diagonal has no zero, it leaves in [x]
    the solution of [L (U x) = b], where L has the stored lower entries
    and a unit diagonal and U the stored diagonal and upper entries. *)
Theorem solve_row_major_solves_LU (lu : @SkylineInplaceLU R) b x0
    transposed :
  well_formed (m_lu lu) -> IsRowMajor (m_lu lu) = true ->
  (1 <= sk_rows (m_lu lu))%Z ->
  Z.of_nat (length b) = sk_rows (m_lu lu) ->
  Z.of_nat (length x0) = sk_rows (m_lu lu) ->
  (forall i, (0 <= i < sk_rows (m_lu lu))%Z ->
     vec (sk_diag (m_lu lu)) i <> 0) ->
  exists x,
    solve (H := solve_reals eps prec) lu b x0 transposed = Some (x, true)
    /\ Z.of_nat (length x) = sk_rows (m_lu lu)
    /\ forall i, (0 <= i < sk_rows (m_lu lu))%Z ->
         lower_times eps prec (m_lu lu)
           (upper_times eps prec (m_lu lu) (vec x)) i = vec b i.
Proof.
  intros Hwf Hrm.
  exact (solve_exact eps prec (m_lu lu) Hwf Hrm lu b x0 transposed eq_refl).
Qed.
End ExactEntries.
End SkylineMore.

Module SkylineMoreExamples.
Import Skyline SkylineFacts SkylineExamples SkylineMore.

Lemma factorization_keeps_the_structure_witness :
  exists lu',
    computeRowMajor (H := FScalar) A3_object = Some lu'
    /\ shape (m_lu lu') = shape A3
    /\ m_precision lu' = m_precision A3_object
    /\ m_flags lu' = m_flags A3_object
    /\ m_status lu' = m_status A3_object.
Proof.
  destruct (computeRowMajor (H := FScalar) A3_object) as [lu'|] eqn:E;
    [|vm_compute in E; discriminate].
  exists lu'. split; [reflexivity|].
  exact (factorization_keeps_the_structure (H := FScalar) A3_object lu'
           (or_intror E)).
Defined.

(** A column-major 2x2 matrix on binary64 with full profiles:
    [[2 1] [1 2]]. *)
Definition B2f : @SkylineMatrix float :=
  {| IsRowMajor := false;
     sk_diag := [2; 2]%float;
     sk_lower := [[1]; []]%float;
     sk_upper := [[1]; []]%float |}.

Definition B2f_object : @SkylineInplaceLU float :=
  {| m_precision := 0%float; m_flags := 0; m_status := 0;
     m_succeeded := None; m_lu := B2f |}.

Lemma compute_needs_full_profiles_witness :
  exists lu',
    compute (H := FScalar) B2f_object = Some lu'
    /\ 2 - 0 - 1 <= it_size (sk_lower B2f) (it_begin 0)
    /\ 2 - 0 - 1 <= it_size (sk_upper B2f) (it_begin 0).
Proof.
  destruct (compute (H := FScalar) B2f_object) as [lu'|] eqn:E;
    [|vm_compute in E; discriminate].
  exists lu'. split; [reflexivity|].
  apply (compute_needs_full_profiles (H := FScalar) B2f_object lu' 0 E).
  cbn. lia.
Defined.

Lemma computeRowMajor_stays_in_the_profiles_witness :
  exists lu', computeRowMajor (H := FScalar) A3_object = Some lu'.
Proof.
  apply (computeRowMajor_stays_in_the_profiles (H := FScalar) A3_object);
    [exact A3_well_formed|reflexivity].
Defined.

Lemma solve_overwrites_x_witness :
  solve (H := FScalar) A3_object [12; 14; 22]%float [0; 0; 0]%float 0
  = solve (H := FScalar) A3_object [12; 14; 22]%float [7; 8; 9]%float 1.
Proof.
  apply (solve_overwrites_x (H := FScalar)); [reflexivity|cbn; lia].
Defined.

(** The factors of [[2 1] [1 2]] in row-major storage:
    L = [[1 0] [1/2 1]] and U = [[2 1] [0 3/2]]. *)
Definition C2 : @SkylineMatrix R :=
  {| IsRowMajor := true;
     sk_diag := [2; 3 / 2]%R;
     sk_lower := [[]; [1 / 2]]%R;
     sk_upper := [[]; [1]]%R |}.

Definition C2_object : @SkylineInplaceLU R :=
  {| m_precision := 0%R; m_flags := 0; m_status := 0;
     m_succeeded := None; m_lu := C2 |}.

Lemma C2_well_formed : well_formed C2.
Proof.
  repeat split; try reflexivity; intros o p G;
    pose proof (get_Some_range _ _ _ G) as Ho; cbn in Ho;
    assert (o = 0 \/ o = 1) as [->| ->] by lia;
    cbn in G; injection G as <-; cbn; lia.
Qed.

Lemma C2_diagonal i : 0 <= i < sk_rows C2 -> vec (sk_diag C2) i <> 0%R.
Proof.
  intros Hi. cbn in Hi. assert (i = 0 \/ i = 1) as [->| ->] by lia;
    keep_reals; intros E; lra.
Qed.

Lemma solve_row_major_solves_LU_witness :
  exists x,
    solve (H := RDouble) C2_object [2; 1]%R [0; 0]%R 0 = Some (x, true)
    /\ Z.of_nat (length x) = sk_rows C2
    /\ forall i, 0 <= i < sk_rows C2 ->
         lower_times eps_double prec_double C2
           (upper_times eps_double prec_double C2 (vec x)) i
         = vec [2; 1]%R i.
Proof.
  apply (solve_row_major_solves_LU eps_double prec_double C2_object
           [2; 1]%R [0; 0]%R 0).
  - exact C2_well_formed.
  - reflexivity.
  - cbn. lia.
  - reflexivity.
  - reflexivity.
  - exact C2_diagonal.
Defined.
End SkylineMoreExamples.

(* ================================================================= *)
(** ** The row-major factorization, in exact arithmetic *)

Module SkylineFactor.
Import Skyline SkylineFacts SkylineMore.

Section Writes.
Context {S : Type} `{Scalar S}.
Local Abbreviation SkylineMatrix := (@SkylineMatrix S).

(** What an iterator reads after a write through another one. *)
Lemma it_value_it_set (store store' : list (list S)) it0 a it :
  it_set store it0 a = Some store' ->
  it_value store' it
  = if (it_outer it =? it_outer it0) && (it_pos it =? it_pos it0)
    then Some a else it_value store it.
Proof.
  unfold it_set, it_value.
  destruct (get store (it_outer it0)) as [p|] eqn:G; cbn [bind];
    [|discriminate].
  destruct (set p (it_pos it0) a) as [p'|] eqn:E; cbn [bind];
    [|discriminate].
  intros E'.
  destruct (Z.eqb_spec (it_outer it) (it_outer it0)) as [Eo|Eo]; cbn [andb].
  - rewrite Eo, (get_set_same _ _ _ _ E'), G. cbn [bind].
    destruct (Z.eqb_spec (it_pos it) (it_pos it0)) as [Ep|Ep].
    + rewrite Ep. exact (get_set_same _ _ _ _ E).
    + exact (get_set_other _ _ _ _ _ E Ep).
  - now rewrite (get_set_other _ _ _ _ _ E' Eo).
Qed.

Lemma coeffLower_setLower (u u' : SkylineMatrix) r c a i j :
  IsRowMajor u = true -> setLower u r c a = Some u' ->
  coeffLower u' i j
  = if (i =? r) && (j =? c) then a else coeffLower u i j.
Proof.
  intros Hrm. unfold setLower.
  destruct (it_set _ _ _) as [l|] eqn:E; cbn [bind]; [|discriminate].
  intros E'. injection E' as <-. unfold coeffLower, lower_at in *.
  cbn [IsRowMajor with_lower sk_lower]. rewrite Hrm in *.
  rewrite (it_size_shape l (sk_lower u) (it_begin i)
             (it_set_shape _ _ _ _ E)).
  rewrite (it_value_it_set _ _ _ _ _ E). cbn [it_outer it_pos].
  destruct (Z.eqb_spec i r) as [->|Hi]; cbn [andb]; [|reflexivity].
  destruct (Z.eqb_spec j c) as [->|Hj].
  - now rewrite Z.eqb_refl.
  - destruct (Z.eqb_spec
                (j - (r - it_size (sk_lower u) (it_begin r)))
                (c - (r - it_size (sk_lower u) (it_begin r))));
      [lia|reflexivity].
Qed.

Lemma coeffUpper_setUpper (u u' : SkylineMatrix) r c a i j :
  IsRowMajor u = true -> setUpper u r c a = Some u' ->
  coeffUpper u' i j
  = if (i =? r) && (j =? c) then a else coeffUpper u i j.
Proof.
  intros Hrm. unfold setUpper.
  destruct (it_set _ _ _) as [l|] eqn:E; cbn [bind]; [|discriminate].
  intros E'. injection E' as <-. unfold coeffUpper, upper_at in *.
  cbn [IsRowMajor with_upper sk_upper]. rewrite Hrm in *.
  rewrite (it_size_shape l (sk_upper u) (it_begin j)
             (it_set_shape _ _ _ _ E)).
  rewrite (it_value_it_set _ _ _ _ _ E). cbn [it_outer it_pos].
  destruct (Z.eqb_spec j c) as [->|Hj]; cbn [andb].
  - destruct (Z.eqb_spec i r) as [->|Hi].
    + now rewrite Z.eqb_refl.
    + destruct (Z.eqb_spec
                  (i - (c - it_size (sk_upper u) (it_begin c)))
                  (r - (c - it_size (sk_upper u) (it_begin c))));
        [lia|reflexivity].
  - now rewrite andb_false_r.
Qed.

Lemma setLower_others (u u' : SkylineMatrix) r c a :
  setLower u r c a = Some u' ->
  sk_upper u' = sk_upper u /\ sk_diag u' = sk_diag u
  /\ IsRowMajor u' = IsRowMajor u.
Proof.
  unfold setLower. destruct (it_set _ _ _); cbn [bind]; [|discriminate].
  intros E. injection E as <-. repeat split.
Qed.

Lemma setUpper_others (u u' : SkylineMatrix) r c a :
  setUpper u r c a = Some u' ->
  sk_lower u' = sk_lower u /\ sk_diag u' = sk_diag u
  /\ IsRowMajor u' = IsRowMajor u.
Proof.
  unfold setUpper. destruct (it_set _ _ _); cbn [bind]; [|discriminate].
  intros E. injection E as <-. repeat split.
Qed.

Lemma setDiag_others (u u' : SkylineMatrix) i a :
  setDiag u i a = Some u' ->
  sk_lower u' = sk_lower u /\ sk_upper u' = sk_upper u
  /\ IsRowMajor u' = IsRowMajor u /\ set (sk_diag u) i a = Some (sk_diag u').
Proof.
  unfold setDiag. destruct (set _ _ _) as [d|] eqn:E; cbn [bind];
    [|discriminate].
  intros E'. injection E' as <-. repeat split.
Qed.

(** The coefficient accessors read the orientation and one store. *)
Lemma coeffLower_same (u u' : SkylineMatrix) i j :
  sk_lower u' = sk_lower u -> IsRowMajor u' = IsRowMajor u ->
  coeffLower u' i j = coeffLower u i j.
Proof.
  intros El Er. unfold coeffLower, lower_at. now rewrite El, Er.
Qed.

Lemma coeffUpper_same (u u' : SkylineMatrix) i j :
  sk_upper u' = sk_upper u -> IsRowMajor u' = IsRowMajor u ->
  coeffUpper u' i j = coeffUpper u i j.
Proof.
  intros El Er. unfold coeffUpper, upper_at. now rewrite El, Er.
Qed.

Lemma lower_value_at (t : SkylineMatrix) row col l :
  IsRowMajor t = true ->
  it_value (sk_lower t)
    {| it_outer := row;
       it_pos := col - (row - it_size (sk_lower t) (it_begin row)) |}
  = Some l ->
  coeffLower t row col = l.
Proof.
  intros Hrm E. unfold coeffLower, lower_at. now rewrite Hrm, E.
Qed.

Lemma upper_value_at (t : SkylineMatrix) row col u :
  IsRowMajor t = true ->
  it_value (sk_upper t)
    {| it_outer := col;
       it_pos := row - (col - it_size (sk_upper t) (it_begin col)) |}
  = Some u ->
  coeffUpper t row col = u.
Proof.
  intros Hrm E. unfold coeffUpper, upper_at. now rewrite Hrm, E.
Qed.

Lemma lower_outside (t : SkylineMatrix) row col :
  IsRowMajor t = true ->
  col < row - it_size (sk_lower t) (it_begin row) ->
  coeffLower t row col = zero.
Proof.
  intros Hrm Hc. unfold coeffLower, lower_at, it_value. rewrite Hrm.
  cbn [it_outer it_pos].
  destruct (get (sk_lower t) row); cbn [bind]; [|reflexivity].
  unfold get.
  destruct (Z.ltb_spec
              (col - (row - it_size (sk_lower t) (it_begin row))) 0);
    [reflexivity|lia].
Qed.

Lemma upper_outside (t : SkylineMatrix) row col :
  IsRowMajor t = true ->
  row < col - it_size (sk_upper t) (it_begin col) ->
  coeffUpper t row col = zero.
Proof.
  intros Hrm Hc. unfold coeffUpper, upper_at, it_value. rewrite Hrm.
  cbn [it_outer it_pos].
  destruct (get (sk_upper t) col); cbn [bind]; [|reflexivity].
  unfold get.
  destruct (Z.ltb_spec
              (row - (col - it_size (sk_upper t) (it_begin col))) 0);
    [reflexivity|lia].
Qed.
End Writes.

Section Exact.
Variables eps prec : R.
#[local] Instance factor_reals : Scalar R := RScalar eps prec.
Local Open Scope R_scope.
Local Abbreviation SkylineMatrix := (@SkylineMatrix R).
Local Abbreviation SkylineInplaceLU := (@SkylineInplaceLU R).

(** The product of the two profiles is the sum of [L(lo,k) U(k,uo)] over
    the indices [k] both profiles hold, from the later of their two starts
    on. *)
Lemma profile_dot_exact (t : SkylineMatrix) lo uo stop c :
  IsRowMajor t = true ->
  let lcol := (lo - it_size (sk_lower t) (it_begin lo))%Z in
  let urow := (uo - it_size (sk_upper t) (it_begin uo))%Z in
  let s := Z.max lcol urow in
  (0 <= stop)%Z -> (s + stop <= lo)%Z -> (s + stop <= uo)%Z ->
  profile_dot t (it_begin lo) (it_begin uo) (lcol - urow) stop c
  = Some (c - sumZ s (s + stop)
                (fun k => coeffLower t lo k * coeffUpper t k uo)).
Proof.
  intros Hrm lcol urow s Hstop Hlo Huo. unfold profile_dot.
  set (lIt := if (lcol - urow >? 0)%Z then it_begin lo
              else it_shift (it_begin lo) (- (lcol - urow))).
  set (uIt := if (lcol - urow >? 0)%Z
              then it_shift (it_begin uo) (lcol - urow)
              else it_begin uo).
  assert (HlIt : lIt = {| it_outer := lo; it_pos := (s - lcol)%Z |}).
  { unfold lIt, s. destruct (Z.gtb_spec (lcol - urow) 0);
      unfold it_begin, it_shift; cbn; f_equal; lia. }
  assert (HuIt : uIt = {| it_outer := uo; it_pos := (s - urow)%Z |}).
  { unfold uIt, s. destruct (Z.gtb_spec (lcol - urow) 0);
      unfold it_begin, it_shift; cbn; f_equal; lia. }
  rewrite HlIt, HuIt. clear HlIt HuIt lIt uIt.
  assert (Hs : (lcol <= s /\ urow <= s)%Z) by (unfold s; lia).
  match goal with
  | |- context [for_loop 0 stop ?body ?init] =>
      destruct (for_loop_inv
                  (fun k (st : R * (Iter * Iter)) =>
                     fst (snd st)
                     = {| it_outer := lo; it_pos := (s - lcol + k)%Z |}
                     /\ snd (snd st)
                        = {| it_outer := uo; it_pos := (s - urow + k)%Z |}
                     /\ fst st
                        = c - sumZ s (s + k)
                                (fun k => coeffLower t lo k
                                          * coeffUpper t k uo))
                  0 stop body init) as ([r [l u]] & -> & _ & _ & Hr)
  end.
  - exact Hstop.
  - cbn [fst snd]. split; [f_equal; lia|]. split; [f_equal; lia|].
    rewrite sumZ_empty by lia. lra.
  - intros k [nc [l u]] Hk (El & Eu & Enc). cbn [fst snd] in El, Eu, Enc.
    subst l u.
    destruct (it_value_total (sk_lower t)
                {| it_outer := lo; it_pos := (s - lcol + k)%Z |})
      as [a Ea].
    { cbn [it_pos].
      change (it_size (sk_lower t) {| it_outer := lo; it_pos := _ |})
        with (it_size (sk_lower t) (it_begin lo)). unfold lcol in *. lia. }
    destruct (it_value_total (sk_upper t)
                {| it_outer := uo; it_pos := (s - urow + k)%Z |})
      as [b Eb].
    { cbn [it_pos].
      change (it_size (sk_upper t) {| it_outer := uo; it_pos := _ |})
        with (it_size (sk_upper t) (it_begin uo)). unfold urow in *. lia. }
    rewrite Ea, Eb. cbn [bind]. eexists. split; [reflexivity|].
    cbn [fst snd]. split; [unfold it_shift; cbn; f_equal; lia|].
    split; [unfold it_shift; cbn; f_equal; lia|].
    rewrite (sumZ_last s (s + (k + 1))) by lia.
    replace (s + (k + 1) - 1)%Z with (s + k)%Z by lia.
    rewrite (lower_value_at t lo (s + k) a Hrm).
    2:{ rewrite <- Ea. do 2 f_equal. unfold lcol. lia. }
    rewrite (upper_value_at t (s + k) uo b Hrm).
    2:{ rewrite <- Eb. do 2 f_equal. unfold urow. lia. }
    rewrite Enc. cbn [ssub smul factor_reals RScalar]. lra.
  - cbn [option_map fst]. cbn [fst] in Hr. now rewrite Hr.
Qed.

(** The sum of [L(i,k) U(k,j)] over [k < bound], read from the storage. *)
Definition products (t : SkylineMatrix) (i j bound : Z) : R :=
  sumZ 0 bound (fun k => coeffLower t i k * coeffUpper t k j).

Lemma products_ext (u u' : SkylineMatrix) i j bound :
  (forall k, (0 <= k < bound)%Z -> coeffLower u' i k = coeffLower u i k) ->
  (forall k, (0 <= k < bound)%Z -> coeffUpper u' k j = coeffUpper u k j) ->
  products u' i j bound = products u i j bound.
Proof.
  intros El Eu. apply sumZ_ext. intros k Hk.
  now rewrite (El k Hk), (Eu k Hk).
Qed.

Variable m0 : SkylineMatrix.
Hypothesis m0_well_formed : well_formed m0.
Hypothesis m0_row_major : IsRowMajor m0 = true.

Local Abbreviation sizeL o := (it_size (sk_lower m0) (it_begin o)).
Local Abbreviation sizeU o := (it_size (sk_upper m0) (it_begin o)).

Section State.
Variable u : SkylineMatrix.
Hypothesis u_shape : shape u = shape m0.

Lemma u_row_major : IsRowMajor u = true.
Proof. exact (t_row_major m0 m0_row_major u u_shape). Qed.

Lemma u_sizeL o : it_size (sk_lower u) (it_begin o) = sizeL o.
Proof. exact (shape_lower m0 u (it_begin o) u_shape). Qed.

Lemma u_sizeU o : it_size (sk_upper u) (it_begin o) = sizeU o.
Proof. exact (shape_upper m0 u (it_begin o) u_shape). Qed.

Lemma u_lower_outside i k : (k < i - sizeL i)%Z -> coeffLower u i k = 0.
Proof.
  intros Hk. change (coeffLower u i k = @zero R factor_reals).
  apply (lower_outside (H := factor_reals) u i k u_row_major).
  now rewrite u_sizeL.
Qed.

Lemma u_upper_outside k j : (k < j - sizeU j)%Z -> coeffUpper u k j = 0.
Proof.
  intros Hk. change (coeffUpper u k j = @zero R factor_reals).
  apply (upper_outside (H := factor_reals) u k j u_row_major).
  now rewrite u_sizeU.
Qed.

(** The terms before the start of either profile are zero. *)
Lemma products_skip i j bound :
  (Z.max (i - sizeL i) (j - sizeU j) <= bound)%Z ->
  (0 <= i)%Z -> (0 <= j)%Z ->
  sumZ (Z.max (i - sizeL i) (j - sizeU j)) bound
    (fun k => coeffLower u i k * coeffUpper u k j)
  = products u i j bound.
Proof.
  intros Hb Hi Hj. unfold products.
  pose proof (lower_fits m0 m0_well_formed m0_row_major i Hi).
  pose proof (upper_fits m0 m0_well_formed m0_row_major j Hj).
  rewrite (sumZ_cut 0 (Z.max (i - sizeL i) (j - sizeU j)) bound) by lia.
  rewrite (sumZ_zeros 0 (Z.max (i - sizeL i) (j - sizeU j))); [lra|].
  intros k Hk.
  destruct (Z.lt_ge_cases k (i - sizeL i)) as [Hl|Hl].
  - rewrite u_lower_outside by exact Hl. lra.
  - rewrite u_upper_outside by lia. lra.
Qed.

(** What the three products of a row compute. *)
Lemma profile_dot_products i j bound stop c :
  (0 <= i)%Z -> (0 <= j)%Z -> (bound <= i)%Z -> (bound <= j)%Z ->
  (i - sizeL i <= bound)%Z -> (j - sizeU j <= bound)%Z ->
  stop = (bound - Z.max (i - sizeL i) (j - sizeU j))%Z ->
  profile_dot u (it_begin i) (it_begin j)
    (lower_col u (it_begin i) - upper_row u (it_begin j)) stop c
  = Some (c - products u i j bound).
Proof.
  intros Hi Hj Hbi Hbj Hli Huj ->.
  rewrite (lower_col_begin m0 m0_row_major u u_shape).
  rewrite (upper_row_begin m0 m0_row_major u u_shape).
  pose proof (profile_dot_exact u i j
                (bound - Z.max (i - sizeL i) (j - sizeU j)) c u_row_major)
    as E.
  cbv zeta in E. rewrite !u_sizeL, !u_sizeU in E.
  rewrite E by lia.
  replace (Z.max (i - sizeL i) (j - sizeU j)
           + (bound - Z.max (i - sizeL i) (j - sizeU j)))%Z
    with bound by lia.
  rewrite products_skip by lia. reflexivity.
Qed.
End State.

(** One turn of the loop over the rows: the row [r] of L, the column [r]
    of U and the pivot [r], from the rows and columns before them. *)
Lemma computeRowMajor_row_exact r (t : SkylineMatrix) :
  shape t = shape m0 -> (0 <= r < sk_rows m0)%Z ->
  exists t',
    computeRowMajor_row r t = Some t'
    /\ shape t' = shape m0
    /\ (forall i j, i <> r -> coeffLower t' i j = coeffLower t i j)
    /\ (forall i j, j <> r -> coeffUpper t' i j = coeffUpper t i j)
    /\ (forall i, (0 <= i)%Z -> i <> r ->
          vec (sk_diag t') i = vec (sk_diag t) i)
    /\ (forall j, (0 <= j < r)%Z ->
          coeffLower t' r j
          = (coeffLower t r j - products t' r j j) / vec (sk_diag t') j)
    /\ (forall i, (0 <= i < r)%Z ->
          coeffUpper t' i r = coeffUpper t i r - products t' i r i)
    /\ vec (sk_diag t') r = vec (sk_diag t) r - products t' r r r.
Proof.
  intros Ht Hr. unfold computeRowMajor_row. cbv zeta.
  pose proof (lower_fits m0 m0_well_formed m0_row_major r ltac:(lia)) as HLr.
  pose proof (upper_fits m0 m0_well_formed m0_row_major r ltac:(lia)) as HUr.
  pose proof (size_nonneg (sk_lower m0) (it_begin r)) as HLr0.
  pose proof (size_nonneg (sk_upper m0) (it_begin r)) as HUr0.
  pose proof (shape_rows m0 t Ht) as Hrows. unfold sk_rows in Hrows.
  pose proof Hr as Hr'. unfold sk_rows in Hr'.
  rewrite (lower_col_begin m0 m0_row_major t Ht).
  (* the row of L *)
  match goal with
  | |- context [for_loop ?lo ?hi ?body t] =>
      destruct (for_loop_inv
                  (fun col u =>
                     shape u = shape m0
                     /\ sk_upper u = sk_upper t
                     /\ sk_diag u = sk_diag t
                     /\ (forall i j, i <> r ->
                           coeffLower u i j = coeffLower t i j)
                     /\ (forall j, (col <= j)%Z ->
                           coeffLower u r j = coeffLower t r j)
                     /\ (forall j, (r - sizeL r <= j < col)%Z ->
                           coeffLower u r j
                           = (coeffLower t r j - products u r j j)
                             / vec (sk_diag t) j))
                  lo hi body t)
        as (t1 & -> & Ht1 & U1 & D1 & Hother1 & _ & Hdone1)
  end.
  - lia.
  - split; [exact Ht|]. do 4 (split; [reflexivity|]). intros j Hj. lia.
  - intros col u Hcol (Hu & HuU & HuD & Hother & Hrest & Hdone).
    cbv beta.
    assert (Hex : coeffExistLower u r col = true).
    { unfold coeffExistLower, it_valid.
      destruct (lower_at_valid m0 m0_row_major u Hu r col ltac:(lia))
        as [Hp0 Hp1].
      apply andb_true_iff. split; [apply Z.leb_le|apply Z.ltb_lt];
        assumption. }
    rewrite Hex. unfold coeffDiag. rewrite HuD.
    rewrite (get_vec (sk_diag t) col) by lia. cbn [bind].
    pose proof (upper_fits m0 m0_well_formed m0_row_major col ltac:(lia))
      as HUc.
    pose proof (size_nonneg (sk_upper m0) (it_begin col)) as HUc0.
    rewrite (profile_dot_products u Hu r col col); try lia.
    2:{ rewrite (lower_col_begin m0 m0_row_major u Hu).
        rewrite (upper_row_begin m0 m0_row_major u Hu).
        match goal with
        | |- context [(?a >? 0)%Z] => destruct (Z.gtb_spec a 0)
        end; lia. }
    cbn [bind].
    match goal with
    | |- context [setLower u r col ?v] =>
        destruct (setLower_total m0 m0_row_major u Hu r col v ltac:(lia))
          as (u' & Eset & Hu')
    end.
    rewrite Eset. exists u'. split; [reflexivity|].
    destruct (setLower_others _ _ _ _ _ Eset) as (EU & ED & ER).
    pose proof (fun i j =>
                  coeffLower_setLower u u' r col _ i j
                    (u_row_major u Hu) Eset) as Hread.
    split; [exact Hu'|]. split; [now rewrite EU|]. split; [now rewrite ED|].
    split; [|split].
    + intros i j Hi. rewrite Hread.
      destruct (Z.eqb_spec i r); [contradiction|]. cbn [andb].
      now apply Hother.
    + intros j Hj. rewrite Hread, Z.eqb_refl.
      destruct (Z.eqb_spec j col); [lia|]. cbn [andb]. apply Hrest. lia.
    + intros j Hj.
      assert (Hprod : products u' r j j = products u r j j).
      { apply products_ext.
        - intros k Hk. rewrite Hread, Z.eqb_refl.
          destruct (Z.eqb_spec k col); [lia|reflexivity].
        - intros k Hk. now apply coeffUpper_same. }
      rewrite Hread, Z.eqb_refl, Hprod.
      destruct (Z.eqb_spec j col) as [->|Hne]; cbn [andb].
      * rewrite (Hrest col) by lia. reflexivity.
      * apply Hdone. lia.
  - cbn [bind].
    (* the column of U *)
    rewrite (upper_row_begin m0 m0_row_major t1 Ht1).
    match goal with
    | |- context [for_loop ?lo ?hi ?body t1] =>
        destruct (for_loop_inv
                    (fun rrow u =>
                       shape u = shape m0
                       /\ sk_lower u = sk_lower t1
                       /\ sk_diag u = sk_diag t1
                       /\ (forall i j, j <> r ->
                             coeffUpper u i j = coeffUpper t1 i j)
                       /\ (forall i, (rrow <= i)%Z ->
                             coeffUpper u i r = coeffUpper t1 i r)
                       /\ (forall i, (r - sizeU r <= i < rrow)%Z ->
                             coeffUpper u i r
                             = coeffUpper t1 i r - products u i r i))
                    lo hi body t1)
          as (t2 & -> & Ht2 & L2 & D2 & Hother2 & _ & Hdone2)
    end.
    + lia.
    + split; [exact Ht1|]. do 4 (split; [reflexivity|]). intros i Hi. lia.
    + intros rrow u Hrrow (Hu & HuL & HuD & Hother & Hrest & Hdone).
      cbv beta.
      pose proof (lower_fits m0 m0_well_formed m0_row_major rrow
                    ltac:(lia)) as HLc.
      pose proof (size_nonneg (sk_lower m0) (it_begin rrow)) as HLc0.
      rewrite (profile_dot_products u Hu rrow r rrow); try lia.
      2:{ rewrite (lower_col_begin m0 m0_row_major u Hu).
          rewrite (upper_row_begin m0 m0_row_major u Hu).
          match goal with
          | |- context [(?a >? 0)%Z] => destruct (Z.gtb_spec a 0)
          end; lia. }
      cbn [bind].
      match goal with
      | |- context [setUpper u rrow r ?v] =>
          destruct (setUpper_total m0 m0_row_major u Hu rrow r v
                      ltac:(lia)) as (u' & Eset & Hu')
      end.
      rewrite Eset. exists u'. split; [reflexivity|].
      destruct (setUpper_others _ _ _ _ _ Eset) as (EL & ED & ER).
      pose proof (fun i j =>
                    coeffUpper_setUpper u u' rrow r _ i j
                      (u_row_major u Hu) Eset) as Hread.
      split; [exact Hu'|]. split; [now rewrite EL|].
      split; [now rewrite ED|]. split; [|split].
      * intros i j Hj. rewrite Hread.
        destruct (Z.eqb_spec j r); [contradiction|].
        rewrite andb_false_r. now apply Hother.
      * intros i Hi. rewrite Hread, Z.eqb_refl.
        destruct (Z.eqb_spec i rrow); [lia|]. cbn [andb]. apply Hrest. lia.
      * intros i Hi.
        assert (Hprod : products u' i r i = products u i r i).
        { apply products_ext.
          - intros k Hk. now apply coeffLower_same.
          - intros k Hk. rewrite Hread, Z.eqb_refl.
            destruct (Z.eqb_spec k rrow); [lia|reflexivity]. }
        rewrite Hread, Z.eqb_refl, Hprod.
        destruct (Z.eqb_spec i rrow) as [->|Hne]; cbn [andb].
        -- rewrite (Hrest rrow) by lia. reflexivity.
        -- apply Hdone. lia.
    + cbn [bind].
      (* the pivot *)
      pose proof (shape_rows m0 t2 Ht2) as Hrows2. unfold sk_rows in Hrows2.
      unfold coeffDiag. rewrite (get_vec (sk_diag t2) r) by lia.
      cbn [bind].
      rewrite (profile_dot_products t2 Ht2 r r r); try lia.
      2:{ rewrite (lower_col_begin m0 m0_row_major t2 Ht2).
          rewrite (upper_row_begin m0 m0_row_major t2 Ht2).
          rewrite (u_sizeL t2 Ht2), (u_sizeU t2 Ht2).
          match goal with
          | |- context [(?a >? 0)%Z] => destruct (Z.gtb_spec a 0)
          end; lia. }
      cbn [bind].
      match goal with
      | |- context [setDiag t2 r ?v] =>
          destruct (setDiag_total m0 t2 Ht2 r v Hr) as (t' & Eset & Ht')
      end.
      rewrite Eset. exists t'. split; [reflexivity|]. split; [exact Ht'|].
      destruct (setDiag_others _ _ _ _ Eset) as (EL & EU & ER & ED).
      assert (HL : forall i j, coeffLower t' i j = coeffLower t1 i j).
      { intros i j. rewrite <- (coeffLower_same t1 t2 i j L2).
        - now apply coeffLower_same.
        - rewrite (u_row_major t2 Ht2). symmetry.
          exact (u_row_major t1 Ht1). }
      assert (HU : forall i j, coeffUpper t' i j = coeffUpper t2 i j)
        by (intros i j; now apply coeffUpper_same).
      assert (HU1 : forall i j, coeffUpper t1 i j = coeffUpper t i j).
      { intros i j. apply coeffUpper_same; [exact U1|].
        rewrite (u_row_major t1 Ht1). symmetry. exact (u_row_major t Ht). }
      assert (HD : forall i, (0 <= i)%Z ->
                vec (sk_diag t') i
                = if (i =? r)%Z
                  then vec (sk_diag t) r - products t2 r r r
                  else vec (sk_diag t) i).
      { intros i Hi. rewrite (vec_set _ _ _ _ i ED Hi). rewrite D2, D1.
        reflexivity. }
      assert (HP : forall i j bound, (bound <= r)%Z -> (i <> r \/ j <> r
                     \/ True) ->
                products t' i j bound = products t2 i j bound).
      { intros i j bound _ _. apply products_ext; intros k Hk.
        - rewrite HL. symmetry. now apply coeffLower_same;
            [exact L2|rewrite (u_row_major t2 Ht2); symmetry;
                      exact (u_row_major t1 Ht1)].
        - apply HU. }
      split; [|split; [|split; [|split; [|split]]]].
      * intros i j Hi. rewrite HL. now apply Hother1.
      * intros i j Hj. rewrite HU, Hother2 by exact Hj. apply HU1.
      * intros i Hi Hne. rewrite (HD i Hi).
        destruct (Z.eqb_spec i r); [contradiction|reflexivity].
      * intros j Hj. rewrite (HD j ltac:(lia)).
        destruct (Z.eqb_spec j r); [lia|].
        assert (Hprod : products t' r j j = products t1 r j j).
        { apply products_ext; intros k Hk; [apply HL|].
          rewrite HU. apply Hother2. lia. }
        rewrite Hprod, HL.
        destruct (Z.lt_ge_cases j (r - sizeL r)) as [Hout|Hin].
        -- rewrite (u_lower_outside t1 Ht1 r j Hout).
           rewrite (u_lower_outside t Ht r j Hout).
           unfold products. rewrite sumZ_zeros.
           ++ unfold Rdiv. ring.
           ++ intros k Hk. rewrite (u_lower_outside t1 Ht1 r k) by lia.
              ring.
        -- apply Hdone1. lia.
      * intros i Hi.
        assert (Hprod : products t' i r i = products t2 i r i)
          by (apply HP; [lia|auto]).
        rewrite Hprod, HU, <- HU1.
        destruct (Z.lt_ge_cases i (r - sizeU r)) as [Hout|Hin].
        -- rewrite (u_upper_outside t2 Ht2 i r Hout).
           rewrite (u_upper_outside t1 Ht1 i r Hout).
           unfold products. rewrite sumZ_zeros; [ring|].
           intros k Hk. rewrite (u_upper_outside t2 Ht2 k r) by lia. ring.
        -- apply Hdone2. lia.
      * rewrite (HD r ltac:(lia)), Z.eqb_refl.
        rewrite (HP r r r); [reflexivity|lia|auto].
Qed.

(** The loop over the rows: at the end every stored entry of L and U is
    what the elimination without pivoting defines from the matrix. *)
Lemma computeRowMajor_rows_exact :
  exists t,
    for_loop 0 (sk_rows m0) computeRowMajor_row m0 = Some t
    /\ shape t = shape m0
    /\ (forall i j, (0 <= j < i)%Z -> (i < sk_rows m0)%Z ->
          coeffLower t i j
          = (coeffLower m0 i j - products t i j j) / vec (sk_diag t) j)
    /\ (forall i j, (0 <= i < j)%Z -> (j < sk_rows m0)%Z ->
          coeffUpper t i j = coeffUpper m0 i j - products t i j i)
    /\ (forall i, (0 <= i < sk_rows m0)%Z ->
          vec (sk_diag t) i = vec (sk_diag m0) i - products t i i i).
Proof.
  destruct (for_loop_inv
              (fun r t =>
                 shape t = shape m0
                 /\ (forall i j, (r <= i)%Z ->
                       coeffLower t i j = coeffLower m0 i j)
                 /\ (forall i j, (r <= j)%Z ->
                       coeffUpper t i j = coeffUpper m0 i j)
                 /\ (forall i, (r <= i)%Z ->
                       vec (sk_diag t) i = vec (sk_diag m0) i)
                 /\ (forall i j, (0 <= j < i)%Z -> (i < r)%Z ->
                       coeffLower t i j
                       = (coeffLower m0 i j - products t i j j)
                         / vec (sk_diag t) j)
                 /\ (forall i j, (0 <= i < j)%Z -> (j < r)%Z ->
                       coeffUpper t i j
                       = coeffUpper m0 i j - products t i j i)
                 /\ (forall i, (0 <= i < r)%Z ->
                       vec (sk_diag t) i
                       = vec (sk_diag m0) i - products t i i i))
              0 (sk_rows m0) computeRowMajor_row m0)
    as (t & E & Ht & _ & _ & _ & HL & HU & HD).
  - unfold sk_rows. lia.
  - split; [reflexivity|]. do 3 (split; [reflexivity|]).
    split; [|split]; intros; lia.
  - intros r t Hr (Ht & KL & KU & KD & HL & HU & HD).
    destruct (computeRowMajor_row_exact r t Ht Hr)
      as (t' & E & Ht' & FL & FU & FD & NL & NU & ND).
    exists t'. split; [exact E|]. split; [exact Ht'|].
    split; [|split; [|split; [|split; [|split]]]].
    + intros i j Hi. rewrite FL by lia. apply KL. lia.
    + intros i j Hj. rewrite FU by lia. apply KU. lia.
    + intros i Hi. rewrite FD by lia. apply KD. lia.
    + intros i j Hj Hi. destruct (Z.eq_dec i r) as [->|Hne].
      * rewrite (NL j Hj). now rewrite (KL r j) by lia.
      * rewrite FL by exact Hne. rewrite (FD j) by lia.
        rewrite (products_ext t t' i j j).
        -- apply HL; lia.
        -- intros k Hk. now apply FL.
        -- intros k Hk. apply FU. lia.
    + intros i j Hi Hj. destruct (Z.eq_dec j r) as [->|Hne].
      * rewrite (NU i Hi). now rewrite (KU i r) by lia.
      * rewrite FU by exact Hne.
        rewrite (products_ext t t' i j i).
        -- apply HU; lia.
        -- intros k Hk. apply FL. lia.
        -- intros k Hk. now apply FU.
    + intros i Hi. destruct (Z.eq_dec i r) as [->|Hne].
      * rewrite ND. now rewrite (KD r) by lia.
      * rewrite FD by lia.
        rewrite (products_ext t t' i i i).
        -- apply HD; lia.
        -- intros k Hk. now apply FL.
        -- intros k Hk. now apply FU.
  - exists t. split; [exact E|]. split; [exact Ht|].
    split; [|split].
    + intros i j Hj Hi. now apply HL.
    + intros i j Hi Hj. now apply HU.
    + exact HD.
Qed.

(** *** The dense matrices the storage stands for *)

(** The entry [(i, j)] of the matrix, of the factor L (unit diagonal) and
    of the factor U; an entry outside the profiles is zero. *)
Definition entry (m : SkylineMatrix) (i j : Z) : R :=
  if (j <? i)%Z then coeffLower m i j
  else if (i <? j)%Z then coeffUpper m i j
  else vec (sk_diag m) i.
Definition unit_lower (m : SkylineMatrix) (i k : Z) : R :=
  if (k <? i)%Z then coeffLower m i k
  else if (k =? i)%Z then 1 else 0.
Definition upper_part (m : SkylineMatrix) (k j : Z) : R :=
  if (k <? j)%Z then coeffUpper m k j
  else if (k =? j)%Z then vec (sk_diag m) k else 0.

(** The entry [(i, j)] of the product L U. *)
Definition product (m : SkylineMatrix) (i j : Z) : R :=
  sumZ 0 (sk_rows m) (fun k => unit_lower m i k * upper_part m k j).

Lemma sumZ_around lo mid hi f :
  (lo <= mid < hi)%Z ->
  sumZ lo hi f = sumZ lo mid f + f mid + sumZ (mid + 1) hi f.
Proof.
  intros Hm. rewrite (sumZ_cut lo mid hi) by lia.
  rewrite (sumZ_first mid hi) by lia. lra.
Qed.

Lemma product_lower (t : SkylineMatrix) i j :
  (0 <= j < i)%Z -> (i < sk_rows t)%Z ->
  product t i j = products t i j j + coeffLower t i j * vec (sk_diag t) j.
Proof.
  intros Hj Hi. unfold product, products.
  rewrite (sumZ_around 0 j (sk_rows t)) by lia.
  rewrite (sumZ_zeros (j + 1) (sk_rows t)).
  - rewrite Rplus_0_r. f_equal.
    + apply sumZ_ext. intros k Hk. unfold unit_lower, upper_part.
      destruct (Z.ltb_spec k i); [|lia]. destruct (Z.ltb_spec k j); [|lia].
      reflexivity.
    + unfold unit_lower, upper_part.
      destruct (Z.ltb_spec j i); [|lia]. destruct (Z.ltb_spec j j); [lia|].
      now rewrite Z.eqb_refl.
  - intros k Hk. unfold upper_part.
    destruct (Z.ltb_spec k j); [lia|]. destruct (Z.eqb_spec k j); [lia|].
    lra.
Qed.

Lemma product_upper (t : SkylineMatrix) i j :
  (0 <= i < j)%Z -> (j < sk_rows t)%Z ->
  product t i j = products t i j i + coeffUpper t i j.
Proof.
  intros Hi Hj. unfold product, products.
  rewrite (sumZ_around 0 i (sk_rows t)) by lia.
  rewrite (sumZ_zeros (i + 1) (sk_rows t)).
  - rewrite Rplus_0_r. f_equal.
    + apply sumZ_ext. intros k Hk. unfold unit_lower, upper_part.
      destruct (Z.ltb_spec k i); [|lia]. destruct (Z.ltb_spec k j); [|lia].
      reflexivity.
    + unfold unit_lower, upper_part.
      destruct (Z.ltb_spec i i); [lia|]. rewrite Z.eqb_refl.
      destruct (Z.ltb_spec i j); [|lia]. lra.
  - intros k Hk. unfold unit_lower.
    destruct (Z.ltb_spec k i); [lia|]. destruct (Z.eqb_spec k i); [lia|].
    lra.
Qed.

Lemma product_diag (t : SkylineMatrix) i :
  (0 <= i < sk_rows t)%Z ->
  product t i i = products t i i i + vec (sk_diag t) i.
Proof.
  intros Hi. unfold product, products.
  rewrite (sumZ_around 0 i (sk_rows t)) by lia.
  rewrite (sumZ_zeros (i + 1) (sk_rows t)).
  - rewrite Rplus_0_r. f_equal.
    + apply sumZ_ext. intros k Hk. unfold unit_lower, upper_part.
      destruct (Z.ltb_spec k i); [|lia]. reflexivity.
    + unfold unit_lower, upper_part.
      destruct (Z.ltb_spec i i); [lia|]. rewrite Z.eqb_refl. lra.
  - intros k Hk. unfold unit_lower.
    destruct (Z.ltb_spec k i); [lia|]. destruct (Z.eqb_spec k i); [lia|].
    lra.
Qed.

(** [computeRowMajor] leaves factors whose product is the matrix. *)
Lemma computeRowMajor_exact (lu lu' : SkylineInplaceLU) :
  m_lu lu = m0 ->
  computeRowMajor lu = Some lu' ->
  (forall j, (0 <= j < sk_rows m0)%Z -> vec (sk_diag (m_lu lu')) j <> 0) ->
  shape (m_lu lu') = shape m0
  /\ forall i j, (0 <= i < sk_rows m0)%Z -> (0 <= j < sk_rows m0)%Z ->
       product (m_lu lu') i j = entry m0 i j.
Proof.
  intros Hlu. unfold computeRowMajor. rewrite Hlu, m0_row_major.
  destruct computeRowMajor_rows_exact as (t & -> & Ht & HL & HU & HD).
  cbn [bind]. intros E. injection E as <-. cbn [m_lu with_lu].
  intros Hpivot. split; [exact Ht|]. intros i j Hi Hj.
  pose proof (shape_rows m0 t Ht) as Hrows. unfold entry.
  destruct (Z.ltb_spec j i) as [Hji|Hji].
  - rewrite product_lower by lia. rewrite (HL i j) by lia.
    field. apply Hpivot. lia.
  - destruct (Z.ltb_spec i j) as [Hij|Hij].
    + rewrite product_upper by lia. rewrite (HU i j) by lia. lra.
    + assert (j = i) by lia. subst j.
      rewrite product_diag by lia. rewrite (HD i) by lia. lra.
Qed.

(** *** The factorization followed by [solve] *)

Lemma sumZ_exchange n1 n2 (F : Z -> Z -> R) :
  sumZ 0 n1 (fun i => sumZ 0 n2 (fun j => F i j))
  = sumZ 0 n2 (fun j => sumZ 0 n1 (fun i => F i j)).
Proof.
  destruct (Z.le_gt_cases n1 0) as [Hn|Hn].
  - rewrite sumZ_empty by lia. symmetry. apply sumZ_zeros.
    intros j _. apply sumZ_empty. lia.
  - replace n1 with (Z.of_nat (Z.to_nat n1)) by lia.
    induction (Z.to_nat n1) as [|k IH].
    + rewrite sumZ_empty by reflexivity. symmetry. apply sumZ_zeros.
      intros j _. apply sumZ_empty. reflexivity.
    + replace (Z.of_nat (Datatypes.S k)) with (Z.of_nat k + 1)%Z by lia.
      rewrite sumZ_last by lia.
      replace (Z.of_nat k + 1 - 1)%Z with (Z.of_nat k) by lia.
      rewrite IH, <- sumZ_plus. apply sumZ_ext. intros j _.
      rewrite (sumZ_last 0 (Z.of_nat k + 1)) by lia.
      now replace (Z.of_nat k + 1 - 1)%Z with (Z.of_nat k) by lia.
Qed.

Lemma dense_lower (t : SkylineMatrix) (y : Z -> R) i :
  (0 <= i < sk_rows t)%Z ->
  sumZ 0 (sk_rows t) (fun k => unit_lower t i k * y k)
  = lower_times eps prec t y i.
Proof.
  intros Hi. unfold lower_times.
  rewrite (sumZ_around 0 i (sk_rows t)) by lia.
  rewrite (sumZ_zeros (i + 1) (sk_rows t)).
  - unfold unit_lower at 2. destruct (Z.ltb_spec i i); [lia|].
    rewrite Z.eqb_refl.
    rewrite (sumZ_ext 0 i (fun k => unit_lower t i k * y k)
               (fun k => coeffLower t i k * y k)).
    + change (@coeffLower R (solve_reals eps prec))
        with (@coeffLower R factor_reals). lra.
    + intros k Hk. unfold unit_lower.
      destruct (Z.ltb_spec k i); [reflexivity|lia].
  - intros k Hk. unfold unit_lower.
    destruct (Z.ltb_spec k i); [lia|]. destruct (Z.eqb_spec k i); [lia|].
    lra.
Qed.

Lemma dense_upper (t : SkylineMatrix) (x : Z -> R) k :
  (0 <= k < sk_rows t)%Z ->
  sumZ 0 (sk_rows t) (fun j => upper_part t k j * x j)
  = upper_times eps prec t x k.
Proof.
  intros Hk. unfold upper_times.
  rewrite (sumZ_around 0 k (sk_rows t)) by lia.
  rewrite (sumZ_zeros 0 k).
  - unfold upper_part at 1. destruct (Z.ltb_spec k k); [lia|].
    rewrite Z.eqb_refl.
    rewrite (sumZ_ext (k + 1) (sk_rows t)
               (fun j => upper_part t k j * x j)
               (fun j => coeffUpper t k j * x j)).
    + change (@coeffUpper R (solve_reals eps prec))
        with (@coeffUpper R factor_reals). lra.
    + intros j Hj. unfold upper_part.
      destruct (Z.ltb_spec k j); [reflexivity|lia].
  - intros j Hj. unfold upper_part.
    destruct (Z.ltb_spec k j); [lia|]. destruct (Z.eqb_spec k j); [lia|].
    lra.
Qed.

(** The product of the two factors, applied to a vector. *)
Lemma product_times (t : SkylineMatrix) (x : Z -> R) i :
  (0 <= i < sk_rows t)%Z ->
  sumZ 0 (sk_rows t) (fun j => product t i j * x j)
  = lower_times eps prec t (upper_times eps prec t x) i.
Proof.
  intros Hi. rewrite <- dense_lower by exact Hi.
  rewrite (sumZ_ext 0 (sk_rows t)
             (fun k => unit_lower t i k * upper_times eps prec t x k)
             (fun k => sumZ 0 (sk_rows t)
                         (fun j => unit_lower t i k
                                   * upper_part t k j * x j))).
  2:{ intros k Hk. rewrite <- dense_upper by exact Hk.
      rewrite <- sumZ_scal. apply sumZ_ext. intros j _. ring. }
  rewrite sumZ_exchange. apply sumZ_ext. intros j _.
  unfold product.
  rewrite (Rmult_comm _ (x j)), <- sumZ_scal.
  apply sumZ_ext. intros k _. ring.
Qed.

Lemma sumZ_minus lo hi f g :
  sumZ lo hi (fun i => f i - g i) = sumZ lo hi f - sumZ lo hi g.
Proof.
  rewrite (sumZ_ext lo hi (fun i => f i - g i)
             (fun i => f i + (-1) * g i)) by (intros; ring).
  rewrite sumZ_plus, sumZ_scal. ring.
Qed.

Lemma lower_times_minus (t : SkylineMatrix) (y y' : Z -> R) i :
  lower_times eps prec t (fun k => y k - y' k) i
  = lower_times eps prec t y i - lower_times eps prec t y' i.
Proof.
  unfold lower_times.
  change (@coeffLower R (solve_reals eps prec))
    with (@coeffLower R factor_reals).
  rewrite (sumZ_ext 0 i _ (fun j => coeffLower t i j * y j
                                    - coeffLower t i j * y' j))
    by (intros; ring).
  rewrite sumZ_minus. ring.
Qed.

Lemma upper_times_minus (t : SkylineMatrix) (x x' : Z -> R) i :
  upper_times eps prec t (fun k => x k - x' k) i
  = upper_times eps prec t x i - upper_times eps prec t x' i.
Proof.
  unfold upper_times.
  change (@coeffUpper R (solve_reals eps prec))
    with (@coeffUpper R factor_reals).
  rewrite (sumZ_ext (i + 1) (sk_rows t) _
             (fun j => coeffUpper t i j * x j - coeffUpper t i j * x' j))
    by (intros; ring).
  rewrite sumZ_minus. ring.
Qed.

(** A unit lower triangular system has one solution. *)
Lemma lower_times_zero (t : SkylineMatrix) (w : Z -> R) n :
  (forall i, (0 <= i < n)%Z -> lower_times eps prec t w i = 0) ->
  forall i, (0 <= i < n)%Z -> w i = 0.
Proof.
  intros Hw.
  assert (Hall : forall c : nat, forall i,
            (0 <= i < Z.of_nat c)%Z -> (i < n)%Z -> w i = 0).
  { induction c as [|c IH]; intros i Hi Hn; [lia|].
    pose proof (Hw i ltac:(lia)) as E. unfold lower_times in E.
    rewrite sumZ_zeros in E; [lra|].
    intros k Hk. rewrite (IH k) by lia. ring. }
  intros i Hi. apply (Hall (Z.to_nat (i + 1))); lia.
Qed.

(** An upper triangular system without a zero on its diagonal has one
    solution. *)
Lemma upper_times_zero (t : SkylineMatrix) (d : Z -> R) :
  (forall i, (0 <= i < sk_rows t)%Z -> vec (sk_diag t) i <> 0) ->
  (forall i, (0 <= i < sk_rows t)%Z -> upper_times eps prec t d i = 0) ->
  forall i, (0 <= i < sk_rows t)%Z -> d i = 0.
Proof.
  intros Hdiag Hd.
  assert (Hall : forall c : nat, forall i,
            (sk_rows t - Z.of_nat c <= i < sk_rows t)%Z -> (0 <= i)%Z ->
            d i = 0).
  { induction c as [|c IH]; intros i Hi H0; [lia|].
    pose proof (Hd i ltac:(lia)) as E. unfold upper_times in E.
    rewrite sumZ_zeros in E.
    - rewrite Rplus_0_r in E.
      apply Rmult_integral in E. destruct E as [E|E]; [|exact E].
      exfalso. apply (Hdiag i); [lia|exact E].
    - intros k Hk. rewrite (IH k) by lia. ring. }
  intros i Hi. apply (Hall (Z.to_nat (sk_rows t))); lia.
Qed.

Lemma vec_ext (x x' : list R) :
  length x = length x' ->
  (forall i, (0 <= i < Z.of_nat (length x))%Z -> vec x i = vec x' i) ->
  x = x'.
Proof.
  intros Hl Hv. apply (nth_ext x x' 0 0 Hl). intros k Hk.
  specialize (Hv (Z.of_nat k) ltac:(lia)). unfold vec in Hv.
  now rewrite Nat2Z.id in Hv.
Qed.

Lemma well_formed_shape (t : SkylineMatrix) :
  shape t = shape m0 -> well_formed t.
Proof.
  intros Ht. pose proof Ht as Hs. unfold shape in Hs.
  injection Hs as Hrm Hd Hl Hu.
  destruct m0_well_formed as (Wl & Wu & _).
  assert (El : length (sk_lower t) = length (sk_lower m0)).
  { rewrite <- (length_map (@length R) (sk_lower t)), Hl.
    apply length_map. }
  assert (Eu : length (sk_upper t) = length (sk_upper m0)).
  { rewrite <- (length_map (@length R) (sk_upper t)), Hu.
    apply length_map. }
  split; [congruence|]. split; [congruence|]. intros _. split.
  - intros o p G. pose proof (get_Some_range _ _ _ G) as Ho.
    rewrite <- (it_size_profile (sk_lower t) (it_begin o) p G).
    rewrite (u_sizeL t Ht).
    apply (lower_fits m0 m0_well_formed m0_row_major). lia.
  - intros o p G. pose proof (get_Some_range _ _ _ G) as Ho.
    rewrite <- (it_size_profile (sk_upper t) (it_begin o) p G).
    rewrite (u_sizeU t Ht).
    apply (upper_fits m0 m0_well_formed m0_row_major). lia.
Qed.

(** The factorization followed by [solve] gives the one solution of the
    system of the matrix. *)
Lemma factor_then_solve (lu lu' : SkylineInplaceLU) b x0 transposed :
  m_lu lu = m0 ->
  (1 <= sk_rows m0)%Z ->
  computeRowMajor lu = Some lu' ->
  (forall j, (0 <= j < sk_rows m0)%Z -> vec (sk_diag (m_lu lu')) j <> 0) ->
  Z.of_nat (length b) = sk_rows m0 -> Z.of_nat (length x0) = sk_rows m0 ->
  exists x,
    solve lu' b x0 transposed = Some (x, true)
    /\ Z.of_nat (length x) = sk_rows m0
    /\ (forall i, (0 <= i < sk_rows m0)%Z ->
          sumZ 0 (sk_rows m0) (fun j => entry m0 i j * vec x j) = vec b i)
    /\ (forall x',
          Z.of_nat (length x') = sk_rows m0 ->
          (forall i, (0 <= i < sk_rows m0)%Z ->
             sumZ 0 (sk_rows m0) (fun j => entry m0 i j * vec x' j)
             = vec b i) ->
          x' = x).
Proof.
  intros Hlu Hn Hfac Hpivot Hb Hx0.
  destruct (computeRowMajor_exact lu lu' Hlu Hfac Hpivot) as [Ht Hprod].
  set (t := m_lu lu') in *.
  pose proof (shape_rows m0 t Ht) as Hrows.
  pose proof (well_formed_shape t Ht) as Hwf.
  pose proof (u_row_major t Ht) as Hrm.
  assert (Hpivot' : forall i, (0 <= i < sk_rows t)%Z ->
                      vec (sk_diag t) i <> 0)
    by (intros i Hi; apply Hpivot; lia).
  destruct (solve_exact eps prec t Hwf Hrm lu' b x0 transposed eq_refl
              ltac:(lia) ltac:(lia) ltac:(lia) Hpivot')
    as (x & E & Hlen & Hsol).
  assert (Hmul : forall (v : Z -> R) i, (0 <= i < sk_rows m0)%Z ->
            sumZ 0 (sk_rows m0) (fun j => entry m0 i j * v j)
            = lower_times eps prec t (upper_times eps prec t v) i).
  { intros v i Hi. rewrite <- product_times by lia. rewrite Hrows.
    apply sumZ_ext. intros j Hj. now rewrite Hprod by lia. }
  exists x. split; [exact E|]. split; [lia|]. split.
  - intros i Hi. rewrite Hmul by exact Hi. apply Hsol. lia.
  - intros x' Hlen' Hsol'. apply vec_ext; [lia|]. intros i Hi.
    assert (Hd : (fun k => vec x' k - vec x k) i = 0); [|cbv beta in Hd; lra].
    apply (upper_times_zero t (fun k => vec x' k - vec x k) Hpivot');
      [|lia].
    apply (lower_times_zero t
             (upper_times eps prec t (fun k => vec x' k - vec x k))
             (sk_rows t)).
    intros k Hk.
    rewrite (lower_times_ext eps prec t _
               (fun j => upper_times eps prec t (vec x') j
                         - upper_times eps prec t (vec x) j) k)
      by (try lia; intros j Hj; apply upper_times_minus).
    rewrite lower_times_minus.
    rewrite <- !Hmul by lia. rewrite Hsol' by lia.
    rewrite Hmul by lia. rewrite Hsol by lia. lra.
Qed.
End Exact.

Section Entries.
Variables eps prec : R.
Local Open Scope R_scope.

(** X24. On row-major storage and in exact arithmetic [computeRowMajor]
    is right: when it returns on a well-formed matrix and has left no zero
    on the diagonal, the matrix keeps its profiles and the product of the
    stored factors, L with a unit diagonal times U, is the matrix it was
    given, entry by entry. *)
Theorem computeRowMajor_factors_the_matrix (lu lu' : @SkylineInplaceLU R) :
  well_formed (m_lu lu) -> IsRowMajor (m_lu lu) = true ->
  computeRowMajor (H := factor_reals eps prec) lu = Some lu' ->
  (forall j, (0 <= j < sk_rows (m_lu lu))%Z ->
     vec (sk_diag (m_lu lu')) j <> 0) ->
  shape (m_lu lu') = shape (m_lu lu)
  /\ forall i j,
       (0 <= i < sk_rows (m_lu lu))%Z -> (0 <= j < sk_rows (m_lu lu))%Z ->
       product eps prec (m_lu lu') i j = entry eps prec (m_lu lu) i j.
Proof.
  intros Hwf Hrm.
  exact (computeRowMajor_exact eps prec (m_lu lu) Hwf Hrm lu lu' eq_refl).
Qed.

(** X25. On row-major storage and in exact arithmetic the factorization
    followed by [solve] solves the system of the matrix that was given:
    when [computeRowMajor] has left no zero on the diagonal, [solve]
    returns true with [A x = b] in [x], and [x] is the only solution; for
    [b = A x_true] it is [x_true]. *)
Theorem factorization_then_solve_is_right
    (lu lu' : @SkylineInplaceLU R) b x0 transposed :
  well_formed (m_lu lu) -> IsRowMajor (m_lu lu) = true ->
  (1 <= sk_rows (m_lu lu))%Z ->
  computeRowMajor (H := factor_reals eps prec) lu = Some lu' ->
  (forall j, (0 <= j < sk_rows (m_lu lu))%Z ->
     vec (sk_diag (m_lu lu')) j <> 0) ->
  Z.of_nat (length b) = sk_rows (m_lu lu) ->
  Z.of_nat (length x0) = sk_rows (m_lu lu) ->
  exists x,
    solve (H := factor_reals eps prec) lu' b x0 transposed = Some (x, true)
    /\ Z.of_nat (length x) = sk_rows (m_lu lu)
    /\ (forall i, (0 <= i < sk_rows (m_lu lu))%Z ->
          sumZ 0 (sk_rows (m_lu lu))
            (fun j => entry eps prec (m_lu lu) i j * vec x j) = vec b i)
    /\ (forall x_true,
          Z.of_nat (length x_true) = sk_rows (m_lu lu) ->
          (forall i, (0 <= i < sk_rows (m_lu lu))%Z ->
             sumZ 0 (sk_rows (m_lu lu))
               (fun j => entry eps prec (m_lu lu) i j * vec x_true j)
             = vec b i) ->
          x_true = x).
Proof.
  intros Hwf Hrm.
  exact (factor_then_solve eps prec (m_lu lu) Hwf Hrm lu lu' b x0
           transposed eq_refl).
Qed.
End Entries.
End SkylineFactor.

Module SkylineFactorExamples.
Import Skyline SkylineFacts SkylineMore SkylineMoreExamples SkylineFactor.
Local Open Scope R_scope.

(** The matrix [[2 1] [1 2]] in row-major storage. *)
Definition A2 : @SkylineMatrix R :=
  {| IsRowMajor := true;
     sk_diag := [2; 2];
     sk_lower := [[]; [1]];
     sk_upper := [[]; [1]] |}.

Definition A2_object : @SkylineInplaceLU R :=
  {| m_precision := 0; m_flags := 0; m_status := 0;
     m_succeeded := None; m_lu := A2 |}.

Lemma A2_well_formed : well_formed A2.
Proof.
  repeat split; try reflexivity; intros o p G;
    pose proof (get_Some_range _ _ _ G) as Ho; cbn in Ho;
    assert (o = 0 \/ o = 1)%Z as [->| ->] by lia;
    cbn in G; injection G as <-; cbn; lia.
Qed.

Lemma A2_factored :
  computeRowMajor (H := RDouble) A2_object = Some C2_object.
Proof. run_exact. same_reals. Qed.

Lemma computeRowMajor_factors_the_matrix_witness :
  shape C2 = shape A2
  /\ forall i j, (0 <= i < 2)%Z -> (0 <= j < 2)%Z ->
       product eps_double prec_double C2 i j
       = entry eps_double prec_double A2 i j.
Proof.
  exact (computeRowMajor_factors_the_matrix eps_double prec_double
           A2_object C2_object A2_well_formed eq_refl A2_factored
           C2_diagonal).
Defined.

Lemma factorization_then_solve_is_right_witness :
  exists x,
    solve (H := RDouble) C2_object [3; 3] [0; 0] 0 = Some (x, true)
    /\ Z.of_nat (length x) = 2%Z
    /\ (forall i, (0 <= i < 2)%Z ->
          sumZ 0 2 (fun j => entry eps_double prec_double A2 i j * vec x j)
          = vec [3; 3] i)
    /\ (forall x_true,
          Z.of_nat (length x_true) = 2%Z ->
          (forall i, (0 <= i < 2)%Z ->
             sumZ 0 2
               (fun j => entry eps_double prec_double A2 i j
                         * vec x_true j)
             = vec [3; 3] i) ->
          x_true = x).
Proof.
  apply (factorization_then_solve_is_right eps_double prec_double
           A2_object C2_object [3; 3] [0; 0] 0 A2_well_formed eq_refl).
  - cbn. lia.
  - exact A2_factored.
  - exact C2_diagonal.
  - reflexivity.
  - reflexivity.
Defined.
End SkylineFactorExamples.

(* ================================================================= *)
(** ** [solve] on column-major storage *)

Module SkylineColumnMajor.
Import Skyline SkylineFacts SkylineMore.

Section LowerFactor.
Context {S : Type} `{Scalar S}.
Local Abbreviation SkylineMatrix := (@SkylineMatrix S).
Local Abbreviation SkylineInplaceLU := (@SkylineInplaceLU S).

(** On column-major storage [lIt.col()] is the outer index, [row] itself:
    the loop of the first substitution is never entered. *)
Lemma solve_forward_row_column_major (m : SkylineMatrix) b row x :
  IsRowMajor m = false ->
  solve_forward_row m b row x
  = (brow <- get b row ;;
     x <- set x row brow ;;
     newVal <- get x row ;;
     set x row newVal).
Proof.
  intros Hcm. unfold solve_forward_row. cbv zeta.
  destruct (get b row) as [brow|]; cbn [bind]; [|reflexivity].
  destruct (set x row brow) as [x1|]; cbn [bind]; [|reflexivity].
  destruct (get x1 row) as [nv|]; cbn [bind]; [|reflexivity].
  rewrite while_loop_false; [reflexivity|].
  unfold lower_col. rewrite Hcm. cbn. apply Z.ltb_irrefl.
Qed.

Lemma solve_backward_col_stores (m m' : SkylineMatrix) col x :
  IsRowMajor m' = IsRowMajor m -> sk_diag m' = sk_diag m ->
  sk_upper m' = sk_upper m ->
  solve_backward_col m' col x = solve_backward_col m col x.
Proof.
  destruct m as [rm d l u], m' as [rm' d' l' u']. cbn.
  intros -> -> ->. reflexivity.
Qed.

Lemma solve_column_major_lower (lu lu' : SkylineInplaceLU) b x transposed :
  IsRowMajor (m_lu lu) = false ->
  IsRowMajor (m_lu lu') = false ->
  sk_diag (m_lu lu') = sk_diag (m_lu lu) ->
  sk_upper (m_lu lu') = sk_upper (m_lu lu) ->
  solve lu' b x transposed = solve lu b x transposed.
Proof.
  intros Hcm Hcm' Hd Hu. unfold solve. cbv zeta.
  unfold sk_rows, coeffDiag. rewrite Hd.
  rewrite (for_loop_ext 0 (Z.of_nat (length (sk_diag (m_lu lu))))
             (solve_forward_row (m_lu lu') b)
             (solve_forward_row (m_lu lu) b)).
  2:{ intros i t _. now rewrite !solve_forward_row_column_major. }
  destruct (for_loop _ _ _ x) as [x1|]; cbn [bind]; [|reflexivity].
  replace (for_down (Z.of_nat (length (sk_diag (m_lu lu))) - 1) 0
             (solve_backward_col (m_lu lu')) x1)
    with (for_down (Z.of_nat (length (sk_diag (m_lu lu))) - 1) 0
            (solve_backward_col (m_lu lu)) x1); [reflexivity|].
  unfold for_down.
  generalize (Z.of_nat (length (sk_diag (m_lu lu))) - 1) at 2 4 as i.
  generalize (Z.to_nat (Z.of_nat (length (sk_diag (m_lu lu))) - 1 - 0))
    as cnt.
  intros cnt. revert x1. induction cnt as [|c IH]; intros x1 i;
    [reflexivity|].
  cbn [for_down_iter].
  rewrite (solve_backward_col_stores (m_lu lu) (m_lu lu') i x1)
    by congruence.
  destruct (solve_backward_col (m_lu lu) i x1); [apply IH|reflexivity].
Qed.

(** X26. On column-major storage [solve] never reads the lower factor:
    the loop over [lIt] is not entered, since [lIt.col()] is [row] there.
    Two objects that differ by their lower profiles only give the same
    result. *)
Theorem solve_column_major_ignores_L
    (lu lu' : SkylineInplaceLU) b x transposed :
  IsRowMajor (m_lu lu) = false ->
  IsRowMajor (m_lu lu') = false ->
  sk_diag (m_lu lu') = sk_diag (m_lu lu) ->
  sk_upper (m_lu lu') = sk_upper (m_lu lu) ->
  solve lu' b x transposed = solve lu b x transposed.
Proof. exact (solve_column_major_lower lu lu' b x transposed). Qed.
End LowerFactor.
End SkylineColumnMajor.

Module SkylineColumnMajorExamples.
Import Skyline SkylineFacts SkylineMore SkylineMoreExamples
  SkylineColumnMajor.

(** [B2f] with another lower entry. *)
Definition B2f_other : @SkylineInplaceLU float :=
  {| m_precision := 0%float; m_flags := 0; m_status := 0;
     m_succeeded := None;
     m_lu := {| IsRowMajor := false;
                sk_diag := [2; 2]%float;
                sk_lower := [[7]; []]%float;
                sk_upper := [[1]; []]%float |} |}.

Lemma solve_column_major_ignores_L_witness :
  solve (H := FScalar) B2f_other [2; 1]%float [0; 0]%float 0
  = solve (H := FScalar) B2f_object [2; 1]%float [0; 0]%float 0.
Proof.
  apply (solve_column_major_ignores_L (H := FScalar)); reflexivity.
Defined.
End SkylineColumnMajorExamples.

(* ================================================================= *)
(** ** The column-major factorization, in exact arithmetic *)

Module SkylineCompute.
Import Skyline SkylineFacts SkylineMore SkylineFactor.

Ltac split_cases :=
  repeat match goal with
  | |- context [(?a <? ?b)%Z] => destruct (Z.ltb_spec a b)
  | |- context [(?a =? ?b)%Z] => destruct (Z.eqb_spec a b)
  end;
  cbn [andb]; try lia; try reflexivity.

Section Exact.
Variables eps prec : R.
#[local] Hint Extern 0 (Scalar R) =>
  exact (factor_reals eps prec) : typeclass_instances.
Local Open Scope R_scope.
Local Abbreviation SkylineMatrix := (@SkylineMatrix R).
Local Abbreviation SkylineInplaceLU := (@SkylineInplaceLU R).

Variable m0 : SkylineMatrix.
Hypothesis m0_column_major : IsRowMajor m0 = false.
Local Abbreviation n := (sk_rows m0).
(** Full profiles: column [o] holds the rows below [o], row [o] the
    columns right of [o]. *)
Hypothesis m0_full :
  forall o, (0 <= o < n)%Z ->
    it_size (sk_lower m0) (it_begin o) = (n - o - 1)%Z
    /\ it_size (sk_upper m0) (it_begin o) = (n - o - 1)%Z.

Section State.
Variable u : SkylineMatrix.
Hypothesis u_shape : shape u = shape m0.

Lemma u_column_major : IsRowMajor u = false.
Proof.
  rewrite <- m0_column_major. unfold shape in u_shape. congruence.
Qed.

Lemma u_lower_size o p :
  (0 <= o < n)%Z ->
  it_size (sk_lower u) {| it_outer := o; it_pos := p |} = (n - o - 1)%Z.
Proof.
  intros Ho. rewrite <- (proj1 (m0_full o Ho)).
  exact (shape_lower m0 u _ u_shape).
Qed.

Lemma u_upper_size o p :
  (0 <= o < n)%Z ->
  it_size (sk_upper u) {| it_outer := o; it_pos := p |} = (n - o - 1)%Z.
Proof.
  intros Ho. rewrite <- (proj2 (m0_full o Ho)).
  exact (shape_upper m0 u _ u_shape).
Qed.

Lemma u_rows : sk_rows u = n.
Proof. exact (shape_rows m0 u u_shape). Qed.

(** The iterator on position [p] of the lower profile [c] stands on the
    entry [(c + p + 1, c)]; on position [p] of the upper profile [r], on
    the entry [(r, r + p + 1)]. *)
Lemma lower_read c p :
  (0 <= c)%Z -> (0 <= p)%Z -> (c + p + 1 < n)%Z ->
  it_value (sk_lower u) {| it_outer := c; it_pos := p |}
  = Some (coeffLower u (c + p + 1) c).
Proof.
  intros Hc Hp Hn.
  destruct (it_value_total (sk_lower u) {| it_outer := c; it_pos := p |})
    as [a E].
  { cbn [it_pos]. rewrite u_lower_size by lia. lia. }
  rewrite E. unfold coeffLower, lower_at. rewrite u_column_major.
  replace (c + p + 1 - c - 1)%Z with p by lia. now rewrite E.
Qed.

Lemma upper_read r p :
  (0 <= r)%Z -> (0 <= p)%Z -> (r + p + 1 < n)%Z ->
  it_value (sk_upper u) {| it_outer := r; it_pos := p |}
  = Some (coeffUpper u r (r + p + 1)).
Proof.
  intros Hc Hp Hn.
  destruct (it_value_total (sk_upper u) {| it_outer := r; it_pos := p |})
    as [a E].
  { cbn [it_pos]. rewrite u_upper_size by lia. lia. }
  rewrite E. unfold coeffUpper, upper_at. rewrite u_column_major.
  replace (r + p + 1 - r - 1)%Z with p by lia. now rewrite E.
Qed.

Lemma lower_write c p v :
  (0 <= c)%Z -> (0 <= p)%Z -> (c + p + 1 < n)%Z ->
  exists l,
    it_set (sk_lower u) {| it_outer := c; it_pos := p |} v = Some l
    /\ shape (with_lower u l) = shape m0
    /\ forall i j,
         coeffLower (with_lower u l) i j
         = if ((j =? c) && (i =? c + p + 1))%Z then v
           else coeffLower u i j.
Proof.
  intros Hc Hp Hn.
  destruct (it_set_total (sk_lower u) {| it_outer := c; it_pos := p |} v)
    as [l E].
  { cbn [it_pos]. rewrite u_lower_size by lia. lia. }
  exists l. split; [exact E|]. split.
  { rewrite <- u_shape. exact (with_lower_shape u _ _ _ l eq_refl E). }
  intros i j. unfold coeffLower, lower_at.
  cbn [IsRowMajor with_lower sk_lower]. rewrite u_column_major.
  rewrite (it_value_it_set _ _ _ _ _ E). cbn [it_outer it_pos].
  split_cases.
Qed.

Lemma upper_write r p v :
  (0 <= r)%Z -> (0 <= p)%Z -> (r + p + 1 < n)%Z ->
  exists l,
    it_set (sk_upper u) {| it_outer := r; it_pos := p |} v = Some l
    /\ shape (with_upper u l) = shape m0
    /\ forall i j,
         coeffUpper (with_upper u l) i j
         = if ((i =? r) && (j =? r + p + 1))%Z then v
           else coeffUpper u i j.
Proof.
  intros Hc Hp Hn.
  destruct (it_set_total (sk_upper u) {| it_outer := r; it_pos := p |} v)
    as [l E].
  { cbn [it_pos]. rewrite u_upper_size by lia. lia. }
  exists l. split; [exact E|]. split.
  { rewrite <- u_shape. exact (with_upper_shape u _ _ _ l eq_refl E). }
  intros i j. unfold coeffUpper, upper_at.
  cbn [IsRowMajor with_upper sk_upper]. rewrite u_column_major.
  rewrite (it_value_it_set _ _ _ _ _ E). cbn [it_outer it_pos].
  split_cases.
Qed.
End State.

(** "Lower matrix Columns update": the column [r] of L. *)
Lemma scale_column_exact (t : SkylineMatrix) r pivot :
  shape t = shape m0 -> (0 <= r < n)%Z ->
  exists t',
    scale_column t r pivot = Some t'
    /\ shape t' = shape m0
    /\ sk_upper t' = sk_upper t /\ sk_diag t' = sk_diag t
    /\ forall i j,
         coeffLower t' i j
         = if ((j =? r) && (r <? i) && (i <? n))%Z
           then coeffLower t i j / pivot else coeffLower t i j.
Proof.
  intros Ht Hr. unfold scale_column.
  change (it_begin r) with {| it_outer := r; it_pos := 0 |}.
  rewrite (u_lower_size t Ht r 0 Hr).
  destruct (for_loop_inv
              (fun p u =>
                 shape u = shape m0
                 /\ sk_upper u = sk_upper t /\ sk_diag u = sk_diag t
                 /\ forall i j,
                      coeffLower u i j
                      = if ((j =? r) && (r <? i) && (i <? r + 1 + p))%Z
                        then coeffLower t i j / pivot
                        else coeffLower t i j)
              0 (n - r - 1)
              (fun p m =>
                 let lIt := it_shift {| it_outer := r; it_pos := 0 |} p in
                 v <- it_value (sk_lower m) lIt ;;
                 l <- it_set (sk_lower m) lIt (sdiv v pivot) ;;
                 Some (with_lower m l))
              t) as (t' & E & Ht' & HU & HD & HL).
  - lia.
  - split; [exact Ht|]. do 2 (split; [reflexivity|]). intros i j.
    split_cases.
  - intros p u Hp (Hu & HuU & HuD & HuL). cbv zeta.
    unfold it_shift. cbn [it_outer it_pos]. rewrite Z.add_0_l.
    rewrite (lower_read u Hu r p) by lia. cbn [bind].
    destruct (lower_write u Hu r p
                (sdiv (coeffLower u (r + p + 1) r) pivot))
      as (l & -> & Hs & Hw); try lia.
    cbn [bind]. eexists. split; [reflexivity|].
    split; [exact Hs|]. do 2 (split; [assumption|]).
    intros i j. rewrite Hw, !HuL.
    cbn [sdiv factor_reals RScalar]. split_cases; subst; reflexivity.
  - exists t'. split; [exact E|]. split; [exact Ht'|].
    do 2 (split; [assumption|]). intros i j. rewrite HL. split_cases.
Qed.

(** The update of the row [rrow] of U by the row [r]. *)
Lemma update_upper_row_exact (t : SkylineMatrix) r rrow coef :
  shape t = shape m0 -> (0 <= r < rrow)%Z -> (rrow < n)%Z ->
  exists t',
    update_upper_row t (it_begin rrow)
      (it_shift (it_shift (it_begin r) (rrow - r - 1)) 1) coef = Some t'
    /\ shape t' = shape m0
    /\ sk_lower t' = sk_lower t /\ sk_diag t' = sk_diag t
    /\ forall i j,
         coeffUpper t' i j
         = if ((i =? rrow) && (rrow <? j) && (j <? n))%Z
           then coeffUpper t i j - coeffUpper t r j * coef
           else coeffUpper t i j.
Proof.
  intros Ht Hr Hrrow. unfold update_upper_row.
  match goal with
  | |- context [while_loop ?cnt ?cond ?body ?s] =>
      destruct (while_loop_inv
                  (fun st : SkylineMatrix * Iter * Iter =>
                     exists q,
                       (0 <= q <= n - rrow - 1)%Z
                       /\ snd (fst st) = {| it_outer := rrow; it_pos := q |}
                       /\ snd st
                          = {| it_outer := r;
                               it_pos := (rrow - r + q)%Z |}
                       /\ shape (fst (fst st)) = shape m0
                       /\ sk_lower (fst (fst st)) = sk_lower t
                       /\ sk_diag (fst (fst st)) = sk_diag t
                       /\ forall i j,
                            coeffUpper (fst (fst st)) i j
                            = if ((i =? rrow) && (rrow <? j)
                                  && (j <? rrow + 1 + q))%Z
                              then coeffUpper t i j - coeffUpper t r j * coef
                              else coeffUpper t i j)
                  (fun st : SkylineMatrix * Iter * Iter =>
                     Z.to_nat (n - rrow - 1 - it_pos (snd (fst st))))
                  cond body cnt s)
        as ([[t' a] b] & -> & (q & Hq & Ea & Eb & Ht' & HL & HD & HU)
            & Hexit)
  end.
  - exists 0%Z. cbn [fst snd]. split; [lia|].
    split; [reflexivity|].
    split; [unfold it_shift, it_begin; cbn; f_equal; lia|].
    split; [exact Ht|]. do 2 (split; [reflexivity|]). intros i j.
    split_cases.
  - cbn [fst snd it_begin it_pos].
    change (it_begin rrow) with {| it_outer := rrow; it_pos := 0 |}.
    rewrite (u_upper_size t Ht rrow 0) by lia. lia.
  - intros [[u a] b] (q & Hq & Ea & Eb & Hu & HL & HD & HU) Hcond.
    cbn [fst snd] in Ea, Eb, Hu, HL, HD, HU. subst a b.
    apply andb_true_iff in Hcond. destruct Hcond as [Hva _].
    unfold it_valid in Hva. cbn [it_pos] in Hva.
    rewrite (u_upper_size u Hu rrow q) in Hva by lia.
    apply andb_true_iff in Hva. destruct Hva as [_ Hva].
    apply Z.ltb_lt in Hva.
    rewrite (upper_read u Hu r (rrow - r + q)) by lia. cbn [bind].
    rewrite (upper_read u Hu rrow q) by lia. cbn [bind].
    match goal with
    | |- context [it_set (sk_upper u) _ ?v] =>
        destruct (upper_write u Hu rrow q v) as (l & -> & Hs & Hw);
          try lia
    end.
    cbn [bind]. eexists. split; [reflexivity|]. cbn [fst snd].
    split.
    + exists (q + 1)%Z. split; [lia|].
      split; [unfold it_shift; cbn; f_equal; lia|].
      split; [unfold it_shift; cbn; f_equal; lia|].
      split; [exact Hs|]. do 2 (split; [assumption|]).
      intros i j. rewrite Hw, !HU.
      cbn [ssub smul factor_reals RScalar].
      replace (r + (rrow - r + q) + 1)%Z with (rrow + q + 1)%Z by lia.
      split_cases; subst; try lia; reflexivity.
    + unfold it_shift. cbn [it_pos]. lia.
  - cbn [fst snd] in Ea, Eb, Ht', HL, HD, HU. subst a b. cbn [bind].
    exists t'. split; [reflexivity|]. split; [exact Ht'|].
    do 2 (split; [assumption|]).
    assert (q = n - rrow - 1)%Z.
    { apply andb_false_iff in Hexit. unfold it_valid in Hexit.
      cbn [it_pos] in Hexit.
      rewrite (u_upper_size t' Ht' rrow q) in Hexit by lia.
      rewrite (u_upper_size t' Ht' r (rrow - r + q)) in Hexit by lia.
      destruct Hexit as [E|E]; apply andb_false_iff in E;
        destruct E as [E|E];
        first [apply Z.leb_gt in E | apply Z.ltb_ge in E]; lia. }
    subst q. intros i j. rewrite HU. split_cases.
Qed.

Lemma same_lower (u v : SkylineMatrix) i j :
  shape u = shape m0 -> shape v = shape m0 -> sk_lower u = sk_lower v ->
  coeffLower u i j = coeffLower v i j.
Proof.
  intros Hu Hv E. apply coeffLower_same; [exact E|].
  now rewrite (u_column_major u Hu), (u_column_major v Hv).
Qed.

Lemma same_upper (u v : SkylineMatrix) i j :
  shape u = shape m0 -> shape v = shape m0 -> sk_upper u = sk_upper v ->
  coeffUpper u i j = coeffUpper v i j.
Proof.
  intros Hu Hv E. apply coeffUpper_same; [exact E|].
  now rewrite (u_column_major u Hu), (u_column_major v Hv).
Qed.

(** One turn of the loop over the pivots: the elimination of the column
    [r] below the diagonal. *)
Lemma compute_row_exact r (t : SkylineMatrix) :
  shape t = shape m0 -> (0 <= r < n)%Z ->
  exists t',
    compute_row r t = Some t'
    /\ shape t' = shape m0
    /\ (forall i j,
          coeffLower t' i j
          = if ((j =? r) && (r <? i) && (i <? n))%Z
            then coeffLower t i r / vec (sk_diag t) r
            else if ((r <? j) && (j <? i) && (i <? n))%Z
            then coeffLower t i j
                 - coeffUpper t r j
                   * (coeffLower t i r / vec (sk_diag t) r)
            else coeffLower t i j)
    /\ (forall i j,
          coeffUpper t' i j
          = if ((r <? i) && (i <? j) && (j <? n))%Z
            then coeffUpper t i j
                 - coeffUpper t r j
                   * (coeffLower t i r / vec (sk_diag t) r)
            else coeffUpper t i j)
    /\ (forall i, (0 <= i)%Z ->
          vec (sk_diag t') i
          = if ((r <? i) && (i <? n))%Z
            then vec (sk_diag t) i
                 - coeffUpper t r i
                   * (coeffLower t i r / vec (sk_diag t) r)
            else vec (sk_diag t) i).
Proof.
  intros Ht Hr. unfold compute_row. cbv zeta.
  pose proof (u_rows t Ht) as Hrows. unfold sk_rows in Hrows.
  pose proof Hr as Hr'. unfold sk_rows in Hr'.
  unfold coeffDiag at 1. rewrite (get_vec (sk_diag t) r) by lia.
  cbn [bind]. set (pivot := vec (sk_diag t) r).
  destruct (scale_column_exact t r pivot Ht Hr)
    as (ta & -> & Hta & Ua & Da & La).
  cbn [bind]. rewrite (u_rows ta Hta).
  (* the rows of U *)
  match goal with
  | |- context [for_loop ?lo ?hi ?body (ta, it_begin r)] =>
      destruct (for_loop_inv
                  (fun rrow (st : SkylineMatrix * Iter) =>
                     snd st = {| it_outer := r;
                                 it_pos := (rrow - r - 1)%Z |}
                     /\ shape (fst st) = shape m0
                     /\ sk_lower (fst st) = sk_lower ta
                     /\ sk_diag (fst st) = sk_diag ta
                     /\ forall i j,
                          coeffUpper (fst st) i j
                          = if ((r <? i) && (i <? rrow) && (i <? j)
                                && (j <? n))%Z
                            then coeffUpper ta i j
                                 - coeffUpper ta r j * coeffLower ta i r
                            else coeffUpper ta i j)
                  lo hi body (ta, it_begin r))
        as ([tb ib] & -> & _ & Htb & Lb & Db & Ub)
  end.
  - lia.
  - cbn [fst snd]. split; [unfold it_begin; f_equal; lia|].
    split; [exact Hta|]. do 2 (split; [reflexivity|]). intros i j.
    split_cases.
  - intros rrow [u lIt] Hrrow (HlIt & Hu & HuL & HuD & HuU).
    cbn [fst snd] in HlIt, Hu, HuL, HuD, HuU. subst lIt. cbv beta iota.
    rewrite (lower_read u Hu r (rrow - r - 1)) by lia.
    replace (r + (rrow - r - 1) + 1)%Z with rrow by lia. cbn [bind].
    destruct (update_upper_row_exact u r rrow (coeffLower u rrow r) Hu)
      as (u' & -> & Hu' & L' & D' & U'); try lia.
    cbn [bind]. eexists. split; [reflexivity|]. cbn [fst snd].
    split; [unfold it_shift; cbn; f_equal; lia|].
    split; [exact Hu'|]. split; [congruence|]. split; [congruence|].
    intros i j. rewrite U', !HuU.
    rewrite (same_lower u ta rrow r Hu Hta HuL).
    split_cases; subst; try lia; reflexivity.
  - cbn [bind fst snd] in *. rewrite (u_rows tb Htb).
    (* the rows of L *)
    match goal with
    | |- context [for_loop ?lo ?hi ?body (tb, it_begin r)] =>
        destruct (for_loop_inv
                    (fun rrow (st : SkylineMatrix * Iter) =>
                       snd st = {| it_outer := r;
                                   it_pos := (rrow - r - 1)%Z |}
                       /\ shape (fst st) = shape m0
                       /\ sk_upper (fst st) = sk_upper tb
                       /\ sk_diag (fst st) = sk_diag tb
                       /\ forall i j,
                            coeffLower (fst st) i j
                            = if ((r <? j) && (j <? i) && (i <? rrow))%Z
                              then coeffLower tb i j
                                   - coeffUpper tb r j * coeffLower tb i r
                              else coeffLower tb i j)
                    lo hi body (tb, it_begin r))
          as ([tc ic] & -> & _ & Htc & Uc & Dc & Lc)
    end.
    + lia.
    + cbn [fst snd]. split; [unfold it_begin; f_equal; lia|].
      split; [exact Htb|]. do 2 (split; [reflexivity|]). intros i j.
      split_cases.
    + intros rrow [u lIt] Hrrow (HlIt & Hu & HuU & HuD & HuL).
      cbn [fst snd] in HlIt, Hu, HuU, HuD, HuL. subst lIt. cbv beta iota.
      rewrite (lower_read u Hu r (rrow - r - 1)) by lia.
      replace (r + (rrow - r - 1) + 1)%Z with rrow by lia. cbn [bind].
      set (coef := coeffLower u rrow r).
      match goal with
      | |- context [for_loop 0 ?hi ?body (u, it_begin r)] =>
          destruct (for_loop_inv
                      (fun k (st : SkylineMatrix * Iter) =>
                         snd st = {| it_outer := r; it_pos := k |}
                         /\ shape (fst st) = shape m0
                         /\ sk_upper (fst st) = sk_upper tb
                         /\ sk_diag (fst st) = sk_diag tb
                         /\ forall i j,
                              coeffLower (fst st) i j
                              = if ((i =? rrow) && (r <? j)
                                    && (j <? r + 1 + k))%Z
                                then coeffLower u i j
                                     - coeffUpper tb r j * coef
                                else coeffLower u i j)
                      0 hi body (u, it_begin r))
            as ([u' iu] & -> & _ & Hu' & U' & D' & L')
      end.
      * lia.
      * cbn [fst snd]. split; [reflexivity|]. split; [exact Hu|].
        do 2 (split; [assumption|]). intros i j. split_cases.
      * intros k [w it] Hk (Hit & Hw & HwU & HwD & HwL).
        cbn [fst snd] in Hit, Hw, HwU, HwD, HwL. subst it. cbv beta iota.
        rewrite (upper_read w Hw r k) by lia. cbn [bind].
        unfold setLower, lower_at. rewrite (u_column_major w Hw).
        rewrite (lower_read w Hw (r + k + 1) (rrow - (r + k + 1) - 1))
          by lia.
        replace (r + k + 1 + (rrow - (r + k + 1) - 1) + 1)%Z with rrow
          by lia.
        cbn [bind].
        match goal with
        | |- context [it_set (sk_lower w) _ ?v] =>
            destruct (lower_write w Hw (r + k + 1)
                        (rrow - (r + k + 1) - 1) v)
              as (l & -> & Hs & Hwr); try lia
        end.
        cbn [bind]. eexists. split; [reflexivity|]. cbn [fst snd].
        split; [unfold it_shift; cbn; f_equal; lia|].
        split; [exact Hs|]. do 2 (split; [assumption|]).
        intros i j. rewrite Hwr, !HwL.
        rewrite (same_upper w tb r (r + k + 1) Hw Htb HwU).
        cbn [ssub smul factor_reals RScalar].
        replace (r + k + 1 + (rrow - (r + k + 1) - 1) + 1)%Z with rrow
          by lia.
        split_cases; subst; try lia; reflexivity.
      * cbn [bind fst snd] in *. eexists. split; [reflexivity|].
        cbn [fst snd]. split; [unfold it_shift; cbn; f_equal; lia|].
        split; [exact Hu'|]. do 2 (split; [assumption|]).
        intros i j. rewrite L', !HuL. unfold coef. rewrite HuL.
        split_cases; subst; try lia; reflexivity.
    + cbn [bind fst snd] in *. rewrite (u_rows tc Htc).
      (* the diagonal *)
      match goal with
      | |- context [for_loop ?lo ?hi ?body (tc, it_begin r)] =>
          destruct (for_loop_inv
                      (fun rrow (st : SkylineMatrix * Iter) =>
                         snd st = {| it_outer := r;
                                     it_pos := (rrow - r - 1)%Z |}
                         /\ shape (fst st) = shape m0
                         /\ sk_lower (fst st) = sk_lower tc
                         /\ sk_upper (fst st) = sk_upper tc
                         /\ forall i, (0 <= i)%Z ->
                              vec (sk_diag (fst st)) i
                              = if ((r <? i) && (i <? rrow))%Z
                                then vec (sk_diag tc) i
                                     - coeffUpper tc r i * coeffLower tc i r
                                else vec (sk_diag tc) i)
                      lo hi body (tc, it_begin r))
            as ([td id] & -> & _ & Htd & Ld & Ud & Dd)
      end.
      * lia.
      * cbn [fst snd]. split; [unfold it_begin; f_equal; lia|].
        split; [exact Htc|]. do 2 (split; [reflexivity|]). intros i Hi.
        split_cases.
      * intros rrow [u lIt] Hrrow (HlIt & Hu & HuL & HuU & HuD).
        cbn [fst snd] in HlIt, Hu, HuL, HuU, HuD. subst lIt.
        cbv beta iota.
        rewrite (lower_read u Hu r (rrow - r - 1)) by lia.
        replace (r + (rrow - r - 1) + 1)%Z with rrow by lia. cbn [bind].
        unfold it_shift, it_begin. cbn [it_outer it_pos].
        rewrite Z.add_0_l.
        rewrite (upper_read u Hu r (rrow - r - 1)) by lia.
        replace (r + (rrow - r - 1) + 1)%Z with rrow by lia. cbn [bind].
        pose proof (u_rows u Hu) as Hurows. unfold sk_rows in Hurows.
        pose proof Hrrow as Hrrow'. unfold sk_rows in Hrrow'.
        unfold coeffDiag. rewrite (get_vec (sk_diag u) rrow) by lia.
        cbn [bind].
        match goal with
        | |- context [setDiag u rrow ?v] =>
            destruct (setDiag_total m0 u Hu rrow v ltac:(lia))
              as (u' & Eset & Hu')
        end.
        rewrite Eset. cbn [bind]. eexists. split; [reflexivity|].
        cbn [fst snd].
        destruct (setDiag_others _ _ _ _ Eset) as (EL & EU & ER & ED).
        split; [f_equal; lia|]. split; [exact Hu'|].
        split; [congruence|]. split; [congruence|].
        intros i Hi. rewrite (vec_set _ _ _ _ i ED Hi).
        rewrite !HuD by lia.
        rewrite (same_lower u tc rrow r Hu Htc HuL).
        rewrite (same_upper u tc r rrow Hu Htc HuU).
        cbn [ssub smul factor_reals RScalar].
        split_cases; subst; try lia; reflexivity.
      * cbn [bind fst snd] in *. exists td. split; [reflexivity|].
        split; [exact Htd|].
        assert (HLb : forall i j, coeffLower tb i j = coeffLower ta i j)
          by (intros; now apply same_lower).
        assert (HUb : forall j, coeffUpper tb r j = coeffUpper t r j).
        { intros j. rewrite Ub.
          rewrite (same_upper ta t r j Hta Ht Ua). split_cases. }
        assert (HLc : forall i, coeffLower tc i r = coeffLower ta i r).
        { intros i. rewrite Lc, HLb. split_cases. }
        assert (HUc : forall i j, coeffUpper tc i j = coeffUpper tb i j)
          by (intros; now apply same_upper).
        split; [|split].
        -- intros i j. rewrite (same_lower td tc i j Htd Htc Ld).
           rewrite Lc, !HLb, HUb, !La. fold pivot.
           split_cases; subst; try lia; reflexivity.
        -- intros i j. rewrite (same_upper td tc i j Htd Htc Ud).
           rewrite HUc, Ub, La.
           rewrite !(fun i j => same_upper ta t i j Hta Ht Ua).
           fold pivot. split_cases; subst; try lia; reflexivity.
        -- intros i Hi. rewrite (Dd i Hi), HLc, HUc, HUb, La.
           rewrite Dc, Db, Da. fold pivot.
           split_cases; subst; try lia; reflexivity.
Qed.

Local Abbreviation E t := (entry eps prec t).

(** The same turn, on the dense matrix the storage stands for. *)
Lemma compute_row_dense r (t : SkylineMatrix) :
  shape t = shape m0 -> (0 <= r < n)%Z ->
  exists t',
    compute_row r t = Some t'
    /\ shape t' = shape m0
    /\ forall i j, (0 <= i < n)%Z -> (0 <= j < n)%Z ->
         E t' i j
         = if ((r <? i) && (j =? r))%Z then E t i r / E t r r
           else if ((r <? i) && (r <? j))%Z
           then E t i j - E t r j * (E t i r / E t r r)
           else E t i j.
Proof.
  intros Ht Hr.
  destruct (compute_row_exact r t Ht Hr) as (t' & Ec & Ht' & HL & HU & HD).
  exists t'. split; [exact Ec|]. split; [exact Ht'|].
  intros i j Hi Hj. unfold entry. rewrite HL, HU, HD by lia.
  split_cases; subst; try lia; try reflexivity;
    replace j with i by lia; reflexivity.
Qed.

(** The loop over the pivots: every entry of L and U is what the
    elimination without pivoting defines from the matrix. *)
Lemma compute_rows_exact :
  exists t,
    for_loop 0 n compute_row m0 = Some t
    /\ shape t = shape m0
    /\ (forall i j, (0 <= j < i)%Z -> (i < n)%Z ->
          E t i j
          = (E m0 i j - sumZ 0 j (fun k => E t i k * E t k j)) / E t j j)
    /\ (forall i j, (0 <= i <= j)%Z -> (j < n)%Z ->
          E t i j = E m0 i j - sumZ 0 i (fun k => E t i k * E t k j)).
Proof.
  destruct (for_loop_inv
              (fun r t =>
                 shape t = shape m0
                 /\ (forall i j, (r <= i < n)%Z -> (r <= j < n)%Z ->
                       E t i j
                       = E m0 i j - sumZ 0 r (fun k => E t i k * E t k j))
                 /\ (forall i j, (0 <= j < i)%Z -> (i < n)%Z -> (j < r)%Z ->
                       E t i j
                       = (E m0 i j - sumZ 0 j (fun k => E t i k * E t k j))
                         / E t j j)
                 /\ (forall i j, (0 <= i <= j)%Z -> (j < n)%Z -> (i < r)%Z ->
                       E t i j
                       = E m0 i j - sumZ 0 i (fun k => E t i k * E t k j)))
              0 n compute_row m0)
    as (t & Ec & Ht & _ & HL & HU).
  - unfold sk_rows. lia.
  - split; [reflexivity|]. split; [|split]; intros; try lia.
    rewrite sumZ_empty by lia. lra.
  - intros r t Hr (Ht & HT & HL & HU).
    destruct (compute_row_dense r t Ht Hr) as (t' & Ec & Ht' & Hstep).
    exists t'. split; [exact Ec|]. split; [exact Ht'|].
    assert (Hcol : forall i k, (0 <= i < n)%Z -> (0 <= k < r)%Z ->
                     E t' i k = E t i k).
    { intros i k Hi Hk. rewrite Hstep by lia. split_cases. }
    assert (Hrow : forall k j, (0 <= k <= r)%Z -> (0 <= j < n)%Z ->
                     E t' k j = E t k j).
    { intros k j Hk Hj. rewrite Hstep by lia. split_cases. }
    split; [|split].
    + intros i j Hi Hj. rewrite Hstep by lia.
      destruct (Z.ltb_spec r i); [|lia]. destruct (Z.eqb_spec j r); [lia|].
      destruct (Z.ltb_spec r j); [|lia]. cbn [andb].
      rewrite (sumZ_last 0 (r + 1)) by lia.
      replace (r + 1 - 1)%Z with r by lia.
      rewrite (Hstep i r) by lia. rewrite (Hrow r j) by lia.
      destruct (Z.ltb_spec r i); [|lia]. rewrite Z.eqb_refl. cbn [andb].
      rewrite (sumZ_ext 0 r (fun k => E t' i k * E t' k j)
                 (fun k => E t i k * E t k j)).
      * rewrite (HT i j) by lia. lra.
      * intros k Hk. now rewrite Hcol, Hrow by lia.
    + intros i j Hj Hi Hjr. destruct (Z.eq_dec j r) as [->|Hne].
      * rewrite Hstep by lia.
        destruct (Z.ltb_spec r i); [|lia]. rewrite Z.eqb_refl. cbn [andb].
        rewrite (Hrow r r) by lia.
        rewrite (sumZ_ext 0 r (fun k => E t' i k * E t' k r)
                   (fun k => E t i k * E t k r))
          by (intros k Hk; now rewrite Hcol, Hrow by lia).
        now rewrite (HT i r) by lia.
      * rewrite (Hcol i j) by lia. rewrite (Hrow j j) by lia.
        rewrite (sumZ_ext 0 j (fun k => E t' i k * E t' k j)
                   (fun k => E t i k * E t k j))
          by (intros k Hk; now rewrite Hcol, Hrow by lia).
        apply HL; lia.
    + intros i j Hi Hj Hir. rewrite (Hrow i j) by lia.
      rewrite (sumZ_ext 0 i (fun k => E t' i k * E t' k j)
                 (fun k => E t i k * E t k j))
        by (intros k Hk; now rewrite Hcol, Hrow by lia).
      destruct (Z.eq_dec i r) as [->|Hne].
      * apply HT; lia.
      * apply HU; lia.
  - exists t. split; [exact Ec|]. split; [exact Ht|]. split.
    + intros i j Hj Hi. apply HL; lia.
    + intros i j Hi Hj. apply HU; lia.
Qed.

(** [compute] returns on full profiles, with factors whose product is the
    matrix. *)
Lemma compute_exact (lu : SkylineInplaceLU) :
  m_lu lu = m0 ->
  exists lu',
    compute lu = Some lu'
    /\ shape (m_lu lu') = shape m0
    /\ ((forall j, (0 <= j < n)%Z -> vec (sk_diag (m_lu lu')) j <> 0) ->
        forall i j, (0 <= i < n)%Z -> (0 <= j < n)%Z ->
          product eps prec (m_lu lu') i j = E m0 i j).
Proof.
  intros Hlu. unfold compute. rewrite Hlu, m0_column_major.
  destruct compute_rows_exact as (t & -> & Ht & HL & HU).
  cbn [bind]. eexists. split; [reflexivity|]. cbn [m_lu with_lu].
  split; [exact Ht|]. intros Hpivot i j Hi Hj.
  pose proof (u_rows t Ht) as Hrows.
  assert (Hprod : forall b, (b <= i)%Z -> (b <= j)%Z ->
            products eps prec t i j b
            = sumZ 0 b (fun k => E t i k * E t k j)).
  { intros b Hbi Hbj. apply sumZ_ext. intros k Hk. unfold entry.
    split_cases. }
  destruct (Z.lt_trichotomy j i) as [Hji|[->|Hij]].
  - rewrite product_lower by lia. rewrite Hprod by lia.
    pose proof (HL i j ltac:(lia) ltac:(lia)) as EL.
    assert (Ejj : E t j j = vec (sk_diag t) j).
    { unfold entry. now rewrite Z.ltb_irrefl. }
    assert (Eij : E t i j = coeffLower t i j).
    { unfold entry. destruct (Z.ltb_spec j i); [reflexivity|lia]. }
    rewrite <- Eij, <- Ejj, EL. field. rewrite Ejj. apply Hpivot. lia.
  - rewrite product_diag by lia. rewrite Hprod by lia.
    pose proof (HU i i ltac:(lia) ltac:(lia)) as EU.
    assert (Eii : E t i i = vec (sk_diag t) i).
    { unfold entry. now rewrite Z.ltb_irrefl. }
    rewrite <- Eii, EU. lra.
  - rewrite product_upper by lia. rewrite Hprod by lia.
    pose proof (HU i j ltac:(lia) ltac:(lia)) as EU.
    assert (Eij : E t i j = coeffUpper t i j).
    { unfold entry. destruct (Z.ltb_spec j i); [lia|].
      destruct (Z.ltb_spec i j); [reflexivity|lia]. }
    rewrite <- Eij, EU. lra.
Qed.
End Exact.

Section Entries.
Variables eps prec : R.
Local Open Scope R_scope.

(** X27. On column-major storage with full profiles (column [o] holds the
    rows below [o], row [o] the columns right of [o]) and in exact
    arithmetic [compute] is right: it returns, the matrix keeps its
    profiles, and when no zero is left on the diagonal the product of the
    stored factors, L with a unit diagonal times U, is the matrix it was
    given, entry by entry. *)
Theorem compute_factors_the_matrix (lu : @SkylineInplaceLU R) :
  IsRowMajor (m_lu lu) = false ->
  (forall o, (0 <= o < sk_rows (m_lu lu))%Z ->
     it_size (sk_lower (m_lu lu)) (it_begin o)
     = (sk_rows (m_lu lu) - o - 1)%Z
     /\ it_size (sk_upper (m_lu lu)) (it_begin o)
        = (sk_rows (m_lu lu) - o - 1)%Z) ->
  exists lu',
    compute (H := factor_reals eps prec) lu = Some lu'
    /\ shape (m_lu lu') = shape (m_lu lu)
    /\ ((forall j, (0 <= j < sk_rows (m_lu lu))%Z ->
           vec (sk_diag (m_lu lu')) j <> 0) ->
        forall i j,
          (0 <= i < sk_rows (m_lu lu))%Z ->
          (0 <= j < sk_rows (m_lu lu))%Z ->
          product eps prec (m_lu lu') i j = entry eps prec (m_lu lu) i j).
Proof.
  intros Hcm Hfull.
  exact (compute_exact eps prec (m_lu lu) Hcm Hfull lu eq_refl).
Qed.
End Entries.
End SkylineCompute.

Module SkylineComputeExamples.
Import Skyline SkylineFacts SkylineExamples SkylineMore SkylineFactor
  SkylineCompute.
Local Open Scope R_scope.

Definition B2_object : @SkylineInplaceLU R :=
  {| m_precision := 0; m_flags := 0; m_status := 0;
     m_succeeded := None; m_lu := B2 |}.

Lemma B2_full o :
  (0 <= o < sk_rows B2)%Z ->
  it_size (sk_lower B2) (it_begin o) = (sk_rows B2 - o - 1)%Z
  /\ it_size (sk_upper B2) (it_begin o) = (sk_rows B2 - o - 1)%Z.
Proof.
  intros Ho. cbn in Ho. assert (o = 0 \/ o = 1)%Z as [->| ->] by lia;
    split; reflexivity.
Qed.

(** What [compute] leaves of [B2]: L = [[1 0] [1/2 1]] and
    U = [[2 1] [0 3/2]]. *)
Definition B2_factors : @SkylineMatrix R :=
  {| IsRowMajor := false;
     sk_diag := [2; 3 / 2];
     sk_lower := [[1 / 2]; []];
     sk_upper := [[1]; []] |}.

Lemma B2_factored :
  compute (H := RDouble) B2_object
  = Some {| m_precision := 0; m_flags := 0; m_status := 0;
            m_succeeded := None; m_lu := B2_factors |}.
Proof. run_exact. same_reals. Qed.

Lemma B2_pivots j :
  (0 <= j < sk_rows B2)%Z -> vec (sk_diag B2_factors) j <> 0.
Proof.
  intros Hj. cbn in Hj. assert (j = 0 \/ j = 1)%Z as [->| ->] by lia;
    keep_reals; intros E; lra.
Qed.

Lemma compute_factors_the_matrix_witness :
  shape B2_factors = shape B2
  /\ forall i j, (0 <= i < 2)%Z -> (0 <= j < 2)%Z ->
       product eps_double prec_double B2_factors i j
       = entry eps_double prec_double B2 i j.
Proof.
  split; [reflexivity|].
  destruct (compute_factors_the_matrix eps_double prec_double B2_object
              eq_refl B2_full) as (lu' & E & _ & Hproduct).
  assert (E' : Some lu'
               = Some {| m_precision := 0; m_flags := 0; m_status := 0;
                         m_succeeded := None; m_lu := B2_factors |})
    by (rewrite <- E; exact B2_factored).
  injection E' as ->. exact (Hproduct B2_pivots).
Defined.
End SkylineComputeExamples.
